(** * JTAG transport stack of the svfloader: a shallow embedding

    The development follows the JavaScript sources:
    - [JTAGStateMachine] (jtag-state-machine.js; its two revisions differ in
      console output and in the large-transfer threshold of [shiftData],
      which is a parameter here),
    - [SVFParser] (svf-parser.js; its two revisions differ in console output
      only),
    - [USBBlasterII] (usb-blaster.js), the legacy bit-bang adapter,
    - [DigilentFTDI] and [XilinxJTAG] (xilinx-jtag.js), the MPSSE adapter
      and the 7-series programmer.
    Console output, progress reports and delays are not modelled.

    JavaScript numbers that the code only uses as integers are [Z];
    [Uint8Array]s and plain arrays of numbers are [list Z]; an [undefined]
    array element is [None] and reads as 0 under the bit operators. *)

From Stdlib Require Import ZArith List String Ascii Bool Lia Arith.
Import ListNotations.

Local Open Scope Z_scope.

(* ================================================================== *)
(** * JavaScript helpers *)
(* ================================================================== *)

Module JS.

(** [arr[i]]: [undefined] outside the array (also for a negative index). *)
Definition get {A} (arr : list A) (i : Z) : option A :=
  if i <? 0 then None else nth_error arr (Z.to_nat i).

(** ToInt32 of an array element: [undefined] becomes 0 under [>>], [&], [|]. *)
Definition int (v : option Z) : Z :=
  match v with Some x => x | None => 0 end.

(** Truthiness of an array element that is a number or [undefined]. *)
Definition truthy (v : option Z) : bool :=
  match v with Some x => negb (x =? 0) | None => false end.

(** [Math.ceil(n / 8)] on an integer [n] (also right for negative [n]). *)
Definition ceil8 (n : Z) : Z := (n + 7) / 8.

(** [Math.floor(n / 8)]. *)
Definition floor8 (n : Z) : Z := n / 8.

(** [new Array(n).fill(v)] and [new Uint8Array(n)] for [0 <= n]. *)
Definition fill {A} (n : Z) (v : A) : list A := repeat v (Z.to_nat n).

(** [arr[i] = v] on an array that is long enough; a typed array ignores a
    write outside its bounds. *)
Fixpoint set {A} (arr : list A) (i : nat) (v : A) : list A :=
  match arr, i with
  | [], _ => []
  | _ :: t, O => v :: t
  | h :: t, S j => h :: set t j v
  end.

(** The integers [0, 1, ..., n-1], the index range of a [for] loop. *)
Definition range (n : Z) : list Z := map Z.of_nat (seq 0 (Z.to_nat n)).

(** Storing a number into a [Uint8Array] keeps it modulo 256. *)
Definition u8 (v : Z) : Z := v mod 256.

(** [a % b] (the sign of the dividend) and [x >> n] (the count taken modulo
    32) on small integers. *)
Definition rem (a b : Z) : Z := Z.rem a b.
Definition shr (x n : Z) : Z := Z.shiftr x (Z.land n 31).

(** The result of [|] and [<<]: a signed 32-bit integer. *)
Definition int32 (v : Z) : Z := (v + 2147483648) mod 4294967296 - 2147483648.

End JS.

(** A method either returns or throws. *)
Inductive outcome (A : Type) : Type :=
| Ok (a : A)
| Throw (error : string).
Arguments Ok {A} a.
Arguments Throw {A} error.

Definition bind {A B} (x : outcome A) (f : A -> outcome B) : outcome B :=
  match x with
  | Ok a => f a
  | Throw e => Throw e
  end.

Notation "x <- c1 ;; c2" := (bind c1 (fun x => c2))
  (at level 61, c1 at next level, right associativity).

(* ================================================================== *)
(** * The TAP engine: [JTAGStateMachine] *)
(* ================================================================== *)

Module TAP.

(** The states are the JavaScript strings the code uses as keys. *)
Definition RESET : string := "RESET".
Definition IDLE : string := "IDLE".
Definition DRSELECT : string := "DRSELECT".
Definition DRCAPTURE : string := "DRCAPTURE".
Definition DRSHIFT : string := "DRSHIFT".
Definition DREXIT1 : string := "DREXIT1".
Definition DRPAUSE : string := "DRPAUSE".
Definition DREXIT2 : string := "DREXIT2".
Definition DRUPDATE : string := "DRUPDATE".
Definition IRSELECT : string := "IRSELECT".
Definition IRCAPTURE : string := "IRCAPTURE".
Definition IRSHIFT : string := "IRSHIFT".
Definition IREXIT1 : string := "IREXIT1".
Definition IRPAUSE : string := "IRPAUSE".
Definition IREXIT2 : string := "IREXIT2".
Definition IRUPDATE : string := "IRUPDATE".

(** [this.stateTransitions]: for each state the successor under TMS=0 and
    under TMS=1, in the order of the object literal. *)
Definition stateTransitions : list (string * (string * string)) :=
  [ (RESET,     (IDLE,      RESET));
    (IDLE,      (IDLE,      DRSELECT));
    (DRSELECT,  (DRCAPTURE, IRSELECT));
    (DRCAPTURE, (DRSHIFT,   DREXIT1));
    (DRSHIFT,   (DRSHIFT,   DREXIT1));
    (DREXIT1,   (DRPAUSE,   DRUPDATE));
    (DRPAUSE,   (DRPAUSE,   DREXIT2));
    (DREXIT2,   (DRSHIFT,   DRUPDATE));
    (DRUPDATE,  (IDLE,      DRSELECT));
    (IRSELECT,  (IRCAPTURE, RESET));
    (IRCAPTURE, (IRSHIFT,   IREXIT1));
    (IRSHIFT,   (IRSHIFT,   IREXIT1));
    (IREXIT1,   (IRPAUSE,   IRUPDATE));
    (IRPAUSE,   (IRPAUSE,   IREXIT2));
    (IREXIT2,   (IRSHIFT,   IRUPDATE));
    (IRUPDATE,  (IDLE,      DRSELECT)) ].

(** The 16 TAP states: the keys of the table. *)
Definition states : list string := map fst stateTransitions.

Fixpoint lookup {A} (k : string) (tbl : list (string * A)) : option A :=
  match tbl with
  | [] => None
  | (k', v) :: rest => if String.eqb k k' then Some v else lookup k rest
  end.

(** [this.stateTransitions[state]?.[tms]]: [undefined] ([None]) for a key
    that is not a state and for a [tms] other than 0 and 1. *)
Definition transition (state : string) (tms : Z) : option string :=
  match lookup state stateTransitions with
  | None => None
  | Some (on0, on1) =>
      if tms =? 0 then Some on0 else if tms =? 1 then Some on1 else None
  end.

(** [visited.has(s)] on the [Set] of visited states. *)
Definition has (visited : list string) (s : string) : bool :=
  existsb (String.eqb s) visited.

(** The body of [for (const tms of [0, 1])] in [findStatePath]: either the
    function returns a path, or the loop ends with an updated queue and
    visited set. *)
Inductive for_result : Type :=
| Return (path : list Z)
| Next (queue : list (string * list Z)) (visited : list string).

Fixpoint for_tms (tmss : list Z) (state : string) (path : list Z) (to : string)
    (queue : list (string * list Z)) (visited : list string) : for_result :=
  match tmss with
  | [] => Next queue visited
  | tms :: rest =>
      match transition state tms with
      | None => for_tms rest state path to queue visited
      | Some nextState =>
          if has visited nextState then for_tms rest state path to queue visited
          else
            let nextPath := path ++ [tms] in
            if String.eqb nextState to then Return nextPath
            else for_tms rest state path to
                   (queue ++ [(nextState, nextPath)]) (nextState :: visited)
      end
  end.

(** [while (queue.length > 0)]: one unit of fuel per dequeued entry; the
    result is [None] only when the fuel runs out. *)
Fixpoint while_queue (fuel : nat) (to : string)
    (queue : list (string * list Z)) (visited : list string) : option (list Z) :=
  match queue with
  | [] => Some []
  | (state, path) :: queue' =>
      match fuel with
      | O => None
      | S fuel' =>
          match for_tms [0; 1] state path to queue' visited with
          | Return p => Some p
          | Next q v => while_queue fuel' to q v
          end
      end
  end.

Definition findStatePath_fuel (fuel : nat) (from to : string) : option (list Z) :=
  if String.eqb from to then Some []
  else while_queue fuel to [(from, [])] [from].

(** Every state enters the queue at most once, so 17 dequeues are enough
    (the start state and the 16 states of the table); see
    [findStatePath_fuel_enough]. *)
Definition findStatePath (from to : string) : list Z :=
  match findStatePath_fuel 17 from to with
  | Some p => p
  | None => []
  end.

(** [applyTMSSequence] on the tracked state: a [tms] without a successor
    leaves the state as it is. *)
Fixpoint applyTMSSequence (currentState : string) (tmsArray : list Z) : string :=
  match tmsArray with
  | [] => currentState
  | tms :: rest =>
      match transition currentState tms with
      | Some nextState => applyTMSSequence nextState rest
      | None => applyTMSSequence currentState rest
      end
  end.

(** ** Commands and the adapter interface *)

(** A parsed SVF command: the JavaScript object with the fields the parser
    sets.  A field that is [undefined] is [None]; [cmd.length] is also
    [None] when it is [NaN] (the code only tests it with [!], [||] and [>],
    which treat both alike).  The [frequency] of a FREQUENCY command is a
    float the executor never reads and is left out. *)
Record command : Type := {
  cmd_type : string;
  cmd_length : option Z;
  cmd_tdi : option (list Z);
  cmd_tdo : option (list Z);
  cmd_mask : option (list Z);
  cmd_smask : option (list Z);
  cmd_states : list string;
  cmd_state : option string;
  cmd_cycles : option Z;
  cmd_endState : option string;
  cmd_mode : option string;
  cmd_raw : option string
}.

(** The calls the engine makes on [this.usb] (a connected adapter). *)
Inductive usb_call : Type :=
| ShiftBits (tdiBits tmsBits : list Z) (bitLength : Z) (capture : bool)
| ShiftBytes (tdiBytes : list Z) (bitLength : Z)
| ToggleClockCycles (cycles : Z).

(** The fields of a [JTAGStateMachine]; [usb] is the log of the calls made
    on the adapter, oldest first. *)
Record machine : Type := {
  usb : list usb_call;
  currentState : string;
  endDRState : string;
  endIRState : string;
  hir : option command;
  tir : option command;
  hdr : option command;
  tdr : option command
}.

(** [new JTAGStateMachine(usbBlaster)]. *)
Definition constructor : machine :=
  {| usb := []; currentState := RESET; endDRState := IDLE; endIRState := IDLE;
     hir := None; tir := None; hdr := None; tdr := None |}.

Definition call (m : machine) (c : usb_call) : machine :=
  {| usb := usb m ++ [c]; currentState := currentState m;
     endDRState := endDRState m; endIRState := endIRState m;
     hir := hir m; tir := tir m; hdr := hdr m; tdr := tdr m |}.

Definition set_currentState (m : machine) (s : string) : machine :=
  {| usb := usb m; currentState := s;
     endDRState := endDRState m; endIRState := endIRState m;
     hir := hir m; tir := tir m; hdr := hdr m; tdr := tdr m |}.

Definition set_endDRState (m : machine) (s : string) : machine :=
  {| usb := usb m; currentState := currentState m;
     endDRState := s; endIRState := endIRState m;
     hir := hir m; tir := tir m; hdr := hdr m; tdr := tdr m |}.

Definition set_endIRState (m : machine) (s : string) : machine :=
  {| usb := usb m; currentState := currentState m;
     endDRState := endDRState m; endIRState := s;
     hir := hir m; tir := tir m; hdr := hdr m; tdr := tdr m |}.

(** [this[cmd.type.toLowerCase()] = cmd] for the four header and trailer
    commands. *)
Definition store_header_trailer (m : machine) (cmd : command) : machine :=
  let t := cmd_type cmd in
  {| usb := usb m; currentState := currentState m;
     endDRState := endDRState m; endIRState := endIRState m;
     hir := if String.eqb t "HIR" then Some cmd else hir m;
     tir := if String.eqb t "TIR" then Some cmd else tir m;
     hdr := if String.eqb t "HDR" then Some cmd else hdr m;
     tdr := if String.eqb t "TDR" then Some cmd else tdr m |}.

(** [applyTMSSequence] as the method that updates [this.currentState]. *)
Definition applyTMS (m : machine) (tmsArray : list Z) : machine :=
  set_currentState m (applyTMSSequence (currentState m) tmsArray).

Definition moveToState (m : machine) (targetState : string) : machine :=
  let path := findStatePath (currentState m) targetState in
  if Z.of_nat (List.length path) =? 0 then m
  else
    let tdiBits := JS.fill (Z.of_nat (List.length path)) 0 in
    applyTMS (call m (ShiftBits tdiBits path (Z.of_nat (List.length path)) false)) path.

Definition clockTMS (m : machine) (tms : Z) : machine :=
  applyTMS (call m (ShiftBits [0] [tms] 1 false)) [tms].

Definition reset (m : machine) : machine :=
  let resetClocks := 100 in
  let tmsBits := JS.fill resetClocks 1 in
  let tdiBits := JS.fill resetClocks 0 in
  let m := applyTMS (call m (ShiftBits tdiBits tmsBits resetClocks false)) tmsBits in
  let m := clockTMS m 0 in
  set_currentState m IDLE.

(** [bits.push((bytes[byteIdx] >> bitIdx) & 1)] for [i] from 0 to
    [length - 1]. *)
Definition bytesToBits (bytes : list Z) (length : Z) : list Z :=
  map (fun i =>
         let byteIdx := JS.floor8 i in
         let bitIdx := i mod 8 in
         Z.land (Z.shiftr (JS.int (JS.get bytes byteIdx)) bitIdx) 1)
      (JS.range length).

Section Engine.

(** The bit count above which [shiftData] takes the byte-shift path: 1000
    in one revision of the file and 64 in the other. *)
Variable threshold : Z.

(** [shiftData(tdi, length, capture)].  The value it returns (what the
    adapter returned) is dropped: both callers pass [capture = false] and
    ignore it.  [new Array(length)] throws a RangeError unless
    [0 <= length < 2^32]. *)
Definition shiftData (m : machine) (tdi : list Z) (length : option Z)
    (capture : bool) : outcome machine :=
  match length with
  | None => Ok m
  | Some length =>
      if length =? 0 then Ok m
      else if (length >? threshold) && negb capture then
        let m := call m (ShiftBytes tdi length) in
        Ok (set_currentState m
              (if String.eqb (currentState m) DRSHIFT then DREXIT1 else IREXIT1))
      else
        let tdiArray := bytesToBits tdi length in
        if (length <? 0) || (4294967295 <? length)
        then Throw "RangeError: Invalid array length"
        else
          let tmsArray := JS.set (JS.fill length 0) (Z.to_nat (length - 1)) 1 in
          let m := call m (ShiftBits tdiArray tmsArray length capture) in
          Ok (applyTMS m tmsArray)
  end.

Definition shiftIR (m : machine) (cmd : command) : outcome machine :=
  let m := moveToState m IRSHIFT in
  m <- match cmd_tdi cmd with
       | Some tdi => shiftData m tdi (cmd_length cmd) false
       | None => Ok m
       end ;;
  Ok (moveToState m (endIRState m)).

Definition shiftDR (m : machine) (cmd : command) : outcome machine :=
  let m := moveToState m DRSHIFT in
  m <- match cmd_tdi cmd with
       | Some tdi =>
           let shouldCapture := false in
           shiftData m tdi (cmd_length cmd) shouldCapture
       | None => Ok m
       end ;;
  Ok (moveToState m (endDRState m)).

(** [cmd?.cycles || 0], [cmd?.state || 'IDLE'], [cmd?.endState || runState]. *)
Definition runTest (m : machine) (cmd : command) : machine :=
  let cycles := match cmd_cycles cmd with Some c => c | None => 0 end in
  let runState :=
    match cmd_state cmd with
    | Some s => if String.eqb s "" then IDLE else s
    | None => IDLE
    end in
  let endState :=
    match cmd_endState cmd with
    | Some s => if String.eqb s "" then runState else s
    | None => runState
    end in
  let m := moveToState m runState in
  let m := if cycles >? 0 then call m (ToggleClockCycles cycles) else m in
  if String.eqb endState runState then m else moveToState m endState.

Definition endStateOrIdle (cmd : command) : string :=
  match cmd_state cmd with
  | Some s => if String.eqb s "" then IDLE else s
  | None => IDLE
  end.

(** [executeCommand(cmd)].  A STATE command without states asks for a path
    to [undefined]: [findStatePath] finds none and [moveToState] returns
    without a transfer.  TRST, FREQUENCY and unknown commands only log. *)
Definition executeCommand (m : machine) (cmd : command) : outcome machine :=
  let t := cmd_type cmd in
  if String.eqb t "STATE" then
    match List.last (map Some (cmd_states cmd)) None with
    | Some target => Ok (moveToState m target)
    | None => Ok m
    end
  else if String.eqb t "SIR" then shiftIR m cmd
  else if String.eqb t "SDR" then shiftDR m cmd
  else if String.eqb t "RUNTEST" then Ok (runTest m cmd)
  else if String.eqb t "FREQUENCY" then Ok m
  else if String.eqb t "TRST" then Ok m
  else if String.eqb t "ENDDR" then Ok (set_endDRState m (endStateOrIdle cmd))
  else if String.eqb t "ENDIR" then Ok (set_endIRState m (endStateOrIdle cmd))
  else if String.eqb t "HIR" || String.eqb t "TIR"
          || String.eqb t "HDR" || String.eqb t "TDR"
  then Ok (store_header_trailer m cmd)
  else Ok m.

(** Commands in file order; the first one that throws ends the run. *)
Fixpoint executeCommands (m : machine) (cmds : list command) : outcome machine :=
  match cmds with
  | [] => Ok m
  | cmd :: rest => m <- executeCommand m cmd ;; executeCommands m rest
  end.

End Engine.

(** The thresholds of the two revisions. *)
Definition threshold1000 : Z := 1000.
Definition threshold64 : Z := 64.

(** ** [verifyData] *)

(** [new Uint8Array(x)] of an array of numbers, and the array itself when
    it is a [Uint8Array] already (its elements are bytes: [JS.u8] keeps
    them). *)
Definition toUint8Array (x : list Z) : list Z := map JS.u8 x.

(** The error [verifyData] throws, with the values its message prints. *)
Record mismatch : Type := {
  byte_index : Z;
  got : Z;
  expected_byte : Z;
  mask_byte : Z
}.

(** One round of [for (let i = 0; i < numBytes; i++)]. *)
Definition verifyByte (tdoBytes : list Z) (expectedBytes maskBytes : option (list Z))
    (i : Z) : option mismatch :=
  let maskByte :=
    match maskBytes with
    | Some mb => match JS.get mb i with Some v => v | None => 0 end
    | None => 255
    end in
  if maskByte =? 0 then None
  else
    let tdoByte := JS.int (JS.get tdoBytes i) in
    let expectedByte :=
      match expectedBytes with
      | Some eb => JS.int (JS.get eb i)
      | None => 0
      end in
    if negb (Z.land tdoByte maskByte =? Z.land expectedByte maskByte)
    then Some {| byte_index := i; got := tdoByte;
                 expected_byte := expectedByte; mask_byte := maskByte |}
    else None.

Fixpoint verifyLoop (tdoBytes : list Z) (expectedBytes maskBytes : option (list Z))
    (indices : list Z) : option mismatch :=
  match indices with
  | [] => None
  | i :: rest =>
      match verifyByte tdoBytes expectedBytes maskBytes i with
      | Some e => Some e
      | None => verifyLoop tdoBytes expectedBytes maskBytes rest
      end
  end.

(** [verifyData(tdo, expected, mask, bitLength)] as a method: it returns the
    machine it was called on together with [None] (normal return) or the
    error thrown.  [expected] and [mask] are [None] when the argument is
    missing or [null]. *)
Definition verifyData (m : machine) (tdo : list Z) (expected mask : option (list Z))
    (bitLength : Z) : machine * option mismatch :=
  let tdoBytes := toUint8Array tdo in
  let numBytes := JS.ceil8 bitLength in
  let expectedBytes := option_map toUint8Array expected in
  let maskBytes := option_map toUint8Array mask in
  (m, verifyLoop tdoBytes expectedBytes maskBytes (JS.range numBytes)).

(** ** Edges on the pins *)

(** A clock edge as an adapter command asks for it: the level on TMS and
    the level on TDI, [None] for a pin the command does not drive. *)
Definition edge : Type := option bool * option bool.

(** The level of a pin on an edge: the level the command drives, or the
    level the pin holds from the edge before. *)
Definition drive (held : bool) (driven : option bool) : bool :=
  match driven with Some b => b | None => held end.

(** The (TDI, TMS) pairs the device sees on the edges, for pins that hold
    [tms] and [tdi] before the first edge. *)
Fixpoint pins (tms tdi : bool) (edges : list edge) : list (Z * Z) :=
  match edges with
  | [] => []
  | (m, d) :: rest =>
      (Z.b2z (drive tdi d), Z.b2z (drive tms m))
      :: pins (drive tms m) (drive tdi d) rest
  end.

(** The levels the pins hold after the edges. *)
Fixpoint held (tms tdi : bool) (edges : list edge) : bool * bool :=
  match edges with
  | [] => (tms, tdi)
  | (m, d) :: rest => held (drive tms m) (drive tdi d) rest
  end.

End TAP.

(* ================================================================== *)
(** * The SVF parser: [SVFParser] *)
(* ================================================================== *)

Module SVF.
Import TAP.

(** Strings are ASCII text; a character is handled through its code. *)
Definition code (c : ascii) : Z := Z.of_N (N_of_ascii c).

(** The ASCII characters of the class [\s]. *)
Definition isSpace (c : ascii) : bool :=
  ((9 <=? code c) && (code c <=? 13)) || (code c =? 32).

(** The characters of the class [[()]]. *)
Definition isParen (c : ascii) : bool := (code c =? 40) || (code c =? 41).

(** [toUpperCase] on one ASCII character. *)
Definition toUpperCase (c : ascii) : ascii :=
  if (97 <=? code c) && (code c <=? 122)
  then ascii_of_N (Z.to_N (code c - 32)) else c.

(** The value of a digit in radix 16, as [parseInt] reads it. *)
Definition hexDigit (c : ascii) : option Z :=
  if (48 <=? code c) && (code c <=? 57) then Some (code c - 48)
  else if (65 <=? code c) && (code c <=? 70) then Some (code c - 55)
  else if (97 <=? code c) && (code c <=? 102) then Some (code c - 87)
  else None.

(** The longest prefix of radix-16 digits; [None] when there is none. *)
Fixpoint digits16 (acc : option Z) (s : list ascii) : option Z :=
  match s with
  | [] => acc
  | c :: rest =>
      match hexDigit c with
      | Some d => digits16 (Some (16 * match acc with Some a => a | None => 0 end + d)) rest
      | None => acc
      end
  end.

Fixpoint skipSpaces (s : list ascii) : list ascii :=
  match s with
  | c :: rest => if isSpace c then skipSpaces rest else s
  | [] => []
  end.

(** [parseInt(s, 16)]: leading white space, a sign, an optional [0x] or
    [0X], then digits; [None] is [NaN]. *)
Definition parseInt16 (s : list ascii) : option Z :=
  let s := skipSpaces s in
  let signed :=
    match s with
    | c :: rest =>
        if code c =? 45 then (-1, rest)
        else if code c =? 43 then (1, rest)
        else (1, s)
    | [] => (1, s)
    end in
  let digits :=
    match snd signed with
    | c0 :: cx :: rest =>
        if (code c0 =? 48) && ((code cx =? 120) || (code cx =? 88))
        then rest else snd signed
    | _ => snd signed
    end in
  option_map (Z.mul (fst signed)) (digits16 None digits).

(** [s.slice(a, b)]. *)
Definition slice {A} (s : list A) (a b : Z) : list A :=
  let len := Z.of_nat (List.length s) in
  let a := if a <? 0 then Z.max (len + a) 0 else Z.min a len in
  let b := if b <? 0 then Z.max (len + b) 0 else Z.min b len in
  firstn (Z.to_nat (b - a)) (skipn (Z.to_nat a) s).

(** [hexToken.replace(/[()]/g, '').replace(/\s+/g, '').toUpperCase()]. *)
Definition cleanHex (hexToken : string) : list ascii :=
  map toUpperCase
    (filter (fun c => negb (isSpace c))
       (filter (fun c => negb (isParen c)) (list_ascii_of_string hexToken))).

(** [hexStr = '0' + hexStr] when the length is odd. *)
Definition padEven (hexStr : list ascii) : list ascii :=
  if negb (Z.of_nat (List.length hexStr) mod 2 =? 0)
  then "0"%char :: hexStr else hexStr.

(** One round of the loop that fills [bytes]. *)
Definition storePair (hexStr : list ascii) (bytes : list Z) (i : Z) : list Z :=
  let hexIndex := Z.of_nat (List.length hexStr) - 2 - (i * 2) in
  let pair := slice hexStr hexIndex (hexIndex + 2) in
  let value := match parseInt16 pair with Some v => v | None => 0 end in
  JS.set bytes (Z.to_nat i) (JS.u8 value).

(** [parseHexData(hexToken, bitLength)]: [Ok None] is the [null] it
    returns for a missing or empty token; [new Uint8Array] of a negative
    size throws. *)
Definition parseHexData (hexToken : option string) (bitLength : Z)
    : outcome (option (list Z)) :=
  match hexToken with
  | None => Ok None
  | Some token =>
      if String.eqb token "" then Ok None
      else
        let hexStr := cleanHex token in
        if Z.of_nat (List.length hexStr) =? 0 then
          if JS.ceil8 bitLength <? 0 then Throw "RangeError: Invalid typed array length"
          else Ok (Some (JS.fill (JS.ceil8 bitLength) 0))
        else
          let hexStr := padEven hexStr in
          let providedBytes := Z.of_nat (List.length hexStr) / 2 in
          let targetBytes := JS.ceil8 bitLength in
          let byteLength := Z.max providedBytes targetBytes in
          let bytes := JS.fill byteLength 0 in
          Ok (Some (fold_left (storePair hexStr) (JS.range providedBytes) bytes))
  end.

(** [token.startsWith(prefix)] and [token.substring(n)]. *)
Definition startsWith (token prefix : string) : bool :=
  String.prefix prefix token.

Definition substringFrom (n : nat) (token : string) : string :=
  String.substring n (String.length token - n) token.

(** The local variables of [parseShift]. *)
Record shift_vars : Type := {
  v_length : option Z;
  rawTdi : option string;
  rawTdo : option string;
  rawMask : option string;
  rawSMask : option string
}.

Section Builtins.

(** The built-ins [isNaN(token)] and [parseInt(token)] on a token
    ([None] is [NaN]). *)
Variable isNaN : string -> bool.
Variable parseInt : string -> option Z.

(** [!cmd.length]: the length is [undefined], [NaN] or 0. *)
Definition noLength (l : option Z) : bool :=
  match l with Some n => n =? 0 | None => true end.

(** The loop of [parseShift] over [tokens[1..]].  A token that is exactly
    a keyword takes the value from the next token ([tokens[++i]], which is
    [undefined] past the end); a longer one carries it after the keyword. *)
Fixpoint parseShiftLoop (tokens : list string) (v : shift_vars) : shift_vars :=
  match tokens with
  | [] => v
  | token :: rest =>
      if negb (isNaN token) && noLength (v_length v) then
        parseShiftLoop rest
          {| v_length := parseInt token; rawTdi := rawTdi v; rawTdo := rawTdo v;
             rawMask := rawMask v; rawSMask := rawSMask v |}
      else if startsWith token "TDI" then
        if String.eqb token "TDI" then
          match rest with
          | next :: rest' =>
              parseShiftLoop rest'
                {| v_length := v_length v; rawTdi := Some next; rawTdo := rawTdo v;
                   rawMask := rawMask v; rawSMask := rawSMask v |}
          | [] =>
              {| v_length := v_length v; rawTdi := None; rawTdo := rawTdo v;
                 rawMask := rawMask v; rawSMask := rawSMask v |}
          end
        else
          parseShiftLoop rest
            {| v_length := v_length v; rawTdi := Some (substringFrom 3 token);
               rawTdo := rawTdo v; rawMask := rawMask v; rawSMask := rawSMask v |}
      else if startsWith token "TDO" then
        if String.eqb token "TDO" then
          match rest with
          | next :: rest' =>
              parseShiftLoop rest'
                {| v_length := v_length v; rawTdi := rawTdi v; rawTdo := Some next;
                   rawMask := rawMask v; rawSMask := rawSMask v |}
          | [] =>
              {| v_length := v_length v; rawTdi := rawTdi v; rawTdo := None;
                 rawMask := rawMask v; rawSMask := rawSMask v |}
          end
        else
          parseShiftLoop rest
            {| v_length := v_length v; rawTdi := rawTdi v;
               rawTdo := Some (substringFrom 3 token);
               rawMask := rawMask v; rawSMask := rawSMask v |}
      else if startsWith token "MASK" then
        if String.eqb token "MASK" then
          match rest with
          | next :: rest' =>
              parseShiftLoop rest'
                {| v_length := v_length v; rawTdi := rawTdi v; rawTdo := rawTdo v;
                   rawMask := Some next; rawSMask := rawSMask v |}
          | [] =>
              {| v_length := v_length v; rawTdi := rawTdi v; rawTdo := rawTdo v;
                 rawMask := None; rawSMask := rawSMask v |}
          end
        else
          parseShiftLoop rest
            {| v_length := v_length v; rawTdi := rawTdi v; rawTdo := rawTdo v;
               rawMask := Some (substringFrom 4 token); rawSMask := rawSMask v |}
      else if startsWith token "SMASK" then
        if String.eqb token "SMASK" then
          match rest with
          | next :: rest' =>
              parseShiftLoop rest'
                {| v_length := v_length v; rawTdi := rawTdi v; rawTdo := rawTdo v;
                   rawMask := rawMask v; rawSMask := Some next |}
          | [] =>
              {| v_length := v_length v; rawTdi := rawTdi v; rawTdo := rawTdo v;
                 rawMask := rawMask v; rawSMask := None |}
          end
        else
          parseShiftLoop rest
            {| v_length := v_length v; rawTdi := rawTdi v; rawTdo := rawTdo v;
               rawMask := rawMask v; rawSMask := Some (substringFrom 5 token) |}
      else parseShiftLoop rest v
  end.

(** [cmd.length || 0]. *)
Definition bitLengthOf (l : option Z) : Z :=
  match l with Some n => n | None => 0 end.

(** [parseShift(type, tokens)]; [tokens[0]] is the command name. *)
Definition parseShift (type : string) (tokens : list string) : outcome command :=
  let v := parseShiftLoop (List.tl tokens)
             {| v_length := None; rawTdi := None; rawTdo := None;
                rawMask := None; rawSMask := None |} in
  let bitLength := bitLengthOf (v_length v) in
  tdi <- parseHexData (rawTdi v) bitLength ;;
  tdo <- parseHexData (rawTdo v) bitLength ;;
  mask <- parseHexData (rawMask v) bitLength ;;
  smask <- parseHexData (rawSMask v) bitLength ;;
  Ok {| cmd_type := type; cmd_length := v_length v;
        cmd_tdi := tdi; cmd_tdo := tdo; cmd_mask := mask; cmd_smask := smask;
        cmd_states := []; cmd_state := None; cmd_cycles := None;
        cmd_endState := None; cmd_mode := None; cmd_raw := None |}.

End Builtins.

(** ** [parse] and [parseCommand] *)

(** [s.split(c)] for a separator of one character: the pieces between the
    occurrences of [c]; the empty string gives one empty piece. *)
Fixpoint splitOn (sep : ascii) (s : list ascii) : list (list ascii) :=
  match s with
  | [] => [[]]
  | c :: rest =>
      if Ascii.eqb c sep then [] :: splitOn sep rest
      else
        match splitOn sep rest with
        | piece :: more => (c :: piece) :: more
        | [] => [[c]]
        end
  end.

(** [s.trim()]. *)
Definition trim (s : list ascii) : list ascii :=
  rev (skipSpaces (rev (skipSpaces s))).

(** [s.endsWith(';')]. *)
Definition endsWithSemicolon (s : list ascii) : bool :=
  match rev s with
  | c :: _ => code c =? 59
  | [] => false
  end.

(** [s.replace(/;$/, '')]: the last character goes when it is a
    semicolon. *)
Definition dropSemicolon (s : list ascii) : list ascii :=
  if endsWithSemicolon s then removelast s else s.

(** Is there a closing parenthesis in [s]? *)
Definition closes (s : list ascii) : bool := existsb (fun c => code c =? 41) s.

(** The replacement [parseCommand] makes with its regular expression for
    an opening parenthesis, any characters but a closing parenthesis, and a
    closing parenthesis: from each opening parenthesis that is followed by
    a closing one, up to the first closing one, the white space is removed;
    [inside] tells whether the scan is within such a match. *)
Fixpoint stripGroups (inside : bool) (s : list ascii) : list ascii :=
  match s with
  | [] => []
  | c :: rest =>
      if inside then
        if code c =? 41 then c :: stripGroups false rest
        else if isSpace c then stripGroups true rest
        else c :: stripGroups true rest
      else if (code c =? 40) && closes rest then c :: stripGroups true rest
      else c :: stripGroups false rest
  end.

(** [s.split(/\s+/)]: the pieces between the runs of white space; white
    space at an end of [s] leaves an empty piece there.  [inRun] tells
    whether the character before was white space. *)
Fixpoint splitSpaces (inRun : bool) (s : list ascii) : list (list ascii) :=
  match s with
  | [] => [[]]
  | c :: rest =>
      if isSpace c then
        if inRun then splitSpaces true rest else [] :: splitSpaces true rest
      else
        match splitSpaces false rest with
        | piece :: more => (c :: piece) :: more
        | [] => [[c]]
        end
  end.

(** [token.toUpperCase()]. *)
Definition upper (token : string) : string :=
  string_of_list_ascii (map toUpperCase (list_ascii_of_string token)).

(** The text and the tokens [parseCommand] works on. *)
Definition commandText (cmdText : list ascii) : list ascii :=
  stripGroups false (trim (dropSemicolon cmdText)).

Definition tokenize (cmdText : list ascii) : list string :=
  map string_of_list_ascii (splitSpaces false (commandText cmdText)).

(** A command with nothing but its type. *)
Definition bare (type : string) : command :=
  {| cmd_type := type; cmd_length := None; cmd_tdi := None; cmd_tdo := None;
     cmd_mask := None; cmd_smask := None; cmd_states := []; cmd_state := None;
     cmd_cycles := None; cmd_endState := None; cmd_mode := None; cmd_raw := None |}.

(** [parseState(tokens)]: [tokens.slice(1)] as they are. *)
Definition parseState (tokens : list string) : command :=
  {| cmd_type := "STATE"; cmd_length := None; cmd_tdi := None; cmd_tdo := None;
     cmd_mask := None; cmd_smask := None; cmd_states := List.tl tokens;
     cmd_state := None; cmd_cycles := None; cmd_endState := None;
     cmd_mode := None; cmd_raw := None |}.

(** [parseFrequency(tokens)], without the frequency. *)
Definition parseFrequency (tokens : list string) : command := bare "FREQUENCY".

(** [parseTRST(tokens)] and [parseEnd(type, tokens)]: [tokens[1]], which
    is [undefined] when the command has no argument. *)
Definition parseTRST (tokens : list string) : command :=
  {| cmd_type := "TRST"; cmd_length := None; cmd_tdi := None; cmd_tdo := None;
     cmd_mask := None; cmd_smask := None; cmd_states := []; cmd_state := None;
     cmd_cycles := None; cmd_endState := None;
     cmd_mode := nth_error tokens 1; cmd_raw := None |}.

Definition parseEnd (type : string) (tokens : list string) : command :=
  {| cmd_type := type; cmd_length := None; cmd_tdi := None; cmd_tdo := None;
     cmd_mask := None; cmd_smask := None; cmd_states := [];
     cmd_state := nth_error tokens 1; cmd_cycles := None; cmd_endState := None;
     cmd_mode := None; cmd_raw := None |}.

(** The local variables of [parseRunTest]. *)
Record runtest_vars : Type := {
  v_runState : option string;
  v_endState : option string;
  v_cycles : Z
}.

(** [x || y] on a string that may be [null]: the empty string is falsy. *)
Definition orElse (x : option string) (y : string) : string :=
  match x with
  | Some s => if String.eqb s "" then y else s
  | None => y
  end.

Section Parser.

(** The built-ins [isNaN(token)], [parseInt(token)] and
    [parseInt(token, 10)] ([None] is [NaN]). *)
Variable isNaN : string -> bool.
Variable parseInt : string -> option Z.
Variable parseInt10 : string -> option Z.

(** The loop of [parseRunTest] over [tokens[1..]]. *)
Fixpoint parseRunTestLoop (tokens : list string) (v : runtest_vars) : runtest_vars :=
  match tokens with
  | [] => v
  | raw :: rest =>
      let token := upper raw in
      if negb (isNaN raw) then
        parseRunTestLoop rest
          {| v_runState := v_runState v; v_endState := v_endState v;
             v_cycles := match parseInt10 raw with Some n => n | None => 0 end |}
      else if String.eqb token "TCK" || String.eqb token "SEC"
              || String.eqb token "USEC" || String.eqb token "MSEC" then
        parseRunTestLoop rest v
      else if String.eqb token "ENDSTATE" then
        match rest with
        | nextToken :: rest' =>
            parseRunTestLoop rest'
              (if String.eqb nextToken "" then v
               else {| v_runState := v_runState v; v_endState := Some (upper nextToken);
                       v_cycles := v_cycles v |})
        | [] => v
        end
      else
        parseRunTestLoop rest
          {| v_runState := Some token; v_endState := v_endState v;
             v_cycles := v_cycles v |}
  end.

(** [parseRunTest(tokens)]. *)
Definition parseRunTest (tokens : list string) : command :=
  let v := parseRunTestLoop (List.tl tokens)
             {| v_runState := None; v_endState := None; v_cycles := 0 |} in
  let resolvedRunState := upper (orElse (v_runState v) "IDLE") in
  let resolvedEndState := upper (orElse (v_endState v) resolvedRunState) in
  {| cmd_type := "RUNTEST"; cmd_length := None; cmd_tdi := None; cmd_tdo := None;
     cmd_mask := None; cmd_smask := None; cmd_states := [];
     cmd_state := Some resolvedRunState; cmd_cycles := Some (v_cycles v);
     cmd_endState := Some resolvedEndState; cmd_mode := None; cmd_raw := None |}.

(** [parseCommand(cmdText)]. *)
Definition parseCommand (cmdText : list ascii) : outcome command :=
  let tokens := tokenize cmdText in
  let cmdName := upper (hd ""%string tokens) in
  if String.eqb cmdName "STATE" then Ok (parseState tokens)
  else if String.eqb cmdName "SIR" || String.eqb cmdName "SDR"
  then parseShift isNaN parseInt cmdName tokens
  else if String.eqb cmdName "RUNTEST" then Ok (parseRunTest tokens)
  else if String.eqb cmdName "FREQUENCY" then Ok (parseFrequency tokens)
  else if String.eqb cmdName "TRST" then Ok (parseTRST tokens)
  else if String.eqb cmdName "ENDIR" || String.eqb cmdName "ENDDR"
  then Ok (parseEnd cmdName tokens)
  else
    Ok {| cmd_type := cmdName; cmd_length := None; cmd_tdi := None; cmd_tdo := None;
          cmd_mask := None; cmd_smask := None; cmd_states := []; cmd_state := None;
          cmd_cycles := None; cmd_endState := None; cmd_mode := None;
          cmd_raw := Some (string_of_list_ascii (commandText cmdText)) |}.

(** The loop of [parse] over the lines: [currentCommand] and the commands
    so far, oldest first. *)
Fixpoint parseLines (lines : list (list ascii)) (currentCommand : list ascii)
    (commands : list command) : outcome (list command) :=
  match lines with
  | [] => Ok commands
  | line :: rest =>
      let line := trim (hd [] (splitOn "!"%char line)) in
      if Z.of_nat (List.length line) =? 0 then parseLines rest currentCommand commands
      else
        let currentCommand := currentCommand ++ " "%char :: line in
        if endsWithSemicolon line then
          let trimmed := trim currentCommand in
          cmd <- parseCommand trimmed ;;
          parseLines rest [] (commands ++ [cmd])
        else parseLines rest currentCommand commands
  end.

(** [parse(svfText)]. *)
Definition parse (svfText : string) : outcome (list command) :=
  parseLines (splitOn "010"%char (list_ascii_of_string svfText)) [] [].

End Parser.

End SVF.

(* ================================================================== *)
(** * The legacy adapter: [USBBlasterII] *)
(* ================================================================== *)

Module Blaster.

(** Only the OUT endpoint is modelled, for an adapter that is connected:
    [out] lists the transfers ([transferOut], [sendCommand]) oldest first.
    What the device answers has no influence on the bytes that are sent,
    so the read-back of a capturing shift is left out. *)
Record adapter : Type := {
  out : list (list Z);
  _zeroBuffer : option (list Z)
}.

Definition connected : adapter := {| out := []; _zeroBuffer := None |}.

Definition transferOut (a : adapter) (data : list Z) : adapter :=
  {| out := out a ++ [data]; _zeroBuffer := _zeroBuffer a |}.

(** The bytes on the wire, in order. *)
Definition wire (a : adapter) : list Z := List.concat (out a).

Definition base : Z := 0x2C.

(** The inner [while] of [shiftBytesRaw], which fills [batchBuffer] with
    byte-shift commands; [batch] is [batchBuffer.slice(0, batchPos)]. *)
Fixpoint fillBatch (fuel : nat) (tdiBytes : list Z) (startByte numBytes byteOffset : Z)
    (batch : list Z) : list Z * Z :=
  match fuel with
  | O => (batch, byteOffset)
  | S fuel' =>
      let MAX_BYTES_PER_CMD := 63 in
      let MAX_USB_PACKET := 4096 in
      if (byteOffset <? numBytes)
         && (Z.of_nat (List.length batch) <? MAX_USB_PACKET - 64) then
        let bytesInThisPacket := Z.min MAX_BYTES_PER_CMD (numBytes - byteOffset) in
        let cmdByte := Z.lor 0x80 (Z.land bytesInThisPacket 0x3f) in
        let data :=
          map (fun i => JS.u8 (JS.int (JS.get tdiBytes (startByte + byteOffset + i))))
              (JS.range bytesInThisPacket) in
        fillBatch fuel' tdiBytes startByte numBytes (byteOffset + bytesInThisPacket)
          (batch ++ [cmdByte] ++ data)
      else (batch, byteOffset)
  end.

(** The outer [while (byteOffset < numBytes)]: one transfer per batch. *)
Fixpoint sendBatches (fuel : nat) (a : adapter) (tdiBytes : list Z)
    (startByte numBytes byteOffset : Z) : adapter :=
  match fuel with
  | O => a
  | S fuel' =>
      if byteOffset <? numBytes then
        let filled := fillBatch (Z.to_nat numBytes) tdiBytes startByte numBytes
                        byteOffset [] in
        sendBatches fuel' (transferOut a (fst filled)) tdiBytes startByte numBytes
          (snd filled)
      else a
  end.

(** [shiftBytesRaw(tdiBytes, startByte, numBytes)]: the anchor byte, then
    the batches.  Every round of either loop takes at least one byte, so
    [numBytes] rounds of fuel are enough. *)
Definition shiftBytesRaw (a : adapter) (tdiBytes : list Z) (startByte numBytes : Z)
    : adapter :=
  let a := transferOut a [base] in
  sendBatches (Z.to_nat numBytes) a tdiBytes startByte numBytes 0.

(** Bit [i] of the last byte(s) as [shiftBytes] extracts it. *)
Definition lastBit (tdiBytes : list Z) (lastByteStart i : Z) : Z :=
  let byteIdx := lastByteStart + JS.floor8 i in
  let bitIdx := JS.rem i 8 in
  Z.land (JS.shr (JS.int (JS.get tdiBytes byteIdx)) bitIdx) 1.

(** [shiftBytes(tdiBytes, bitLength)]. *)
Definition shiftBytes (a : adapter) (tdiBytes : list Z) (bitLength : Z) : adapter :=
  let numBytes := JS.ceil8 bitLength in
  let bytesToShiftFast := if numBytes >? 1 then numBytes - 1 else 0 in
  let a := if bytesToShiftFast >? 0
           then shiftBytesRaw a tdiBytes 0 bytesToShiftFast else a in
  let lastByteStart := bytesToShiftFast in
  let remainingBits := bitLength - (bytesToShiftFast * 8) in
  let a :=
    if remainingBits >? 1 then
      let dataBytes :=
        flat_map (fun i =>
                    let tdi := lastBit tdiBytes lastByteStart i in
                    let setupByte := Z.lor (Z.lor base (Z.shiftl tdi 4)) 0 in
                    let clockByte := Z.lor (Z.lor base (Z.shiftl tdi 4)) 1 in
                    [setupByte; clockByte])
                 (JS.range (remainingBits - 1)) in
      transferOut a dataBytes
    else a in
  let i := remainingBits - 1 in
  let tdi := lastBit tdiBytes lastByteStart i in
  let setupByte := Z.lor (Z.lor base (Z.shiftl tdi 4)) 0x02 in
  let clockByte := Z.lor (Z.lor base (Z.shiftl tdi 4)) 0x03 in
  transferOut a [setupByte; clockByte].

(** [toggleClockCycles(cycles)]. *)
Definition toggleClockCycles (a : adapter) (cycles : Z) : adapter :=
  if cycles <=? 0 then a
  else
    let a := transferOut a [base] in
    let numBytes := JS.ceil8 cycles in
    let zeroBuffer :=
      match _zeroBuffer a with
      | Some z =>
          if Z.of_nat (List.length z) <? numBytes
          then JS.fill (Z.max numBytes 65536) 0 else z
      | None => JS.fill (Z.max numBytes 65536) 0
      end in
    let a := {| out := out a; _zeroBuffer := Some zeroBuffer |} in
    shiftBytesRaw a zeroBuffer 0 numBytes.

(** [(bits && bits[i]) ? v : 0] on a bit array that may be [null]. *)
Definition bitFlag (bits : option (list Z)) (i : Z) (v : Z) : Z :=
  match bits with
  | Some l => if JS.truthy (JS.get l i) then v else 0
  | None => 0
  end.

(** [canUseByteshiftMode(tmsBits, startIndex, totalLength)]. *)
Definition canUseByteshiftMode (tmsBits : option (list Z)) (startIndex totalLength : Z)
    : bool :=
  match tmsBits with
  | None => true
  | Some l =>
      let checkLength := Z.min 8 (totalLength - startIndex) in
      forallb (fun i => negb (JS.truthy (JS.get l (startIndex + i))))
              (JS.range checkLength)
  end.

(** [shiftBitBang]: two bytes per bit, sent in one transfer. *)
Definition shiftBitBang (a : adapter) (tdiBits tmsBits : option (list Z))
    (startIndex bitCount : Z) (capture : bool) : adapter :=
  let allBytes :=
    flat_map (fun i =>
                let bitIdx := startIndex + i in
                let tdi := bitFlag tdiBits bitIdx 0x10 in
                let tms := bitFlag tmsBits bitIdx 0x02 in
                let b := Z.lor (Z.lor 0x2C tdi) tms in
                [b; Z.lor (Z.lor b 0x01) (if capture then 0x40 else 0)])
             (JS.range bitCount) in
  transferOut a allBytes.

(** The data byte [i] of a [shiftBytewise] packet: eight bits, LSB first,
    none from beyond [startBit + bitCount]. *)
Definition packByte (tdiBits : option (list Z)) (startBit bitCount byteOffset i : Z) : Z :=
  fold_left (fun byte bit =>
               let bitIdx := startBit + (byteOffset + i) * 8 + bit in
               if bitIdx >=? startBit + bitCount then byte
               else if Z.eqb (bitFlag tdiBits bitIdx 1) 0 then byte
               else Z.lor byte (Z.shiftl 1 bit))
            (JS.range 8) 0.

(** The [for] loop of [shiftBytewise] over [byteOffset], in steps of 63. *)
Fixpoint bytewiseLoop (fuel : nat) (a : adapter) (tdiBits : option (list Z))
    (startBit bitCount numBytes byteOffset : Z) : adapter :=
  match fuel with
  | O => a
  | S fuel' =>
      let MAX_BYTES_PER_CMD := 63 in
      if byteOffset <? numBytes then
        let bytesInThisPacket := Z.min MAX_BYTES_PER_CMD (numBytes - byteOffset) in
        let cmdByte := Z.lor 0x80 (Z.land bytesInThisPacket 0x3f) in
        let tdiBytes := map (packByte tdiBits startBit bitCount byteOffset)
                            (JS.range bytesInThisPacket) in
        bytewiseLoop fuel' (transferOut a (cmdByte :: tdiBytes)) tdiBits
          startBit bitCount numBytes (byteOffset + MAX_BYTES_PER_CMD)
      else a
  end.

Definition shiftBytewise (a : adapter) (tdiBits : option (list Z))
    (startBit bitCount : Z) : adapter :=
  let numBytes := JS.ceil8 bitCount in
  bytewiseLoop (Z.to_nat numBytes) a tdiBits startBit bitCount numBytes 0.

(** The [while (bitIndex < bitLength)] of [shiftBits]; every round moves
    [bitIndex] forward. *)
Fixpoint shiftBitsLoop (fuel : nat) (a : adapter) (tdiBits tmsBits : option (list Z))
    (bitLength : Z) (capture : bool) (bitIndex : Z) : adapter :=
  match fuel with
  | O => a
  | S fuel' =>
      if bitIndex <? bitLength then
        let canUse := negb capture && canUseByteshiftMode tmsBits bitIndex bitLength in
        if canUse && (bitLength - bitIndex >=? 16) then
          let remainingBits := bitLength - bitIndex in
          let bytesToShift := JS.floor8 remainingBits in
          let bitsToShift := bytesToShift * 8 in
          shiftBitsLoop fuel' (shiftBytewise a tdiBits bitIndex bitsToShift)
            tdiBits tmsBits bitLength capture (bitIndex + bitsToShift)
        else
          let batchSize := Z.min 64 (bitLength - bitIndex) in
          shiftBitsLoop fuel' (shiftBitBang a tdiBits tmsBits bitIndex batchSize capture)
            tdiBits tmsBits bitLength capture (bitIndex + batchSize)
      else a
  end.

(** [shiftBits(tdiBits, tmsBits, bitLength, capture)]. *)
Definition shiftBits (a : adapter) (tdiBits tmsBits : option (list Z))
    (bitLength : Z) (capture : bool) : adapter :=
  shiftBitsLoop (Z.to_nat bitLength) a tdiBits tmsBits bitLength capture 0.

(** ** Reading the wire *)

(** The OUT stream as the comments of the adapter describe it: a byte with
    bit 7 set is a byte-shift command that announces [N = byte & 0x3F] data
    bytes, each of which clocks 8 bits and leaves TCK low; any other byte
    is a bit-bang byte that drives TCK with its bit 0, and a rising edge is
    a bit-bang byte with TCK = 1 that follows TCK = 0.  [owed] counts the
    data bytes a command still waits for. *)
Record line : Type := {
  tck : bool;
  owed : Z;
  edges : Z
}.

Definition idle_line : line := {| tck := false; owed := 0; edges := 0 |}.

Definition decode (l : line) (b : Z) : line :=
  if 0 <? owed l then
    {| tck := false; owed := owed l - 1; edges := edges l + 8 |}
  else if Z.testbit b 7 then
    {| tck := tck l; owed := Z.land b 0x3F; edges := edges l |}
  else
    {| tck := Z.testbit b 0; owed := 0;
       edges := edges l + (if Z.testbit b 0 && negb (tck l) then 1 else 0) |}.

(** The number of TCK rising edges a stream of OUT bytes encodes. *)
Definition risingEdges (bytes : list Z) : Z :=
  edges (fold_left decode bytes idle_line).

(** ** The pins on the wire *)

(** The OUT stream with its pins.  A bit-bang byte sets TCK to its bit 0,
    TMS to its bit 1 ([tms ? 0x02 : 0]) and TDI to its bit 4
    ([tdi ? 0x10 : 0]); the device sees an edge when TCK rises.  A data
    byte of a byte-shift command clocks its eight bits on TDI, bit 0
    first, while TMS stays where the last bit-bang byte has put it: the
    anchor byte 0x2C before a byte shift makes it a shift with TMS = 0. *)
Record pinline : Type := {
  clk : bool;
  tmsPin : bool;
  due : Z;
  trace : list (Z * Z)
}.

Definition sample (l : pinline) (b : Z) : pinline :=
  if 0 <? due l then
    {| clk := false; tmsPin := tmsPin l; due := due l - 1;
       trace := trace l
                ++ map (fun i => (Z.b2z (Z.testbit b i), Z.b2z (tmsPin l))) (JS.range 8) |}
  else if Z.testbit b 7 then
    {| clk := clk l; tmsPin := tmsPin l; due := Z.land b 0x3F; trace := trace l |}
  else
    {| clk := Z.testbit b 0; tmsPin := Z.testbit b 1; due := 0;
       trace := trace l
                ++ (if Z.testbit b 0 && negb (clk l)
                    then [(Z.b2z (Z.testbit b 4), Z.b2z (Z.testbit b 1))] else []) |}.

(** The (TDI, TMS) pairs a stream of OUT bytes presents to the device, one
    for each rising edge of TCK, for a line that is low with TMS at
    [tms]. *)
Definition sampled (tms : bool) (bytes : list Z) : list (Z * Z) :=
  trace (fold_left sample bytes {| clk := false; tmsPin := tms; due := 0; trace := [] |}).

(** A call of the engine on the adapter. *)
Definition play (a : adapter) (c : TAP.usb_call) : adapter :=
  match c with
  | TAP.ShiftBits tdiBits tmsBits bitLength capture =>
      shiftBits a (Some tdiBits) (Some tmsBits) bitLength capture
  | TAP.ShiftBytes tdiBytes bitLength => shiftBytes a tdiBytes bitLength
  | TAP.ToggleClockCycles cycles => toggleClockCycles a cycles
  end.

(** The calls of the engine, in order. *)
Definition playAll (a : adapter) (calls : list TAP.usb_call) : adapter :=
  fold_left play calls a.

End Blaster.

(* ================================================================== *)
(** * The MPSSE adapter and the Xilinx programmer *)
(* ================================================================== *)

Module Xilinx.

(** ** [DigilentFTDI] *)

(** The driver: the command [buffer], the [readPending] counter, the
    transfers [sent] on the OUT endpoint (oldest first) and, for the IN
    endpoint, the packets the device will answer to the coming
    [transferIn] calls ([rx]; when none is left the transfer fails). *)
Record DigilentFTDI : Type := {
  buffer : list Z;
  readPending : Z;
  sent : list (list Z);
  rx : list (list Z)
}.

Definition connect (device : list (list Z)) : DigilentFTDI :=
  {| buffer := []; readPending := 0; sent := []; rx := device |}.

Definition push (f : DigilentFTDI) (bytes : list Z) : DigilentFTDI :=
  {| buffer := buffer f ++ bytes; readPending := readPending f;
     sent := sent f; rx := rx f |}.

Definition addReadPending (f : DigilentFTDI) (n : Z) : DigilentFTDI :=
  {| buffer := buffer f; readPending := readPending f + n;
     sent := sent f; rx := rx f |}.

(** [flush()]: [new Uint8Array(this.buffer)] goes out in one transfer. *)
Definition flush (f : DigilentFTDI) : DigilentFTDI :=
  if Z.of_nat (List.length (buffer f)) =? 0 then f
  else {| buffer := []; readPending := readPending f;
          sent := sent f ++ [map JS.u8 (buffer f)]; rx := rx f |}.

(** The bytes of a packet after its two status bytes, as long as the
    result is short of [expectedBytes]. *)
Definition collect (packet result : list Z) (expectedBytes : Z) : list Z :=
  result ++ firstn (Z.to_nat (expectedBytes - Z.of_nat (List.length result)))
              (skipn 2 packet).

(** The read loop of [flushAndRead]: a packet with payload is collected, a
    packet of status bytes only and a failed transfer count as a retry. *)
Fixpoint readLoop (fuel : nat) (packets : list (list Z)) (result : list Z)
    (expectedBytes retries : Z) : list Z * list (list Z) :=
  match fuel with
  | O => (result, packets)
  | S fuel' =>
      let remaining := expectedBytes - Z.of_nat (List.length result) in
      if (remaining >? 0) && (retries <? 100) then
        match packets with
        | packet :: packets' =>
            if Z.of_nat (List.length packet) >? 2
            then readLoop fuel' packets' (collect packet result expectedBytes)
                   expectedBytes retries
            else readLoop fuel' packets' result expectedBytes (retries + 1)
        | [] => readLoop fuel' [] result expectedBytes (retries + 1)
        end
      else (result, packets)
  end.

(** [flushAndRead(expectedBytes)]. *)
Definition flushAndRead (f : DigilentFTDI) (expectedBytes : Z)
    : list Z * DigilentFTDI :=
  let SEND_IMMEDIATE := 0x87 in
  let data := map JS.u8 (buffer f ++ [SEND_IMMEDIATE]) in
  let r := readLoop (List.length (rx f) + 100) (rx f) [] expectedBytes 0 in
  (fst r, {| buffer := []; readPending := readPending f;
             sent := sent f ++ [data]; rx := snd r |}).

(** One TMS command of [writeTMS]: up to 6 bits from bit [offset] of
    [tmsData] on, TDI in bit 7, the last TMS bit repeated above the data. *)
Definition tmsCommand (tmsData : list Z) (offset bitsToSend tdi : Z) : list Z :=
  let cmdByte := Z.lor (Z.lor (Z.lor 0x40 0x08) 0x02) 0x01 in
  let tmsByte :=
    fold_left (fun tmsByte i =>
                 let byteIdx := JS.floor8 (offset + i) in
                 let bitIdx := JS.rem (offset + i) 8 in
                 let bit := Z.land (JS.shr (JS.int (JS.get tmsData byteIdx)) bitIdx) 1 in
                 Z.lor tmsByte (Z.shiftl bit i))
              (JS.range bitsToSend) (if tdi =? 0 then 0x00 else 0x80) in
  let lastTmsBit := Z.land (JS.shr tmsByte (bitsToSend - 1)) 1 in
  let tmsByte := Z.lor tmsByte (Z.shiftl lastTmsBit bitsToSend) in
  [cmdByte; bitsToSend - 1; tmsByte].

Fixpoint writeTMSLoop (fuel : nat) (f : DigilentFTDI) (tmsData : list Z)
    (offset remaining tdi : Z) : DigilentFTDI :=
  match fuel with
  | O => f
  | S fuel' =>
      if remaining >? 0 then
        let bitsToSend := Z.min 6 remaining in
        writeTMSLoop fuel' (push f (tmsCommand tmsData offset bitsToSend tdi))
          tmsData (offset + bitsToSend) (remaining - bitsToSend) tdi
      else f
  end.

(** [writeTMS(tmsData, bitLen, flush, tdi)]. *)
Definition writeTMS (f : DigilentFTDI) (tmsData : list Z) (bitLen : Z)
    (doFlush : bool) (tdi : Z) : DigilentFTDI :=
  let f := writeTMSLoop (Z.to_nat bitLen) f tmsData 0 bitLen tdi in
  if doFlush then flush f else f.

(** [tdi ? (tdi[i] || 0) : 0]. *)
Definition tdiByte (tdi : option (list Z)) (i : Z) : Z :=
  match tdi with
  | Some l => JS.int (JS.get l i)
  | None => 0
  end.

(** The loop of [writeTDI] that sends the full bytes, in chunks of at most
    4096; it returns the driver and [txOffset]. *)
Fixpoint fullBytesLoop (fuel : nat) (f : DigilentFTDI) (tdi : option (list Z))
    (byteCmd : Z) (readBack : bool) (txOffset numBytes : Z) : DigilentFTDI * Z :=
  match fuel with
  | O => (f, txOffset)
  | S fuel' =>
      if numBytes >? 0 then
        let chunkSize := Z.min numBytes 4096 in
        let lenMinus1 := chunkSize - 1 in
        let f := push f [byteCmd; Z.land lenMinus1 0xFF;
                         Z.land (Z.shiftr lenMinus1 8) 0xFF] in
        let f := push f (map (fun i => tdiByte tdi (txOffset + i)) (JS.range chunkSize)) in
        let f := if readBack then addReadPending f chunkSize else f in
        let f := if Z.of_nat (List.length (buffer f)) >? 4096 - 100 then flush f else f in
        fullBytesLoop fuel' f tdi byteCmd readBack (txOffset + chunkSize)
          (numBytes - chunkSize)
      else (f, txOffset)
  end.

(** [tdo[i] = v] and [tdo[i] |= v] on the buffer the caller passed. *)
Definition tdoSet (tdo : list Z) (i : Z) (v : Z) : list Z :=
  if (0 <=? i) && (i <? Z.of_nat (List.length tdo))
  then JS.set tdo (Z.to_nat i) (JS.u8 v) else tdo.

(** The copy of the read data into [tdo] at the end of [writeTDI]. *)
Definition copyReadData (tdo readData : list Z) (bitLen : Z) (lastBitWithTMS : bool)
    : list Z :=
  let len := Z.of_nat (List.length readData) in
  let originalRealLen := if lastBitWithTMS then bitLen - 1 else bitLen in
  let originalNumBytes := JS.floor8 originalRealLen in
  let originalNumBits := JS.rem originalRealLen 8 in
  let wasConvertedToBits :=
    (originalNumBytes =? 1) && (originalNumBits =? 0) && negb lastBitWithTMS in
  (* (tdo, readIdx, writeIdx) *)
  let s :=
    if wasConvertedToBits then
      if (0 <? len) && (0 <? Z.of_nat (List.length tdo))
      then (tdoSet tdo 0 (JS.int (JS.get readData 0)), 1, 1)
      else (tdo, 0, 0)
    else
      let s1 :=
        fold_left (fun (s : list Z * Z * Z) (_ : Z) =>
                     let '(tdo, readIdx, writeIdx) := s in
                     if readIdx <? len then
                       if writeIdx <? Z.of_nat (List.length tdo)
                       then (tdoSet tdo writeIdx (JS.int (JS.get readData readIdx)),
                             readIdx + 1, writeIdx + 1)
                       else s
                     else s)
                  (JS.range originalNumBytes) (tdo, 0, 0) in
      let '(tdo, readIdx, writeIdx) := s1 in
      if (originalNumBits >? 0) && (readIdx <? len) then
        let bitByte := JS.shr (JS.int (JS.get readData readIdx)) (8 - originalNumBits) in
        (tdoSet tdo writeIdx bitByte, readIdx + 1, writeIdx)
      else s1 in
  let '(tdo, readIdx, writeIdx) := s in
  if lastBitWithTMS && (readIdx <? len) then
    let lastBit := Z.land (JS.shr (JS.int (JS.get readData readIdx)) 7) 1 in
    let lastBitPos := if originalNumBits >? 0 then originalNumBits else 0 in
    tdoSet tdo writeIdx (Z.lor (JS.int (JS.get tdo writeIdx)) (Z.shiftl lastBit lastBitPos))
  else tdo.

(** [writeTDI(tdi, tdo, bitLen, lastBitWithTMS)]: [tdo] is the buffer to
    fill, or [None] for [null]; the buffer is returned as the call leaves
    it. *)
Definition writeTDI (f : DigilentFTDI) (tdi tdo : option (list Z)) (bitLen : Z)
    (lastBitWithTMS : bool) : option (list Z) * DigilentFTDI :=
  if bitLen =? 0 then (tdo, f)
  else
    let readBack := match tdo with Some _ => true | None => false end in
    let realLen := if lastBitWithTMS then bitLen - 1 else bitLen in
    let numBytes := JS.floor8 realLen in
    let numBits := JS.rem realLen 8 in
    let MPSSE_LSB := 0x08 in
    let MPSSE_BITMODE := 0x02 in
    let MPSSE_WRITE_NEG := 0x01 in
    let MPSSE_DO_WRITE := 0x10 in
    let MPSSE_DO_READ := 0x20 in
    let MPSSE_WRITE_TMS := 0x40 in
    let byteCmd :=
      Z.lor (Z.lor (Z.lor MPSSE_LSB MPSSE_WRITE_NEG)
                   (match tdi with Some _ => MPSSE_DO_WRITE | None => 0 end))
            (if readBack then MPSSE_DO_READ else 0) in
    let bitCmd := Z.lor byteCmd MPSSE_BITMODE in
    let converted := (numBytes =? 1) && (numBits =? 0) && negb lastBitWithTMS in
    let numBytes := if converted then 0 else numBytes in
    let numBits := if converted then 8 else numBits in
    let r := fullBytesLoop (Z.to_nat numBytes) f tdi byteCmd readBack 0 numBytes in
    let f := fst r in
    let txOffset := snd r in
    let f :=
      if numBits >? 0 then
        let bitData := tdiByte tdi txOffset in
        let f := push f [bitCmd; numBits - 1; bitData] in
        if readBack then addReadPending f 1 else f
      else f in
    let f :=
      if lastBitWithTMS then
        let lastBitByteIndex := txOffset in
        let lastBitPosition := numBits in
        let lastBitData :=
          match tdi with
          | Some _ => Z.land (JS.shr (tdiByte tdi lastBitByteIndex) lastBitPosition) 1
          | None => 0
          end in
        let tmsCmd :=
          Z.lor (Z.lor (Z.lor (Z.lor MPSSE_WRITE_TMS MPSSE_LSB) MPSSE_BITMODE)
                       MPSSE_WRITE_NEG)
                (if readBack then MPSSE_DO_READ else 0) in
        let f := push f [tmsCmd; 0; if lastBitData =? 0 then 0x01 else 0x81] in
        if readBack then addReadPending f 1 else f
      else f in
    match tdo with
    | Some tdoBuffer =>
        if readPending f >? 0 then
          let r := flushAndRead f (readPending f) in
          let readData := fst r in
          let f := {| buffer := buffer (snd r); readPending := 0;
                      sent := sent (snd r); rx := rx (snd r) |} in
          (Some (copyReadData tdoBuffer readData bitLen lastBitWithTMS), f)
        else (tdo, flush f)
    | None => (tdo, flush f)
    end.

(** The loop of [toggleClk]: byte clocks for 8 cycles and more, a bit
    clock for the rest. *)
Fixpoint toggleClkLoop (fuel : nat) (f : DigilentFTDI) (remaining : Z) : DigilentFTDI :=
  match fuel with
  | O => f
  | S fuel' =>
      if remaining >? 0 then
        let CLOCK_BYTES := 0x8F in
        let CLOCK_BITS := 0x8E in
        let fr :=
          if remaining >=? 8 then
            let cycles8 := Z.min (JS.floor8 remaining) 65536 in
            let lenMinus1 := cycles8 - 1 in
            (push f [CLOCK_BYTES; Z.land lenMinus1 0xFF;
                     Z.land (Z.shiftr lenMinus1 8) 0xFF],
             remaining - cycles8 * 8)
          else (push f [CLOCK_BITS; remaining - 1], 0) in
        let f := fst fr in
        let f := if Z.of_nat (List.length (buffer f)) >? 4096 - 10 then flush f else f in
        toggleClkLoop fuel' f (snd fr)
      else f
  end.

(** [toggleClk(tms, tdi, count)] of the driver; [tms] and [tdi] are not
    used by the code. *)
Definition toggleClk (f : DigilentFTDI) (tms tdi count : Z) : DigilentFTDI :=
  flush (toggleClkLoop (Z.to_nat count) f count).

(** ** [XilinxJTAG] *)

(** [this.STATES]. *)
Definition TEST_LOGIC_RESET : Z := 0.
Definition RUN_TEST_IDLE : Z := 1.
Definition SELECT_DR_SCAN : Z := 2.
Definition CAPTURE_DR : Z := 3.
Definition SHIFT_DR : Z := 4.
Definition EXIT1_DR : Z := 5.
Definition PAUSE_DR : Z := 6.
Definition EXIT2_DR : Z := 7.
Definition UPDATE_DR : Z := 8.
Definition SELECT_IR_SCAN : Z := 9.
Definition CAPTURE_IR : Z := 10.
Definition SHIFT_IR : Z := 11.
Definition EXIT1_IR : Z := 12.
Definition PAUSE_IR : Z := 13.
Definition EXIT2_IR : Z := 14.
Definition UPDATE_IR : Z := 15.

(** The instructions of [this.IR] that the programmer uses. *)
Definition IDCODE : Z := 0x09.
Definition BYPASS : Z := 0x3F.
Definition JPROGRAM : Z := 0x0B.
Definition CFG_IN : Z := 0x05.
Definition JSTART : Z := 0x0C.

Definition irLength : Z := 6.

Record XilinxJTAG : Type := {
  ftdi : DigilentFTDI;
  state : Z;
  currTdi : Z
}.

(** [new XilinxJTAG(ftdiDriver)]. *)
Definition constructor (ftdiDriver : DigilentFTDI) : XilinxJTAG :=
  {| ftdi := ftdiDriver; state := TEST_LOGIC_RESET; currTdi := 0 |}.

Definition with_ftdi (x : XilinxJTAG) (f : DigilentFTDI) : XilinxJTAG :=
  {| ftdi := f; state := state x; currTdi := currTdi x |}.

Definition with_state (x : XilinxJTAG) (s : Z) : XilinxJTAG :=
  {| ftdi := ftdi x; state := s; currTdi := currTdi x |}.

Definition includes (l : list Z) (v : Z) : bool := existsb (Z.eqb v) l.

(** The [switch] of [setState]: the TMS bit and the next state; in a state
    outside the table no case matches, [tms] keeps its value and the state
    stays. *)
Definition setStateStep (st targetState tms : Z) : Z * Z :=
  if st =? TEST_LOGIC_RESET then (0, RUN_TEST_IDLE)
  else if st =? RUN_TEST_IDLE then
    if targetState =? RUN_TEST_IDLE then (0, st) else (1, SELECT_DR_SCAN)
  else if st =? SELECT_DR_SCAN then
    if includes [CAPTURE_DR; SHIFT_DR; EXIT1_DR; PAUSE_DR; EXIT2_DR; UPDATE_DR] targetState
    then (0, CAPTURE_DR) else (1, SELECT_IR_SCAN)
  else if st =? CAPTURE_DR then
    if targetState =? SHIFT_DR then (0, SHIFT_DR) else (1, EXIT1_DR)
  else if st =? SHIFT_DR then (1, EXIT1_DR)
  else if st =? EXIT1_DR then
    if (targetState =? PAUSE_DR) || (targetState =? EXIT2_DR)
    then (0, PAUSE_DR) else (1, UPDATE_DR)
  else if st =? PAUSE_DR then (1, EXIT2_DR)
  else if st =? EXIT2_DR then
    if targetState =? SHIFT_DR then (0, SHIFT_DR) else (1, UPDATE_DR)
  else if st =? UPDATE_DR then
    if targetState =? RUN_TEST_IDLE then (0, RUN_TEST_IDLE) else (1, SELECT_DR_SCAN)
  else if st =? SELECT_IR_SCAN then
    if includes [CAPTURE_IR; SHIFT_IR; EXIT1_IR; PAUSE_IR; EXIT2_IR; UPDATE_IR] targetState
    then (0, CAPTURE_IR) else (1, TEST_LOGIC_RESET)
  else if st =? CAPTURE_IR then
    if targetState =? SHIFT_IR then (0, SHIFT_IR) else (1, EXIT1_IR)
  else if st =? SHIFT_IR then (1, EXIT1_IR)
  else if st =? EXIT1_IR then
    if (targetState =? PAUSE_IR) || (targetState =? EXIT2_IR)
    then (0, PAUSE_IR) else (1, UPDATE_IR)
  else if st =? PAUSE_IR then (1, EXIT2_IR)
  else if st =? EXIT2_IR then
    if targetState =? SHIFT_IR then (0, SHIFT_IR) else (1, UPDATE_IR)
  else if st =? UPDATE_IR then
    if targetState =? RUN_TEST_IDLE then (0, RUN_TEST_IDLE) else (1, SELECT_DR_SCAN)
  else (tms, st).

(** [while (this.state !== targetState)]: [None] when the fuel runs out
    (for a target that is no state the loop of the code does not end). *)
Fixpoint setStateLoop (fuel : nat) (st targetState tms : Z) (tmsSeq : list Z)
    : option (Z * list Z) :=
  if st =? targetState then Some (st, tmsSeq)
  else
    match fuel with
    | O => None
    | S fuel' =>
        let r := setStateStep st targetState tms in
        setStateLoop fuel' (snd r) targetState (fst r) (tmsSeq ++ [fst r])
    end.

(** [_packBits(bits)]. *)
Definition _packBits (bits : list Z) : list Z :=
  map (fun byteIdx =>
         fold_left (fun byte bit =>
                      if JS.truthy (JS.get bits (byteIdx * 8 + bit))
                      then Z.lor byte (Z.shiftl 1 bit) else byte)
                   (JS.range 8) 0)
      (JS.range (JS.ceil8 (Z.of_nat (List.length bits)))).

(** [setState(targetState)]; no path between two states has more than 16
    steps. *)
Definition setState (x : XilinxJTAG) (targetState : Z) : option XilinxJTAG :=
  match setStateLoop 16 (state x) targetState 0 [] with
  | None => None
  | Some (st, tmsSeq) =>
      let x := with_state x st in
      if Z.of_nat (List.length tmsSeq) >? 0 then
        let tmsData := _packBits tmsSeq in
        Some (with_ftdi x (writeTMS (ftdi x) tmsData (Z.of_nat (List.length tmsSeq))
                             true (currTdi x)))
      else Some x
  end.

(** [goTestLogicReset()]. *)
Definition goTestLogicReset (x : XilinxJTAG) : XilinxJTAG :=
  let tmsData := [0x3F] in
  with_state (with_ftdi x (writeTMS (ftdi x) tmsData 6 true 0)) TEST_LOGIC_RESET.

(** [shiftIR(instruction, readBack, endState)]; it returns [tdo]. *)
Definition shiftIR (x : XilinxJTAG) (instruction : Z) (readBack : bool) (endState : Z)
    : option (option (list Z) * XilinxJTAG) :=
  match (if negb (state x =? SHIFT_IR) then setState x SHIFT_IR else Some x) with
  | None => None
  | Some x =>
      let tdi := [JS.u8 instruction] in
      let tdo := if readBack then Some (JS.fill 1 0) else None in
      let lastBitExit := negb (endState =? SHIFT_IR) in
      let r := writeTDI (ftdi x) (Some tdi) tdo irLength lastBitExit in
      let x := with_ftdi x (snd r) in
      if lastBitExit then
        let x := with_state x EXIT1_IR in
        if negb (endState =? EXIT1_IR) then
          match setState x endState with
          | Some x => Some (fst r, x)
          | None => None
          end
        else Some (fst r, x)
      else Some (fst r, x)
  end.

(** [shiftDR(tdi, bitLength, readBack, endState)]. *)
Definition shiftDR (x : XilinxJTAG) (tdi : list Z) (bitLength : Z) (readBack : bool)
    (endState : Z) : option (option (list Z) * XilinxJTAG) :=
  match (if negb (state x =? SHIFT_DR) then setState x SHIFT_DR else Some x) with
  | None => None
  | Some x =>
      let tdo := if readBack then Some (JS.fill (JS.ceil8 bitLength) 0) else None in
      let lastBitExit := negb (endState =? SHIFT_DR) in
      let r := writeTDI (ftdi x) (Some tdi) tdo bitLength lastBitExit in
      let x := with_ftdi x (snd r) in
      if lastBitExit then
        let x := with_state x EXIT1_DR in
        if negb (endState =? EXIT1_DR) then
          match setState x endState with
          | Some x => Some (fst r, x)
          | None => None
          end
        else Some (fst r, x)
      else Some (fst r, x)
  end.

(** [toggleClk(count)] of the programmer. *)
Definition toggleClock (x : XilinxJTAG) (count : Z) : XilinxJTAG :=
  let tms := if state x =? TEST_LOGIC_RESET then 1 else 0 in
  with_ftdi x (toggleClk (ftdi x) tms 0 count).

(** [bitReverse(data)]: the inner loop on one byte, then every byte. *)
Definition reverseByte (byte : Z) : Z :=
  fst (fold_left (fun (s : Z * Z) (_ : Z) =>
                    let '(rev, byte) := s in
                    (Z.lor (Z.shiftl rev 1) (Z.land byte 1), Z.shiftr byte 1))
                 (JS.range 8) (0, byte)).

Definition bitReverse (data : list Z) : list Z :=
  map (fun b => JS.u8 (reverseByte b)) data.

(** ** [programSRAM] *)

(** The calls [programSRAM] makes on the programmer itself. *)
Inductive operation : Type :=
| GoTestLogicReset
| ShiftIR (instruction : Z) (readBack : bool) (endState : Z)
| ShiftDR (tdi : list Z) (bitLength : Z) (readBack : bool) (endState : Z)
| SetState (targetState : Z)
| ToggleClk (count : Z).

(** The programmer with the log of these calls, oldest first. *)
Definition logged : Type := XilinxJTAG * list operation.

(** One logged call; it yields what the method returns. *)
Definition perform (xl : logged) (op : operation)
    : option (option (list Z) * logged) :=
  let '(x, log) := xl in
  let log := log ++ [op] in
  match op with
  | GoTestLogicReset => Some (None, (goTestLogicReset x, log))
  | ShiftIR instruction readBack endState =>
      match shiftIR x instruction readBack endState with
      | Some (tdo, x) => Some (tdo, (x, log))
      | None => None
      end
  | ShiftDR tdi bitLength readBack endState =>
      match shiftDR x tdi bitLength readBack endState with
      | Some (tdo, x) => Some (tdo, (x, log))
      | None => None
      end
  | SetState targetState =>
      match setState x targetState with
      | Some x => Some (None, (x, log))
      | None => None
      end
  | ToggleClk count => Some (None, (toggleClock x count, log))
  end.

(** [status && (status[0] & mask)]. *)
Definition statusBit (status : option (list Z)) (shift : Z) : bool :=
  match status with
  | Some s => negb (Z.land (Z.shiftr (JS.int (JS.get s 0)) shift) 1 =? 0)
  | None => false
  end.

(** Step 3, [for (let retry = 0; retry < 100; retry++)]: [retries] is the
    number of rounds left; the result is [initDone]. *)
Fixpoint pollInit (retries : nat) (xl : logged) : option (bool * logged) :=
  match retries with
  | O => Some (false, xl)
  | S retries' =>
      match perform xl (ShiftIR BYPASS true RUN_TEST_IDLE) with
      | None => None
      | Some (status, xl) =>
          if statusBit status 0 then Some (true, xl)
          else pollInit retries' xl
      end
  end.

(** Step 7, the loop over the chunks [i], [i + 1], ... *)
Fixpoint sendChunks (count : nat) (xl : logged) (configData : list Z)
    (i totalChunks : Z) : option logged :=
  match count with
  | O => Some xl
  | S count' =>
      let chunkSize := 4096 in
      let offset := i * chunkSize in
      let remaining := Z.of_nat (List.length configData) - offset in
      let thisChunkSize := Z.min chunkSize remaining in
      let chunk := firstn (Z.to_nat thisChunkSize) (skipn (Z.to_nat offset) configData) in
      let isLast := i =? totalChunks - 1 in
      let endState := if isLast then UPDATE_DR else SHIFT_DR in
      match perform xl (ShiftDR chunk (Z.of_nat (List.length chunk) * 8) false endState) with
      | None => None
      | Some (_, xl) => sendChunks count' xl configData (i + 1) totalChunks
      end
  end.

(** [Math.ceil(n / 4096)]. *)
Definition ceil4096 (n : Z) : Z := (n + 4095) / 4096.

(** What [programSRAM] returns and reports. *)
Record programmed : Type := {
  result : bool;
  initDone : bool;
  done : bool;
  final : logged
}.

(** [programSRAM(bitstream, onProgress)] on a fresh log.  Progress reports,
    console output and the 10 ms delays do not touch the programmer and are
    left out.  [None] stands for a call that does not return. *)
Definition programSRAM (x : XilinxJTAG) (bitstream : list Z) : option programmed :=
  let configData := bitReverse bitstream in
  let xl : logged := (x, []) in
  match perform xl GoTestLogicReset with None => None | Some (_, xl) =>
  match perform xl (ShiftIR JPROGRAM false RUN_TEST_IDLE) with None => None | Some (_, xl) =>
  match pollInit 100 xl with None => None | Some (initDone, xl) =>
  match perform xl (SetState RUN_TEST_IDLE) with None => None | Some (_, xl) =>
  match perform xl (ToggleClk 120000) with None => None | Some (_, xl) =>
  match perform xl (ShiftIR CFG_IN false RUN_TEST_IDLE) with None => None | Some (_, xl) =>
  match perform xl (SetState SELECT_DR_SCAN) with None => None | Some (_, xl) =>
  let totalChunks := ceil4096 (Z.of_nat (List.length configData)) in
  match sendChunks (Z.to_nat totalChunks) xl configData 0 totalChunks with
  | None => None | Some xl =>
  match perform xl (SetState RUN_TEST_IDLE) with None => None | Some (_, xl) =>
  match perform xl (ShiftIR JSTART false UPDATE_IR) with None => None | Some (_, xl) =>
  match perform xl (ToggleClk 2000) with None => None | Some (_, xl) =>
  match perform xl GoTestLogicReset with None => None | Some (_, xl) =>
  match perform xl (ShiftIR BYPASS true RUN_TEST_IDLE) with None => None
  | Some (verifyStatus, xl) =>
      Some {| result := true; initDone := initDone;
              done := statusBit verifyStatus 5; final := xl |}
  end end end end end end end end end end end end end.

(** ** [readIDCODE] and [init] *)

(** An entry of [this.DEVICE_IDS]. *)
Record deviceInfo : Type := {
  name : string;
  family : string;
  board : string
}.

Definition DEVICE_IDS : list (Z * deviceInfo) :=
  [ (0x0362D093, {| name := "XC7A35T"; family := "Artix-7"; board := "Basys 3" |});
    (0x0362C093, {| name := "XC7A35T"; family := "Artix-7"; board := "Basys 3 (ES)" |});
    (0x0362F093, {| name := "XC7S50"; family := "Spartan-7"; board := "Boolean Board" |});
    (0x03727093, {| name := "XC7Z007S"; family := "Zynq-7000"; board := "BlackBoard" |});
    (0x03722093, {| name := "XC7Z010"; family := "Zynq-7000"; board := "Zynq" |});
    (0x03731093, {| name := "XC7Z020"; family := "Zynq-7000"; board := "Zynq" |}) ].

(** [this.DEVICE_IDS[idcode]]. *)
Fixpoint deviceOf (table : list (Z * deviceInfo)) (idcode : Z) : option deviceInfo :=
  match table with
  | [] => None
  | (id, info) :: rest => if idcode =? id then Some info else deviceOf rest idcode
  end.

(** [(b[3] << 24) | (b[2] << 16) | (b[1] << 8) | b[0]]. *)
Definition idcodeOf (idcodeBytes : list Z) : Z :=
  let b := fun i => JS.int (JS.get idcodeBytes i) in
  JS.int32 (Z.lor (Z.lor (Z.lor (Z.shiftl (b 3) 24) (Z.shiftl (b 2) 16))
                         (Z.shiftl (b 1) 8))
                  (b 0)).

(** [readIDCODE()]: the IDCODE and the entry of the table, if there is
    one. *)
Definition readIDCODE (x : XilinxJTAG)
    : option ((Z * option deviceInfo) * XilinxJTAG) :=
  let x := goTestLogicReset x in
  match setState x RUN_TEST_IDLE with
  | None => None
  | Some x =>
      match shiftIR x IDCODE false RUN_TEST_IDLE with
      | None => None
      | Some (_, x) =>
          match shiftDR x (JS.fill 4 0) 32 true RUN_TEST_IDLE with
          | None => None
          | Some (idcodeBytes, x) =>
              let idcode :=
                idcodeOf (match idcodeBytes with Some b => b | None => [] end) in
              Some ((idcode, deviceOf DEVICE_IDS idcode), x)
          end
      end
  end.

(** [init()]. *)
Definition init (x : XilinxJTAG) : option ((Z * option deviceInfo) * XilinxJTAG) :=
  readIDCODE (goTestLogicReset x).

(** ** [_packBits], the loop *)

(** [_packBits(bits)] as the loop has it: one pass over the bits, each
    truthy bit or-ed into its byte of the [Uint8Array]. *)
Definition packBitsLoop (bits : list Z) : list Z :=
  fold_left (fun bytes i =>
               if JS.truthy (JS.get bits i) then
                 JS.set bytes (Z.to_nat (JS.floor8 i))
                   (JS.u8 (Z.lor (JS.int (JS.get bytes (JS.floor8 i)))
                                 (Z.shiftl 1 (JS.rem i 8))))
               else bytes)
            (JS.range (Z.of_nat (List.length bits)))
            (JS.fill (JS.ceil8 (Z.of_nat (List.length bits))) 0).

(** ** Reading the MPSSE stream *)

(** The bytes the driver has handed or will hand to [transferOut], in
    order: the transfers made, then the buffer as [new Uint8Array] will
    take it. *)
Definition stream (f : DigilentFTDI) : list Z :=
  List.concat (sent f) ++ map JS.u8 (buffer f).

(** The commands as the driver documents them.  WRITE_TMS (0x4B, with read
    0x6B) is followed by the number of bits minus 1 and a data byte, whose
    bits go out on TMS from bit 0 on while TDI holds bit 7.  A bit-mode
    write (0x1B, with read 0x3B) is followed by the number of bits minus 1
    and a data byte, whose bits go out on TDI from bit 0 on.  A byte-mode
    write (0x19, with read 0x39) is followed by the number of bytes minus
    1, low byte first, and the data bytes.  CLOCK_BYTES (0x8F) is followed
    by the number of bytes minus 1 and clocks 8 bits for each, CLOCK_BITS
    (0x8E) is followed by the number of bits minus 1; neither has data.
    SEND_IMMEDIATE (0x87) clocks nothing. *)
Inductive awaited : Type :=
  | Opcode
  | BitCount (op : Z)
  | BitData (op n : Z)
  | LengthLow (op : Z)
  | LengthHigh (op lo : Z)
  | ByteData (op n : Z)
  | Unknown.

(** The reader of the stream: what it waits for, the edges clocked so far
    and the number of bytes the device has been asked to return. *)
Record reader : Type := {
  awaits : awaited;
  clocked : list TAP.edge;
  returned : Z
}.

Definition tmsEdges (data n : Z) : list TAP.edge :=
  map (fun i => (Some (Z.testbit data i), Some (Z.testbit data 7))) (JS.range n).

Definition tdiEdges (data n : Z) : list TAP.edge :=
  map (fun i => (None, Some (Z.testbit data i))) (JS.range n).

Definition clockEdges (n : Z) : list TAP.edge :=
  map (fun _ => (None, None)) (JS.range n).

(** A command with the flag DO_READ (0x20) returns a byte for every data
    byte it takes. *)
Definition reads (op : Z) : Z := if Z.testbit op 5 then 1 else 0.

Definition read1 (r : reader) (b : Z) : reader :=
  match awaits r with
  | Opcode =>
      if b =? 0x87 then r
      else if (b =? 0x4B) || (b =? 0x6B) || (b =? 0x1B) || (b =? 0x3B) || (b =? 0x8E)
      then {| awaits := BitCount b; clocked := clocked r; returned := returned r |}
      else if (b =? 0x19) || (b =? 0x39) || (b =? 0x8F)
      then {| awaits := LengthLow b; clocked := clocked r; returned := returned r |}
      else {| awaits := Unknown; clocked := clocked r; returned := returned r |}
  | BitCount op =>
      if op =? 0x8E
      then {| awaits := Opcode; clocked := clocked r ++ clockEdges (b + 1);
              returned := returned r |}
      else {| awaits := BitData op (b + 1); clocked := clocked r;
              returned := returned r |}
  | BitData op n =>
      {| awaits := Opcode;
         clocked := clocked r
                    ++ (if (op =? 0x4B) || (op =? 0x6B) then tmsEdges b n
                        else tdiEdges b n);
         returned := returned r + reads op |}
  | LengthLow op =>
      {| awaits := LengthHigh op b; clocked := clocked r; returned := returned r |}
  | LengthHigh op lo =>
      let n := lo + 256 * b + 1 in
      if op =? 0x8F
      then {| awaits := Opcode; clocked := clocked r ++ clockEdges (8 * n);
              returned := returned r |}
      else {| awaits := ByteData op n; clocked := clocked r; returned := returned r |}
  | ByteData op n =>
      {| awaits := if n <=? 1 then Opcode else ByteData op (n - 1);
         clocked := clocked r ++ tdiEdges b 8;
         returned := returned r + reads op |}
  | Unknown => r
  end.

(** [bytes] is a sequence of whole commands that clock [edges] and ask
    for [k] bytes. *)
Definition carries (bytes : list Z) (edges : list TAP.edge) (k : Z) : Prop :=
  forall c n,
    fold_left read1 bytes {| awaits := Opcode; clocked := c; returned := n |}
    = {| awaits := Opcode; clocked := c ++ edges; returned := n + k |}.

(** Bit [i] of an array of bytes, bit 0 of byte 0 first. *)
Definition bitOf (bytes : list Z) (i : Z) : bool :=
  Z.testbit (JS.int (JS.get bytes (i / 8))) (i mod 8).

End Xilinx.

(* ================================================================== *)
(** * The application: [FPGAProgrammer] *)
(* ================================================================== *)

Module App.

(** ** The SVF tab *)

(** [programDevice()] for a connected adapter and a parsed SVF file: a
    fresh TAP engine, [reset], then every command in file order.  [Throw]
    is the error the [catch] block reports as "Programming failed"; the
    progress bar and the log are left out. *)
Definition programDevice (threshold : Z) (svfCommands : list TAP.command)
    : outcome TAP.machine :=
  let jtag := TAP.constructor in
  let jtag := TAP.reset jtag in
  TAP.executeCommands threshold jtag svfCommands.

(** ** The BIT tab *)

(** The [info] object of [parseBitHeader]; a text field holds the
    character codes that [String.fromCharCode] receives. *)
Record bitInfo : Type := {
  designName : option (list Z);
  deviceName : option (list Z);
  date : option (list Z);
  time : option (list Z);
  dataOffset : option Z;
  dataLength : option Z
}.

Definition noInfo : bitInfo :=
  {| designName := None; deviceName := None; date := None; time := None;
     dataOffset := None; dataLength := None |}.

(** [data[i]] under [<<] and [|]: a byte, or 0 beyond the file. *)
Definition byteAt (data : list Z) (i : Z) : Z := JS.int (JS.get data i).

(** [(data[i] << 8) | data[i + 1]]. *)
Definition word16 (data : list Z) (i : Z) : Z :=
  Z.lor (Z.shiftl (byteAt data i) 8) (byteAt data (i + 1)).

(** [(data[i] << 24) | (data[i + 1] << 16) | (data[i + 2] << 8) | data[i + 3]]. *)
Definition word32 (data : list Z) (i : Z) : Z :=
  JS.int32 (Z.lor (Z.lor (Z.lor (Z.shiftl (byteAt data i) 24)
                             (Z.shiftl (byteAt data (i + 1)) 16))
                      (Z.shiftl (byteAt data (i + 2)) 8))
               (byteAt data (i + 3))).

(** The [while] loop over the tagged fields; [offset] grows in every
    round and stays below 500, so 500 rounds of fuel are enough.  A text
    field is taken without its last byte. *)
Fixpoint headerLoop (fuel : nat) (data : list Z) (offset : Z) (info : bitInfo) : bitInfo :=
  match fuel with
  | O => info
  | S fuel' =>
      if offset <? Z.min (Z.of_nat (List.length data)) 500 then
        let tag := byteAt data offset in
        let offset := offset + 1 in
        let len := word16 data offset in
        let text := SVF.slice data (offset + 2) (offset + 2 + len - 1) in
        if tag =? 0x61 then
          headerLoop fuel' data (offset + 2 + len)
            {| designName := Some text; deviceName := deviceName info;
               date := date info; time := time info;
               dataOffset := dataOffset info; dataLength := dataLength info |}
        else if tag =? 0x62 then
          headerLoop fuel' data (offset + 2 + len)
            {| designName := designName info; deviceName := Some text;
               date := date info; time := time info;
               dataOffset := dataOffset info; dataLength := dataLength info |}
        else if tag =? 0x63 then
          headerLoop fuel' data (offset + 2 + len)
            {| designName := designName info; deviceName := deviceName info;
               date := Some text; time := time info;
               dataOffset := dataOffset info; dataLength := dataLength info |}
        else if tag =? 0x64 then
          headerLoop fuel' data (offset + 2 + len)
            {| designName := designName info; deviceName := deviceName info;
               date := date info; time := Some text;
               dataOffset := dataOffset info; dataLength := dataLength info |}
        else if tag =? 0x65 then
          {| designName := designName info; deviceName := deviceName info;
             date := date info; time := time info;
             dataOffset := Some (offset + 4); dataLength := Some (word32 data offset) |}
        else info
      else info
  end.

(** [parseBitHeader(data)] on the bytes of the file. *)
Definition parseBitHeader (data : list Z) : bitInfo :=
  let headerLen := word16 data 0 in
  let offset := 2 + headerLen in
  let offset := offset + 2 in
  headerLoop 500 data offset noInfo.

(** The configuration data [programBitDevice] extracts: the slice that
    the header names, or the whole file when [dataOffset] is not set. *)
Definition configDataOf (bitData : list Z) (info : bitInfo) : list Z :=
  match dataOffset info, dataLength info with
  | Some off, Some len =>
      if off =? 0 then bitData else SVF.slice bitData off (off + len)
  | _, _ => bitData
  end.

(** [programBitDevice()] for a connected programmer and a loaded file. *)
Definition programBitDevice (xilinxJtag : Xilinx.XilinxJTAG) (bitData : list Z)
    : option Xilinx.programmed :=
  let bitInfo := parseBitHeader bitData in
  Xilinx.programSRAM xilinxJtag (configDataOf bitData bitInfo).

End App.

(* ================================================================== *)
(** * Facts about the JavaScript helpers *)
(* ================================================================== *)

Module JSFacts.

Lemma range_In n i : In i (JS.range n) <-> 0 <= i < n.
Proof.
  unfold JS.range. rewrite in_map_iff. split.
  - intros [k [<- Hk]]. apply in_seq in Hk. lia.
  - intros H. exists (Z.to_nat i). split; [lia|]. apply in_seq. lia.
Qed.

Lemma range_length n : List.length (JS.range n) = Z.to_nat n.
Proof. unfold JS.range. rewrite length_map, length_seq. reflexivity. Qed.

Lemma range_nonpos n : n <= 0 -> JS.range n = [].
Proof.
  intros H. unfold JS.range. replace (Z.to_nat n) with O by lia. reflexivity.
Qed.

Lemma range_snoc n : 0 < n -> JS.range n = JS.range (n - 1) ++ [n - 1].
Proof.
  intros H. unfold JS.range.
  replace (Z.to_nat n) with (S (Z.to_nat (n - 1))) by lia.
  rewrite seq_S, map_app. cbn [map Nat.add]. f_equal. f_equal. lia.
Qed.

Lemma seq_from_zero : forall k s, seq s k = map (fun i => (s + i)%nat) (seq 0 k).
Proof.
  induction k as [|k IH]; intros s; [reflexivity|].
  cbn [seq map]. f_equal; [lia|].
  rewrite (IH (S s)), (IH 1%nat), map_map. apply map_ext. intros; lia.
Qed.

Lemma range_app a b : 0 <= a -> 0 <= b ->
  JS.range (a + b) = JS.range a ++ map (fun i => a + i) (JS.range b).
Proof.
  intros Ha Hb. unfold JS.range.
  replace (Z.to_nat (a + b)) with (Z.to_nat a + Z.to_nat b)%nat by lia.
  rewrite seq_app, map_app. f_equal. cbn [Nat.add].
  rewrite (seq_from_zero (Z.to_nat b) (Z.to_nat a)), !map_map.
  apply map_ext. intros; lia.
Qed.

Lemma get_map_range {A} (g : Z -> A) n i :
  0 <= i < n -> JS.get (map g (JS.range n)) i = Some (g i).
Proof.
  intros H. unfold JS.get, JS.range.
  destruct (Z.ltb_spec i 0); [lia|].
  rewrite map_map. rewrite nth_error_map.
  rewrite nth_error_nth' with (d := O) by (rewrite length_seq; lia).
  rewrite seq_nth by lia. cbn. f_equal. f_equal. lia.
Qed.

Lemma get_fill {A} (v : A) n i : 0 <= i < n -> JS.get (JS.fill n v) i = Some v.
Proof.
  intros H. unfold JS.get, JS.fill.
  destruct (Z.ltb_spec i 0); [lia|].
  rewrite nth_error_repeat by lia. reflexivity.
Qed.

Lemma nth_error_set {A} (v : A) : forall l i j,
  nth_error (JS.set l i v) j
  = if Nat.eqb j i then (if Nat.ltb i (List.length l) then Some v else None)
    else nth_error l j.
Proof.
  induction l as [|h t IH]; intros i j.
  - simpl. destruct j, (Nat.eqb _ _); reflexivity.
  - destruct i as [|i], j as [|j]; cbn [JS.set nth_error Nat.eqb]; try reflexivity.
    rewrite IH. cbn [List.length].
    change (Nat.ltb (S i) (S (List.length t))) with (Nat.ltb i (List.length t)).
    reflexivity.
Qed.

Lemma land1_cases x : Z.land x 1 = 0 \/ Z.land x 1 = 1.
Proof.
  replace (Z.land x 1) with (x mod 2).
  - pose proof (Z.mod_pos_bound x 2). lia.
  - symmetry. apply (Z.land_ones x 1). lia.
Qed.

(** ** Words made of bytes *)

Lemma lor_shiftl_low hi lo k :
  0 <= k -> 0 <= lo < 2 ^ k -> Z.lor (Z.shiftl hi k) lo = hi * 2 ^ k + lo.
Proof.
  intros Hk Hlo.
  assert (L : Z.land (Z.shiftl hi k) lo = 0).
  { apply Z.bits_inj'. intros n Hn. rewrite Z.land_spec, Z.bits_0.
    destruct (Z.ltb_spec n k) as [B|B].
    - rewrite Z.shiftl_spec_low by exact B. reflexivity.
    - assert (T : Z.testbit lo n = false).
      { destruct (Z.eqb_spec lo 0) as [->|N]; [apply Z.bits_0|].
        apply Z.bits_above_log2; [lia|].
        apply Z.log2_lt_pow2; [lia|].
        apply Z.lt_le_trans with (2 ^ k); [lia|].
        apply Z.pow_le_mono_r; lia. }
      rewrite T. apply andb_false_r. }
  rewrite <- Z.lxor_lor by exact L. rewrite <- Z.add_nocarry_lxor by exact L.
  rewrite Z.shiftl_mul_pow2 by exact Hk. reflexivity.
Qed.

Lemma lor_aligned a b k :
  0 <= k -> a mod 2 ^ k = 0 -> 0 <= b < 2 ^ k -> Z.lor a b = a + b.
Proof.
  intros Hk Ha Hb.
  assert (P : 0 < 2 ^ k) by (apply Z.pow_pos_nonneg; lia).
  assert (E : a = Z.shiftl (a / 2 ^ k) k).
  { rewrite Z.shiftl_mul_pow2 by exact Hk.
    pose proof (Z.div_mod a (2 ^ k)). lia. }
  rewrite E at 1. rewrite lor_shiftl_low by assumption.
  pose proof (Z.div_mod a (2 ^ k)). lia.
Qed.

(** [(b3 << 24) | (b2 << 16) | (b1 << 8) | b0] on four bytes, before the
    result is taken as a signed 32-bit integer. *)
Lemma lor_bytes b3 b2 b1 b0 :
  0 <= b3 < 256 -> 0 <= b2 < 256 -> 0 <= b1 < 256 -> 0 <= b0 < 256 ->
  Z.lor (Z.lor (Z.lor (Z.shiftl b3 24) (Z.shiftl b2 16)) (Z.shiftl b1 8)) b0
  = b3 * 16777216 + b2 * 65536 + b1 * 256 + b0.
Proof.
  intros H3 H2 H1 H0.
  rewrite !Z.shiftl_mul_pow2 by lia.
  change (2 ^ 24) with 16777216. change (2 ^ 16) with 65536. change (2 ^ 8) with 256.
  rewrite (lor_aligned (b3 * 16777216) (b2 * 65536) 24);
    [|lia|change (2 ^ 24) with 16777216; apply Z.mod_mul; lia
      |change (2 ^ 24) with 16777216; lia].
  rewrite (lor_aligned (b3 * 16777216 + b2 * 65536) (b1 * 256) 16);
    [|lia|change (2 ^ 16) with 65536;
          replace (b3 * 16777216 + b2 * 65536) with (0 + (b3 * 256 + b2) * 65536) by lia;
          rewrite Z.mod_add by lia; reflexivity
      |change (2 ^ 16) with 65536; lia].
  rewrite (lor_aligned (b3 * 16777216 + b2 * 65536 + b1 * 256) b0 8);
    [|lia|change (2 ^ 8) with 256;
          replace (b3 * 16777216 + b2 * 65536 + b1 * 256)
            with (0 + (b3 * 65536 + b2 * 256 + b1) * 256) by lia;
          rewrite Z.mod_add by lia; reflexivity
      |change (2 ^ 8) with 256; lia].
  reflexivity.
Qed.

Lemma int32_small v : -2147483648 <= v < 2147483648 -> JS.int32 v = v.
Proof. intros H. unfold JS.int32. rewrite Z.mod_small by lia. lia. Qed.

(** ** Bits of bytes *)

Lemma testbit_one i : Z.testbit 1 i = (i =? 0).
Proof.
  destruct (Z.eqb_spec i 0) as [->|N]; [reflexivity|].
  destruct (Z.ltb_spec i 0) as [L|L]; [apply Z.testbit_neg_r; exact L|].
  apply Z.bits_above_log2; [lia|]. change (Z.log2 1) with 0. lia.
Qed.

(** The byte a loop over bit positions builds: bit [j] is set for the
    positions [j] of the loop for which the condition holds. *)
Definition orBits (c : Z -> bool) (l : list Z) (acc : Z) : Z :=
  fold_left (fun byte bit => if c bit then Z.lor byte (Z.shiftl 1 bit) else byte) l acc.

Lemma orBits_testbit (c : Z -> bool) : forall (l : list Z) (acc j : Z),
  0 <= j ->
  Z.testbit (orBits c l acc) j
  = Z.testbit acc j || existsb (fun e => (e =? j) && c e) l.
Proof.
  unfold orBits.
  induction l as [|e l IH]; intros acc j Hj; cbn [fold_left existsb].
  - rewrite orb_false_r. reflexivity.
  - rewrite IH by assumption.
    destruct (c e) eqn:C; cbn [andb].
    + rewrite Z.lor_spec, Z.shiftl_spec by exact Hj.
      rewrite andb_true_r, <- orb_assoc. f_equal. f_equal.
      rewrite testbit_one.
      destruct (Z.eqb_spec e j), (Z.eqb_spec (j - e) 0); try reflexivity; lia.
    + rewrite andb_false_r. reflexivity.
Qed.

Lemma orBits_nonneg (c : Z -> bool) : forall (l : list Z) (acc : Z),
  0 <= acc -> Forall (fun e => 0 <= e) l -> 0 <= orBits c l acc.
Proof.
  unfold orBits.
  induction l as [|e l IH]; intros acc Ha H; cbn [fold_left]; [exact Ha|].
  inversion H as [|? ? He Hl]; subst. apply IH; [|exact Hl].
  destruct (c e); [|exact Ha]. apply Z.lor_nonneg. split; [exact Ha|].
  apply Z.shiftl_nonneg. lia.
Qed.

Lemma existsb_range (f : Z -> bool) n j :
  existsb (fun e => (e =? j) && f e) (JS.range n) = (0 <=? j) && (j <? n) && f j.
Proof.
  apply eq_iff_eq_true. rewrite existsb_exists, !andb_true_iff, Z.leb_le, Z.ltb_lt.
  split.
  - intros [e [I E]]. apply JSFacts.range_In in I. apply andb_true_iff in E.
    destruct E as [E1 E2]. apply Z.eqb_eq in E1. subst e.
    split; [split; lia|exact E2].
  - intros [[L U] F]. exists j. split; [apply JSFacts.range_In; lia|].
    rewrite Z.eqb_refl. exact F.
Qed.

Lemma testbit_u8 x i : 0 <= i < 8 -> Z.testbit (JS.u8 x) i = Z.testbit x i.
Proof.
  intros H. unfold JS.u8. change 256 with (2 ^ 8).
  apply Z.mod_pow2_bits_low. lia.
Qed.

(** [(byte >> bitIdx) & 1] is bit [bitIdx] of the byte. *)
Lemma bit_of_shift x i :
  0 <= i < 32 -> Z.land (JS.shr x i) 1 = if Z.testbit x i then 1 else 0.
Proof.
  intros H. unfold JS.shr.
  replace (Z.land i 31) with i.
  - change 1 with (Z.ones 1) at 1. rewrite Z.land_ones by lia. change (2 ^ 1) with 2.
    rewrite <- Z.bit0_mod, Z.shiftr_spec by lia. rewrite Z.add_0_l.
    destruct (Z.testbit x i); reflexivity.
  - change 31 with (Z.ones 5). rewrite Z.land_ones by lia.
    change (2 ^ 5) with 32. symmetry. apply Z.mod_small. exact H.
Qed.

Lemma orBits_fold (b : Z -> bool) (l : list Z) (acc : Z) :
  fold_left (fun byte i => Z.lor byte (Z.shiftl (if b i then 1 else 0) i)) l acc
  = orBits b l acc.
Proof.
  unfold orBits. revert acc. induction l as [|e l IH]; intros acc; [reflexivity|].
  cbn [fold_left]. rewrite IH. destruct (b e); [reflexivity|].
  rewrite Z.shiftl_0_l, Z.lor_0_r. reflexivity.
Qed.

Lemma fold_left_ext_in {A B} (f g : A -> B -> A) (l : list B) :
  (forall a x, In x l -> f a x = g a x) ->
  forall a, fold_left f l a = fold_left g l a.
Proof.
  induction l as [|x l IH]; intros H a; [reflexivity|].
  cbn [fold_left]. rewrite H by (left; reflexivity).
  apply IH. intros a' y I. apply H. right. exact I.
Qed.

Lemma range8_bytes {A} (g : Z -> A) : forall n : nat,
  flat_map (fun i => map (fun b => g (8 * i + b)) (JS.range 8)) (JS.range (Z.of_nat n))
  = map g (JS.range (8 * Z.of_nat n)).
Proof.
  induction n as [|n IH]; [reflexivity|].
  rewrite Nat2Z.inj_succ, <- Z.add_1_r.
  rewrite (JSFacts.range_app (Z.of_nat n) 1) by lia.
  rewrite flat_map_app, IH.
  replace (8 * (Z.of_nat n + 1)) with (8 * Z.of_nat n + 8) by lia.
  rewrite (JSFacts.range_app (8 * Z.of_nat n) 8) by lia.
  rewrite map_app. f_equal.
  change (JS.range 1) with [0]. cbn [map flat_map]. rewrite app_nil_r, map_map.
  apply map_ext. intros b. f_equal. lia.
Qed.

Lemma flat_map_map {A B C} (f : B -> list C) (g : A -> B) (l : list A) :
  flat_map f (map g l) = flat_map (fun x => f (g x)) l.
Proof.
  induction l as [|x l IH]; [reflexivity|]. cbn [map flat_map]. rewrite IH. reflexivity.
Qed.

Lemma land_shiftr_bit x i : 0 <= i -> Z.land (Z.shiftr x i) 1 = Z.b2z (Z.testbit x i).
Proof.
  intros H. change 1 with (Z.ones 1). rewrite Z.land_ones by lia. change (2 ^ 1) with 2.
  rewrite <- Z.bit0_mod, Z.shiftr_spec by lia. rewrite Z.add_0_l. reflexivity.
Qed.

End JSFacts.

(* ================================================================== *)
(** * Properties of the TAP engine *)
(* ================================================================== *)

Module TAPFacts.
Import TAP.

(** ** Path search *)

Definition is_bit (b : Z) : bool := (b =? 0) || (b =? 1).

(** The successors of a state in the transition graph. *)
Definition successors (s : string) : list string :=
  match lookup s stateTransitions with
  | Some (on0, on1) => [on0; on1]
  | None => []
  end.

(** [t] can be reached from [s] along at most [k] edges of the graph. *)
Fixpoint reach_within (k : nat) (s t : string) : bool :=
  String.eqb s t ||
  match k with
  | O => false
  | S k' => existsb (fun s' => reach_within k' s' t) (successors s)
  end.

(** Lexicographic order on TMS sequences, 0 before 1. *)
Fixpoint lex_leb (p q : list Z) : bool :=
  match p, q with
  | [], _ => true
  | _ :: _, [] => false
  | a :: p', b :: q' => (a <? b) || ((a =? b) && lex_leb p' q')
  end.

(** All sequences of [n] bits. *)
Fixpoint all_bit_lists (n : nat) : list (list Z) :=
  match n with
  | O => [[]]
  | S n' => map (cons 0) (all_bit_lists n') ++ map (cons 1) (all_bit_lists n')
  end.

Lemma reach_within_refl k s : reach_within k s s = true.
Proof. destruct k; simpl; rewrite String.eqb_refl; reflexivity. Qed.

Lemma reach_within_S k : forall s t,
  reach_within k s t = true -> reach_within (S k) s t = true.
Proof.
  induction k as [|k IH]; intros s t H.
  - simpl in H. rewrite orb_false_r in H. simpl. rewrite H. reflexivity.
  - change (String.eqb s t
            || existsb (fun s' => reach_within (S k) s' t) (successors s) = true).
    simpl in H. apply orb_true_iff in H. apply orb_true_iff.
    destruct H as [H|H]; [left; exact H|right].
    apply existsb_exists in H. destruct H as [s' [Hin Hs']].
    apply existsb_exists. exists s'. split; [exact Hin|]. apply IH. exact Hs'.
Qed.

Lemma transition_successor s tms s' :
  transition s tms = Some s' -> In s' (successors s).
Proof.
  unfold transition, successors.
  destruct (lookup s stateTransitions) as [[on0 on1]|]; [|discriminate].
  destruct (tms =? 0); [intros [= <-]; left; reflexivity|].
  destruct (tms =? 1); [intros [= <-]; right; left; reflexivity|discriminate].
Qed.

Lemma reach_within_step k s s' t :
  In s' (successors s) -> reach_within k s' t = true ->
  reach_within (S k) s t = true.
Proof.
  intros Hin H.
  change (String.eqb s t
          || existsb (fun s' => reach_within k s' t) (successors s) = true).
  apply orb_true_iff. right. apply existsb_exists. exists s'. auto.
Qed.

(** Whatever a TMS sequence of length [n] leads to lies within [n] edges. *)
Lemma applyTMSSequence_reach : forall q s,
  reach_within (List.length q) s (applyTMSSequence s q) = true.
Proof.
  induction q as [|tms q IH]; intros s.
  - apply reach_within_refl.
  - cbn [applyTMSSequence List.length].
    destruct (transition s tms) as [s'|] eqn:E.
    + eapply reach_within_step; [eapply transition_successor; exact E|apply IH].
    + apply reach_within_S. apply IH.
Qed.

Lemma all_bit_lists_complete : forall q,
  forallb is_bit q = true -> In q (all_bit_lists (List.length q)).
Proof.
  induction q as [|b q IH]; intros H.
  - left. reflexivity.
  - cbn [forallb] in H. apply andb_true_iff in H. destruct H as [Hb Hq].
    cbn [List.length all_bit_lists]. apply in_or_app.
    unfold is_bit in Hb. apply orb_true_iff in Hb.
    destruct Hb as [Hb|Hb]; apply Z.eqb_eq in Hb; subst b;
      [left|right]; apply in_map; apply IH; exact Hq.
Qed.

(** ** The fuel of the search is enough for every pair of strings *)

(** The states of the table the search has not visited yet. *)
Definition unvisited (visited : list string) : list string :=
  filter (fun s => negb (has visited s)) states.

Lemma lookup_In {A} k (tbl : list (string * A)) v :
  lookup k tbl = Some v -> exists k', In (k', v) tbl.
Proof.
  induction tbl as [|[k' v'] tbl IH]; simpl; [discriminate|].
  destruct (String.eqb k k').
  - intros [= ->]. exists k'. left. reflexivity.
  - intros H. destruct (IH H) as [k'' Hin]. exists k''. right. exact Hin.
Qed.

Lemma table_closed :
  forallb (fun e => has states (fst (snd e)) && has states (snd (snd e)))
    stateTransitions = true.
Proof. vm_compute. reflexivity. Qed.

Lemma has_In v s : has v s = true <-> In s v.
Proof.
  unfold has. rewrite existsb_exists. split.
  - intros [x [Hin E]]. apply String.eqb_eq in E. subst. exact Hin.
  - intros Hin. exists s. split; [exact Hin|apply String.eqb_refl].
Qed.

Lemma transition_in_states s tms s' :
  transition s tms = Some s' -> In s' states.
Proof.
  unfold transition.
  destruct (lookup s stateTransitions) as [[on0 on1]|] eqn:E; [|discriminate].
  apply lookup_In in E. destruct E as [k Hin].
  pose proof table_closed as C. rewrite forallb_forall in C.
  specialize (C _ Hin). cbn [fst snd] in C. apply andb_true_iff in C.
  destruct C as [C0 C1]. apply has_In in C0. apply has_In in C1.
  destruct (tms =? 0); [intros [= <-]; exact C0|].
  destruct (tms =? 1); [intros [= <-]; exact C1|discriminate].
Qed.

Lemma filter_length_drop (f g : string -> bool) (l : list string) x :
  (forall y, g y = true -> f y = true) ->
  In x l -> f x = true -> g x = false ->
  (List.length (filter g l) < List.length (filter f l))%nat.
Proof.
  intros Hgf. induction l as [|a l IH]; intros Hin Hf Hg; [destruct Hin|].
  assert (Hle : forall l', (List.length (filter g l') <= List.length (filter f l'))%nat).
  { induction l' as [|b l' IH']; simpl; [lia|].
    destruct (g b) eqn:Gb.
    - rewrite (Hgf b Gb). simpl. lia.
    - destruct (f b); simpl; lia. }
  destruct Hin as [->|Hin].
  - simpl. rewrite Hf, Hg. simpl. specialize (Hle l). lia.
  - specialize (IH Hin Hf Hg). simpl.
    destruct (g a) eqn:Ga.
    + rewrite (Hgf a Ga). simpl. lia.
    + destruct (f a); simpl; lia.
Qed.

Lemma unvisited_add v s :
  In s states -> has v s = false ->
  (List.length (unvisited (s :: v)) < List.length (unvisited v))%nat.
Proof.
  intros Hin Hv. unfold unvisited. apply filter_length_drop with (x := s).
  - intros y Hy. apply negb_true_iff in Hy. apply negb_true_iff.
    unfold has in *. simpl in Hy. apply orb_false_iff in Hy. apply Hy.
  - exact Hin.
  - rewrite Hv. reflexivity.
  - unfold has. simpl. rewrite String.eqb_refl. reflexivity.
Qed.

Lemma for_tms_measure : forall tmss state path to q v q' v',
  for_tms tmss state path to q v = Next q' v' ->
  (List.length q' + List.length (unvisited v')
   <= List.length q + List.length (unvisited v))%nat.
Proof.
  induction tmss as [|tms tmss IH]; intros state path to q v q' v' H.
  - simpl in H. injection H as <- <-. lia.
  - simpl in H. destruct (transition state tms) as [ns|] eqn:T.
    + destruct (has v ns) eqn:Hv; [apply (IH _ _ _ _ _ _ _ H)|].
      destruct (String.eqb ns to); [discriminate|].
      apply IH in H. rewrite length_app in H. simpl in H.
      pose proof (unvisited_add v ns (transition_in_states _ _ _ T) Hv). lia.
    + apply (IH _ _ _ _ _ _ _ H).
Qed.

Lemma while_queue_fuel : forall fuel to q v,
  (List.length q + List.length (unvisited v) <= fuel)%nat ->
  while_queue fuel to q v <> None.
Proof.
  induction fuel as [|fuel IH]; intros to q v H.
  - destruct q as [|[state path] q]; simpl in *; [discriminate|lia].
  - destruct q as [|[state path] q]; [simpl; discriminate|].
    cbn [while_queue].
    destruct (for_tms [0; 1] state path to q v) as [p|q' v'] eqn:F; [discriminate|].
    apply IH. apply for_tms_measure in F. simpl in H. lia.
Qed.

(** The search returns for every pair of strings, states or not. *)
Lemma findStatePath_fuel_enough (from to : string) :
  findStatePath_fuel 17 from to <> None.
Proof.
  unfold findStatePath_fuel. destruct (String.eqb from to); [discriminate|].
  apply while_queue_fuel.
  assert (List.length (unvisited [from]) <= 16)%nat.
  { unfold unvisited. etransitivity; [apply filter_length_le|].
    vm_compute. lia. }
  simpl List.length at 1. lia.
Qed.

(** Everything the search has to satisfy for one pair of states, as a
    computation. *)
Definition path_ok (s1 s2 : string) (p : list Z) : bool :=
  forallb is_bit p
  && String.eqb (applyTMSSequence s1 p) s2
  && forallb (fun k => negb (reach_within k s1 s2)) (seq 0 (List.length p))
  && (negb (String.eqb s1 s2) || (Z.of_nat (List.length p) =? 0))
  && forallb (fun q => negb (String.eqb (applyTMSSequence s1 q) s2) || lex_leb p q)
       (all_bit_lists (List.length p)).

Definition pair_ok (s1 s2 : string) : bool :=
  match findStatePath_fuel 17 s1 s2 with
  | Some p => path_ok s1 s2 p
  | None => false
  end.

Lemma all_pairs_ok :
  forallb (fun s1 => forallb (pair_ok s1) states) states = true.
Proof. vm_compute. reflexivity. Qed.

Lemma pair_ok_states s1 s2 :
  In s1 states -> In s2 states -> pair_ok s1 s2 = true.
Proof.
  intros H1 H2. pose proof all_pairs_ok as H.
  rewrite forallb_forall in H. specialize (H s1 H1).
  rewrite forallb_forall in H. exact (H s2 H2).
Qed.

(** C1. For every pair of the 16 TAP states the search returns (within its
    fuel) a sequence of TMS bits that leads from [s1] to [s2] through the
    transition table, no TMS sequence that leads from [s1] to [s2] is
    shorter, the sequence is empty when [s1 = s2], and among the bit
    sequences of the same length that lead from [s1] to [s2] it is the
    first in the order that puts TMS=0 before TMS=1. *)
Theorem findStatePath_shortest (s1 s2 : string) :
  In s1 states -> In s2 states ->
  findStatePath_fuel 17 s1 s2 = Some (findStatePath s1 s2)
  /\ Forall (fun b => b = 0 \/ b = 1) (findStatePath s1 s2)
  /\ applyTMSSequence s1 (findStatePath s1 s2) = s2
  /\ (forall q, applyTMSSequence s1 q = s2 ->
        (List.length (findStatePath s1 s2) <= List.length q)%nat)
  /\ (s1 = s2 -> findStatePath s1 s2 = [])
  /\ (forall q, Forall (fun b => b = 0 \/ b = 1) q ->
        applyTMSSequence s1 q = s2 ->
        List.length q = List.length (findStatePath s1 s2) ->
        lex_leb (findStatePath s1 s2) q = true).
Proof.
  intros H1 H2. pose proof (pair_ok_states s1 s2 H1 H2) as Hok.
  unfold pair_ok in Hok. unfold findStatePath.
  destruct (findStatePath_fuel 17 s1 s2) as [p|]; [|discriminate].
  unfold path_ok in Hok.
  repeat (apply andb_true_iff in Hok; destruct Hok as [Hok ?]).
  rename Hok into Hbits, H into Hlex, H0 into Hnil, H3 into Hshort, H4 into Hrun.
  apply String.eqb_eq in Hrun.
  split; [reflexivity|]. split.
  { apply Forall_forall. intros b Hb. rewrite forallb_forall in Hbits.
    specialize (Hbits b Hb). unfold is_bit in Hbits.
    apply orb_true_iff in Hbits. destruct Hbits as [E|E]; apply Z.eqb_eq in E; auto. }
  split; [exact Hrun|]. split.
  { intros q Hq. destruct (Nat.le_gt_cases (List.length p) (List.length q)) as [L|L];
      [exact L|exfalso].
    rewrite forallb_forall in Hshort.
    assert (Hin : In (List.length q) (seq 0 (List.length p)))
      by (apply in_seq; lia).
    specialize (Hshort _ Hin).
    pose proof (applyTMSSequence_reach q s1) as R. rewrite Hq in R.
    rewrite R in Hshort. discriminate. }
  split.
  { intros ->. rewrite String.eqb_refl in Hnil. simpl in Hnil.
    destruct p; [reflexivity|]. cbn in Hnil. discriminate. }
  intros q Hqbits Hq Hlen.
  rewrite forallb_forall in Hlex.
  assert (Hin : In q (all_bit_lists (List.length p))).
  { rewrite <- Hlen. apply all_bit_lists_complete.
    apply forallb_forall. intros b Hb. rewrite Forall_forall in Hqbits.
    unfold is_bit. destruct (Hqbits b Hb) as [-> | ->]; reflexivity. }
  specialize (Hlex q Hin). rewrite Hq, String.eqb_refl in Hlex. exact Hlex.
Qed.

(** The sixteen states as a witness of the theorem: scenario A, the path
    from RESET to DRSHIFT. *)
Lemma findStatePath_shortest_witness :
  findStatePath RESET DRSHIFT = [0; 1; 0; 0]
  /\ applyTMSSequence RESET (findStatePath RESET DRSHIFT) = DRSHIFT.
Proof.
  pose proof (findStatePath_shortest RESET DRSHIFT) as H.
  split.
  - reflexivity.
  - apply H; vm_compute; tauto.
Defined.

(** ** The tracked state after a shift *)

Lemma findStatePath_reaches s1 s2 :
  In s1 states -> In s2 states ->
  applyTMSSequence s1 (findStatePath s1 s2) = s2.
Proof.
  intros H1 H2. pose proof (pair_ok_states s1 s2 H1 H2) as Hok.
  unfold pair_ok in Hok. unfold findStatePath.
  destruct (findStatePath_fuel 17 s1 s2) as [p|]; [|discriminate].
  unfold path_ok in Hok.
  do 3 (apply andb_true_iff in Hok; destruct Hok as [Hok _]).
  apply andb_true_iff in Hok. destruct Hok as [_ Hrun].
  apply String.eqb_eq in Hrun. exact Hrun.
Qed.

Lemma applyTMSSequence_in_states : forall l s,
  In s states -> In (applyTMSSequence s l) states.
Proof.
  induction l as [|tms l IH]; intros s Hs; [exact Hs|].
  simpl. destruct (transition s tms) as [s'|] eqn:E.
  - apply IH. eapply transition_in_states. exact E.
  - apply IH. exact Hs.
Qed.

Lemma moveToState_currentState m t :
  In (currentState m) states -> In t states ->
  currentState (moveToState m t) = t.
Proof.
  intros Hc Ht. pose proof (findStatePath_reaches _ _ Hc Ht) as R.
  unfold moveToState.
  destruct (Z.of_nat (List.length (findStatePath (currentState m) t)) =? 0) eqn:E.
  - apply Z.eqb_eq in E.
    destruct (findStatePath (currentState m) t); [exact R|simpl in E; lia].
  - exact R.
Qed.

Lemma moveToState_ends m t :
  endIRState (moveToState m t) = endIRState m
  /\ endDRState (moveToState m t) = endDRState m.
Proof.
  unfold moveToState.
  destruct (Z.of_nat (List.length (findStatePath (currentState m) t)) =? 0);
    split; reflexivity.
Qed.

Section EngineFacts.
Variable threshold : Z.





End EngineFacts.

(** A witness of C3 on both paths of [shiftData]: an 8-bit SIR from the
    constructor's state, and a 2048-bit SDR, with the threshold 1000. *)
Definition sir8 : command :=
  {| cmd_type := "SIR"; cmd_length := Some 8; cmd_tdi := Some [85];
     cmd_tdo := None; cmd_mask := None; cmd_smask := None; cmd_states := [];
     cmd_state := None; cmd_cycles := None; cmd_endState := None;
     cmd_mode := None; cmd_raw := None |}.

Definition sdr2048 : command :=
  {| cmd_type := "SDR"; cmd_length := Some 2048; cmd_tdi := Some (JS.fill 256 165);
     cmd_tdo := None; cmd_mask := None; cmd_smask := None; cmd_states := [];
     cmd_state := None; cmd_cycles := None; cmd_endState := None;
     cmd_mode := None; cmd_raw := None |}.




(** ** What is shifted while the TAP is in a shift state *)

(** How the adapter reads an element of a bit array: [x ? 1 : 0]. *)
Definition bit01 (v : option Z) : Z := if JS.truthy v then 1 else 0.

(** The (TDI, TMS) pair the engine asks the adapter to present on each TCK
    edge of a call.  [shiftBytes] holds TMS at 0 on all bits but the last,
    where it is 1; [toggleClockCycles] clocks with TDI = TMS = 0. *)
Definition requested_edges (c : usb_call) : list (Z * Z) :=
  match c with
  | ShiftBits tdiBits tmsBits bitLength _ =>
      map (fun i => (bit01 (JS.get tdiBits i), bit01 (JS.get tmsBits i)))
          (JS.range bitLength)
  | ShiftBytes tdiBytes bitLength =>
      map (fun i =>
             (Z.land (Z.shiftr (JS.int (JS.get tdiBytes (JS.floor8 i))) (i mod 8)) 1,
              if i =? bitLength - 1 then 1 else 0))
          (JS.range bitLength)
  | ToggleClockCycles cycles => map (fun _ => (0, 0)) (JS.range cycles)
  end.

(** One TCK edge of the device's TAP. *)
Definition tap_step (st : string) (tms : Z) : string :=
  match transition st tms with Some s => s | None => st end.

(** The edges that are clocked while the TAP is in [shiftState], for a TAP
    that starts in [st]. *)
Fixpoint shifted_in (shiftState st : string) (edges : list (Z * Z)) : list (Z * Z) :=
  match edges with
  | [] => []
  | (tdi, tms) :: rest =>
      if String.eqb st shiftState
      then (tdi, tms) :: shifted_in shiftState (tap_step st tms) rest
      else shifted_in shiftState (tap_step st tms) rest
  end.

Fixpoint state_after (st : string) (edges : list (Z * Z)) : string :=
  match edges with
  | [] => st
  | (_, tms) :: rest => state_after (tap_step st tms) rest
  end.

(** A run of bits with TMS = 0, whose last bit has TMS = 1 when [exit]. *)
Definition tms_run (bits : list Z) (exit : bool) : list (Z * Z) :=
  match rev bits with
  | [] => []
  | last :: front =>
      map (fun b => (b, 0)) (rev front) ++ [(last, if exit then 1 else 0)]
  end.

(** The calls made on the adapter between two states of the machine. *)
Definition calls_since (m m' : machine) : list usb_call :=
  skipn (List.length (usb m)) (usb m').



Lemma shifted_in_app sh : forall a b st,
  shifted_in sh st (a ++ b)
  = shifted_in sh st a ++ shifted_in sh (state_after st a) b.
Proof.
  induction a as [|[tdi tms] a IH]; intros b st; [reflexivity|].
  cbn [app shifted_in state_after].
  destruct (String.eqb st sh); cbn [app]; rewrite IH; reflexivity.
Qed.

Lemma state_after_app : forall a b st,
  state_after st (a ++ b) = state_after (state_after st a) b.
Proof.
  induction a as [|[tdi tms] a IH]; intros b st; [reflexivity|].
  cbn [app state_after]. apply IH.
Qed.

Lemma shifted_in_zero_run sh : forall bits,
  transition sh 0 = Some sh ->
  shifted_in sh sh (map (fun b => (b, 0)) bits) = map (fun b => (b, 0)) bits
  /\ state_after sh (map (fun b => (b, 0)) bits) = sh.
Proof.
  intros bits H0. induction bits as [|b bits [IH1 IH2]]; [split; reflexivity|].
  cbn [map shifted_in state_after]. unfold tap_step.
  rewrite H0, String.eqb_refl. split; [rewrite IH1; reflexivity|exact IH2].
Qed.

(** A run with an exit bit, entered in the shift state, is shifted whole
    and leaves the TAP in the exit state. *)
Lemma shifted_in_tms_run sh ex bits :
  transition sh 0 = Some sh -> transition sh 1 = Some ex -> bits <> [] ->
  shifted_in sh sh (tms_run bits true) = tms_run bits true
  /\ state_after sh (tms_run bits true) = ex.
Proof.
  intros H0 H1 Hne. unfold tms_run.
  destruct (rev bits) as [|last front] eqn:R.
  { exfalso. apply Hne. rewrite <- (rev_involutive bits), R. reflexivity. }
  destruct (shifted_in_zero_run sh (rev front) H0) as [Z1 Z2].
  rewrite shifted_in_app, state_after_app, Z1, Z2.
  cbn [shifted_in state_after]. unfold tap_step.
  rewrite H1, String.eqb_refl. split; reflexivity.
Qed.

(** The payload bit [i] as [bytesToBits] and [shiftBytes] extract it. *)
Definition payload_bit (tdi : list Z) (i : Z) : Z :=
  Z.land (Z.shiftr (JS.int (JS.get tdi (JS.floor8 i))) (i mod 8)) 1.

Lemma bytesToBits_payload tdi n :
  bytesToBits tdi n = map (payload_bit tdi) (JS.range n).
Proof. reflexivity. Qed.

Lemma tms_run_indexed (g : Z -> Z) n :
  0 < n ->
  tms_run (map g (JS.range n)) true
  = map (fun i => (g i, if i =? n - 1 then 1 else 0)) (JS.range n).
Proof.
  intros Hn. unfold tms_run.
  rewrite (JSFacts.range_snoc n Hn), !map_app, rev_app_distr.
  cbn [map rev app]. rewrite rev_involutive, map_map, Z.eqb_refl.
  f_equal. apply map_ext_in. intros i Hi. apply JSFacts.range_In in Hi.
  destruct (Z.eqb_spec i (n - 1)); [lia|reflexivity].
Qed.

Lemma requested_edges_ShiftBytes tdi n :
  0 < n ->
  requested_edges (ShiftBytes tdi n) = tms_run (bytesToBits tdi n) true.
Proof.
  intros Hn. rewrite bytesToBits_payload.
  rewrite (tms_run_indexed (payload_bit tdi) n Hn). reflexivity.
Qed.

Lemma bit01_bit b : b = 0 \/ b = 1 -> bit01 (Some b) = b.
Proof. intros [-> | ->]; reflexivity. Qed.

Lemma requested_edges_ShiftBits tdi n capture :
  0 < n ->
  requested_edges
    (ShiftBits (bytesToBits tdi n)
       (JS.set (JS.fill n 0) (Z.to_nat (n - 1)) 1) n capture)
  = tms_run (bytesToBits tdi n) true.
Proof.
  intros Hn. rewrite !bytesToBits_payload.
  rewrite (tms_run_indexed (payload_bit tdi) n Hn).
  cbn [requested_edges]. apply map_ext_in. intros i Hi.
  apply JSFacts.range_In in Hi. f_equal.
  - rewrite (JSFacts.get_map_range _ n i Hi).
    apply bit01_bit. apply JSFacts.land1_cases.
  - unfold JS.get. destruct (Z.ltb_spec i 0); [lia|].
    rewrite JSFacts.nth_error_set. unfold JS.fill. rewrite repeat_length.
    destruct (Nat.eqb_spec (Z.to_nat i) (Z.to_nat (n - 1))) as [E|E].
    + destruct (Nat.ltb_spec (Z.to_nat (n - 1)) (Z.to_nat n)); [|lia].
      destruct (Z.eqb_spec i (n - 1)); [reflexivity|lia].
    + rewrite nth_error_repeat by lia.
      destruct (Z.eqb_spec i (n - 1)); [subst; lia|reflexivity].
Qed.

Lemma set_repeat_last (k : nat) :
  JS.set (repeat 0 (S k)) k 1 = repeat 0 k ++ [1].
Proof. induction k as [|k IH]; [reflexivity|]. cbn [repeat JS.set app] in *. rewrite IH. reflexivity. Qed.

Lemma applyTMSSequence_exit sh ex : forall k,
  transition sh 0 = Some sh -> transition sh 1 = Some ex ->
  applyTMSSequence sh (repeat 0 k ++ [1]) = ex.
Proof.
  intros k H0 H1. induction k as [|k IH]; cbn [repeat app applyTMSSequence].
  - rewrite H1. reflexivity.
  - rewrite H0. exact IH.
Qed.

Lemma tracked_after_payload sh ex n :
  transition sh 0 = Some sh -> transition sh 1 = Some ex -> 0 < n ->
  applyTMSSequence sh (JS.set (JS.fill n 0) (Z.to_nat (n - 1)) 1) = ex.
Proof.
  intros H0 H1 Hn. unfold JS.fill.
  replace (Z.to_nat n) with (S (Z.to_nat (n - 1))) by lia.
  rewrite set_repeat_last. apply applyTMSSequence_exit; assumption.
Qed.

Lemma bytesToBits_nonempty tdi n : 0 < n -> bytesToBits tdi n <> [].
Proof.
  intros Hn E. apply (f_equal (@List.length Z)) in E.
  rewrite bytesToBits_payload, length_map, JSFacts.range_length in E.
  simpl in E. lia.
Qed.

(** The transfer [moveToState] asks for, if any. *)
Definition move_calls (s t : string) : list usb_call :=
  let path := findStatePath s t in
  if Z.of_nat (List.length path) =? 0 then []
  else [ShiftBits (JS.fill (Z.of_nat (List.length path)) 0) path
          (Z.of_nat (List.length path)) false].

Definition move_edges (s t : string) : list (Z * Z) :=
  flat_map requested_edges (move_calls s t).



Lemma moveToState_usb m t :
  usb (moveToState m t) = usb m ++ move_calls (currentState m) t.
Proof.
  unfold moveToState, move_calls.
  destruct (Z.of_nat (List.length (findStatePath (currentState m) t)) =? 0).
  - rewrite app_nil_r. reflexivity.
  - reflexivity.
Qed.



Definition shift_exit (sh ex : string) : Prop :=
  (sh = IRSHIFT /\ ex = IREXIT1) \/ (sh = DRSHIFT /\ ex = DREXIT1).

Lemma shift_exit_transitions sh ex :
  shift_exit sh ex -> transition sh 0 = Some sh /\ transition sh 1 = Some ex.
Proof. intros [[-> ->]|[-> ->]]; split; reflexivity. Qed.



Section PayloadFacts.
Variable threshold : Z.


End PayloadFacts.

Lemma skipn_length_app {A} (a b : list A) : skipn (List.length a) (a ++ b) = b.
Proof. induction a as [|x a IH]; [reflexivity|exact IH]. Qed.


Section HeaderTrailerFacts.
Variable threshold : Z.




End HeaderTrailerFacts.





(** Scenario C: [SDR 16 TDI(ABCD)] from IDLE with [endDRState = IDLE].  The
    TMS bits the engine asks for are 1 0 0 into DRSHIFT, fifteen 0 and a 1
    on the payload, then 1 0 back to IDLE. *)
Definition sdr16 : command :=
  {| cmd_type := "SDR"; cmd_length := Some 16; cmd_tdi := Some [205; 171];
     cmd_tdo := None; cmd_mask := None; cmd_smask := None; cmd_states := [];
     cmd_state := None; cmd_cycles := None; cmd_endState := None;
     cmd_mode := None; cmd_raw := None |}.

Example sdr16_from_idle :
  exists m',
    executeCommand threshold1000 (set_currentState constructor IDLE) sdr16 = Ok m'
    /\ map snd (flat_map requested_edges (usb m'))
       = [1; 0; 0] ++ repeat 0 15 ++ [1] ++ [1; 0]
    /\ currentState m' = IDLE.
Proof. eexists. split; [reflexivity|]. split; reflexivity. Qed.

(** ** [verifyData] *)

(** Byte [i] of TDO or of the expected data: 0 when the argument or the
    byte is missing. *)
Definition data_byte (a : option (list Z)) (i : Z) : Z :=
  match a with
  | Some l => JS.int (JS.get (toUint8Array l) i)
  | None => 0
  end.

(** Mask byte [i]: 0xFF at every index when the mask argument is missing,
    0 for an index the mask does not have. *)
Definition mask_at (mask : option (list Z)) (i : Z) : Z :=
  match mask with
  | Some l => JS.int (JS.get (toUint8Array l) i)
  | None => 255
  end.

(** Index [i] is a mismatch under the mask. *)
Definition mismatch_at (tdo : list Z) (expected mask : option (list Z)) (i : Z) : Prop :=
  mask_at mask i <> 0
  /\ Z.land (data_byte (Some tdo) i) (mask_at mask i)
     <> Z.land (data_byte expected i) (mask_at mask i).

Lemma verifyByte_None tdo expected mask i :
  verifyByte (toUint8Array tdo) (option_map toUint8Array expected)
    (option_map toUint8Array mask) i = None
  <-> ~ mismatch_at tdo expected mask i.
Proof.
  unfold verifyByte, mismatch_at.
  assert (Hm : match option_map toUint8Array mask with
               | Some mb => match JS.get mb i with Some v => v | None => 0 end
               | None => 255
               end = mask_at mask i) by (destruct mask; reflexivity).
  assert (He : match option_map toUint8Array expected with
               | Some eb => JS.int (JS.get eb i)
               | None => 0
               end = data_byte expected i) by (destruct expected; reflexivity).
  rewrite Hm, He. cbn [data_byte].
  destruct (Z.eqb_spec (mask_at mask i) 0) as [E|E].
  - split; [intros _ [H _]; contradiction|reflexivity].
  - destruct (Z.eqb_spec (Z.land (JS.int (JS.get (toUint8Array tdo) i)) (mask_at mask i))
                (Z.land (data_byte expected i) (mask_at mask i))) as [L|L];
      cbn [negb].
    + split; [intros _ [_ H]; contradiction|reflexivity].
    + split; [discriminate|]. intros H. exfalso. apply H. split; assumption.
Qed.

Lemma verifyLoop_None tdo expected mask : forall indices,
  verifyLoop tdo expected mask indices = None
  <-> forall i, In i indices -> verifyByte tdo expected mask i = None.
Proof.
  induction indices as [|i rest IH]; cbn [verifyLoop].
  - split; [intros _ i []|reflexivity].
  - destruct (verifyByte tdo expected mask i) eqn:E.
    + split; [discriminate|]. intros H. rewrite <- E. apply H. left. reflexivity.
    + rewrite IH. split.
      * intros H j [<-|Hj]; [exact E|apply H; exact Hj].
      * intros H j Hj. apply H. right. exact Hj.
Qed.

(** C10. [verifyData] throws exactly when some byte index below
    [ceil(bitLength / 8)] has a nonzero mask byte under which the TDO byte
    and the expected byte differ (a missing mask is 0xFF everywhere, a
    missing TDO or expected byte is 0); in every case the machine it was
    called on is unchanged, and without such an index it returns
    normally. *)
Theorem verifyData_throws_iff m tdo expected mask bitLength :
  fst (verifyData m tdo expected mask bitLength) = m
  /\ (snd (verifyData m tdo expected mask bitLength) <> None
      <-> exists i, 0 <= i < JS.ceil8 bitLength /\ mismatch_at tdo expected mask i).
Proof.
  split; [reflexivity|]. cbn [verifyData snd]. split.
  - intros H.
    destruct (verifyLoop (toUint8Array tdo) (option_map toUint8Array expected)
                (option_map toUint8Array mask) (JS.range (JS.ceil8 bitLength)))
      as [e|] eqn:E; [clear H|contradiction].
    assert (Hex : exists i, In i (JS.range (JS.ceil8 bitLength))
                  /\ verifyByte (toUint8Array tdo) (option_map toUint8Array expected)
                       (option_map toUint8Array mask) i <> None).
    { revert E. induction (JS.range (JS.ceil8 bitLength)) as [|i rest IH];
        cbn [verifyLoop]; [discriminate|].
      destruct (verifyByte (toUint8Array tdo) (option_map toUint8Array expected)
                  (option_map toUint8Array mask) i) eqn:B.
      - intros _. exists i. split; [left; reflexivity|congruence].
      - intros E. destruct (IH E) as [j [Hj Hb]]. exists j. split; [right|]; assumption. }
    destruct Hex as [i [Hi Hb]]. exists i. split; [apply JSFacts.range_In; exact Hi|].
    rewrite verifyByte_None in Hb. unfold mismatch_at in *.
    destruct (Z.eq_dec (mask_at mask i) 0) as [M|M].
    + exfalso. apply Hb. intros [H _]. contradiction.
    + split; [exact M|]. intros L. apply Hb. intros [_ H]. contradiction.
  - intros [i [Hi Hm]] E. rewrite verifyLoop_None in E.
    specialize (E i (proj2 (JSFacts.range_In _ _) Hi)).
    rewrite verifyByte_None in E. contradiction.
Qed.

(** A mismatch in the masked nibble throws and reports the byte; the same
    bytes pass when the mask hides the difference, and when the byte lies
    beyond [ceil(bitLength / 8)]. *)
Example verifyData_throws :
  snd (verifyData constructor [0x12; 0x34] (Some [0x12; 0x35]) None 16)
  = Some {| byte_index := 1; got := 0x34; expected_byte := 0x35; mask_byte := 0xFF |}.
Proof. reflexivity. Qed.

Example verifyData_masked :
  snd (verifyData constructor [0x12; 0x34] (Some [0x12; 0x35]) (Some [0xFF; 0xF0]) 16)
  = None.
Proof. reflexivity. Qed.

Example verifyData_short :
  snd (verifyData constructor [0x12; 0x34] (Some [0x12; 0x35]) None 8) = None.
Proof. reflexivity. Qed.

(* ------------------------------------------------------------------ *)
(** ** Moves, commands and the tracked state *)
(* ------------------------------------------------------------------ *)

(** ** Targets and start states outside the table *)

Lemma lookup_None {A} k (tbl : list (string * A)) :
  ~ In k (map fst tbl) -> lookup k tbl = None.
Proof.
  induction tbl as [|[k' v] tbl IH]; intros H; [reflexivity|].
  simpl. destruct (String.eqb_spec k k') as [->|N].
  - exfalso. apply H. left. reflexivity.
  - apply IH. intros Hin. apply H. right. exact Hin.
Qed.

Lemma transition_unknown s tms : ~ In s states -> transition s tms = None.
Proof. intros H. unfold transition. rewrite (lookup_None s _ H). reflexivity. Qed.

Lemma for_tms_no_return to : ~ In to states ->
  forall tmss state path q v p, for_tms tmss state path to q v <> Return p.
Proof.
  intros Hto. induction tmss as [|tms tmss IH]; intros state path q v p; [discriminate|].
  simpl. destruct (transition state tms) as [ns|] eqn:T; [|apply IH].
  destruct (has v ns); [apply IH|].
  destruct (String.eqb_spec ns to) as [->|N]; [|apply IH].
  exfalso. apply Hto. eapply transition_in_states. exact T.
Qed.

Lemma while_queue_unknown to : ~ In to states ->
  forall fuel q v, while_queue fuel to q v = Some [] \/ while_queue fuel to q v = None.
Proof.
  intros Hto. induction fuel as [|fuel IH]; intros q v.
  - destruct q as [|[s p] q]; [left|right]; reflexivity.
  - destruct q as [|[s p] q]; [left; reflexivity|].
    cbn [while_queue].
    destruct (for_tms [0; 1] s p to q v) as [r|q' v'] eqn:F.
    + exfalso. exact (for_tms_no_return to Hto _ _ _ _ _ _ F).
    + apply IH.
Qed.

Lemma findStatePath_unknown_target s t : ~ In t states -> findStatePath s t = [].
Proof.
  intros Ht. unfold findStatePath, findStatePath_fuel.
  destruct (String.eqb s t); [reflexivity|].
  destruct (while_queue_unknown t Ht 17 [(s, [])] [s]) as [-> | ->]; reflexivity.
Qed.

Lemma findStatePath_unknown_start s t : ~ In s states -> findStatePath s t = [].
Proof.
  intros Hs. unfold findStatePath, findStatePath_fuel.
  destruct (String.eqb s t); [reflexivity|].
  cbn [while_queue for_tms]. rewrite !(transition_unknown s _ Hs). reflexivity.
Qed.

Lemma findStatePath_same s : findStatePath s s = [].
Proof. unfold findStatePath, findStatePath_fuel. rewrite String.eqb_refl. reflexivity. Qed.

(** The paths of the search are made of the bits 0 and 1. *)
Definition bits (p : list Z) : Prop := Forall (fun b => b = 0 \/ b = 1) p.

Lemma bits01 : bits [0; 1].
Proof. constructor; [left; reflexivity|]. constructor; [right; reflexivity|constructor]. Qed.

Lemma for_tms_bits to : forall tmss state path q v,
  bits tmss -> bits path -> Forall (fun e => bits (snd e)) q ->
  match for_tms tmss state path to q v with
  | Return p => bits p
  | Next q' _ => Forall (fun e => bits (snd e)) q'
  end.
Proof.
  induction tmss as [|tms tmss IH]; intros state path q v Ht Hp Hq; [exact Hq|].
  simpl. inversion Ht as [|? ? Hb Ht']; subst.
  destruct (transition state tms) as [ns|]; [|apply IH; assumption].
  destruct (has v ns); [apply IH; assumption|].
  assert (Hnp : bits (path ++ [tms])).
  { apply Forall_app. split; [exact Hp|constructor; [exact Hb|constructor]]. }
  destruct (String.eqb ns to); [exact Hnp|].
  apply IH; [assumption|assumption|].
  apply Forall_app. split; [exact Hq|constructor; [exact Hnp|constructor]].
Qed.

Lemma while_queue_bits to : forall fuel q v p,
  Forall (fun e => bits (snd e)) q ->
  while_queue fuel to q v = Some p -> bits p.
Proof.
  induction fuel as [|fuel IH]; intros q v p Hq H.
  - destruct q as [|[s r] q]; [injection H as <-; constructor|discriminate].
  - destruct q as [|[s r] q]; [injection H as <-; constructor|].
    cbn [while_queue] in H. inversion Hq as [|? ? Hr Hq']; subst.
    pose proof (for_tms_bits to [0; 1] s r q v) as F.
    destruct (for_tms [0; 1] s r to q v) as [r'|q' v'].
    + injection H as <-. apply F; [exact bits01|exact Hr|exact Hq'].
    + eapply IH; [|exact H]. apply F; [exact bits01|exact Hr|exact Hq'].
Qed.

Lemma findStatePath_bits s t : bits (findStatePath s t).
Proof.
  unfold findStatePath, findStatePath_fuel.
  destruct (String.eqb s t); [constructor|].
  destruct (while_queue 17 t [(s, [])] [s]) as [p|] eqn:W; [|constructor].
  eapply while_queue_bits; [|exact W]. constructor; [constructor|constructor].
Qed.

(** ** [moveToState] *)

(** X1. [moveToState] returns without a transfer and without a change of
    the engine when the target is no state of the table, when the tracked
    state is none, and when the target is the tracked state.  Between two
    different states of the table it makes one [shiftBits] call, with TDI
    held at 0, the TMS bits of the path and no capture, and tracks the
    target. *)
Theorem moveToState_calls m t :
  (~ In t states \/ ~ In (currentState m) states \/ t = currentState m ->
     moveToState m t = m)
  /\ (In (currentState m) states -> In t states -> t <> currentState m ->
      exists path,
        path <> [] /\ bits path
        /\ applyTMSSequence (currentState m) path = t
        /\ usb (moveToState m t)
           = usb m ++ [ShiftBits (JS.fill (Z.of_nat (List.length path)) 0) path
                         (Z.of_nat (List.length path)) false]
        /\ currentState (moveToState m t) = t).
Proof.
  split.
  - intros H. unfold moveToState.
    assert (E : findStatePath (currentState m) t = []).
    { destruct H as [H|[H|H]].
      - apply findStatePath_unknown_target. exact H.
      - apply findStatePath_unknown_start. exact H.
      - rewrite H. apply findStatePath_same. }
    rewrite E. reflexivity.
  - intros Hc Ht Hne. exists (findStatePath (currentState m) t).
    pose proof (findStatePath_reaches _ _ Hc Ht) as R.
    assert (Hp : findStatePath (currentState m) t <> []).
    { intros E. rewrite E in R. simpl in R. congruence. }
    split; [exact Hp|]. split; [apply findStatePath_bits|]. split; [exact R|].
    unfold moveToState.
    destruct (Z.eqb_spec (Z.of_nat (List.length (findStatePath (currentState m) t))) 0) as [E|E].
    + destruct (findStatePath (currentState m) t); [congruence|simpl in E; lia].
    + split; [reflexivity|exact R].
Qed.

(** A move to ["PAUSE"], which is no state, and a move from RESET to
    DRPAUSE. *)
Lemma moveToState_calls_witness :
  moveToState (set_currentState constructor IDLE) "PAUSE" = set_currentState constructor IDLE
  /\ exists path,
       path <> [] /\ bits path
       /\ applyTMSSequence RESET path = DRPAUSE
       /\ usb (moveToState constructor DRPAUSE)
          = [ShiftBits (JS.fill (Z.of_nat (List.length path)) 0) path
               (Z.of_nat (List.length path)) false]
       /\ currentState (moveToState constructor DRPAUSE) = DRPAUSE.
Proof.
  split.
  - apply (moveToState_calls (set_currentState constructor IDLE) "PAUSE").
    left. vm_compute. intuition discriminate.
  - apply (moveToState_calls constructor DRPAUSE).
    + vm_compute. tauto.
    + vm_compute. tauto.
    + discriminate.
Defined.

(** ** When a command throws *)

Definition rangeError : string := "RangeError: Invalid array length".

(** The commands whose execution reaches [new Array(length)] with a
    negative length. *)
Definition negative_shift (cmd : command) : Prop :=
  (cmd_type cmd = "SIR"%string \/ cmd_type cmd = "SDR"%string)
  /\ exists tdi n, cmd_tdi cmd = Some tdi /\ cmd_length cmd = Some n /\ n < 0.

Section ThrowFacts.
Variable threshold : Z.
Hypothesis threshold_range : 0 <= threshold <= 4294967295.

Lemma shiftData_outcome m tdi length :
  match length with
  | Some n =>
      if n <? 0 then shiftData threshold m tdi length false = Throw rangeError
      else exists m', shiftData threshold m tdi length false = Ok m'
  | None => shiftData threshold m tdi length false = Ok m
  end.
Proof.
  destruct length as [n|]; [|reflexivity].
  unfold shiftData. rewrite andb_true_r.
  destruct (Z.ltb_spec n 0) as [Neg|Pos].
  - destruct (Z.eqb_spec n 0); [lia|].
    destruct (Z.gtb_spec n threshold); [lia|].
    destruct (Z.ltb_spec n 0); [reflexivity|lia].
  - destruct (n =? 0); [eexists; reflexivity|].
    destruct (Z.gtb_spec n threshold); [eexists; reflexivity|].
    destruct (Z.ltb_spec n 0); [lia|].
    destruct (Z.ltb_spec 4294967295 n); [lia|]. eexists. reflexivity.
Qed.

Lemma shift_outcome (shift : machine -> command -> outcome machine) target
    (ends : machine -> string) m cmd :
  (forall m cmd, shift m cmd
     = (m1 <- match cmd_tdi cmd with
              | Some tdi => shiftData threshold (moveToState m target) tdi (cmd_length cmd) false
              | None => Ok (moveToState m target)
              end ;;
        Ok (moveToState m1 (ends m1)))) ->
  (shift m cmd = Throw rangeError
   <-> exists tdi n, cmd_tdi cmd = Some tdi /\ cmd_length cmd = Some n /\ n < 0)
  /\ ((exists m', shift m cmd = Ok m')
      <-> ~ exists tdi n, cmd_tdi cmd = Some tdi /\ cmd_length cmd = Some n /\ n < 0).
Proof.
  intros E. rewrite E.
  destruct (cmd_tdi cmd) as [tdi|].
  - pose proof (shiftData_outcome (moveToState m target) tdi (cmd_length cmd)) as O.
    destruct (cmd_length cmd) as [n|].
    + destruct (Z.ltb_spec n 0) as [Neg|Pos].
      * rewrite O. cbn [bind]. split; split.
        -- intros _. exists tdi, n. auto.
        -- reflexivity.
        -- intros [m' H]. discriminate.
        -- intros H. exfalso. apply H. exists tdi, n. auto.
      * destruct O as [m' O]. rewrite O. cbn [bind]. split; split.
        -- discriminate.
        -- intros [tdi' [n' [_ [[= <-] Hn]]]]. lia.
        -- intros _ [tdi' [n' [_ [[= <-] Hn]]]]. lia.
        -- intros _. eexists. reflexivity.
    + rewrite O. cbn [bind]. split; split.
      * discriminate.
      * intros [tdi' [n' [_ [H _]]]]. discriminate.
      * intros _ [tdi' [n' [_ [H _]]]]. discriminate.
      * intros _. eexists. reflexivity.
  - cbn [bind]. split; split.
    + discriminate.
    + intros [tdi' [n' [H _]]]. discriminate.
    + intros _ [tdi' [n' [H _]]]. discriminate.
    + intros _. eexists. reflexivity.
Qed.

(** X2. With a threshold between 0 and 2^32 - 1 (it is 1000 or 64), on a
    connected adapter whose transfers succeed, [executeCommand] throws
    exactly for an SIR or SDR command that has TDI data and a negative
    length, the RangeError of [new Array(length)]; every other command
    returns. *)
Theorem executeCommand_throws_iff m cmd :
  (executeCommand threshold m cmd = Throw rangeError <-> negative_shift cmd)
  /\ ((exists m', executeCommand threshold m cmd = Ok m') <-> ~ negative_shift cmd).
Proof.
  unfold negative_shift, executeCommand.
  destruct (String.eqb_spec (cmd_type cmd) "STATE") as [T0|T0].
  { rewrite T0. split; split.
    - destruct (last (map Some (cmd_states cmd)) None); discriminate.
    - intros [[H|H] _]; discriminate.
    - intros _ [[H|H] _]; discriminate.
    - intros _. destruct (last (map Some (cmd_states cmd)) None); eexists; reflexivity. }
  destruct (String.eqb_spec (cmd_type cmd) "SIR") as [T1|T1].
  { destruct (shift_outcome (shiftIR threshold) IRSHIFT endIRState m cmd) as [A B].
    { intros m0 cmd0. unfold shiftIR. destruct (cmd_tdi cmd0); reflexivity. }
    split; [rewrite A|rewrite B]; intuition. }
  destruct (String.eqb_spec (cmd_type cmd) "SDR") as [T2|T2].
  { destruct (shift_outcome (shiftDR threshold) DRSHIFT endDRState m cmd) as [A B].
    { intros m0 cmd0. unfold shiftDR. destruct (cmd_tdi cmd0); reflexivity. }
    split; [rewrite A|rewrite B]; intuition. }
  assert (R : forall r : outcome machine,
            (exists m', r = Ok m') ->
            (r = Throw rangeError <->
              (cmd_type cmd = "SIR"%string \/ cmd_type cmd = "SDR"%string) /\
              (exists tdi n, cmd_tdi cmd = Some tdi /\ cmd_length cmd = Some n /\ n < 0))
            /\ ((exists m', r = Ok m') <->
              ~ ((cmd_type cmd = "SIR"%string \/ cmd_type cmd = "SDR"%string) /\
              (exists tdi n, cmd_tdi cmd = Some tdi /\ cmd_length cmd = Some n /\ n < 0)))).
  { intros r [m' ->]. split; split.
    - discriminate.
    - intros [[H|H] _]; contradiction.
    - intros _ [[H|H] _]; contradiction.
    - intros _. eexists. reflexivity. }
  destruct (String.eqb (cmd_type cmd) "RUNTEST"); [apply R; eexists; reflexivity|].
  destruct (String.eqb (cmd_type cmd) "FREQUENCY"); [apply R; eexists; reflexivity|].
  destruct (String.eqb (cmd_type cmd) "TRST"); [apply R; eexists; reflexivity|].
  destruct (String.eqb (cmd_type cmd) "ENDDR"); [apply R; eexists; reflexivity|].
  destruct (String.eqb (cmd_type cmd) "ENDIR"); [apply R; eexists; reflexivity|].
  destruct (String.eqb (cmd_type cmd) "HIR" || String.eqb (cmd_type cmd) "TIR"
            || String.eqb (cmd_type cmd) "HDR" || String.eqb (cmd_type cmd) "TDR");
    apply R; eexists; reflexivity.
Qed.

End ThrowFacts.

(** [SDR -8 TDI (FF)] as the parser delivers it. *)
Definition sdr_minus8 : command :=
  {| cmd_type := "SDR"; cmd_length := Some (-8); cmd_tdi := Some [255];
     cmd_tdo := None; cmd_mask := None; cmd_smask := None; cmd_states := [];
     cmd_state := None; cmd_cycles := None; cmd_endState := None;
     cmd_mode := None; cmd_raw := None |}.

Lemma executeCommand_throws_iff_witness :
  executeCommand 64 constructor sdr_minus8 = Throw rangeError
  /\ exists m', executeCommand 64 constructor sir8 = Ok m'.
Proof.
  split.
  - apply (executeCommand_throws_iff 64); [lia|].
    split; [right; reflexivity|]. exists [255], (-8). split; [reflexivity|]. split; [reflexivity|lia].
  - apply (executeCommand_throws_iff 64); [lia|].
    intros [_ [tdi [n [_ [E Hn]]]]]. injection E as <-. lia.
Defined.

(** ** The tracked state stays in the table *)

Lemma moveToState_in_states m t :
  In (currentState m) states -> In (currentState (moveToState m t)) states.
Proof.
  intros H. unfold moveToState.
  destruct (Z.of_nat (List.length (findStatePath (currentState m) t)) =? 0); [exact H|].
  cbn. apply applyTMSSequence_in_states. exact H.
Qed.

Lemma shiftData_in_states threshold m tdi length capture m' :
  In (currentState m) states ->
  shiftData threshold m tdi length capture = Ok m' ->
  In (currentState m') states.
Proof.
  intros H. unfold shiftData.
  destruct length as [n|]; [|intros [= <-]; exact H].
  destruct (n =? 0); [intros [= <-]; exact H|].
  destruct ((n >? threshold) && negb capture).
  - intros [= <-]. cbn.
    destruct (String.eqb (currentState m) DRSHIFT); vm_compute; tauto.
  - destruct ((n <? 0) || (4294967295 <? n)); [discriminate|].
    intros [= <-]. cbn. apply applyTMSSequence_in_states. exact H.
Qed.

Lemma runTest_in_states m cmd :
  In (currentState m) states -> In (currentState (runTest m cmd)) states.
Proof.
  intros H. unfold runTest.
  set (run := match cmd_state cmd with
              | Some s => if String.eqb s "" then IDLE else s
              | None => IDLE end).
  set (en := match cmd_endState cmd with
             | Some s => if String.eqb s "" then run else s
             | None => run end).
  pose proof (moveToState_in_states m run H) as H1.
  set (c := match cmd_cycles cmd with Some c => c | None => 0 end).
  assert (H2 : In (currentState (if c >? 0
                                 then call (moveToState m run) (ToggleClockCycles c)
                                 else moveToState m run)) states)
    by (destruct (c >? 0); exact H1).
  destruct (String.eqb en run); [exact H2|].
  apply moveToState_in_states. exact H2.
Qed.

Lemma executeCommand_in_states threshold m cmd m' :
  In (currentState m) states ->
  executeCommand threshold m cmd = Ok m' ->
  In (currentState m') states.
Proof.
  intros H. unfold executeCommand.
  destruct (String.eqb (cmd_type cmd) "STATE").
  { destruct (last (map Some (cmd_states cmd)) None); intros [= <-];
      [apply moveToState_in_states|]; exact H. }
  destruct (String.eqb (cmd_type cmd) "SIR").
  { unfold shiftIR.
    pose proof (moveToState_in_states m IRSHIFT H) as H1.
    destruct (cmd_tdi cmd) as [tdi|].
    - destruct (shiftData threshold (moveToState m IRSHIFT) tdi (cmd_length cmd) false)
        as [m2|e] eqn:S; [|discriminate].
      cbn [bind]. intros [= <-]. apply moveToState_in_states.
      eapply shiftData_in_states; [exact H1|exact S].
    - cbn [bind]. intros [= <-]. apply moveToState_in_states. exact H1. }
  destruct (String.eqb (cmd_type cmd) "SDR").
  { unfold shiftDR.
    pose proof (moveToState_in_states m DRSHIFT H) as H1.
    destruct (cmd_tdi cmd) as [tdi|].
    - destruct (shiftData threshold (moveToState m DRSHIFT) tdi (cmd_length cmd) false)
        as [m2|e] eqn:S; [|discriminate].
      cbn [bind]. intros [= <-]. apply moveToState_in_states.
      eapply shiftData_in_states; [exact H1|exact S].
    - cbn [bind]. intros [= <-]. apply moveToState_in_states. exact H1. }
  destruct (String.eqb (cmd_type cmd) "RUNTEST");
    [intros [= <-]; apply runTest_in_states; exact H|].
  destruct (String.eqb (cmd_type cmd) "FREQUENCY"); [intros [= <-]; exact H|].
  destruct (String.eqb (cmd_type cmd) "TRST"); [intros [= <-]; exact H|].
  destruct (String.eqb (cmd_type cmd) "ENDDR"); [intros [= <-]; exact H|].
  destruct (String.eqb (cmd_type cmd) "ENDIR"); [intros [= <-]; exact H|].
  destruct (String.eqb (cmd_type cmd) "HIR" || String.eqb (cmd_type cmd) "TIR"
            || String.eqb (cmd_type cmd) "HDR" || String.eqb (cmd_type cmd) "TDR");
    intros [= <-]; exact H.
Qed.

(** X3. Whatever commands are executed, with whatever end states, run
    states and lengths, the tracked state stays one of the 16 states of
    the table: a run of commands that returns leaves [currentState] a key
    of [stateTransitions]. *)
Theorem executeCommands_state_in_table threshold : forall cmds m m',
  In (currentState m) states ->
  executeCommands threshold m cmds = Ok m' ->
  In (currentState m') states.
Proof.
  induction cmds as [|cmd cmds IH]; intros m m' H E.
  - injection E as <-. exact H.
  - cbn [executeCommands] in E.
    destruct (executeCommand threshold m cmd) as [m1|e] eqn:E1; [|discriminate].
    cbn [bind] in E. eapply IH; [|exact E].
    eapply executeCommand_in_states; [exact H|exact E1].
Qed.

(** [ENDDR drpause]: the parser keeps the case of the state name, which
    then is no key of the table. *)
Definition enddr_junk : command :=
  {| cmd_type := "ENDDR"; cmd_length := None; cmd_tdi := None;
     cmd_tdo := None; cmd_mask := None; cmd_smask := None; cmd_states := [];
     cmd_state := Some "drpause"%string; cmd_cycles := None; cmd_endState := None;
     cmd_mode := None; cmd_raw := None |}.

Lemma executeCommands_state_in_table_witness :
  exists m', executeCommands 1000 constructor [enddr_junk; sdr16] = Ok m'
    /\ currentState m' = DREXIT1
    /\ In (currentState m') states.
Proof.
  eexists. split; [reflexivity|]. split; [reflexivity|].
  apply (executeCommands_state_in_table 1000 [enddr_junk; sdr16] constructor).
  - vm_compute. tauto.
  - reflexivity.
Defined.

(** ** RUNTEST *)

(** [cmd?.cycles || 0], [cmd?.state || 'IDLE'] and [cmd?.endState || runState]
    as [runTest] resolves them. *)
Definition cyclesOf (cmd : command) : Z :=
  match cmd_cycles cmd with Some c => c | None => 0 end.

Definition runStateOf (cmd : command) : string :=
  match cmd_state cmd with
  | Some s => if String.eqb s "" then IDLE else s
  | None => IDLE
  end.

Definition endStateOf (cmd : command) : string :=
  match cmd_endState cmd with
  | Some s => if String.eqb s "" then runStateOf cmd else s
  | None => runStateOf cmd
  end.

Lemma move_calls_same s : move_calls s s = [].
Proof. unfold move_calls. rewrite findStatePath_same. reflexivity. Qed.

(** After a move towards [t] there is nothing left to do for [t]. *)
Lemma moveToState_settled m t :
  findStatePath (currentState (moveToState m t)) t = [].
Proof.
  destruct (in_dec string_dec t states) as [Ht|Ht];
    [|apply findStatePath_unknown_target; exact Ht].
  destruct (in_dec string_dec (currentState m) states) as [Hc|Hc].
  - rewrite moveToState_currentState by assumption. apply findStatePath_same.
  - unfold moveToState. rewrite (findStatePath_unknown_start _ _ Hc). cbn.
    apply findStatePath_unknown_start. exact Hc.
Qed.

Lemma runTest_unfold m cmd :
  usb (runTest m cmd)
  = usb m ++ move_calls (currentState m) (runStateOf cmd)
      ++ (if cyclesOf cmd >? 0 then [ToggleClockCycles (cyclesOf cmd)] else [])
      ++ move_calls (currentState (moveToState m (runStateOf cmd))) (endStateOf cmd)
  /\ currentState (runTest m cmd)
     = currentState (moveToState (moveToState m (runStateOf cmd)) (endStateOf cmd)).
Proof.
  unfold runTest. fold (cyclesOf cmd). fold (runStateOf cmd). fold (endStateOf cmd).
  set (run := runStateOf cmd). set (en := endStateOf cmd). set (c := cyclesOf cmd).
  pose proof (moveToState_settled m run) as P.
  pose proof (moveToState_usb m run) as U1.
  set (m1 := moveToState m run) in *.
  set (m2 := if c >? 0 then call m1 (ToggleClockCycles c) else m1).
  assert (U2 : usb m2 = usb m1 ++ (if c >? 0 then [ToggleClockCycles c] else [])).
  { unfold m2. destruct (c >? 0); [reflexivity|rewrite app_nil_r; reflexivity]. }
  assert (C2 : currentState m2 = currentState m1)
    by (unfold m2; destruct (c >? 0); reflexivity).
  assert (M : usb (moveToState m2 en) = usb m2 ++ move_calls (currentState m1) en
              /\ currentState (moveToState m2 en) = currentState (moveToState m1 en)).
  { split; [rewrite moveToState_usb, C2; reflexivity|].
    unfold moveToState. rewrite C2.
    destruct (Z.of_nat (List.length (findStatePath (currentState m1) en)) =? 0);
      [exact C2|]. cbn. rewrite C2. reflexivity. }
  destruct M as [M1 M2].
  destruct (String.eqb_spec en run) as [E|E].
  - assert (N : moveToState m1 en = m1 /\ move_calls (currentState m1) en = []).
    { unfold moveToState, move_calls. rewrite E, P. split; reflexivity. }
    destruct N as [N1 N2]. rewrite N1, N2, app_nil_r.
    split; [rewrite U2, U1, <- !app_assoc; reflexivity|exact C2].
  - split; [rewrite M1, U2, U1, <- !app_assoc; reflexivity|exact M2].
Qed.

(** X4. A RUNTEST whose run state and end state are states of the table:
    the engine moves to the run state, asks for the clock cycles in one
    [toggleClockCycles] call when their number is positive and for no
    clock at all otherwise, moves to the end state, and tracks the end
    state. *)
Theorem runTest_calls m cmd :
  In (currentState m) states ->
  In (runStateOf cmd) states -> In (endStateOf cmd) states ->
  usb (runTest m cmd)
  = usb m ++ move_calls (currentState m) (runStateOf cmd)
      ++ (if cyclesOf cmd >? 0 then [ToggleClockCycles (cyclesOf cmd)] else [])
      ++ move_calls (runStateOf cmd) (endStateOf cmd)
  /\ currentState (runTest m cmd) = endStateOf cmd.
Proof.
  intros Hc Hr He. destruct (runTest_unfold m cmd) as [U C].
  pose proof (moveToState_currentState m (runStateOf cmd) Hc Hr) as C1.
  rewrite C1 in U. split; [exact U|].
  rewrite C. apply moveToState_currentState; [rewrite C1; exact Hr|exact He].
Qed.

(** [RUNTEST DRPAUSE 100 TCK ENDSTATE IDLE]. *)
Definition runtest_pause : command :=
  {| cmd_type := "RUNTEST"; cmd_length := None; cmd_tdi := None;
     cmd_tdo := None; cmd_mask := None; cmd_smask := None; cmd_states := [];
     cmd_state := Some DRPAUSE; cmd_cycles := Some 100; cmd_endState := Some IDLE;
     cmd_mode := None; cmd_raw := None |}.

Lemma runTest_calls_witness :
  usb (runTest constructor runtest_pause)
  = [ShiftBits [0; 0; 0; 0; 0] [0; 1; 0; 1; 0] 5 false;
     ToggleClockCycles 100;
     ShiftBits [0; 0; 0] [1; 1; 0] 3 false]
  /\ currentState (runTest constructor runtest_pause) = IDLE.
Proof.
  apply (runTest_calls constructor runtest_pause); vm_compute; tauto.
Defined.

(** ** The tracked state and the TMS bits the engine asks for *)

Lemma state_after_tms : forall edges st,
  state_after st edges = fold_left tap_step (map snd edges) st.
Proof.
  induction edges as [|[tdi tms] edges IH]; intros st; [reflexivity|].
  cbn [state_after map snd fold_left]. apply IH.
Qed.

Lemma applyTMSSequence_fold : forall tmsArray st,
  applyTMSSequence st tmsArray = fold_left tap_step tmsArray st.
Proof.
  induction tmsArray as [|tms l IH]; intros st; [reflexivity|].
  cbn [applyTMSSequence fold_left]. unfold tap_step at 2.
  destruct (transition st tms); apply IH.
Qed.

Lemma range_succ (k : nat) :
  JS.range (Z.of_nat (S k)) = 0 :: map Z.succ (JS.range (Z.of_nat k)).
Proof.
  unfold JS.range. rewrite !Nat2Z.id. cbn [seq map]. f_equal.
  rewrite <- seq_shift, !map_map. apply map_ext. intros i. lia.
Qed.

Lemma get_succ {A} (x : A) l i : 0 <= i -> JS.get (x :: l) (Z.succ i) = JS.get l i.
Proof.
  intros Hi. unfold JS.get.
  destruct (Z.ltb_spec (Z.succ i) 0); [lia|]. destruct (Z.ltb_spec i 0); [lia|].
  replace (Z.to_nat (Z.succ i)) with (S (Z.to_nat i)) by lia. reflexivity.
Qed.

Lemma map_get_range {A B} (f : option A -> B) : forall l : list A,
  map (fun i => f (JS.get l i)) (JS.range (Z.of_nat (List.length l)))
  = map (fun x => f (Some x)) l.
Proof.
  induction l as [|x l IH]; [reflexivity|].
  cbn [List.length]. rewrite range_succ. cbn [map]. f_equal.
  rewrite map_map, <- IH. apply map_ext_in. intros i Hi.
  apply JSFacts.range_In in Hi. rewrite get_succ by lia. reflexivity.
Qed.

Lemma bits_bit01 l : bits l -> map (fun x => bit01 (Some x)) l = l.
Proof.
  intros H. induction H as [|b l Hb _ IH]; [reflexivity|].
  cbn [map]. rewrite IH, (bit01_bit b Hb). reflexivity.
Qed.

(** A bit-bang request whose TMS array is made of bits walks the TAP as
    [applyTMSSequence] walks the tracked state. *)
Lemma state_after_ShiftBits st tdiBits tmsBits capture :
  bits tmsBits ->
  state_after st
    (requested_edges (ShiftBits tdiBits tmsBits (Z.of_nat (List.length tmsBits)) capture))
  = applyTMSSequence st tmsBits.
Proof.
  intros Hb. rewrite state_after_tms, applyTMSSequence_fold. f_equal.
  cbn [requested_edges]. rewrite map_map. cbn [snd].
  rewrite (map_get_range bit01 tmsBits). apply bits_bit01. exact Hb.
Qed.

Lemma state_after_move s t :
  state_after s (move_edges s t) = currentState (moveToState (set_currentState constructor s) t).
Proof.
  unfold move_edges, move_calls, moveToState. cbn [currentState set_currentState].
  destruct (Z.of_nat (List.length (findStatePath s t)) =? 0); [reflexivity|].
  cbn [flat_map]. rewrite app_nil_r.
  rewrite state_after_ShiftBits by apply findStatePath_bits. reflexivity.
Qed.

Lemma moveToState_current m t :
  currentState (moveToState m t)
  = currentState (moveToState (set_currentState constructor (currentState m)) t).
Proof.
  unfold moveToState. cbn [currentState set_currentState].
  destruct (Z.of_nat (List.length (findStatePath (currentState m) t)) =? 0); reflexivity.
Qed.

(** What a step of the engine has to satisfy: the calls it adds walk the
    TAP from the old tracked state to the new one. *)
Definition follows (m m' : machine) : Prop :=
  exists calls,
    usb m' = usb m ++ calls
    /\ state_after (currentState m) (flat_map requested_edges calls) = currentState m'.

Lemma follows_refl m : follows m m.
Proof. exists []. split; [rewrite app_nil_r; reflexivity|reflexivity]. Qed.

Lemma follows_trans a b c : follows a b -> follows b c -> follows a c.
Proof.
  intros [x [U1 S1]] [y [U2 S2]]. exists (x ++ y).
  split; [rewrite U2, U1, app_assoc; reflexivity|].
  rewrite flat_map_app, state_after_app, S1. exact S2.
Qed.

Lemma follows_same m m' :
  usb m' = usb m -> currentState m' = currentState m -> follows m m'.
Proof.
  intros U C. exists []. split; [rewrite app_nil_r; exact U|symmetry; exact C].
Qed.

Lemma follows_moveToState m t : follows m (moveToState m t).
Proof.
  exists (move_calls (currentState m) t). split; [apply moveToState_usb|].
  fold (move_edges (currentState m) t). rewrite state_after_move.
  symmetry. apply moveToState_current.
Qed.

Lemma state_after_idle st n :
  transition st 0 = Some st ->
  state_after st (map (fun _ : Z => (0, 0)) (JS.range n)) = st.
Proof.
  intros H. induction (JS.range n) as [|i l IH]; [reflexivity|].
  cbn [map state_after]. unfold tap_step. rewrite H. exact IH.
Qed.

Lemma follows_runTest m cmd :
  In (currentState m) states ->
  transition (runStateOf cmd) 0 = Some (runStateOf cmd) ->
  follows m (runTest m cmd).
Proof.
  intros Hc Hrun.
  assert (Hr : In (runStateOf cmd) states).
  { destruct (in_dec string_dec (runStateOf cmd) states) as [H|H]; [exact H|].
    rewrite (transition_unknown _ 0 H) in Hrun. discriminate. }
  unfold runTest. fold (cyclesOf cmd). fold (runStateOf cmd). fold (endStateOf cmd).
  pose proof (moveToState_currentState m (runStateOf cmd) Hc Hr) as C1.
  pose proof (follows_moveToState m (runStateOf cmd)) as F1.
  set (m1 := moveToState m (runStateOf cmd)) in *.
  set (m2 := if cyclesOf cmd >? 0 then call m1 (ToggleClockCycles (cyclesOf cmd)) else m1).
  assert (F2 : follows m1 m2).
  { unfold m2. destruct (cyclesOf cmd >? 0); [|apply follows_refl].
    exists [ToggleClockCycles (cyclesOf cmd)]. split; [reflexivity|].
    cbn [flat_map requested_edges]. rewrite app_nil_r, C1.
    rewrite state_after_idle by exact Hrun. symmetry. exact C1. }
  apply (follows_trans m m1); [exact F1|]. apply (follows_trans m1 m2); [exact F2|].
  destruct (String.eqb (endStateOf cmd) (runStateOf cmd));
    [apply follows_refl|apply follows_moveToState].
Qed.

Lemma set_fill_length {A} (v w : A) n i :
  List.length (JS.set (JS.fill n v) i w) = Z.to_nat n.
Proof.
  assert (L : forall (l : list A) j, List.length (JS.set l j w) = List.length l).
  { induction l as [|x l IH]; intros [|j]; cbn [JS.set List.length];
      try reflexivity. rewrite IH. reflexivity. }
  rewrite L. unfold JS.fill. apply repeat_length.
Qed.

Lemma bits_set l i : bits l -> bits (JS.set l i 1).
Proof.
  intros H. revert i. induction H as [|b l Hb Hl IH]; intros i; [destruct i; constructor|].
  destruct i as [|i]; cbn [JS.set].
  - constructor; [right; reflexivity|exact Hl].
  - constructor; [exact Hb|apply IH].
Qed.

Lemma bits_repeat0 k : bits (repeat 0 k).
Proof. induction k; constructor; [left; reflexivity|assumption]. Qed.

Section FollowFacts.
Variable threshold : Z.
Hypothesis threshold_nonneg : 0 <= threshold.

Lemma follows_shiftData sh ex m tdi length m' :
  shift_exit sh ex -> currentState m = sh ->
  shiftData threshold m tdi length false = Ok m' -> follows m m'.
Proof.
  intros Hse Hc. unfold shiftData.
  destruct length as [n|]; [|intros [= <-]; apply follows_refl].
  destruct (n =? 0); [intros [= <-]; apply follows_refl|].
  rewrite andb_true_r.
  destruct (Z.gtb_spec n threshold) as [Fast|Slow].
  - intros [= <-]. exists [ShiftBytes tdi n]. split; [reflexivity|].
    cbn [flat_map]. rewrite app_nil_r, requested_edges_ShiftBytes by lia.
    destruct (shift_exit_transitions sh ex Hse) as [H0 H1].
    rewrite Hc.
    destruct (shifted_in_tms_run sh ex (bytesToBits tdi n) H0 H1) as [_ S];
      [apply bytesToBits_nonempty; lia|].
    rewrite S. cbn [currentState set_currentState call].
    destruct Hse as [[-> ->]|[-> ->]]; reflexivity.
  - destruct (Z.ltb_spec n 0); [discriminate|].
    destruct (Z.ltb_spec 4294967295 n); [discriminate|].
    cbn [orb]. intros [= <-].
    set (tmsArray := JS.set (JS.fill n 0) (Z.to_nat (n - 1)) 1).
    exists [ShiftBits (bytesToBits tdi n) tmsArray n false]. split; [reflexivity|].
    cbn [flat_map]. rewrite app_nil_r.
    assert (L : n = Z.of_nat (List.length tmsArray)).
    { unfold tmsArray. rewrite set_fill_length. lia. }
    replace (ShiftBits (bytesToBits tdi n) tmsArray n false)
      with (ShiftBits (bytesToBits tdi n) tmsArray (Z.of_nat (List.length tmsArray)) false)
      by (rewrite <- L; reflexivity).
    rewrite state_after_ShiftBits; [reflexivity|].
    apply bits_set. apply bits_repeat0.
Qed.

Lemma follows_shift (target : string) (ex : string) (ends : machine -> string) m cmd m' :
  shift_exit target ex -> In (currentState m) states ->
  (m1 <- match cmd_tdi cmd with
         | Some tdi => shiftData threshold (moveToState m target) tdi (cmd_length cmd) false
         | None => Ok (moveToState m target)
         end ;;
   Ok (moveToState m1 (ends m1))) = Ok m' ->
  follows m m'.
Proof.
  intros Hse Hc.
  assert (Ht : In target states)
    by (destruct Hse as [[-> _]|[-> _]]; vm_compute; tauto).
  pose proof (moveToState_currentState m target Hc Ht) as C1.
  pose proof (follows_moveToState m target) as F1.
  set (m1 := moveToState m target) in *.
  destruct (cmd_tdi cmd) as [tdi|].
  - destruct (shiftData threshold m1 tdi (cmd_length cmd) false) as [m2|e] eqn:S;
      [|discriminate].
    cbn [bind]. intros [= <-].
    apply (follows_trans m m1); [exact F1|]. apply (follows_trans m1 m2).
    + apply (follows_shiftData target ex m1 tdi (cmd_length cmd)); assumption.
    + apply follows_moveToState.
  - cbn [bind]. intros [= <-].
    apply (follows_trans m m1); [exact F1|apply follows_moveToState].
Qed.

(** A RUNTEST command whose run state is kept by TMS = 0: IDLE, DRSHIFT,
    DRPAUSE, IRSHIFT or IRPAUSE. *)
Definition runs_in_place (cmd : command) : Prop :=
  cmd_type cmd = "RUNTEST"%string ->
  transition (runStateOf cmd) 0 = Some (runStateOf cmd).

Lemma follows_executeCommand m cmd m' :
  In (currentState m) states -> runs_in_place cmd ->
  executeCommand threshold m cmd = Ok m' -> follows m m'.
Proof.
  intros Hc Hrun. unfold executeCommand.
  destruct (String.eqb (cmd_type cmd) "STATE").
  { destruct (last (map Some (cmd_states cmd)) None); intros [= <-];
      [apply follows_moveToState|apply follows_refl]. }
  destruct (String.eqb (cmd_type cmd) "SIR").
  { unfold shiftIR. intros E.
    apply (follows_shift IRSHIFT IREXIT1 endIRState m cmd m');
      [left; split; reflexivity|exact Hc|].
    destruct (cmd_tdi cmd); exact E. }
  destruct (String.eqb (cmd_type cmd) "SDR").
  { unfold shiftDR. intros E.
    apply (follows_shift DRSHIFT DREXIT1 endDRState m cmd m');
      [right; split; reflexivity|exact Hc|].
    destruct (cmd_tdi cmd); exact E. }
  destruct (String.eqb_spec (cmd_type cmd) "RUNTEST") as [T|T];
    [intros [= <-]; apply follows_runTest; [exact Hc|exact (Hrun T)]|].
  destruct (String.eqb (cmd_type cmd) "FREQUENCY"); [intros [= <-]; apply follows_refl|].
  destruct (String.eqb (cmd_type cmd) "TRST"); [intros [= <-]; apply follows_refl|].
  destruct (String.eqb (cmd_type cmd) "ENDDR");
    [intros [= <-]; apply follows_same; reflexivity|].
  destruct (String.eqb (cmd_type cmd) "ENDIR");
    [intros [= <-]; apply follows_same; reflexivity|].
  destruct (String.eqb (cmd_type cmd) "HIR" || String.eqb (cmd_type cmd) "TIR"
            || String.eqb (cmd_type cmd) "HDR" || String.eqb (cmd_type cmd) "TDR");
    intros [= <-]; [apply follows_same; reflexivity|apply follows_refl].
Qed.

Lemma follows_executeCommands : forall cmds m m',
  In (currentState m) states -> Forall runs_in_place cmds ->
  executeCommands threshold m cmds = Ok m' -> follows m m'.
Proof.
  induction cmds as [|cmd cmds IH]; intros m m' Hc Hr E.
  - injection E as <-. apply follows_refl.
  - cbn [executeCommands] in E. inversion Hr as [|? ? R1 R2]; subst.
    destruct (executeCommand threshold m cmd) as [m1|e] eqn:E1; [|discriminate].
    cbn [bind] in E.
    apply (follows_trans m m1); [eapply follows_executeCommand; eassumption|].
    apply IH; [|exact R2|exact E].
    eapply executeCommand_in_states; [exact Hc|exact E1].
Qed.

End FollowFacts.

(** The two transfers of [reset]. *)
Definition reset_calls : list usb_call :=
  [ShiftBits (JS.fill 100 0) (JS.fill 100 1) 100 false; ShiftBits [0] [0] 1 false].

Lemma reset_walk :
  forallb (fun s0 => String.eqb (state_after s0 (flat_map requested_edges reset_calls)) IDLE)
    states = true.
Proof. vm_compute. reflexivity. Qed.

Lemma reset_from s0 :
  In s0 states -> state_after s0 (flat_map requested_edges reset_calls) = IDLE.
Proof.
  intros H. pose proof reset_walk as W. rewrite forallb_forall in W.
  apply String.eqb_eq. exact (W s0 H).
Qed.

(** X5. [reset] asks for 100 clocks with TMS = 1 and one with TMS = 0 and
    sets the tracked state to IDLE; the TAP of the device, in whichever of
    the 16 states it was, is in IDLE after these clocks. *)
Theorem reset_reaches_idle m :
  usb (reset m) = usb m ++ reset_calls
  /\ currentState (reset m) = IDLE
  /\ (forall s0, In s0 states ->
        state_after s0 (flat_map requested_edges reset_calls) = currentState (reset m)).
Proof.
  split; [unfold reset, clockTMS, applyTMS, call; cbn; rewrite <- app_assoc; reflexivity|].
  split; [reflexivity|]. intros s0 H. apply reset_from. exact H.
Qed.

Lemma reset_reaches_idle_witness :
  state_after DRPAUSE (flat_map requested_edges reset_calls) = currentState (reset constructor).
Proof.
  apply (reset_reaches_idle constructor). vm_compute. tauto.
Defined.

(** X6. The tracked state follows the TMS bits the engine asks for.  For a
    threshold from 0 on and commands whose RUNTEST run states are kept by
    TMS = 0, a run of [executeCommands] that returns leaves the tracked
    state where the TMS bits of the calls it made on the adapter, taken as
    the engine asks for them, lead a TAP from the state tracked before;
    and the TMS bits [programDevice] asks for, from [reset] on, lead a TAP
    from any of the 16 states to the state tracked at the end.  What an
    adapter presents to the device for these calls is not part of this
    statement. *)
Theorem tracked_state_follows_calls threshold cmds :
  0 <= threshold -> Forall runs_in_place cmds ->
  (forall m m', In (currentState m) states ->
     executeCommands threshold m cmds = Ok m' ->
     state_after (currentState m) (flat_map requested_edges (calls_since m m'))
     = currentState m')
  /\ (forall s0 m', In s0 states ->
        App.programDevice threshold cmds = Ok m' ->
        state_after s0 (flat_map requested_edges (usb m')) = currentState m').
Proof.
  intros HT Hr. split.
  - intros m m' Hc E.
    destruct (follows_executeCommands threshold HT cmds m m' Hc Hr E) as [calls [U S]].
    unfold calls_since. rewrite U, skipn_length_app. exact S.
  - intros s0 m' H0 E. unfold App.programDevice in E.
    assert (Hi : In (currentState (reset constructor)) states) by (vm_compute; tauto).
    destruct (follows_executeCommands threshold HT cmds _ m' Hi Hr E) as [calls [U S]].
    rewrite U. change (usb (reset constructor)) with reset_calls.
    rewrite flat_map_app, state_after_app, (reset_from s0 H0). exact S.
Qed.

(** An SIR, a RUNTEST in DRPAUSE and a 2048-bit SDR on the byte path, for
    a TAP that starts in IRPAUSE. *)
Lemma tracked_state_follows_calls_witness :
  exists m', App.programDevice 64 [sir8; runtest_pause; sdr2048] = Ok m'
    /\ state_after IRPAUSE (flat_map requested_edges (usb m')) = currentState m'.
Proof.
  eexists. split; [reflexivity|].
  apply (tracked_state_follows_calls 64 [sir8; runtest_pause; sdr2048]).
  - lia.
  - repeat constructor; intros T; try discriminate T; reflexivity.
  - vm_compute. tauto.
  - reflexivity.
Defined.

(** ** Pins that hold their level *)

Lemma pins_app : forall a b tms tdi,
  pins tms tdi (a ++ b)
  = pins tms tdi a ++ pins (fst (held tms tdi a)) (snd (held tms tdi a)) b.
Proof.
  induction a as [|[m d] a IH]; intros b tms tdi; [reflexivity|].
  cbn [app pins held]. rewrite IH. reflexivity.
Qed.

Lemma held_app : forall a b tms tdi,
  held tms tdi (a ++ b) = held (fst (held tms tdi a)) (snd (held tms tdi a)) b.
Proof.
  induction a as [|[m d] a IH]; intros b tms tdi; [reflexivity|].
  cbn [app held]. apply IH.
Qed.

Lemma tms_run_fst bits last : map fst (tms_run bits last) = bits.
Proof.
  unfold tms_run. destruct (rev bits) as [|b front] eqn:R.
  - apply (f_equal (@rev Z)) in R. rewrite rev_involutive in R. subst. reflexivity.
  - apply (f_equal (@rev Z)) in R. rewrite rev_involutive in R. cbn [rev] in R.
    subst bits. rewrite map_app, map_map. cbn [map fst]. rewrite map_id. reflexivity.
Qed.

Lemma tms_run_stay bits : tms_run bits false = map (fun b => (b, 0)) bits.
Proof.
  unfold tms_run. destruct (rev bits) as [|b front] eqn:R.
  - apply (f_equal (@rev Z)) in R. rewrite rev_involutive in R. subst. reflexivity.
  - apply (f_equal (@rev Z)) in R. rewrite rev_involutive in R. cbn [rev] in R.
    subst bits. rewrite map_app. reflexivity.
Qed.

End TAPFacts.

(* ================================================================== *)
(** * Properties of the SVF parser *)
(* ================================================================== *)

Module SVFFacts.
Import TAP SVF.




Lemma set_length {A} (v : A) : forall l i, List.length (JS.set l i v) = List.length l.
Proof.
  induction l as [|h t IH]; intros i; [reflexivity|].
  destruct i; cbn [JS.set List.length]; [reflexivity|]. rewrite IH. reflexivity.
Qed.

Lemma get_set {A} (v : A) l i j :
  0 <= i -> 0 <= j ->
  JS.get (JS.set l (Z.to_nat i) v) j
  = if j =? i then (if i <? Z.of_nat (List.length l) then Some v else None)
    else JS.get l j.
Proof.
  intros Hi Hj. unfold JS.get. destruct (Z.ltb_spec j 0); [lia|].
  rewrite JSFacts.nth_error_set.
  destruct (Z.eqb_spec j i) as [->|N].
  - rewrite Nat.eqb_refl.
    destruct (Nat.ltb_spec (Z.to_nat i) (List.length l)),
             (Z.ltb_spec i (Z.of_nat (List.length l))); try reflexivity; lia.
  - destruct (Nat.eqb_spec (Z.to_nat j) (Z.to_nat i)); [lia|reflexivity].
Qed.

(** The loop [for (i = 0; i < k; i++) bytes[i] = f(i)] on an array that has
    at least [k] elements. *)
Lemma fold_set (f : Z -> Z) : forall (k : nat) (l : list Z),
  (k <= List.length l)%nat ->
  let r := fold_left (fun b i => JS.set b (Z.to_nat i) (f i))
             (JS.range (Z.of_nat k)) l in
  List.length r = List.length l
  /\ (forall i, 0 <= i < Z.of_nat k -> JS.get r i = Some (f i))
  /\ (forall i, Z.of_nat k <= i -> JS.get r i = JS.get l i).
Proof.
  induction k as [|k IH]; intros l Hk.
  - cbn. split; [reflexivity|]. split; [intros; lia|reflexivity].
  - cbv zeta. rewrite (JSFacts.range_snoc (Z.of_nat (S k))) by lia.
    replace (Z.of_nat (S k) - 1) with (Z.of_nat k) by lia.
    rewrite fold_left_app. cbn [fold_left].
    destruct (IH l ltac:(lia)) as [L [G1 G2]].
    set (r := fold_left _ (JS.range (Z.of_nat k)) l) in *.
    split; [rewrite set_length; exact L|]. split.
    + intros i Hi. rewrite get_set by lia.
      destruct (Z.eqb_spec i (Z.of_nat k)) as [->|N].
      * destruct (Z.ltb_spec (Z.of_nat k) (Z.of_nat (List.length r))); [reflexivity|lia].
      * apply G1. lia.
    + intros i Hi. rewrite get_set by lia.
      destruct (Z.eqb_spec i (Z.of_nat k)); [lia|]. apply G2. lia.
Qed.

(** The number of bytes the hex literal of a token supplies. *)
Definition providedBytes (token : string) : Z :=
  Z.of_nat (List.length (padEven (cleanHex token))) / 2.

(** The byte the loop stores at index [i]. *)
Definition pairValue (hexStr : list ascii) (i : Z) : Z :=
  let hexIndex := Z.of_nat (List.length hexStr) - 2 - (i * 2) in
  JS.u8 (match parseInt16 (slice hexStr hexIndex (hexIndex + 2)) with
         | Some v => v
         | None => 0
         end).

Lemma storePair_set hexStr bytes i :
  storePair hexStr bytes i = JS.set bytes (Z.to_nat i) (pairValue hexStr i).
Proof. reflexivity. Qed.

Lemma fold_storePair hexStr : forall idx bytes,
  fold_left (storePair hexStr) idx bytes
  = fold_left (fun b i => JS.set b (Z.to_nat i) (pairValue hexStr i)) idx bytes.
Proof. induction idx as [|i idx IH]; intros; [reflexivity|]. cbn [fold_left]. apply IH. Qed.

Lemma fill_length {A} (v : A) n : List.length (JS.fill n v) = Z.to_nat n.
Proof. apply repeat_length. Qed.

(** The shape of the array [parseHexData] returns. *)
Lemma parseHexData_shape token n bytes :
  parseHexData (Some token) n = Ok (Some bytes) ->
  Z.of_nat (List.length bytes) = Z.max (providedBytes token) (JS.ceil8 n)
  /\ (forall i, 0 <= i < providedBytes token ->
        JS.get bytes i = Some (pairValue (padEven (cleanHex token)) i))
  /\ (forall i, providedBytes token <= i < Z.of_nat (List.length bytes) ->
        JS.get bytes i = Some 0).
Proof.
  unfold parseHexData, providedBytes.
  destruct (String.eqb token ""); [discriminate|].
  destruct (Z.eqb_spec (Z.of_nat (List.length (cleanHex token))) 0) as [E|E].
  - destruct (Z.ltb_spec (JS.ceil8 n) 0) as [L|L]; [discriminate|].
    intros [= <-].
    assert (C : cleanHex token = []) by (destruct (cleanHex token); [reflexivity|simpl in E; lia]).
    rewrite C.
    replace (Z.of_nat (List.length (padEven (@nil ascii))) / 2) with 0 by reflexivity.
    rewrite fill_length.
    split; [lia|]. split; [intros; lia|].
    intros i Hi. apply JSFacts.get_fill. lia.
  - intros [= <-]. rewrite fold_storePair.
    set (hexStr := padEven (cleanHex token)).
    set (provided := Z.of_nat (List.length hexStr) / 2).
    assert (Hp : 0 <= provided) by (apply Z.div_pos; lia).
    set (bytes0 := JS.fill (Z.max provided (JS.ceil8 n)) 0).
    assert (Hk : (Z.to_nat provided <= List.length bytes0)%nat)
      by (unfold bytes0; rewrite fill_length; lia).
    pose proof (fold_set (pairValue hexStr) (Z.to_nat provided) bytes0 Hk) as F.
    cbv zeta in F. rewrite Z2Nat.id in F by exact Hp.
    destruct F as [L [G1 G2]].
    split; [rewrite L; unfold bytes0; rewrite fill_length; lia|].
    split; [exact G1|].
    intros i Hi. rewrite G2 by lia. apply JSFacts.get_fill.
    rewrite L in Hi. unfold bytes0 in Hi. rewrite fill_length in Hi. lia.
Qed.

(** A field of an SIR or SDR command: a keyword and its hex literal,
    written as two tokens ([TDI (AB)]) or as one ([TDI(AB)]). *)
Record field : Type := {
  keyword : string;
  literal : string;
  attached : bool
}.

Definition keywords : list string := ["TDI"; "TDO"; "MASK"; "SMASK"]%string.

Definition fieldTokens (f : field) : list string :=
  if attached f then [(keyword f ++ literal f)%string] else [keyword f; literal f].

(** The array of the command for a keyword. *)
Definition arrayOf (kw : string) (cmd : command) : option (list Z) :=
  if String.eqb kw "TDI" then cmd_tdi cmd
  else if String.eqb kw "TDO" then cmd_tdo cmd
  else if String.eqb kw "MASK" then cmd_mask cmd
  else cmd_smask cmd.

(** The raw literal the loop holds for a keyword. *)
Definition rawOf (kw : string) (v : shift_vars) : option string :=
  if String.eqb kw "TDI" then rawTdi v
  else if String.eqb kw "TDO" then rawTdo v
  else if String.eqb kw "MASK" then rawMask v
  else rawSMask v.

Definition setRaw (kw lit : string) (v : shift_vars) : shift_vars :=
  if String.eqb kw "TDI" then
    {| v_length := v_length v; rawTdi := Some lit; rawTdo := rawTdo v;
       rawMask := rawMask v; rawSMask := rawSMask v |}
  else if String.eqb kw "TDO" then
    {| v_length := v_length v; rawTdi := rawTdi v; rawTdo := Some lit;
       rawMask := rawMask v; rawSMask := rawSMask v |}
  else if String.eqb kw "MASK" then
    {| v_length := v_length v; rawTdi := rawTdi v; rawTdo := rawTdo v;
       rawMask := Some lit; rawSMask := rawSMask v |}
  else
    {| v_length := v_length v; rawTdi := rawTdi v; rawTdo := rawTdo v;
       rawMask := rawMask v; rawSMask := Some lit |}.

Definition wellWritten (f : field) : Prop :=
  In (keyword f) keywords /\ (attached f = true -> literal f <> ""%string).

Lemma substring_whole : forall s, String.substring 0 (String.length s) s = s.
Proof. induction s as [|c s IH]; [reflexivity|]. cbn. rewrite IH. reflexivity. Qed.

Lemma keyword_cases kw :
  In kw keywords ->
  kw = "TDI"%string \/ kw = "TDO"%string \/ kw = "MASK"%string \/ kw = "SMASK"%string.
Proof. intros [H|[H|[H|[H|[]]]]]; subst; auto. Qed.

Lemma rawOf_setRaw kw kw' lit v :
  In kw keywords -> In kw' keywords ->
  rawOf kw (setRaw kw' lit v) = if String.eqb kw kw' then Some lit else rawOf kw v.
Proof.
  intros H H'. apply keyword_cases in H, H'.
  destruct H as [-> | [-> | [-> | -> ]]], H' as [-> | [-> | [-> | -> ]]]; reflexivity.
Qed.

Lemma setRaw_length kw lit v : v_length (setRaw kw lit v) = v_length v.
Proof.
  unfold setRaw.
  destruct (String.eqb kw "TDI"), (String.eqb kw "TDO"), (String.eqb kw "MASK");
    reflexivity.
Qed.

Section BuiltinsFacts.
Variable isNaN : string -> bool.
Variable parseInt : string -> option Z.
Hypothesis keywordsNaN :
  forall kw rest, In kw keywords -> isNaN (kw ++ rest)%string = true.

Lemma append_empty : forall s : string, (s ++ "")%string = s.
Proof. induction s as [|c s IH]; [reflexivity|]. cbn. rewrite IH. reflexivity. Qed.

(** One field in the loop of [parseShift]. *)
Lemma parseShiftLoop_field f rest v :
  wellWritten f ->
  parseShiftLoop isNaN parseInt (fieldTokens f ++ rest) v
  = parseShiftLoop isNaN parseInt rest (setRaw (keyword f) (literal f) v).
Proof.
  intros [K A]. unfold fieldTokens. destruct (attached f) eqn:At.
  - specialize (A eq_refl). cbn [app parseShiftLoop].
    rewrite (keywordsNaN _ (literal f) K). cbn [negb andb].
    destruct (literal f) as [|c lit] eqn:L; [congruence|].
    apply keyword_cases in K.
    destruct K as [-> | [-> | [-> | -> ]]]; cbn; rewrite substring_whole;
      reflexivity.
  - cbn [app parseShiftLoop].
    pose proof (keywordsNaN _ "" K) as N. rewrite append_empty in N.
    rewrite N. cbn [negb andb].
    apply keyword_cases in K. destruct K as [-> | [-> | [-> | -> ]]]; reflexivity.
Qed.

Lemma parseShiftLoop_fields : forall fields v,
  Forall wellWritten fields ->
  parseShiftLoop isNaN parseInt (flat_map fieldTokens fields) v
  = fold_left (fun v f => setRaw (keyword f) (literal f) v) fields v.
Proof.
  induction fields as [|f fields IH]; intros v W; [reflexivity|].
  inversion W as [|? ? Wf Wr]; subst. cbn [flat_map fold_left].
  rewrite parseShiftLoop_field by exact Wf. apply IH. exact Wr.
Qed.

Lemma fold_setRaw_length : forall fields v,
  v_length (fold_left (fun v f => setRaw (keyword f) (literal f) v) fields v) = v_length v.
Proof.
  induction fields as [|f fields IH]; intros v; [reflexivity|].
  cbn [fold_left]. rewrite IH. apply setRaw_length.
Qed.

Lemma fold_setRaw_other kw : forall fields v,
  In kw keywords -> Forall wellWritten fields ->
  ~ In kw (map keyword fields) ->
  rawOf kw (fold_left (fun v f => setRaw (keyword f) (literal f) v) fields v) = rawOf kw v.
Proof.
  induction fields as [|f fields IH]; intros v K W N; [reflexivity|].
  inversion W as [|? ? [Kf _] Wr]; subst. cbn [fold_left].
  rewrite IH; [|exact K|exact Wr|intros I; apply N; right; exact I].
  rewrite rawOf_setRaw by assumption.
  destruct (String.eqb_spec kw (keyword f)) as [E|E]; [|reflexivity].
  exfalso. apply N. left. symmetry. exact E.
Qed.

(** The literal the loop holds for a field that no later field of the same
    keyword follows. *)
Lemma fold_setRaw_field before f after v :
  Forall wellWritten (before ++ f :: after) ->
  ~ In (keyword f) (map keyword after) ->
  rawOf (keyword f)
    (fold_left (fun v f => setRaw (keyword f) (literal f) v) (before ++ f :: after) v)
  = Some (literal f).
Proof.
  intros W N. apply Forall_app in W. destruct W as [_ W].
  inversion W as [|? ? [K A] Wr]; subst.
  rewrite fold_left_app. cbn [fold_left].
  rewrite fold_setRaw_other by assumption.
  rewrite rawOf_setRaw, String.eqb_refl by exact K. reflexivity.
Qed.

Lemma parseShift_arrays type tokens cmd kw :
  In kw keywords ->
  parseShift isNaN parseInt type tokens = Ok cmd ->
  let v := parseShiftLoop isNaN parseInt (List.tl tokens)
             {| v_length := None; rawTdi := None; rawTdo := None;
                rawMask := None; rawSMask := None |} in
  cmd_length cmd = v_length v
  /\ parseHexData (rawOf kw v) (bitLengthOf (v_length v)) = Ok (arrayOf kw cmd).
Proof.
  intros K. unfold parseShift.
  set (v := parseShiftLoop isNaN parseInt (List.tl tokens) _).
  set (n := bitLengthOf (v_length v)).
  destruct (parseHexData (rawTdi v) n) as [tdi|] eqn:E1; [|discriminate].
  destruct (parseHexData (rawTdo v) n) as [tdo|] eqn:E2; [|discriminate].
  destruct (parseHexData (rawMask v) n) as [mask|] eqn:E3; [|discriminate].
  destruct (parseHexData (rawSMask v) n) as [smask|] eqn:E4; [|discriminate].
  cbn [bind]. intros [= <-]. cbv zeta. split; [reflexivity|].
  apply keyword_cases in K. destruct K as [-> | [-> | [-> | -> ]]]; assumption.
Qed.

(** C9, as the code has it.  For an SIR or SDR command written as its
    name, a length token and fields of a keyword (TDI, TDO, MASK or SMASK)
    with a hex literal, the length of the command is the length token as
    [parseInt] reads it, and the array of each field (the last one, when a
    keyword is written twice) is what [parseHexData] makes of the field's
    own literal at that length: it has [max(p, ceil(n / 8))] bytes, where
    [n] is the length and [p] the number of bytes the literal supplies;
    every supplied byte is kept and the bytes from index [p] on are zero.
    So the array has exactly [ceil(n / 8)] bytes when the literal supplies
    at most that many, and is longer when it supplies more. *)
Theorem parseShift_array_lengths type name lengthToken before f after cmd :
  isNaN lengthToken = false ->
  Forall wellWritten (before ++ f :: after) ->
  ~ In (keyword f) (map keyword after) ->
  parseShift isNaN parseInt type
    (name :: lengthToken :: flat_map fieldTokens (before ++ f :: after)) = Ok cmd ->
  let n := bitLengthOf (parseInt lengthToken) in
  let p := providedBytes (literal f) in
  cmd_length cmd = parseInt lengthToken
  /\ parseHexData (Some (literal f)) n = Ok (arrayOf (keyword f) cmd)
  /\ (literal f <> ""%string -> exists bytes, arrayOf (keyword f) cmd = Some bytes)
  /\ (forall bytes, arrayOf (keyword f) cmd = Some bytes ->
        Z.of_nat (List.length bytes) = Z.max p (JS.ceil8 n)
        /\ (forall i, 0 <= i < p ->
              JS.get bytes i = Some (pairValue (padEven (cleanHex (literal f))) i))
        /\ (forall i, p <= i < Z.of_nat (List.length bytes) -> JS.get bytes i = Some 0)
        /\ (p <= JS.ceil8 n -> Z.of_nat (List.length bytes) = JS.ceil8 n)
        /\ (JS.ceil8 n < p -> JS.ceil8 n < Z.of_nat (List.length bytes))).
Proof.
  intros HL W N P. cbv zeta.
  assert (K : In (keyword f) keywords).
  { apply Forall_app in W. destruct W as [_ W]. inversion W as [|? ? [K _] _]. exact K. }
  destruct (parseShift_arrays type _ cmd (keyword f) K P) as [L R].
  cbn [List.tl parseShiftLoop] in L, R. rewrite HL in L, R.
  cbn [negb andb noLength v_length] in L, R.
  rewrite parseShiftLoop_fields in L, R by exact W.
  rewrite fold_setRaw_length in L, R. cbn [v_length] in L, R.
  rewrite fold_setRaw_field in R by assumption.
  split; [exact L|]. split; [exact R|]. split.
  - intros NE. unfold parseHexData in R.
    destruct (String.eqb_spec (literal f) "") as [E|_]; [congruence|].
    destruct (Z.of_nat (List.length (cleanHex (literal f))) =? 0).
    + destruct (JS.ceil8 (bitLengthOf (parseInt lengthToken)) <? 0); [discriminate|].
      injection R as R. eexists. symmetry. exact R.
    + injection R as R. eexists. symmetry. exact R.
  - intros bytes B. rewrite B in R.
    destruct (parseHexData_shape (literal f) _ bytes R) as [Len [Kept Zero]].
    split; [exact Len|]. split; [exact Kept|]. split; [exact Zero|]. split; lia.
Qed.

End BuiltinsFacts.

(** An instance of the built-ins for the examples: it reads the unsigned
    decimal numerals and takes every other token for [NaN], which is what
    the built-ins do on a keyword, on a state name and on a parenthesised
    hex literal.  JavaScript reads more tokens as numbers (a sign, a
    fraction, an exponent, [0x]); the examples hold no such token, and
    the theorems are stated for any [isNaN] and [parseInt]. *)
Definition isDecimal (token : string) : bool :=
  negb (String.eqb token "")
  && forallb (fun c => (48 <=? code c) && (code c <=? 57)) (list_ascii_of_string token).

Definition decimalIsNaN (token : string) : bool := negb (isDecimal token).

Definition decimalParseInt (token : string) : option Z :=
  if isDecimal token
  then Some (fold_left (fun acc c => 10 * acc + (code c - 48)) (list_ascii_of_string token) 0)
  else None.

Definition sdr8_tokens : list string :=
  ["SDR"; "8"; "TDI"; "(ABCD)"; "MASK"; "(F)"]%string.

Lemma parseShift_array_lengths_witness :
  exists cmd,
    parseShift decimalIsNaN decimalParseInt "SDR" sdr8_tokens = Ok cmd
    /\ cmd_length cmd = Some 8
    /\ cmd_mask cmd = Some [15]
    /\ parseHexData (Some "(F)"%string) 8 = Ok (Some [15])
    /\ Z.of_nat (List.length [15]) = Z.max (providedBytes "(F)") (JS.ceil8 8).
Proof.
  assert (NaN : forall kw rest, In kw keywords -> decimalIsNaN (kw ++ rest) = true).
  { intros kw rest K. apply keyword_cases in K.
    destruct K as [-> | [-> | [-> | -> ]]]; reflexivity. }
  pose proof (parseShift_array_lengths decimalIsNaN decimalParseInt NaN
                "SDR" "SDR" "8"
                [{| keyword := "TDI"; literal := "(ABCD)"; attached := false |}]
                {| keyword := "MASK"; literal := "(F)"; attached := false |} []) as T.
  eexists. split; [reflexivity|].
  match goal with
  | |- cmd_length ?c = _ /\ _ => destruct (T c eq_refl) as [L [R [_ S]]]
  end.
  - repeat constructor; simpl; auto; discriminate.
  - simpl. tauto.
  - reflexivity.
  - split; [exact L|]. split; [reflexivity|].
    split; [exact R|]. exact (proj1 (S [15] eq_refl)).
Defined.

(** C9 as the specification states it fails: for [SDR 8 TDI (ABCD)] the
    parser returns two TDI bytes, not [ceil(8 / 8) = 1], and the byte above
    the declared length is 0xAB, not zero. *)
Lemma parseShift_array_lengths_counterexample :
  exists cmd tdi,
    parseShift decimalIsNaN decimalParseInt "SDR" sdr8_tokens = Ok cmd
    /\ cmd_length cmd = Some 8
    /\ cmd_tdi cmd = Some tdi
    /\ tdi = [205; 171]
    /\ Z.of_nat (List.length tdi) <> JS.ceil8 8.
Proof.
  eexists. eexists. split; [reflexivity|]. split; [reflexivity|].
  split; [reflexivity|]. split; [reflexivity|]. vm_compute. discriminate.
Qed.

(** ** Byte order of the hex literal *)

















(* ------------------------------------------------------------------ *)
(** ** The parser: lines, tokens and commands *)
(* ------------------------------------------------------------------ *)

(** ** Lines, comments and commands *)

Definition LF : ascii := "010"%char.

(** A piece of text without the character [c]. *)
Definition without (c : ascii) (s : list ascii) : Prop := ~ In c s.

Lemma splitOn_cons sep : forall s, exists piece more, splitOn sep s = piece :: more.
Proof.
  induction s as [|c s [p [m IH]]]; [exists [], []; reflexivity|].
  cbn [splitOn]. destruct (Ascii.eqb c sep); [eexists; eexists; reflexivity|].
  rewrite IH. eexists; eexists; reflexivity.
Qed.

(** Splitting finds the first separator. *)
Lemma splitOn_app sep : forall a b,
  without sep a -> splitOn sep (a ++ sep :: b) = a :: splitOn sep b.
Proof.
  induction a as [|c a IH]; intros b H.
  - cbn [app splitOn]. rewrite Ascii.eqb_refl. reflexivity.
  - cbn [app splitOn].
    destruct (Ascii.eqb_spec c sep) as [->|N]; [exfalso; apply H; left; reflexivity|].
    rewrite IH by (intros Hin; apply H; right; exact Hin). reflexivity.
Qed.

Lemma splitOn_without sep : forall a, without sep a -> splitOn sep a = [a].
Proof.
  induction a as [|c a IH]; intros H; [reflexivity|].
  cbn [splitOn].
  destruct (Ascii.eqb_spec c sep) as [->|N]; [exfalso; apply H; left; reflexivity|].
  rewrite IH by (intros Hin; apply H; right; exact Hin). reflexivity.
Qed.

(** A line of an SVF file: the text before the comment and, if there is
    one, the comment that follows the exclamation mark. *)
Record row : Type := {
  code_of : list ascii;
  remark : option (list ascii)
}.

Definition line_of (r : row) : list ascii :=
  match remark r with
  | Some text => code_of r ++ "!"%char :: text
  | None => code_of r
  end.

Definition well_formed (r : row) : Prop :=
  without LF (code_of r) /\ without "!"%char (code_of r)
  /\ match remark r with Some text => without LF text | None => True end.

Lemma line_of_without_LF r : well_formed r -> without LF (line_of r).
Proof.
  intros [H1 [_ H3]]. unfold line_of. destruct (remark r) as [text|]; [|exact H1].
  intros Hin. apply in_app_or in Hin. destruct Hin as [Hin|[E|Hin]].
  - exact (H1 Hin).
  - discriminate E.
  - exact (H3 Hin).
Qed.

Lemma comment_stripped r :
  well_formed r -> hd [] (splitOn "!"%char (line_of r)) = code_of r.
Proof.
  intros [_ [H2 _]]. unfold line_of. destruct (remark r) as [text|].
  - rewrite splitOn_app by exact H2. reflexivity.
  - rewrite splitOn_without by exact H2. reflexivity.
Qed.

(** What a line contributes to the command under construction. *)
Definition cleaned (r : row) : list ascii := trim (code_of r).

Section ParserFacts.
Variable isNaN : string -> bool.
Variable parseInt : string -> option Z.
Variable parseInt10 : string -> option Z.


(** The commands of a list of command texts, up to the first that throws. *)
Fixpoint parseAll (texts : list (list ascii)) (commands : list command)
    : outcome (list command) :=
  match texts with
  | [] => Ok commands
  | text :: rest => cmd <- parseCommand isNaN parseInt parseInt10 text ;; parseAll rest (commands ++ [cmd])
  end.

(** The lines of a command: lines that do not end it, then the line that
    ends with the semicolon. *)
Record command_lines : Type := {
  continued : list row;
  closing : row
}.

Definition well_formed_lines (c : command_lines) : Prop :=
  Forall (fun r => well_formed r /\ endsWithSemicolon (cleaned r) = false) (continued c)
  /\ well_formed (closing c)
  /\ endsWithSemicolon (cleaned (closing c)) = true.

(** [currentCommand] after the lines [rs]. *)
Definition gathered (currentCommand : list ascii) (rs : list row) : list ascii :=
  fold_left (fun cur r =>
               if Z.of_nat (List.length (cleaned r)) =? 0 then cur
               else cur ++ " "%char :: cleaned r)
            rs currentCommand.

(** The text [parseCommand] receives for the command. *)
Definition command_text (c : command_lines) : list ascii :=
  trim (gathered [] (continued c ++ [closing c])).

Lemma parseLines_continued : forall rs rest cur commands,
  Forall (fun r => well_formed r /\ endsWithSemicolon (cleaned r) = false) rs ->
  parseLines isNaN parseInt parseInt10 (map line_of rs ++ rest) cur commands
  = parseLines isNaN parseInt parseInt10 rest (gathered cur rs) commands.
Proof.
  induction rs as [|r rs IH]; intros rest cur commands H; [reflexivity|].
  inversion H as [|? ? [W E] H']; subst.
  cbn [map app SVF.parseLines]. rewrite (comment_stripped r W). fold (cleaned r).
  cbn [gathered fold_left].
  destruct (Z.of_nat (List.length (cleaned r)) =? 0); [apply IH; exact H'|].
  rewrite E. apply IH. exact H'.
Qed.

Lemma gathered_app cur a b : gathered cur (a ++ b) = gathered (gathered cur a) b.
Proof. unfold gathered. apply fold_left_app. Qed.

Lemma endsWithSemicolon_nonempty s :
  endsWithSemicolon s = true -> (Z.of_nat (List.length s) =? 0) = false.
Proof. destruct s; [discriminate|reflexivity]. Qed.

Lemma parseLines_command c rest commands :
  well_formed_lines c ->
  parseLines isNaN parseInt parseInt10 (map line_of (continued c) ++ line_of (closing c) :: rest) [] commands
  = (cmd <- parseCommand isNaN parseInt parseInt10 (command_text c) ;; parseLines isNaN parseInt parseInt10 rest [] (commands ++ [cmd])).
Proof.
  intros [H1 [H2 H3]]. rewrite parseLines_continued by exact H1.
  cbn [SVF.parseLines]. rewrite (comment_stripped _ H2). fold (cleaned (closing c)).
  rewrite (endsWithSemicolon_nonempty _ H3), H3.
  unfold command_text. rewrite gathered_app. cbn [gathered fold_left].
  rewrite (endsWithSemicolon_nonempty _ H3). reflexivity.
Qed.

(** The text of a file with the lines [ls]: a line feed between every
    two of them. *)
Definition unlines (ls : list (list ascii)) : list ascii :=
  match ls with
  | [] => []
  | l :: rest => l ++ flat_map (fun l' => LF :: l') rest
  end.

Lemma splitOn_unlines : forall ls l,
  Forall (without LF) (l :: ls) ->
  splitOn LF (l ++ flat_map (fun l' => LF :: l') ls) = l :: ls.
Proof.
  induction ls as [|l' ls IH]; intros l H; inversion H as [|? ? H1 H2]; subst.
  - cbn [flat_map]. rewrite app_nil_r. apply splitOn_without. exact H1.
  - cbn [flat_map]. rewrite <- app_comm_cons.
    rewrite splitOn_app by exact H1. rewrite IH by exact H2. reflexivity.
Qed.

Definition lines_of (c : command_lines) : list (list ascii) :=
  map line_of (continued c) ++ [line_of (closing c)].

Lemma lines_of_without_LF c : well_formed_lines c -> Forall (without LF) (lines_of c).
Proof.
  intros [H1 [H2 _]]. unfold lines_of. apply Forall_app. split.
  - apply Forall_map. eapply Forall_impl; [|exact H1].
    intros r [W _]. apply line_of_without_LF. exact W.
  - constructor; [apply line_of_without_LF; exact H2|constructor].
Qed.

Lemma parseLines_commands : forall cs rest commands,
  Forall well_formed_lines cs ->
  parseLines isNaN parseInt parseInt10 (flat_map lines_of cs ++ rest) [] commands
  = match parseAll (map command_text cs) commands with
    | Ok commands' => parseLines isNaN parseInt parseInt10 rest [] commands'
    | Throw e => Throw e
    end.
Proof.
  induction cs as [|c cs IH]; intros rest commands H; [reflexivity|].
  inversion H as [|? ? H1 H2]; subst.
  cbn [flat_map map parseAll]. unfold lines_of at 1.
  rewrite <- !app_assoc. cbn [app].
  rewrite parseLines_command by exact H1.
  destruct (parseCommand isNaN parseInt parseInt10 (command_text c)) as [cmd|e]; [|reflexivity].
  cbn [bind]. apply IH. exact H2.
Qed.

(** X8. [parse] on a file that is a sequence of commands, each on one or
    more lines of which the last ends with a semicolon, with or without a
    comment after an exclamation mark on each line, followed by lines
    that are blank or hold an unfinished command ([tail], which no
    semicolon ends): the result is what [parseCommand] makes of each
    command's lines, cleared of comments, trimmed and joined by single
    spaces, in file order; the first command that throws ends the parse;
    [tail] is dropped. *)
Theorem parse_commands (cs : list command_lines) (tail : list row) :
  Forall well_formed_lines cs ->
  Forall (fun r => well_formed r /\ endsWithSemicolon (cleaned r) = false) tail ->
  parse isNaN parseInt parseInt10
    (string_of_list_ascii (unlines (flat_map lines_of cs ++ map line_of tail)))
  = parseAll (map command_text cs) [].
Proof.
  intros Hcs Htail. unfold SVF.parse. rewrite list_ascii_of_string_of_list_ascii.
  assert (F : Forall (without LF) (flat_map lines_of cs ++ map line_of tail)).
  { apply Forall_app. split.
    - apply Forall_flat_map. eapply Forall_impl; [|exact Hcs].
      intros c Hc. apply lines_of_without_LF. exact Hc.
    - apply Forall_map. eapply Forall_impl; [|exact Htail].
      intros r [W _]. apply line_of_without_LF. exact W. }
  assert (S : forall ls cur commands,
            Forall (without LF) ls ->
            parseLines isNaN parseInt parseInt10 (splitOn LF (unlines ls)) cur commands
            = parseLines isNaN parseInt parseInt10 ls cur commands).
  { intros [|l ls] cur commands H; [reflexivity|].
    unfold unlines. rewrite splitOn_unlines by exact H. reflexivity. }
  rewrite S by exact F. rewrite parseLines_commands by exact Hcs.
  destruct (parseAll (map command_text cs) []) as [commands|e]; [|reflexivity].
  rewrite <- (app_nil_r (map line_of tail)).
  rewrite parseLines_continued by exact Htail. reflexivity.
Qed.

End ParserFacts.

(** ** The text of a command and its tokens *)

Definition notSpace (c : ascii) : bool := negb (isSpace c).

(** [s.trimEnd()], the second half of [trim]. *)
Definition trimEnd (s : list ascii) : list ascii := rev (skipSpaces (rev s)).

Lemma trim_trimEnd s : trim s = trimEnd (skipSpaces s).
Proof. reflexivity. Qed.

Lemma skipSpaces_app a x r :
  isSpace x = false -> skipSpaces (a ++ x :: r) = skipSpaces a ++ x :: r.
Proof.
  intros Hx. induction a as [|c a IH]; cbn [app skipSpaces].
  - rewrite Hx. reflexivity.
  - destruct (isSpace c); [exact IH|reflexivity].
Qed.

Lemma trimEnd_app a x r :
  isSpace x = false -> trimEnd (a ++ x :: r) = a ++ x :: trimEnd r.
Proof.
  intros Hx. unfold trimEnd. rewrite rev_app_distr. cbn [rev].
  rewrite <- app_assoc. cbn [app]. rewrite skipSpaces_app by exact Hx.
  rewrite rev_app_distr. cbn [rev]. rewrite rev_involutive, <- app_assoc. reflexivity.
Qed.

Lemma removelast_app_cons {A} (a : list A) x b :
  b <> [] -> removelast (a ++ x :: b) = a ++ x :: removelast b.
Proof.
  intros Hb. rewrite removelast_app by discriminate.
  cbn [removelast]. destruct b; [congruence|reflexivity].
Qed.

Lemma endsWithSemicolon_app a x b :
  b <> [] -> endsWithSemicolon (a ++ x :: b) = endsWithSemicolon b.
Proof.
  intros Hb. unfold endsWithSemicolon.
  rewrite rev_app_distr. cbn [rev]. rewrite <- app_assoc.
  destruct (rev b) as [|c r] eqn:R; [|reflexivity].
  exfalso. apply Hb. rewrite <- (rev_involutive b), R. reflexivity.
Qed.

Lemma dropSemicolon_app a x b :
  (code x =? 59) = false -> dropSemicolon (a ++ x :: b) = a ++ x :: dropSemicolon b.
Proof.
  intros Hx. unfold dropSemicolon. destruct b as [|c b].
  - unfold endsWithSemicolon at 1. rewrite rev_app_distr. cbn [rev app].
    rewrite Hx. reflexivity.
  - rewrite endsWithSemicolon_app by discriminate.
    destruct (endsWithSemicolon (c :: b)); [|reflexivity].
    apply removelast_app_cons. discriminate.
Qed.

Lemma closes_app a b : closes (a ++ ")"%char :: b) = true.
Proof.
  unfold closes. rewrite existsb_app. cbn [existsb].
  change (code ")"%char =? 41) with true. rewrite orb_true_r. reflexivity.
Qed.

(** Inside a match the white space goes, up to the closing parenthesis. *)
Lemma stripGroups_inside : forall content rest,
  without ")"%char content ->
  stripGroups true (content ++ ")"%char :: rest)
  = filter notSpace content ++ ")"%char :: stripGroups false rest.
Proof.
  induction content as [|c content IH]; intros rest H; [reflexivity|].
  cbn [app stripGroups filter].
  assert (Hc : (code c =? 41) = false).
  { apply Z.eqb_neq. intros E. apply H. left.
    rewrite <- (ascii_N_embedding c), <- (ascii_N_embedding ")"%char).
    f_equal. unfold code in E. apply N2Z.inj. exact E. }
  rewrite Hc. unfold notSpace at 1.
  rewrite IH by (intros Hin; apply H; right; exact Hin).
  destruct (isSpace c); reflexivity.
Qed.

(** Outside a match text without an opening parenthesis is kept. *)
Lemma stripGroups_outside : forall pre rest,
  without "("%char pre ->
  stripGroups false (pre ++ rest) = pre ++ stripGroups false rest.
Proof.
  induction pre as [|c pre IH]; intros rest H; [reflexivity|].
  cbn [app stripGroups].
  assert (Hc : (code c =? 40) = false).
  { apply Z.eqb_neq. intros E. apply H. left.
    rewrite <- (ascii_N_embedding c), <- (ascii_N_embedding "("%char).
    f_equal. unfold code in E. apply N2Z.inj. exact E. }
  rewrite Hc. cbn [andb].
  rewrite IH by (intros Hin; apply H; right; exact Hin). reflexivity.
Qed.

Lemma skipSpaces_without c : forall s, without c s -> without c (skipSpaces s).
Proof.
  induction s as [|x s IH]; intros H; [exact H|].
  cbn [skipSpaces]. destruct (isSpace x); [|exact H].
  apply IH. intros Hin. apply H. right. exact Hin.
Qed.

Lemma filter_without c (f : ascii -> bool) s : without c s -> without c (filter f s).
Proof. intros H Hin. apply filter_In in Hin. exact (H (proj1 Hin)). Qed.

Lemma filter_notSpace_idem s : filter notSpace (filter notSpace s) = filter notSpace s.
Proof.
  induction s as [|c s IH]; [reflexivity|]. cbn [filter].
  destruct (notSpace c) eqn:E; [|exact IH]. cbn [filter]. rewrite E, IH. reflexivity.
Qed.

(** [stripGroups] on a text that is followed by a closing parenthesis:
    every opening parenthesis outside a match begins one. *)
Fixpoint stripOpen (inside : bool) (s : list ascii) : list ascii :=
  match s with
  | [] => []
  | c :: rest =>
      if inside then
        if code c =? 41 then c :: stripOpen false rest
        else if isSpace c then stripOpen true rest
        else c :: stripOpen true rest
      else if code c =? 40 then c :: stripOpen true rest
      else c :: stripOpen false rest
  end.

Lemma stripOpen_without : forall pre, without "("%char pre -> stripOpen false pre = pre.
Proof.
  induction pre as [|c pre IH]; intros H; [reflexivity|].
  cbn [stripOpen].
  assert (Hc : (code c =? 40) = false).
  { apply Z.eqb_neq. intros E. apply H. left.
    rewrite <- (ascii_N_embedding c), <- (ascii_N_embedding "("%char).
    f_equal. unfold code in E. apply N2Z.inj. exact E. }
  rewrite Hc, IH by (intros Hin; apply H; right; exact Hin). reflexivity.
Qed.

(** An opening parenthesis that is followed by a closing one, whether it
    begins a match or lies in one: the white space up to the first closing
    parenthesis goes. *)
Lemma stripGroups_group inside content rest :
  without ")"%char content ->
  stripGroups inside ("("%char :: content ++ ")"%char :: rest)
  = "("%char :: filter notSpace content ++ ")"%char :: stripGroups false rest.
Proof.
  intros H. cbn [stripGroups]. rewrite closes_app.
  change (code "("%char =? 41) with false. change (isSpace "("%char) with false.
  change (code "("%char =? 40) with true. cbn [andb].
  rewrite stripGroups_inside by exact H. destruct inside; reflexivity.
Qed.

Lemma stripGroups_before_group : forall pre inside content rest,
  without ")"%char content ->
  stripGroups inside (pre ++ "("%char :: content ++ ")"%char :: rest)
  = stripOpen inside pre
    ++ "("%char :: filter notSpace content ++ ")"%char :: stripGroups false rest.
Proof.
  induction pre as [|c pre IH]; intros inside content rest H.
  - apply stripGroups_group. exact H.
  - cbn [app stripGroups stripOpen].
    replace (pre ++ "("%char :: content ++ ")"%char :: rest)
      with ((pre ++ "("%char :: content) ++ ")"%char :: rest)
      by (rewrite <- app_assoc; reflexivity).
    rewrite closes_app, andb_true_r.
    replace ((pre ++ "("%char :: content) ++ ")"%char :: rest)
      with (pre ++ "("%char :: content ++ ")"%char :: rest)
      by (rewrite <- app_assoc; reflexivity).
    rewrite !IH by exact H.
    destruct inside; [destruct (code c =? 41); [|destruct (isSpace c)]|
                      destruct (code c =? 40)]; reflexivity.
Qed.

(** The text of a command around any of its parenthesised groups. *)
Lemma commandText_any_group pre content post :
  without ")"%char content ->
  commandText (pre ++ "("%char :: content ++ ")"%char :: post)
  = stripOpen false (skipSpaces pre) ++ "("%char :: filter notSpace content
    ++ ")"%char :: stripGroups false (trimEnd (dropSemicolon post)).
Proof.
  intros Hcontent. unfold commandText.
  replace (pre ++ "("%char :: content ++ ")"%char :: post)
    with ((pre ++ "("%char :: content) ++ ")"%char :: post)
    by (rewrite <- app_assoc; reflexivity).
  rewrite dropSemicolon_app by reflexivity.
  rewrite trim_trimEnd, <- app_assoc. cbn [app].
  rewrite skipSpaces_app by reflexivity.
  replace (skipSpaces pre ++ "("%char :: content ++ ")"%char :: dropSemicolon post)
    with ((skipSpaces pre ++ "("%char :: content) ++ ")"%char :: dropSemicolon post)
    by (rewrite <- app_assoc; reflexivity).
  rewrite trimEnd_app by reflexivity. rewrite <- app_assoc. cbn [app].
  apply stripGroups_before_group. exact Hcontent.
Qed.

Section GroupFacts.
Variable isNaN : string -> bool.
Variable parseInt : string -> option Z.
Variable parseInt10 : string -> option Z.

Lemma parseCommand_commandText a b :
  commandText a = commandText b ->
  parseCommand isNaN parseInt parseInt10 a = parseCommand isNaN parseInt parseInt10 b.
Proof. intros E. unfold parseCommand, tokenize. rewrite E. reflexivity. Qed.

(** X9. In the text of a command, from any opening parenthesis to the next
    closing one, white space does not count, in the first group and in
    every later one: the group reaches the tokens with its white space
    removed, and [parseCommand] gives the same result, thrown errors
    included, for a group with and without white space.  What stands
    before the group reaches the tokens as [stripOpen] leaves it, which is
    as it is written when it holds no opening parenthesis. *)
Theorem parseCommand_group_spaces pre content post :
  without ")"%char content ->
  commandText (pre ++ "("%char :: content ++ ")"%char :: post)
  = stripOpen false (skipSpaces pre) ++ "("%char :: filter notSpace content
    ++ ")"%char :: stripGroups false (trimEnd (dropSemicolon post))
  /\ (without "("%char pre -> stripOpen false (skipSpaces pre) = skipSpaces pre)
  /\ parseCommand isNaN parseInt parseInt10
       (pre ++ "("%char :: content ++ ")"%char :: post)
     = parseCommand isNaN parseInt parseInt10
         (pre ++ "("%char :: filter notSpace content ++ ")"%char :: post).
Proof.
  intros Hcontent. split; [apply commandText_any_group; assumption|]. split.
  - intros Hpre. apply stripOpen_without. apply skipSpaces_without. exact Hpre.
  - apply parseCommand_commandText.
    rewrite !commandText_any_group, filter_notSpace_idem;
      [reflexivity|apply filter_without; exact Hcontent|exact Hcontent].
Qed.
End GroupFacts.

(** ** Tokens *)

(** The text is not empty and its last character is no white space. *)
Fixpoint endsNonSpace (s : list ascii) : bool :=
  match s with
  | [] => false
  | [c] => notSpace c
  | _ :: rest => endsNonSpace rest
  end.

Definition startsNonSpace (s : list ascii) : bool :=
  match s with
  | c :: _ => notSpace c
  | [] => false
  end.

Definition nonEmpty (t : list ascii) : bool :=
  match t with [] => false | _ => true end.

Lemma splitSpaces_cons b : forall s, exists piece more, splitSpaces b s = piece :: more.
Proof.
  intros s. revert b. induction s as [|c s IH]; intros b; [exists [], []; reflexivity|].
  cbn [splitSpaces]. destruct (isSpace c).
  - destruct b; [apply IH|eexists; eexists; reflexivity].
  - destruct (IH false) as [p [m E]]. rewrite E. eexists; eexists; reflexivity.
Qed.

Lemma endsNonSpace_cons c s :
  endsNonSpace (c :: s) = true ->
  (s = [] /\ notSpace c = true) \/ endsNonSpace s = true.
Proof. cbn [endsNonSpace]. destruct s; [left; split; [reflexivity|assumption]|right; assumption]. Qed.

Lemma splitSpaces_nonEmpty : forall s,
  endsNonSpace s = true ->
  forallb nonEmpty (splitSpaces true s) = true
  /\ forallb nonEmpty (List.tl (splitSpaces false s)) = true
  /\ (startsNonSpace s = true -> forallb nonEmpty (splitSpaces false s) = true).
Proof.
  induction s as [|c s IH]; intros H; [discriminate|].
  apply endsNonSpace_cons in H. cbn [splitSpaces startsNonSpace]. unfold notSpace in *.
  destruct (isSpace c) eqn:Sc.
  - destruct H as [[_ N]|H]; [discriminate|].
    destruct (IH H) as [I1 _]. cbn [List.tl].
    split; [exact I1|]. split; [exact I1|discriminate].
  - destruct (splitSpaces_cons false s) as [p [m E]]. rewrite E. cbn [List.tl forallb nonEmpty andb].
    assert (M : forallb nonEmpty m = true).
    { destruct H as [[-> _]|H]; [injection E as _ <-; reflexivity|].
      destruct (IH H) as [_ [I2 _]]. rewrite E in I2. exact I2. }
    split; [exact M|]. split; [exact M|intros _; exact M].
Qed.

Lemma splitSpaces_concat : forall s b,
  List.concat (splitSpaces b s) = filter notSpace s.
Proof.
  induction s as [|c s IH]; intros b; [reflexivity|].
  cbn [splitSpaces filter]. unfold notSpace at 1. destruct (isSpace c); cbn [negb].
  - destruct b; [apply IH|cbn [List.concat app]; apply IH].
  - specialize (IH false). destruct (splitSpaces_cons false s) as [p [m E]].
    rewrite E in IH |- *. cbn [List.concat] in IH |- *. rewrite <- IH. reflexivity.
Qed.

Lemma splitSpaces_free : forall s b,
  Forall (fun t => forallb notSpace t = true) (splitSpaces b s).
Proof.
  induction s as [|c s IH]; intros b; [repeat constructor|].
  cbn [splitSpaces]. destruct (isSpace c) eqn:Sc.
  - destruct b; [apply IH|constructor; [reflexivity|apply IH]].
  - specialize (IH false). destruct (splitSpaces_cons false s) as [p [m E]].
    rewrite E in IH |- *. inversion IH as [|? ? Hp Hm]; subst.
    constructor; [|exact Hm]. cbn [forallb]. unfold notSpace at 1. rewrite Sc. exact Hp.
Qed.

(** The ends of a trimmed text. *)
Lemma skipSpaces_starts s : skipSpaces s = [] \/ startsNonSpace (skipSpaces s) = true.
Proof.
  induction s as [|c s IH]; [left; reflexivity|].
  cbn [skipSpaces]. destruct (isSpace c) eqn:Sc; [exact IH|].
  right. cbn [startsNonSpace]. unfold notSpace. rewrite Sc. reflexivity.
Qed.

Lemma endsNonSpace_snoc : forall s c, endsNonSpace (s ++ [c]) = notSpace c.
Proof.
  induction s as [|x s IH]; intros c; [reflexivity|].
  cbn [app endsNonSpace]. destruct (s ++ [c]) eqn:E; [destruct s; discriminate|].
  rewrite <- E. apply IH.
Qed.

Lemma trimEnd_ends s : trimEnd s = [] \/ endsNonSpace (trimEnd s) = true.
Proof.
  unfold trimEnd. destruct (skipSpaces_starts (rev s)) as [E|E].
  - left. rewrite E. reflexivity.
  - right. destruct (skipSpaces (rev s)) as [|c r]; [discriminate|].
    cbn [rev]. rewrite endsNonSpace_snoc. exact E.
Qed.

Lemma trimEnd_starts s :
  startsNonSpace s = true -> startsNonSpace (trimEnd s) = true.
Proof.
  destruct s as [|c s]; [discriminate|]. intros H.
  unfold startsNonSpace, notSpace in H. apply negb_true_iff in H.
  pose proof (trimEnd_app [] c s H) as E. cbn [app] in E. rewrite E.
  cbn [startsNonSpace]. unfold notSpace. rewrite H. reflexivity.
Qed.

Lemma trim_ends s :
  trim s = [] \/ (startsNonSpace (trim s) = true /\ endsNonSpace (trim s) = true).
Proof.
  rewrite trim_trimEnd. destruct (skipSpaces_starts s) as [E|E].
  - left. rewrite E. reflexivity.
  - destruct (trimEnd_ends (skipSpaces s)) as [T|T]; [left; exact T|].
    right. split; [apply trimEnd_starts; exact E|exact T].
Qed.

Lemma stripGroups_starts s :
  startsNonSpace s = true -> startsNonSpace (stripGroups false s) = true.
Proof.
  destruct s as [|c s]; [discriminate|]. cbn [stripGroups startsNonSpace].
  destruct ((code c =? 40) && closes s); intros H; exact H.
Qed.

Lemma endsNonSpace_cons_keep c s : endsNonSpace s = true -> endsNonSpace (c :: s) = true.
Proof. destruct s; [discriminate|]. intros H. exact H. Qed.

Lemma stripGroups_ends : forall s b,
  endsNonSpace s = true -> endsNonSpace (stripGroups b s) = true.
Proof.
  induction s as [|c s IH]; intros b H; [discriminate|].
  apply endsNonSpace_cons in H. destruct H as [[-> N]|H].
  - unfold notSpace in N. apply negb_true_iff in N.
    assert (K : endsNonSpace [c] = true)
      by (cbn [endsNonSpace]; unfold notSpace; rewrite N; reflexivity).
    cbn [stripGroups]. destruct b.
    + destruct (code c =? 41); [exact K|]. rewrite N. exact K.
    + destruct ((code c =? 40) && closes []); exact K.
  - cbn [stripGroups]. destruct b.
    + destruct (code c =? 41); [apply endsNonSpace_cons_keep, IH, H|].
      destruct (isSpace c); [apply IH, H|apply endsNonSpace_cons_keep, IH, H].
    + destruct ((code c =? 40) && closes s); apply endsNonSpace_cons_keep, IH, H.
Qed.

Lemma stripGroups_nil s : stripGroups false s = [] -> s = [].
Proof.
  destruct s as [|c s]; [reflexivity|]. cbn [stripGroups].
  destruct ((code c =? 40) && closes s); discriminate.
Qed.

Lemma commandText_ends cmdText :
  commandText cmdText = []
  \/ (startsNonSpace (commandText cmdText) = true
      /\ endsNonSpace (commandText cmdText) = true).
Proof.
  unfold commandText. destruct (trim_ends (dropSemicolon cmdText)) as [E|[S E]].
  - left. rewrite E. reflexivity.
  - right. split; [apply stripGroups_starts; exact S|apply stripGroups_ends; exact E].
Qed.

Lemma string_of_nil t : string_of_list_ascii t = ""%string -> t = [].
Proof. destruct t; [reflexivity|discriminate]. Qed.

(** X10. The tokens of a command: there is at least one; no token holds
    white space; no token is empty, unless the text of the command is
    empty, which gives the one token [""]; and together the tokens are
    the text of the command without its white space. *)
Theorem tokenize_tokens (cmdText : list ascii) :
  tokenize cmdText <> []
  /\ Forall (fun t => forallb notSpace (list_ascii_of_string t) = true) (tokenize cmdText)
  /\ (commandText cmdText <> [] -> Forall (fun t => t <> ""%string) (tokenize cmdText))
  /\ (commandText cmdText = [] -> tokenize cmdText = [""%string])
  /\ List.concat (map list_ascii_of_string (tokenize cmdText))
     = filter notSpace (commandText cmdText).
Proof.
  unfold tokenize. set (text := commandText cmdText).
  split.
  { destruct (splitSpaces_cons false text) as [p [m E]]. rewrite E. discriminate. }
  split.
  { apply Forall_map. eapply Forall_impl; [|apply splitSpaces_free].
    intros t H. rewrite list_ascii_of_string_of_list_ascii. exact H. }
  split.
  { intros Hne. destruct (commandText_ends cmdText) as [E|[S E]]; [contradiction|].
    destruct (splitSpaces_nonEmpty text E) as [_ [_ N]]. specialize (N S).
    apply Forall_map. rewrite forallb_forall in N. apply Forall_forall.
    intros t Ht E0. apply string_of_nil in E0. subst t.
    specialize (N [] Ht). discriminate. }
  split.
  { intros E. rewrite E. reflexivity. }
  rewrite map_map.
  rewrite (map_ext _ (fun t => t)) by (intros t; apply list_ascii_of_string_of_list_ascii).
  rewrite map_id. apply splitSpaces_concat.
Qed.

(** ** RUNTEST *)

Lemma toUpperCase_idem c : toUpperCase (toUpperCase c) = toUpperCase c.
Proof.
  destruct c as [b0 b1 b2 b3 b4 b5 b6 b7].
  destruct b0, b1, b2, b3, b4, b5, b6, b7; reflexivity.
Qed.

Lemma upper_idem s : upper (upper s) = upper s.
Proof.
  unfold upper. rewrite list_ascii_of_string_of_list_ascii, map_map.
  f_equal. apply map_ext. apply toUpperCase_idem.
Qed.

Lemma upper_empty s : upper s = ""%string -> s = ""%string.
Proof.
  unfold upper. intros H. apply string_of_nil in H.
  destruct s; [reflexivity|discriminate].
Qed.

Lemma orElse_nonempty x y : y <> ""%string -> orElse x y <> ""%string.
Proof.
  intros Hy. unfold orElse. destruct x as [s|]; [|exact Hy].
  destruct (String.eqb_spec s ""); [exact Hy|assumption].
Qed.

Section RunTestFacts.
Variable isNaN : string -> bool.
Variable parseInt10 : string -> option Z.

Lemma parseRunTestLoop_endState : forall tokens v,
  Forall (fun t => upper t <> "ENDSTATE"%string) tokens ->
  v_endState (parseRunTestLoop isNaN parseInt10 tokens v) = v_endState v.
Proof.
  induction tokens as [|raw rest IH]; intros v H; [reflexivity|].
  inversion H as [|? ? H1 H2]; subst. cbn [parseRunTestLoop].
  destruct (negb (isNaN raw)); [rewrite IH by exact H2; reflexivity|].
  destruct (String.eqb (upper raw) "TCK" || String.eqb (upper raw) "SEC"
            || String.eqb (upper raw) "USEC" || String.eqb (upper raw) "MSEC");
    [apply IH; exact H2|].
  destruct (String.eqb_spec (upper raw) "ENDSTATE"); [contradiction|].
  rewrite IH by exact H2. reflexivity.
Qed.

Lemma parseRunTestLoop_cycles : forall tokens v,
  Forall (fun t => isNaN t = true) tokens ->
  v_cycles (parseRunTestLoop isNaN parseInt10 tokens v) = v_cycles v.
Proof.
  intros tokens. remember (List.length tokens) as n eqn:L.
  assert (Hn : (List.length tokens <= n)%nat) by lia. clear L. revert tokens Hn.
  induction n as [|n IH]; intros tokens Hn v H.
  - destruct tokens; [reflexivity|simpl in Hn; lia].
  - destruct tokens as [|raw rest]; [reflexivity|].
    inversion H as [|? ? H1 H2]; subst. cbn [parseRunTestLoop]. rewrite H1. cbn [negb].
    simpl in Hn.
    destruct (String.eqb (upper raw) "TCK" || String.eqb (upper raw) "SEC"
              || String.eqb (upper raw) "USEC" || String.eqb (upper raw) "MSEC");
      [apply IH; [lia|exact H2]|].
    destruct (String.eqb (upper raw) "ENDSTATE").
    + destruct rest as [|next rest']; [reflexivity|].
      inversion H2 as [|? ? _ H3]; subst. simpl in Hn.
      rewrite IH by (try lia; exact H3).
      destruct (String.eqb next ""); reflexivity.
    + rewrite IH by (try lia; exact H2). reflexivity.
Qed.

(** X11. Whatever its tokens are, a parsed RUNTEST command has a run
    state and an end state that are not empty and hold no lower-case
    letter, so the engine takes them as they are ([cmd.state || 'IDLE']
    changes nothing); the run state is IDLE when no token names one; the
    end state is the run state when no token is ENDSTATE; and the cycles
    are 0 when no token is a number. *)
Theorem parseRunTest_states (tokens : list string) :
  exists s e c,
    parseRunTest isNaN parseInt10 tokens
    = {| cmd_type := "RUNTEST"; cmd_length := None; cmd_tdi := None; cmd_tdo := None;
         cmd_mask := None; cmd_smask := None; cmd_states := [];
         cmd_state := Some s; cmd_cycles := Some c; cmd_endState := Some e;
         cmd_mode := None; cmd_raw := None |}
    /\ s <> ""%string /\ upper s = s /\ e <> ""%string /\ upper e = e
    /\ TAPFacts.runStateOf (parseRunTest isNaN parseInt10 tokens) = s
    /\ TAPFacts.endStateOf (parseRunTest isNaN parseInt10 tokens) = e
    /\ TAPFacts.cyclesOf (parseRunTest isNaN parseInt10 tokens) = c
    /\ (Forall (fun t => upper t <> "ENDSTATE"%string) (List.tl tokens) -> e = s)
    /\ (Forall (fun t => isNaN t = true) (List.tl tokens) -> c = 0).
Proof.
  unfold parseRunTest.
  set (v0 := {| v_runState := None; v_endState := None; v_cycles := 0 |}).
  set (v := parseRunTestLoop isNaN parseInt10 (List.tl tokens) v0).
  set (s := upper (orElse (v_runState v) "IDLE")).
  set (e := upper (orElse (v_endState v) s)).
  assert (Hs : s <> ""%string).
  { intros E. apply upper_empty in E. revert E. apply orElse_nonempty. discriminate. }
  assert (He : e <> ""%string).
  { intros E. apply upper_empty in E. revert E. apply orElse_nonempty. exact Hs. }
  exists s, e, (v_cycles v).
  split; [reflexivity|]. split; [exact Hs|]. split; [apply upper_idem|].
  split; [exact He|]. split; [apply upper_idem|].
  assert (Rs : TAPFacts.runStateOf
                 {| cmd_type := "RUNTEST"; cmd_length := None; cmd_tdi := None;
                    cmd_tdo := None; cmd_mask := None; cmd_smask := None;
                    cmd_states := []; cmd_state := Some s; cmd_cycles := Some (v_cycles v);
                    cmd_endState := Some e; cmd_mode := None; cmd_raw := None |} = s).
  { unfold TAPFacts.runStateOf. cbn [cmd_state].
    destruct (String.eqb_spec s ""); [contradiction|reflexivity]. }
  split; [exact Rs|]. split.
  { unfold TAPFacts.endStateOf. cbn [cmd_endState].
    destruct (String.eqb_spec e ""); [contradiction|reflexivity]. }
  split; [reflexivity|]. split.
  - intros H. unfold e, v. rewrite parseRunTestLoop_endState by exact H.
    cbn [v_endState v0 orElse]. apply upper_idem.
  - intros H. unfold v. rewrite parseRunTestLoop_cycles by exact H. reflexivity.
Qed.

End RunTestFacts.

(** A file of two commands: an SDR on two lines with a comment, and a
    RUNTEST with a comment, then a blank line. *)
Definition sample_file : list command_lines :=
  [ {| continued := [ {| code_of := list_ascii_of_string "SDR 16 TDI (AB";
                         remark := Some (list_ascii_of_string " low half follows") |} ];
       closing := {| code_of := list_ascii_of_string "   CD) ;"; remark := None |} |};
    {| continued := [];
       closing := {| code_of := list_ascii_of_string "runtest 100 TCK;";
                     remark := Some (list_ascii_of_string " wait") |} |} ].

Definition blank_row : row := {| code_of := []; remark := None |}.

Definition runtest100 : command :=
  {| cmd_type := "RUNTEST"; cmd_length := None; cmd_tdi := None; cmd_tdo := None;
     cmd_mask := None; cmd_smask := None; cmd_states := [];
     cmd_state := Some IDLE; cmd_cycles := Some 100; cmd_endState := Some IDLE;
     cmd_mode := None; cmd_raw := None |}.

Ltac absent := vm_compute; intuition discriminate.

Lemma parse_commands_witness :
  parse decimalIsNaN decimalParseInt decimalParseInt
    (string_of_list_ascii
       (unlines (flat_map lines_of sample_file ++ map line_of [blank_row])))
  = Ok [TAPFacts.sdr16; runtest100].
Proof.
  rewrite (parse_commands decimalIsNaN decimalParseInt decimalParseInt
             sample_file [blank_row]).
  - reflexivity.
  - repeat constructor; absent.
  - repeat constructor; absent.
Defined.

Lemma parseCommand_group_spaces_witness :
  parseCommand decimalIsNaN decimalParseInt decimalParseInt
    (list_ascii_of_string "SDR 16 TDI (ABCD) MASK (FF  FF) ;")
  = parseCommand decimalIsNaN decimalParseInt decimalParseInt
      (list_ascii_of_string "SDR 16 TDI (ABCD) MASK (FFFF) ;").
Proof.
  apply (parseCommand_group_spaces decimalIsNaN decimalParseInt decimalParseInt
           (list_ascii_of_string "SDR 16 TDI (ABCD) MASK ")
           (list_ascii_of_string "FF  FF")
           (list_ascii_of_string " ;")); absent.
Defined.

Lemma tokenize_tokens_witness :
  Forall (fun t => t <> ""%string)
    (tokenize (list_ascii_of_string "SIR 8  TDI (a b) ;")).
Proof.
  apply (tokenize_tokens (list_ascii_of_string "SIR 8  TDI (a b) ;")).
  vm_compute. discriminate.
Defined.

Lemma parseRunTest_states_witness :
  TAPFacts.endStateOf
    (parseRunTest decimalIsNaN decimalParseInt ["RUNTEST"; "drpause"; "100"; "TCK"]%string)
  = TAPFacts.runStateOf
      (parseRunTest decimalIsNaN decimalParseInt ["RUNTEST"; "drpause"; "100"; "TCK"]%string).
Proof.
  destruct (parseRunTest_states decimalIsNaN decimalParseInt
              ["RUNTEST"; "drpause"; "100"; "TCK"]%string)
    as [s [e [c [_ [_ [_ [_ [_ [Rs [Re [_ [Hes _]]]]]]]]]]]].
  rewrite Rs, Re. apply Hes. repeat constructor; discriminate.
Defined.

(** A file as a design tool writes it, parsed and programmed: the engine
    ends in IDLE. *)
Example parse_then_program :
  exists cmds m',
    parse decimalIsNaN decimalParseInt decimalParseInt
      (string_of_list_ascii
         (unlines (map list_ascii_of_string
            ["! sample"; "TRST OFF;"; "ENDIR IDLE;"; "ENDDR IDLE;"; "STATE RESET;";
             "SIR 10 TDI (002);"; "RUNTEST 100 TCK;";
             "SDR 24 TDI (ABCDEF) TDO (000000)"; "  MASK (000000);";
             "STATE IDLE;"; ""]%string)))
    = Ok cmds
    /\ List.length cmds = 8%nat
    /\ App.programDevice TAP.threshold64 cmds = Ok m'
    /\ currentState m' = IDLE.
Proof. eexists. eexists. split; [reflexivity|]. split; [reflexivity|]. split; reflexivity. Qed.

End SVFFacts.

(* ================================================================== *)
(** * Properties of the legacy adapter *)
(* ================================================================== *)

Module BlasterFacts.
Import Blaster.

Definition decodeAll (l : line) (bytes : list Z) : line := fold_left decode bytes l.

(** [bytes] is a whole number of commands that clock [k] rising edges:
    read from any command boundary, it ends on a command boundary with
    [k] more edges. *)
Definition clocks (bytes : list Z) (k : Z) : Prop :=
  forall l, owed l = 0 ->
    owed (decodeAll l bytes) = 0 /\ edges (decodeAll l bytes) = edges l + k.

Lemma clocks_nil : clocks [] 0.
Proof. intros l H. cbn. split; [exact H|lia]. Qed.

Lemma clocks_app a b j k : clocks a j -> clocks b k -> clocks (a ++ b) (j + k).
Proof.
  intros Ha Hb l H. unfold decodeAll. rewrite fold_left_app.
  destruct (Ha l H) as [O1 E1]. destruct (Hb _ O1) as [O2 E2].
  unfold decodeAll in *. split; [exact O2|]. rewrite E2, E1. lia.
Qed.

Lemma clocks_eq bytes j k : clocks bytes j -> j = k -> clocks bytes k.
Proof. intros H <-. exact H. Qed.

Lemma risingEdges_clocks bytes k : clocks bytes k -> risingEdges bytes = k.
Proof. intros H. destruct (H idle_line eq_refl) as [_ E]. exact E. Qed.

(** A bit-bang byte with TCK = 0. *)
Definition isSetup (b : Z) : bool := negb (Z.testbit b 7) && negb (Z.testbit b 0).
(** A bit-bang byte with TCK = 1. *)
Definition isClock (b : Z) : bool := negb (Z.testbit b 7) && Z.testbit b 0.

Lemma decode_bitbang l b :
  owed l = 0 -> Z.testbit b 7 = false ->
  decode l b
  = {| tck := Z.testbit b 0; owed := 0;
       edges := edges l + (if Z.testbit b 0 && negb (tck l) then 1 else 0) |}.
Proof. intros O B7. unfold decode. rewrite O, B7. reflexivity. Qed.

Lemma clocks_setup b : isSetup b = true -> clocks [b] 0.
Proof.
  intros H l O. unfold isSetup in H. apply andb_true_iff in H.
  destruct H as [H7 H0]. apply negb_true_iff in H7, H0.
  unfold decodeAll. cbn [fold_left]. rewrite (decode_bitbang l b O H7), H0.
  cbn [owed edges andb]. split; [reflexivity|lia].
Qed.

Lemma clocks_pair b c : isSetup b = true -> isClock c = true -> clocks [b; c] 1.
Proof.
  intros Hb Hc l O. unfold isSetup in Hb. unfold isClock in Hc.
  apply andb_true_iff in Hb, Hc. destruct Hb as [B7 B0]. destruct Hc as [C7 C0].
  apply negb_true_iff in B7, B0, C7.
  unfold decodeAll. cbn [fold_left].
  rewrite (decode_bitbang l b O B7), B0.
  rewrite decode_bitbang; [|reflexivity|exact C7]. rewrite C0.
  cbn [owed edges tck andb negb]. split; [reflexivity|lia].
Qed.

Lemma clocks_pairs {A} (f : A -> list Z) : forall idx,
  (forall i, In i idx -> exists b c, f i = [b; c] /\ isSetup b = true /\ isClock c = true) ->
  clocks (flat_map f idx) (Z.of_nat (List.length idx)).
Proof.
  induction idx as [|i idx IH]; intros H; [apply clocks_nil|].
  cbn [flat_map List.length].
  destruct (H i (or_introl eq_refl)) as [b [c [E [Hb Hc]]]]. rewrite E.
  eapply clocks_eq.
  - apply clocks_app; [apply (clocks_pair b c Hb Hc)|].
    apply IH. intros j Hj. apply H. right. exact Hj.
  - lia.
Qed.

Lemma decodeAll_data : forall data l,
  owed l = Z.of_nat (List.length data) ->
  owed (decodeAll l data) = 0
  /\ edges (decodeAll l data) = edges l + 8 * Z.of_nat (List.length data).
Proof.
  induction data as [|d data IH]; intros l O.
  - cbn in *. split; [exact O|lia].
  - cbn [decodeAll fold_left]. fold (decodeAll (decode l d) data).
    assert (Hd : decode l d = {| tck := false; owed := owed l - 1; edges := edges l + 8 |}).
    { unfold decode. destruct (Z.ltb_spec 0 (owed l)); [reflexivity|].
      cbn [List.length] in O. lia. }
    rewrite Hd. destruct (IH {| tck := false; owed := owed l - 1; edges := edges l + 8 |})
      as [O' E'].
    + cbn [owed]. cbn [List.length] in O. lia.
    + split; [exact O'|]. rewrite E'. cbn [edges List.length]. lia.
Qed.

Lemma command_byte_ok :
  forallb (fun n => Z.testbit (Z.lor 0x80 (Z.land n 0x3f)) 7
                    && (Z.land (Z.lor 0x80 (Z.land n 0x3f)) 0x3F =? n))
    (JS.range 64) = true.
Proof. vm_compute. reflexivity. Qed.

(** A byte-shift command with its [n] data bytes clocks [8 n] edges. *)
Lemma clocks_byteshift n data :
  0 <= n < 64 -> Z.of_nat (List.length data) = n ->
  clocks (Z.lor 0x80 (Z.land n 0x3f) :: data) (8 * n).
Proof.
  intros Hn Hlen l O.
  pose proof command_byte_ok as C. rewrite forallb_forall in C.
  specialize (C n (proj2 (JSFacts.range_In 64 n) Hn)).
  apply andb_true_iff in C. destruct C as [C7 CN]. apply Z.eqb_eq in CN.
  cbn [decodeAll fold_left]. fold (decodeAll (decode l (Z.lor 0x80 (Z.land n 0x3f))) data).
  assert (Hd : decode l (Z.lor 0x80 (Z.land n 0x3f))
               = {| tck := tck l; owed := n; edges := edges l |}).
  { unfold decode. rewrite O. change (0 <? 0) with false. cbv iota.
    rewrite C7, CN. reflexivity. }
  rewrite Hd.
  destruct (decodeAll_data data {| tck := tck l; owed := n; edges := edges l |}) as [O' E'].
  - cbn [owed]. lia.
  - split; [exact O'|]. rewrite E'. cbn [edges]. lia.
Qed.

(** What an operation adds to the wire. *)
Definition emits (a a' : adapter) (bytes : list Z) : Prop :=
  wire a' = wire a ++ bytes.

Lemma emits_refl a : emits a a [].
Proof. unfold emits. rewrite app_nil_r. reflexivity. Qed.

Lemma emits_transferOut a data : emits a (transferOut a data) data.
Proof.
  unfold emits, wire, transferOut. cbn [out].
  rewrite concat_app. cbn [List.concat]. rewrite app_nil_r. reflexivity.
Qed.

Lemma emits_trans a b c x y : emits a b x -> emits b c y -> emits a c (x ++ y).
Proof. unfold emits. intros -> ->. rewrite app_assoc. reflexivity. Qed.

(** ** The byte-shift loops *)

Lemma fillBatch_spec tdi start nb : forall fuel off batch k,
  0 <= off -> clocks batch k ->
  off <= snd (fillBatch fuel tdi start nb off batch)
  /\ (off <= nb -> snd (fillBatch fuel tdi start nb off batch) <= nb)
  /\ clocks (fst (fillBatch fuel tdi start nb off batch))
       (k + 8 * (snd (fillBatch fuel tdi start nb off batch) - off)).
Proof.
  induction fuel as [|fuel IH]; intros off batch k Hoff Hb.
  - cbn [fillBatch fst snd]. split; [lia|]. split; [auto|].
    eapply clocks_eq; [exact Hb|lia].
  - cbn [fillBatch]. cbv zeta.
    destruct ((off <? nb) && (Z.of_nat (List.length batch) <? 4096 - 64)) eqn:C.
    + apply andb_true_iff in C. destruct C as [C _]. apply Z.ltb_lt in C.
      set (n := Z.min 63 (nb - off)).
      assert (Hn : 1 <= n <= 63) by (unfold n; lia).
      set (data := map _ (JS.range n)).
      assert (Hd : Z.of_nat (List.length data) = n)
        by (unfold data; rewrite length_map, JSFacts.range_length; lia).
      assert (Hc : clocks (batch ++ [Z.lor 0x80 (Z.land n 0x3f)] ++ data) (k + 8 * n)).
      { apply clocks_app; [exact Hb|]. apply clocks_byteshift; [lia|exact Hd]. }
      destruct (IH (off + n) _ _ ltac:(lia) Hc) as [I1 [I2 I3]].
      split; [lia|]. split; [intros _; apply I2; unfold n; lia|].
      eapply clocks_eq; [exact I3|lia].
    + cbn [fst snd]. split; [lia|]. split; [auto|].
      eapply clocks_eq; [exact Hb|lia].
Qed.

Lemma fillBatch_progress tdi start nb fuel off :
  0 <= off < nb -> (1 <= fuel)%nat ->
  off < snd (fillBatch fuel tdi start nb off []).
Proof.
  intros Hoff Hf. destruct fuel as [|fuel]; [lia|].
  cbn [fillBatch]. cbv zeta.
  destruct (Z.ltb_spec off nb); [|lia].
  cbn [List.length andb]. change (Z.of_nat 0 <? 4096 - 64) with true. cbv iota.
  set (n := Z.min 63 (nb - off)).
  assert (Hn : 1 <= n) by (unfold n; lia).
  match goal with
  | |- _ < snd (fillBatch fuel tdi start nb (off + n) ?b) => set (bytes := b)
  end.
  assert (Hc : clocks bytes (8 * n)).
  { unfold bytes. cbn [app]. apply clocks_byteshift; [unfold n; lia|].
    rewrite length_map, JSFacts.range_length. lia. }
  destruct (fillBatch_spec tdi start nb fuel (off + n) bytes (8 * n) ltac:(lia) Hc)
    as [I _].
  lia.
Qed.

Lemma sendBatches_spec tdi start nb : forall fuel a off,
  0 <= off <= nb -> nb - off <= Z.of_nat fuel ->
  exists bytes,
    emits a (sendBatches fuel a tdi start nb off) bytes
    /\ clocks bytes (8 * (nb - off)).
Proof.
  induction fuel as [|fuel IH]; intros a off Hoff Hf.
  - exists []. split; [apply emits_refl|].
    eapply clocks_eq; [apply clocks_nil|lia].
  - cbn [sendBatches]. cbv zeta. destruct (Z.ltb_spec off nb) as [L|L].
    + set (filled := fillBatch (Z.to_nat nb) tdi start nb off []).
      destruct (fillBatch_spec tdi start nb (Z.to_nat nb) off [] 0
                  ltac:(lia) clocks_nil) as [_ [F2 F3]].
      pose proof (fillBatch_progress tdi start nb (Z.to_nat nb) off
                    ltac:(lia) ltac:(lia)) as F1.
      fold filled in F1, F2, F3.
      destruct (IH (transferOut a (fst filled)) (snd filled) ltac:(lia) ltac:(lia))
        as [rest [E C]].
      exists (fst filled ++ rest). split.
      * eapply emits_trans; [apply emits_transferOut|exact E].
      * eapply clocks_eq; [apply clocks_app; [exact F3|exact C]|lia].
    + exists []. split; [apply emits_refl|].
      eapply clocks_eq; [apply clocks_nil|lia].
Qed.

Lemma anchor_setup : isSetup base = true.
Proof. reflexivity. Qed.

(** [shiftBytesRaw] clocks 8 edges per byte. *)
Lemma shiftBytesRaw_spec a tdi start nb :
  0 <= nb ->
  exists bytes,
    emits a (shiftBytesRaw a tdi start nb) bytes /\ clocks bytes (8 * nb).
Proof.
  intros Hnb. unfold shiftBytesRaw.
  destruct (sendBatches_spec tdi start nb (Z.to_nat nb) (transferOut a [base]) 0
              ltac:(lia) ltac:(lia)) as [rest [E C]].
  exists ([base] ++ rest). split.
  - eapply emits_trans; [apply emits_transferOut|exact E].
  - eapply clocks_eq; [apply clocks_app; [apply clocks_setup, anchor_setup|exact C]|lia].
Qed.

(** [toggleClockCycles(c)] clocks whole bytes: [8 * ceil(c / 8)] edges. *)
Lemma toggleClockCycles_spec a c :
  0 < c ->
  exists bytes,
    emits a (toggleClockCycles a c) bytes /\ clocks bytes (8 * JS.ceil8 c).
Proof.
  intros Hc. unfold toggleClockCycles. destruct (Z.leb_spec c 0); [lia|]. cbv zeta.
  assert (Hnb : 0 <= JS.ceil8 c) by (unfold JS.ceil8; apply Z.div_pos; lia).
  set (z := match _zeroBuffer (transferOut a [base]) with
            | Some z0 => _
            | None => _
            end).
  set (a1 := {| out := out (transferOut a [base]); _zeroBuffer := Some z |}).
  destruct (shiftBytesRaw_spec a1 z 0 (JS.ceil8 c) Hnb) as [rest [E C]].
  assert (E1 : emits a a1 [base]) by apply (emits_transferOut a [base]).
  exists ([base] ++ rest). split.
  - eapply emits_trans; [exact E1|exact E].
  - eapply clocks_eq; [apply clocks_app; [apply clocks_setup, anchor_setup|exact C]|lia].
Qed.

(** ** Bit-bang pairs *)

Lemma bitFlag_cases bits i v : bitFlag bits i v = 0 \/ bitFlag bits i v = v.
Proof.
  unfold bitFlag. destruct bits as [l|]; [|left; reflexivity].
  destruct (JS.truthy (JS.get l i)); [right|left]; reflexivity.
Qed.

Lemma bitbang_pair tdiBits tmsBits i (capture : bool) :
  isSetup (Z.lor (Z.lor 0x2C (bitFlag tdiBits i 0x10)) (bitFlag tmsBits i 0x02)) = true
  /\ isClock (Z.lor (Z.lor (Z.lor (Z.lor 0x2C (bitFlag tdiBits i 0x10))
                                   (bitFlag tmsBits i 0x02)) 0x01)
                     (if capture then 0x40 else 0)) = true.
Proof.
  destruct (bitFlag_cases tdiBits i 0x10) as [-> | ->],
           (bitFlag_cases tmsBits i 0x02) as [-> | ->], capture;
    split; reflexivity.
Qed.

Lemma shiftBitBang_spec a tdiBits tmsBits start n capture :
  0 <= n ->
  exists bytes,
    emits a (shiftBitBang a tdiBits tmsBits start n capture) bytes
    /\ clocks bytes n.
Proof.
  intros Hn. unfold shiftBitBang. eexists. split; [apply emits_transferOut|].
  eapply clocks_eq.
  - apply clocks_pairs. intros i _. eexists. eexists. split; [reflexivity|].
    apply bitbang_pair.
  - rewrite JSFacts.range_length. lia.
Qed.

Lemma lastBit_pairs tdi start i :
  isSetup (Z.lor (Z.lor base (Z.shiftl (lastBit tdi start i) 4)) 0) = true
  /\ isClock (Z.lor (Z.lor base (Z.shiftl (lastBit tdi start i) 4)) 1) = true
  /\ isSetup (Z.lor (Z.lor base (Z.shiftl (lastBit tdi start i) 4)) 0x02) = true
  /\ isClock (Z.lor (Z.lor base (Z.shiftl (lastBit tdi start i) 4)) 0x03) = true.
Proof.
  unfold lastBit. cbv zeta.
  destruct (JSFacts.land1_cases
              (JS.shr (JS.int (JS.get tdi (start + JS.floor8 i))) (JS.rem i 8)))
    as [-> | ->]; repeat split; reflexivity.
Qed.

Lemma ceil8_bounds n : 8 * (JS.ceil8 n - 1) < n <= 8 * JS.ceil8 n.
Proof.
  unfold JS.ceil8. pose proof (Z.div_mod (n + 7) 8 ltac:(lia)).
  pose proof (Z.mod_pos_bound (n + 7) 8 ltac:(lia)). lia.
Qed.

(** [shiftBytes] clocks one edge per requested bit. *)
Lemma shiftBytes_spec a tdi n :
  1 <= n ->
  exists bytes, emits a (shiftBytes a tdi n) bytes /\ clocks bytes n.
Proof.
  intros Hn. pose proof (ceil8_bounds n) as Hc. unfold shiftBytes. cbv zeta.
  set (nb := JS.ceil8 n) in *.
  set (fast := if nb >? 1 then nb - 1 else 0).
  assert (Hfast : fast = nb - 1).
  { unfold fast. destruct (Z.gtb_spec nb 1); lia. }
  set (a1 := if fast >? 0 then shiftBytesRaw a tdi 0 fast else a).
  assert (H1 : exists b1, emits a a1 b1 /\ clocks b1 (8 * fast)).
  { unfold a1. destruct (Z.gtb_spec fast 0).
    - apply shiftBytesRaw_spec. lia.
    - exists []. split; [apply emits_refl|].
      eapply clocks_eq; [apply clocks_nil|lia]. }
  destruct H1 as [b1 [E1 C1]].
  set (remaining := n - fast * 8).
  assert (Hrem : 1 <= remaining <= 8) by (unfold remaining; lia).
  set (pairs := flat_map _ (JS.range (remaining - 1))).
  set (a2 := if remaining >? 1 then transferOut a1 pairs else a1).
  assert (H2 : exists b2, emits a1 a2 b2 /\ clocks b2 (remaining - 1)).
  { unfold a2. destruct (Z.gtb_spec remaining 1).
    - exists pairs. split; [apply emits_transferOut|].
      eapply clocks_eq.
      + unfold pairs. apply clocks_pairs. intros i _.
        eexists. eexists. split; [reflexivity|].
        destruct (lastBit_pairs tdi fast i) as [S0 [S1 _]]. split; assumption.
      + rewrite JSFacts.range_length. lia.
    - exists []. split; [apply emits_refl|].
      eapply clocks_eq; [apply clocks_nil|lia]. }
  destruct H2 as [b2 [E2 C2]].
  eexists. split.
  - eapply emits_trans; [exact E1|].
    eapply emits_trans; [exact E2|apply emits_transferOut].
  - eapply clocks_eq.
    + apply clocks_app; [exact C1|]. apply clocks_app; [exact C2|].
      destruct (lastBit_pairs tdi fast (remaining - 1)) as [_ [_ [S2 S3]]].
      apply clocks_pair; [exact S2|exact S3].
    + unfold remaining. lia.
Qed.

Lemma bytewiseLoop_spec tdiBits startBit bitCount nb : forall fuel a off,
  0 <= off -> nb - off <= Z.of_nat fuel ->
  exists bytes,
    emits a (bytewiseLoop fuel a tdiBits startBit bitCount nb off) bytes
    /\ clocks bytes (8 * Z.max 0 (nb - off)).
Proof.
  induction fuel as [|fuel IH]; intros a off Hoff Hf.
  - exists []. split; [apply emits_refl|].
    eapply clocks_eq; [apply clocks_nil|lia].
  - cbn [bytewiseLoop]. cbv zeta. destruct (Z.ltb_spec off nb) as [L|L].
    + set (n := Z.min 63 (nb - off)).
      set (packet := _ :: map _ (JS.range n)).
      destruct (IH (transferOut a packet) (off + 63) ltac:(lia) ltac:(lia))
        as [rest [E C]].
      exists (packet ++ rest). split.
      * eapply emits_trans; [apply emits_transferOut|exact E].
      * eapply clocks_eq.
        -- apply clocks_app; [|exact C]. unfold packet.
           apply (clocks_byteshift n); [unfold n; lia|].
           rewrite length_map, JSFacts.range_length. unfold n. lia.
        -- unfold n. lia.
    + exists []. split; [apply emits_refl|].
      eapply clocks_eq; [apply clocks_nil|lia].
Qed.

Lemma shiftBytewise_spec a tdiBits startBit m :
  0 <= m ->
  exists bytes,
    emits a (shiftBytewise a tdiBits startBit (m * 8)) bytes
    /\ clocks bytes (m * 8).
Proof.
  intros Hm. unfold shiftBytewise. cbv zeta.
  assert (Hc : JS.ceil8 (m * 8) = m).
  { pose proof (ceil8_bounds (m * 8)). lia. }
  rewrite Hc.
  destruct (bytewiseLoop_spec tdiBits startBit (m * 8) m (Z.to_nat m) a 0
              ltac:(lia) ltac:(lia)) as [bytes [E C]].
  exists bytes. split; [exact E|]. eapply clocks_eq; [exact C|lia].
Qed.

Lemma shiftBitsLoop_spec tdiBits tmsBits n capture : forall fuel a idx,
  0 <= idx <= n -> n - idx <= Z.of_nat fuel ->
  exists bytes,
    emits a (shiftBitsLoop fuel a tdiBits tmsBits n capture idx) bytes
    /\ clocks bytes (n - idx).
Proof.
  induction fuel as [|fuel IH]; intros a idx Hidx Hf.
  - exists []. split; [apply emits_refl|].
    eapply clocks_eq; [apply clocks_nil|lia].
  - cbn [shiftBitsLoop]. cbv zeta. destruct (Z.ltb_spec idx n) as [L|L].
    + destruct (negb capture && canUseByteshiftMode tmsBits idx n
                && (n - idx >=? 16)) eqn:B.
      * apply andb_true_iff in B. destruct B as [_ B].
        assert (H16 : 16 <= n - idx) by (apply Z.geb_le in B; lia).
        set (m := JS.floor8 (n - idx)).
        assert (Hm : 2 <= m /\ m * 8 <= n - idx).
        { unfold m, JS.floor8. pose proof (Z.div_mod (n - idx) 8 ltac:(lia)).
          pose proof (Z.mod_pos_bound (n - idx) 8 ltac:(lia)). lia. }
        destruct (shiftBytewise_spec a tdiBits idx m ltac:(lia)) as [b1 [E1 C1]].
        destruct (IH (shiftBytewise a tdiBits idx (m * 8)) (idx + m * 8)
                    ltac:(lia) ltac:(lia)) as [b2 [E2 C2]].
        exists (b1 ++ b2). split; [eapply emits_trans; eassumption|].
        eapply clocks_eq; [apply clocks_app; eassumption|lia].
      * set (batch := Z.min 64 (n - idx)).
        destruct (shiftBitBang_spec a tdiBits tmsBits idx batch capture
                    ltac:(unfold batch; lia)) as [b1 [E1 C1]].
        destruct (IH (shiftBitBang a tdiBits tmsBits idx batch capture) (idx + batch)
                    ltac:(unfold batch; lia) ltac:(unfold batch; lia)) as [b2 [E2 C2]].
        exists (b1 ++ b2). split; [eapply emits_trans; eassumption|].
        eapply clocks_eq; [apply clocks_app; eassumption|lia].
    + exists []. split; [apply emits_refl|].
      eapply clocks_eq; [apply clocks_nil|lia].
Qed.

(** [shiftBits] clocks one edge per requested bit, on every mix of
    byte-shift and bit-bang batches. *)
Lemma shiftBits_spec a tdiBits tmsBits n capture :
  0 <= n ->
  exists bytes,
    emits a (shiftBits a tdiBits tmsBits n capture) bytes /\ clocks bytes n.
Proof.
  intros Hn. unfold shiftBits.
  destruct (shiftBitsLoop_spec tdiBits tmsBits n capture (Z.to_nat n) a 0
              ltac:(lia) ltac:(lia)) as [bytes [E C]].
  exists bytes. split; [exact E|]. eapply clocks_eq; [exact C|lia].
Qed.

(** ** Sequences of calls *)

Inductive request : Type :=
| ReqShiftBits (tdiBits tmsBits : option (list Z)) (bitLength : Z) (capture : bool)
| ReqShiftBytes (tdiBytes : list Z) (bitLength : Z)
| ReqToggleClockCycles (cycles : Z).

Definition perform (a : adapter) (r : request) : adapter :=
  match r with
  | ReqShiftBits tdiBits tmsBits bitLength capture =>
      shiftBits a tdiBits tmsBits bitLength capture
  | ReqShiftBytes tdiBytes bitLength => shiftBytes a tdiBytes bitLength
  | ReqToggleClockCycles cycles => toggleClockCycles a cycles
  end.

Definition performAll (a : adapter) (rs : list request) : adapter :=
  fold_left perform rs a.

(** The bit count or cycle count a call asks for. *)
Definition requested (r : request) : Z :=
  match r with
  | ReqShiftBits _ _ bitLength _ => bitLength
  | ReqShiftBytes _ bitLength => bitLength
  | ReqToggleClockCycles cycles => cycles
  end.

(** The edges a call clocks: [toggleClockCycles] rounds up to whole bytes. *)
Definition clocked (r : request) : Z :=
  match r with
  | ReqShiftBits _ _ bitLength _ => bitLength
  | ReqShiftBytes _ bitLength => bitLength
  | ReqToggleClockCycles cycles => 8 * JS.ceil8 cycles
  end.

(** A shift of at least 0 bits, a byte shift of at least 1 bit, a positive
    number of cycles. *)
Definition sensible (r : request) : Prop :=
  match r with
  | ReqShiftBits _ _ bitLength _ => 0 <= bitLength
  | ReqShiftBytes _ bitLength => 1 <= bitLength
  | ReqToggleClockCycles cycles => 0 < cycles
  end.

Definition total (l : list Z) : Z := fold_right Z.add 0 l.

Lemma perform_spec a r :
  sensible r -> exists bytes, emits a (perform a r) bytes /\ clocks bytes (clocked r).
Proof.
  destruct r as [tdi tms n cap|tdi n|c]; cbn [sensible perform clocked]; intros H.
  - apply shiftBits_spec; exact H.
  - apply shiftBytes_spec; exact H.
  - apply toggleClockCycles_spec; exact H.
Qed.

Lemma performAll_spec : forall rs a,
  Forall sensible rs ->
  exists bytes, emits a (performAll a rs) bytes /\ clocks bytes (total (map clocked rs)).
Proof.
  induction rs as [|r rs IH]; intros a H.
  - exists []. split; [apply emits_refl|apply clocks_nil].
  - inversion H as [|? ? Hr Hrs]; subst.
    destruct (perform_spec a r Hr) as [b1 [E1 C1]].
    destruct (IH (perform a r) Hrs) as [b2 [E2 C2]].
    exists (b1 ++ b2). split; [eapply emits_trans; eassumption|].
    cbn [map total fold_right]. apply clocks_app; assumption.
Qed.

(** C7, as the code has it.  For every sequence of [shiftBits] (0 bits or
    more), [shiftBytes] (1 bit or more) and [toggleClockCycles] (1 cycle or
    more) calls on a fresh adapter, the wire bytes encode as many TCK rising
    edges as the sum of the bit counts plus, for each [toggleClockCycles(c)],
    [8 * ceil(c / 8)]: the clock-only path works in whole bytes, so it
    clocks [c] edges exactly when [c] is a multiple of 8 and up to 7 more
    otherwise. *)
Theorem edges_clocked (rs : list request) :
  Forall sensible rs ->
  risingEdges (wire (performAll connected rs)) = total (map clocked rs)
  /\ (forall c, In (ReqToggleClockCycles c) rs ->
        c <= clocked (ReqToggleClockCycles c) < c + 8
        /\ (clocked (ReqToggleClockCycles c) = c <-> c mod 8 = 0)).
Proof.
  intros H. split.
  - destruct (performAll_spec rs connected H) as [bytes [E C]].
    unfold emits in E. cbn in E. rewrite E. apply risingEdges_clocks. exact C.
  - intros c _. cbn [clocked]. pose proof (ceil8_bounds c) as B.
    split; [lia|]. unfold JS.ceil8 in *.
    pose proof (Z.div_mod (c + 7) 8 ltac:(lia)) as D.
    pose proof (Z.mod_pos_bound (c + 7) 8 ltac:(lia)) as M.
    pose proof (Z.div_mod c 8 ltac:(lia)) as D'.
    pose proof (Z.mod_pos_bound c 8 ltac:(lia)) as M'.
    split; intros G.
    + assert (c = 8 * ((c + 7) / 8)) by lia.
      rewrite H0, Z.mul_comm. apply Z.mod_mul. lia.
    + rewrite G in D'. 
      assert (E8 : (c + 7) / 8 = c / 8).
      { symmetry. apply (Z.div_unique (c + 7) 8 (c / 8) 7); lia. }
      rewrite E8. lia.
Qed.

(** A 20-bit shift, a 24-bit byte shift and 13 clock cycles: 20 + 24 + 16
    edges. *)
Definition three_requests : list request :=
  [ ReqShiftBits (Some (JS.fill 20 1)) (Some (JS.set (JS.fill 20 0) 19 1)) 20 false;
    ReqShiftBytes [0xAA; 0x55; 0xFF] 24;
    ReqToggleClockCycles 13 ].

Lemma edges_clocked_witness :
  risingEdges (wire (performAll connected three_requests)) = 60.
Proof.
  destruct (edges_clocked three_requests) as [E _].
  - repeat constructor; cbn [sensible]; lia.
  - rewrite E. reflexivity.
Defined.

(** C7 as the specification states it fails: [toggleClockCycles(1)] sends
    the anchor twice and one byte-shift command with one data byte, which
    clocks 8 edges, not 1. *)
Lemma toggleClockCycles_counterexample :
  out (toggleClockCycles connected 1) = [[0x2C]; [0x2C]; [0x81; 0x00]]
  /\ risingEdges (wire (performAll connected [ReqToggleClockCycles 1])) = 8
  /\ risingEdges (wire (performAll connected [ReqToggleClockCycles 1]))
     <> total (map requested [ReqToggleClockCycles 1]).
Proof.
  split; [vm_compute; reflexivity|]. split; [vm_compute; reflexivity|].
  vm_compute. discriminate.
Qed.

(** ** Scenario D *)

(** C5, as the code has it.  [shiftBytes([0xAA, 0x55, 0xFF], 24)] sends the
    anchor 0x2C, the byte-shift command 0x82 with the first two data bytes,
    then the whole last byte in bit-bang mode: bits 0 to 6 with TMS = 0
    (seven times the pair 0x3C 0x3D, TDI = 1) and bit 7 with TMS = 1 (the
    pair 0x3E 0x3F). *)
Theorem shiftBytes_scenario :
  out (shiftBytes connected [0xAA; 0x55; 0xFF] 24)
  = [ [0x2C];
      [0x82; 0xAA; 0x55];
      [0x3C; 0x3D; 0x3C; 0x3D; 0x3C; 0x3D; 0x3C; 0x3D; 0x3C; 0x3D; 0x3C; 0x3D;
       0x3C; 0x3D];
      [0x3E; 0x3F] ].
Proof. vm_compute. reflexivity. Qed.

(** C5 as the specification states it fails: the wire does not start with
    the anchor, the command 0x83 and the three data bytes; the command is
    0x82 and the byte 0xFF never travels in byte-shift mode. *)
Lemma shiftBytes_scenario_counterexample :
  ~ exists rest,
      wire (shiftBytes connected [0xAA; 0x55; 0xFF] 24)
      = [0x2C; 0x83; 0xAA; 0x55; 0xFF] ++ rest.
Proof. intros [rest H]. vm_compute in H. discriminate. Qed.

(** ** The pins on the wire *)

Definition sampleAll (l : pinline) (bytes : list Z) : pinline := fold_left sample bytes l.

(** [bytes] is a whole number of commands that present [pairs] to the
    device and take TMS from [h] to [h']. *)
Definition drives (bytes : list Z) (h : bool) (pairs : list (Z * Z)) (h' : bool) : Prop :=
  forall l, due l = 0 -> tmsPin l = h ->
    due (sampleAll l bytes) = 0
    /\ tmsPin (sampleAll l bytes) = h'
    /\ trace (sampleAll l bytes) = trace l ++ pairs.

Lemma drives_nil h : drives [] h [] h.
Proof. intros l D T. cbn. rewrite app_nil_r. auto. Qed.

Lemma drives_app a b h h1 h2 p q :
  drives a h p h1 -> drives b h1 q h2 -> drives (a ++ b) h (p ++ q) h2.
Proof.
  intros Ha Hb l D T. unfold sampleAll. rewrite fold_left_app.
  destruct (Ha l D T) as [D1 [T1 E1]]. destruct (Hb _ D1 T1) as [D2 [T2 E2]].
  unfold sampleAll in *. split; [exact D2|]. split; [exact T2|].
  rewrite E2, E1, app_assoc. reflexivity.
Qed.

Lemma drives_eq bytes h p q h1 h2 :
  drives bytes h p h1 -> p = q -> h1 = h2 -> drives bytes h q h2.
Proof. intros H <- <-. exact H. Qed.

Lemma sampled_drives bytes h pairs h' : drives bytes h pairs h' -> sampled h bytes = pairs.
Proof.
  intros H. unfold sampled.
  destruct (H {| clk := false; tmsPin := h; due := 0; trace := [] |} eq_refl eq_refl)
    as [_ [_ E]]. exact E.
Qed.

Lemma sample_bitbang l b :
  due l = 0 -> Z.testbit b 7 = false ->
  sample l b
  = {| clk := Z.testbit b 0; tmsPin := Z.testbit b 1; due := 0;
       trace := trace l
                ++ (if Z.testbit b 0 && negb (clk l)
                    then [(Z.b2z (Z.testbit b 4), Z.b2z (Z.testbit b 1))] else []) |}.
Proof. intros D B7. unfold sample. rewrite D, B7. reflexivity. Qed.

(** A bit-bang byte with TCK = 0 clocks nothing and sets TMS. *)
Lemma drives_setup b h : isSetup b = true -> drives [b] h [] (Z.testbit b 1).
Proof.
  intros H l D T. unfold isSetup in H. apply andb_true_iff in H.
  destruct H as [H7 H0]. apply negb_true_iff in H7, H0.
  unfold sampleAll. cbn [fold_left]. rewrite (sample_bitbang l b D H7), H0.
  cbn [due tmsPin trace andb]. rewrite app_nil_r. auto.
Qed.

(** A pair of bit-bang bytes, TCK = 0 and then TCK = 1, presents the pins
    of the second byte on one edge. *)
Lemma drives_pair b c h :
  isSetup b = true -> isClock c = true ->
  drives [b; c] h [(Z.b2z (Z.testbit c 4), Z.b2z (Z.testbit c 1))] (Z.testbit c 1).
Proof.
  intros Hb Hc l D T. unfold isSetup in Hb. unfold isClock in Hc.
  apply andb_true_iff in Hb, Hc. destruct Hb as [B7 B0]. destruct Hc as [C7 C0].
  apply negb_true_iff in B7, B0, C7.
  unfold sampleAll. cbn [fold_left].
  rewrite (sample_bitbang l b D B7), B0.
  rewrite sample_bitbang; [|reflexivity|exact C7]. rewrite C0.
  cbn [due tmsPin trace clk andb negb]. rewrite app_nil_r. auto.
Qed.

(** A run of such pairs. *)
Lemma drives_pairs {A} (f : A -> list Z) (g : A -> Z * Z) : forall idx h,
  (forall i, In i idx ->
     exists b c, f i = [b; c] /\ isSetup b = true /\ isClock c = true
       /\ g i = (Z.b2z (Z.testbit c 4), Z.b2z (Z.testbit c 1))) ->
  exists h', drives (flat_map f idx) h (map g idx) h'
    /\ (idx = [] -> h' = h)
    /\ (forall i front, idx = front ++ [i] -> Z.b2z h' = snd (g i)).
Proof.
  induction idx as [|i idx IH]; intros h H.
  - exists h. split; [apply drives_nil|]. split; [reflexivity|].
    intros i front E. destruct front; discriminate E.
  - destruct (H i (or_introl eq_refl)) as [b [c [E [Hb [Hc G]]]]].
    destruct (IH (Z.testbit c 1)) as [h' [D [N L]]].
    { intros j Hj. apply H. right. exact Hj. }
    exists h'. split; [|split; [discriminate|]].
    + cbn [flat_map map]. rewrite E, G.
      apply (drives_app [b; c] _ h (Z.testbit c 1) h'
               [(Z.b2z (Z.testbit c 4), Z.b2z (Z.testbit c 1))]);
        [apply drives_pair; assumption|exact D].
    + intros j front Q. destruct idx as [|k idx].
      * destruct front as [|? [|? ?]]; try discriminate Q.
        injection Q as <-. rewrite (N eq_refl), G. reflexivity.
      * destruct front as [|x front]; [discriminate Q|].
        injection Q as _ Q. apply (L j front). exact Q.
Qed.

(** The data bytes of a byte-shift command. *)
Definition byteEdges (h : bool) (d : Z) : list (Z * Z) :=
  map (fun i => (Z.b2z (Z.testbit d i), Z.b2z h)) (JS.range 8).

Lemma sampleAll_data : forall data l,
  due l = Z.of_nat (List.length data) ->
  due (sampleAll l data) = 0
  /\ tmsPin (sampleAll l data) = tmsPin l
  /\ trace (sampleAll l data) = trace l ++ flat_map (byteEdges (tmsPin l)) data.
Proof.
  induction data as [|d data IH]; intros l D.
  - cbn in *. rewrite app_nil_r. auto.
  - cbn [sampleAll fold_left]. fold (sampleAll (sample l d) data).
    assert (Hd : sample l d
                 = {| clk := false; tmsPin := tmsPin l; due := due l - 1;
                      trace := trace l ++ byteEdges (tmsPin l) d |}).
    { unfold sample. destruct (Z.ltb_spec 0 (due l)); [reflexivity|].
      cbn [List.length] in D. lia. }
    rewrite Hd.
    destruct (IH {| clk := false; tmsPin := tmsPin l; due := due l - 1;
                    trace := trace l ++ byteEdges (tmsPin l) d |}) as [D' [T' E']].
    + cbn [due]. cbn [List.length] in D. lia.
    + cbn [tmsPin trace] in *. split; [exact D'|]. split; [exact T'|].
      rewrite E'. cbn [flat_map]. rewrite app_assoc. reflexivity.
Qed.

(** A byte-shift command with its [n] data bytes. *)
Lemma drives_byteshift n data h :
  0 <= n < 64 -> Z.of_nat (List.length data) = n ->
  drives (Z.lor 0x80 (Z.land n 0x3f) :: data) h (flat_map (byteEdges h) data) h.
Proof.
  intros Hn Hlen l D T.
  pose proof command_byte_ok as C. rewrite forallb_forall in C.
  specialize (C n (proj2 (JSFacts.range_In 64 n) Hn)).
  apply andb_true_iff in C. destruct C as [C7 CN]. apply Z.eqb_eq in CN.
  cbn [sampleAll fold_left]. fold (sampleAll (sample l (Z.lor 0x80 (Z.land n 0x3f))) data).
  assert (Hd : sample l (Z.lor 0x80 (Z.land n 0x3f))
               = {| clk := clk l; tmsPin := tmsPin l; due := n; trace := trace l |}).
  { unfold sample. rewrite D. change (0 <? 0) with false. cbv iota.
    rewrite C7, CN. reflexivity. }
  rewrite Hd.
  destruct (sampleAll_data data {| clk := clk l; tmsPin := tmsPin l; due := n;
                                   trace := trace l |}) as [D' [T' E']].
  - cbn [due]. lia.
  - cbn [tmsPin trace] in *. rewrite T in *. auto.
Qed.

(** ** Byte shifts on the wire *)

(** The integers [from, ..., to - 1]. *)
Definition between (from to : Z) : list Z := map (fun i => from + i) (JS.range (to - from)).

Lemma between_app a b c : a <= b -> b <= c -> between a b ++ between b c = between a c.
Proof.
  intros H1 H2. unfold between.
  replace (c - a) with ((b - a) + (c - b)) by lia.
  rewrite (JSFacts.range_app (b - a) (c - b)) by lia.
  rewrite map_app, map_map. f_equal. apply map_ext. intros i. lia.
Qed.

Lemma between_nil a : between a a = [].
Proof. unfold between. rewrite Z.sub_diag. reflexivity. Qed.

(** The edges of the bytes [from, ..., to - 1] of [tdiBytes], counted from
    [startByte], with TMS at [h]. *)
Definition rawEdges (h : bool) (tdiBytes : list Z) (startByte from to : Z) : list (Z * Z) :=
  flat_map (fun k => byteEdges h (JS.u8 (JS.int (JS.get tdiBytes (startByte + k)))))
    (between from to).

Lemma rawEdges_app h tdi start a b c :
  a <= b -> b <= c ->
  rawEdges h tdi start a b ++ rawEdges h tdi start b c = rawEdges h tdi start a c.
Proof.
  intros H1 H2. unfold rawEdges. rewrite <- flat_map_app, between_app by assumption.
  reflexivity.
Qed.

Lemma fillBatch_drives h tdi start nb : forall fuel off batch p,
  0 <= off -> drives batch h p h ->
  off <= snd (fillBatch fuel tdi start nb off batch)
  /\ drives (fst (fillBatch fuel tdi start nb off batch)) h
       (p ++ rawEdges h tdi start off (snd (fillBatch fuel tdi start nb off batch))) h.
Proof.
  induction fuel as [|fuel IH]; intros off batch p Hoff Hb.
  - cbn [fillBatch fst snd]. unfold rawEdges. rewrite between_nil. cbn [flat_map].
    rewrite app_nil_r. split; [lia|exact Hb].
  - cbn [fillBatch]. cbv zeta.
    destruct ((off <? nb) && (Z.of_nat (List.length batch) <? 4096 - 64)) eqn:C.
    + apply andb_true_iff in C. destruct C as [C _]. apply Z.ltb_lt in C.
      set (n := Z.min 63 (nb - off)).
      assert (Hn : 1 <= n <= 63) by (unfold n; lia).
      set (data := map _ (JS.range n)).
      assert (Hd : Z.of_nat (List.length data) = n)
        by (unfold data; rewrite length_map, JSFacts.range_length; lia).
      assert (Hc : drives (batch ++ [Z.lor 0x80 (Z.land n 0x3f)] ++ data) h
                     (p ++ rawEdges h tdi start off (off + n)) h).
      { apply drives_app with (h1 := h); [exact Hb|].
        eapply drives_eq; [apply (drives_byteshift n data h); [lia|exact Hd]| |reflexivity].
        unfold rawEdges, between, data. replace (off + n - off) with n by lia.
        rewrite !flat_map_concat_map, !map_map. f_equal. apply map_ext. intros i.
        replace (start + off + i) with (start + (off + i)) by lia. reflexivity. }
      destruct (IH (off + n) _ _ ltac:(lia) Hc) as [I1 I2].
      split; [lia|]. rewrite <- app_assoc, rawEdges_app in I2 by lia. exact I2.
    + cbn [fst snd]. unfold rawEdges. rewrite between_nil. cbn [flat_map].
      rewrite app_nil_r. split; [lia|exact Hb].
Qed.

Lemma fillBatch_bounds tdi start nb : forall fuel off batch,
  off <= nb -> snd (fillBatch fuel tdi start nb off batch) <= nb.
Proof.
  induction fuel as [|fuel IH]; intros off batch H; cbn [fillBatch]; [exact H|].
  cbv zeta.
  destruct ((off <? nb) && (Z.of_nat (List.length batch) <? 4096 - 64)) eqn:C;
    [|exact H].
  apply andb_true_iff in C. destruct C as [C _]. apply Z.ltb_lt in C.
  apply IH. lia.
Qed.

Lemma sendBatches_drives h tdi start nb : forall fuel a off,
  0 <= off <= nb -> nb - off <= Z.of_nat fuel ->
  exists bytes,
    emits a (sendBatches fuel a tdi start nb off) bytes
    /\ drives bytes h (rawEdges h tdi start off nb) h.
Proof.
  induction fuel as [|fuel IH]; intros a off Hoff Hf.
  - exists []. split; [apply emits_refl|].
    replace off with nb by lia. unfold rawEdges. rewrite between_nil. apply drives_nil.
  - cbn [sendBatches]. cbv zeta. destruct (Z.ltb_spec off nb) as [L|L].
    + set (filled := fillBatch (Z.to_nat nb) tdi start nb off []).
      destruct (fillBatch_drives h tdi start nb (Z.to_nat nb) off [] []
                  ltac:(lia) (drives_nil h)) as [_ F3].
      pose proof (fillBatch_bounds tdi start nb (Z.to_nat nb) off [] ltac:(lia)) as F2.
      pose proof (fillBatch_progress tdi start nb (Z.to_nat nb) off
                    ltac:(lia) ltac:(lia)) as F1.
      fold filled in F1, F2, F3. cbn [app] in F3.
      destruct (IH (transferOut a (fst filled)) (snd filled) ltac:(lia) ltac:(lia))
        as [rest [E C]].
      exists (fst filled ++ rest). split.
      * eapply emits_trans; [apply emits_transferOut|exact E].
      * eapply drives_eq; [apply (drives_app _ _ h h h); [exact F3|exact C]| |reflexivity].
        apply rawEdges_app; lia.
    + exists []. split; [apply emits_refl|].
      replace off with nb by lia. unfold rawEdges. rewrite between_nil. apply drives_nil.
Qed.

Lemma anchor_drives h : drives [base] h [] false.
Proof. apply (drives_setup base h). reflexivity. Qed.

(** [shiftBytesRaw]: after the anchor byte, eight edges per byte with TMS
    at 0, whatever TMS was. *)
Lemma shiftBytesRaw_drives a tdi start nb h :
  0 <= nb ->
  exists bytes,
    emits a (shiftBytesRaw a tdi start nb) bytes
    /\ drives bytes h (rawEdges false tdi start 0 nb) false.
Proof.
  intros Hnb. unfold shiftBytesRaw.
  destruct (sendBatches_drives false tdi start nb (Z.to_nat nb) (transferOut a [base]) 0
              ltac:(lia) ltac:(lia)) as [rest [E C]].
  exists ([base] ++ rest). split.
  - eapply emits_trans; [apply emits_transferOut|exact E].
  - apply (drives_app [base] rest h false false [] _); [apply anchor_drives|exact C].
Qed.

(** Bit [i] of an array of bytes as [bytesToBits] and [shiftBytes] take
    it. *)
Definition bitZ (tdiBytes : list Z) (i : Z) : Z :=
  Z.land (Z.shiftr (JS.int (JS.get tdiBytes (JS.floor8 i))) (i mod 8)) 1.

Lemma bitZ_byte tdi k i :
  0 <= k -> 0 <= i < 8 ->
  bitZ tdi (8 * k + i) = Z.b2z (Z.testbit (JS.int (JS.get tdi k)) i).
Proof.
  intros Hk Hi. unfold bitZ, JS.floor8.
  replace ((8 * k + i) / 8) with k by (apply (Z.div_unique _ 8 k i); lia).
  replace ((8 * k + i) mod 8) with i by (apply (Z.mod_unique _ 8 k i); lia).
  apply JSFacts.land_shiftr_bit. lia.
Qed.

Lemma rawEdges_bits tdi nb :
  0 <= nb ->
  rawEdges false tdi 0 0 nb = map (fun j => (bitZ tdi j, 0)) (JS.range (8 * nb)).
Proof.
  intros H. unfold rawEdges, between. rewrite Z.sub_0_r, JSFacts.flat_map_map.
  rewrite <- (Z2Nat.id nb) at 2 by exact H.
  rewrite <- (JSFacts.range8_bytes (fun j => (bitZ tdi j, 0))).
  rewrite Z2Nat.id by exact H.
  rewrite !flat_map_concat_map. f_equal. apply map_ext_in. intros k K.
  apply JSFacts.range_In in K. unfold byteEdges. apply map_ext_in. intros i I.
  apply JSFacts.range_In in I. rewrite JSFacts.testbit_u8 by lia.
  rewrite bitZ_byte by lia. reflexivity.
Qed.

Lemma lastBit_bitZ tdi fast i :
  0 <= fast -> 0 <= i < 8 -> lastBit tdi fast i = bitZ tdi (8 * fast + i).
Proof.
  intros Hf Hi. unfold lastBit. cbv zeta. unfold JS.floor8, JS.rem.
  rewrite Z.rem_mod_nonneg by lia.
  rewrite Z.div_small, Z.mod_small, Z.add_0_r by lia.
  rewrite JSFacts.bit_of_shift by lia. rewrite bitZ_byte by lia.
  destruct (Z.testbit _ _); reflexivity.
Qed.

(** The pins of the bit-bang bytes of [shiftBytes]. *)
Lemma lastBit_pins tdi start i :
  let t := lastBit tdi start i in
  Z.testbit (Z.lor (Z.lor base (Z.shiftl t 4)) 1) 4 = negb (t =? 0)
  /\ Z.testbit (Z.lor (Z.lor base (Z.shiftl t 4)) 1) 1 = false
  /\ Z.testbit (Z.lor (Z.lor base (Z.shiftl t 4)) 0x03) 4 = negb (t =? 0)
  /\ Z.testbit (Z.lor (Z.lor base (Z.shiftl t 4)) 0x03) 1 = true
  /\ Z.b2z (negb (t =? 0)) = t.
Proof.
  cbv zeta. unfold lastBit. cbv zeta.
  destruct (JSFacts.land1_cases
              (JS.shr (JS.int (JS.get tdi (start + JS.floor8 i))) (JS.rem i 8)))
    as [-> | ->]; repeat split; reflexivity.
Qed.

(** [shiftBytes] on the wire: every bit of the bytes, bit 0 of byte 0
    first, with TMS at 0, and the last bit with TMS at 1. *)
Lemma shiftBytes_drives a tdi n h :
  1 <= n ->
  exists bytes,
    emits a (shiftBytes a tdi n) bytes
    /\ drives bytes h
         (map (fun i => (bitZ tdi i, if i =? n - 1 then 1 else 0)) (JS.range n)) true.
Proof.
  intros Hn. pose proof (ceil8_bounds n) as Hc. unfold shiftBytes. cbv zeta.
  set (nb := JS.ceil8 n) in *.
  set (fast := if nb >? 1 then nb - 1 else 0).
  assert (Hfast : fast = nb - 1).
  { unfold fast. destruct (Z.gtb_spec nb 1); lia. }
  set (a1 := if fast >? 0 then shiftBytesRaw a tdi 0 fast else a).
  assert (H1 : exists b1 h1, emits a a1 b1
                 /\ drives b1 h (map (fun j => (bitZ tdi j, 0)) (JS.range (8 * fast))) h1).
  { unfold a1. destruct (Z.gtb_spec fast 0).
    - destruct (shiftBytesRaw_drives a tdi 0 fast h ltac:(lia)) as [b1 [E1 D1]].
      exists b1, false. split; [exact E1|]. rewrite <- rawEdges_bits by lia. exact D1.
    - exists [], h. split; [apply emits_refl|].
      replace fast with 0 by lia. apply drives_nil. }
  destruct H1 as [b1 [h1 [E1 D1]]].
  set (remaining := n - fast * 8).
  assert (Hrem : 1 <= remaining <= 8) by (unfold remaining; lia).
  set (pairs := flat_map _ (JS.range (remaining - 1))).
  set (a2 := if remaining >? 1 then transferOut a1 pairs else a1).
  assert (H2 : exists b2 h2, emits a1 a2 b2
                 /\ drives b2 h1
                      (map (fun i => (bitZ tdi (8 * fast + i), 0))
                         (JS.range (remaining - 1))) h2).
  { unfold a2. destruct (Z.gtb_spec remaining 1).
    - destruct (drives_pairs
                  (fun i => [Z.lor (Z.lor base (Z.shiftl (lastBit tdi fast i) 4)) 0;
                             Z.lor (Z.lor base (Z.shiftl (lastBit tdi fast i) 4)) 1])
                  (fun i => (lastBit tdi fast i, 0))
                  (JS.range (remaining - 1)) h1) as [h2 [P _]].
      { intros i _. eexists. eexists. split; [reflexivity|].
        destruct (lastBit_pairs tdi fast i) as [S0 [S1 _]].
        destruct (lastBit_pins tdi fast i) as [P1 [P2 [_ [_ P5]]]].
        split; [exact S0|]. split; [exact S1|]. rewrite P1, P2, P5. reflexivity. }
      exists pairs, h2. split; [apply emits_transferOut|].
      eapply drives_eq; [exact P| |reflexivity].
      apply map_ext_in. intros i I. apply JSFacts.range_In in I.
      rewrite lastBit_bitZ by lia. reflexivity.
    - exists [], h1. split; [apply emits_refl|].
      replace (remaining - 1) with 0 by lia. apply drives_nil. }
  destruct H2 as [b2 [h2 [E2 D2]]].
  eexists. split.
  - eapply emits_trans; [exact E1|].
    eapply emits_trans; [exact E2|apply emits_transferOut].
  - eapply drives_eq.
    + eapply drives_app; [exact D1|].
      eapply drives_app; [exact D2|].
      destruct (lastBit_pairs tdi fast (remaining - 1)) as [_ [_ [S2 S3]]].
      apply (drives_pair _ _ h2 S2 S3).
    + destruct (lastBit_pins tdi fast (remaining - 1)) as [_ [_ [P3 [P4 P5]]]].
      rewrite P3, P4, P5. cbn [Z.b2z].
      assert (R : JS.range n
                  = JS.range (8 * fast)
                    ++ map (fun i => 8 * fast + i) (JS.range (remaining - 1))
                    ++ [n - 1]).
      { rewrite (JSFacts.range_snoc n) by lia.
        replace (n - 1) with (8 * fast + (remaining - 1)) at 1 by (unfold remaining; lia).
        rewrite (JSFacts.range_app (8 * fast) (remaining - 1)) by lia.
        rewrite <- app_assoc. reflexivity. }
      rewrite R, !map_app, map_map. cbn [map]. rewrite Z.eqb_refl.
      rewrite lastBit_bitZ by lia.
      replace (8 * fast + (remaining - 1)) with (n - 1) by (unfold remaining; lia).
      f_equal; [|f_equal].
      * apply map_ext_in. intros i I. apply JSFacts.range_In in I.
        destruct (Z.eqb_spec i (n - 1)); [unfold remaining in *; lia|reflexivity].
      * apply map_ext_in. intros i I. apply JSFacts.range_In in I.
        destruct (Z.eqb_spec (8 * fast + i) (n - 1));
          [unfold remaining in *; lia|reflexivity].
    + destruct (lastBit_pins tdi fast (remaining - 1)) as [_ [_ [_ [P4 _]]]].
      exact P4.
Qed.

(** The zero buffer holds zeros only: so it is on a fresh adapter, and so
    [toggleClockCycles] leaves it. *)
Definition zeroed (a : adapter) : Prop :=
  match _zeroBuffer a with
  | Some z => Forall (fun b => b = 0) z
  | None => True
  end.

Lemma zero_get z k : Forall (fun b => b = 0) z -> JS.int (JS.get z k) = 0.
Proof.
  intros H. unfold JS.get. destruct (k <? 0); [reflexivity|].
  destruct (nth_error z (Z.to_nat k)) as [b|] eqn:N; [|reflexivity].
  rewrite Forall_forall in H. apply (H b). apply (nth_error_In _ _ N).
Qed.

Lemma fill_zero n : Forall (fun b => b = 0) (JS.fill n 0).
Proof. unfold JS.fill. apply Forall_forall. intros b I. apply repeat_spec in I. exact I. Qed.

Lemma rawEdges_zero z nb :
  0 <= nb -> Forall (fun b => b = 0) z ->
  rawEdges false z 0 0 nb = map (fun _ => (0, 0)) (JS.range (8 * nb)).
Proof.
  intros H Z0. rewrite rawEdges_bits by exact H. apply map_ext. intros j.
  unfold bitZ. rewrite zero_get by exact Z0. rewrite Z.shiftr_0_l. reflexivity.
Qed.

(** [toggleClockCycles] on the wire: whole bytes of edges with TDI and TMS
    at 0. *)
Lemma toggleClockCycles_drives a c h :
  0 < c -> zeroed a ->
  exists bytes,
    emits a (toggleClockCycles a c) bytes
    /\ drives bytes h (map (fun _ => (0, 0)) (JS.range (8 * JS.ceil8 c))) false
    /\ zeroed (toggleClockCycles a c).
Proof.
  intros Hc Z0. unfold toggleClockCycles. destruct (Z.leb_spec c 0); [lia|]. cbv zeta.
  assert (Hnb : 0 <= JS.ceil8 c) by (unfold JS.ceil8; apply Z.div_pos; lia).
  set (z := match _zeroBuffer (transferOut a [base]) with
            | Some z0 => _
            | None => _
            end).
  assert (Zz : Forall (fun b => b = 0) z).
  { unfold z, zeroed in *. cbn [transferOut _zeroBuffer].
    destruct (_zeroBuffer a) as [z0|]; [|apply fill_zero].
    destruct (_ <? _); [apply fill_zero|exact Z0]. }
  set (a1 := {| out := out (transferOut a [base]); _zeroBuffer := Some z |}).
  destruct (shiftBytesRaw_drives a1 z 0 (JS.ceil8 c) false Hnb) as [rest [E C]].
  assert (E1 : emits a a1 [base]) by apply (emits_transferOut a [base]).
  exists ([base] ++ rest). split; [|split].
  - eapply emits_trans; [exact E1|exact E].
  - rewrite rawEdges_zero in C by assumption.
    apply (drives_app [base] rest h false false [] _); [apply anchor_drives|exact C].
  - assert (K : forall fuel b off, _zeroBuffer (sendBatches fuel b z 0 (JS.ceil8 c) off)
                                   = _zeroBuffer b).
    { induction fuel as [|fuel IH]; intros b off; cbn [sendBatches]; [reflexivity|].
      cbv zeta. destruct (off <? JS.ceil8 c); [|reflexivity]. rewrite IH. reflexivity. }
    unfold zeroed, shiftBytesRaw. rewrite K. cbn [transferOut _zeroBuffer a1]. exact Zz.
Qed.

(** X24 ([shiftBytes], [toggleClockCycles]).  Reading the OUT stream with
    its pins: for a bit count from 1 on, the bytes [shiftBytes] sends
    present to the device exactly the edges the engine asks for, every bit
    of the bytes in order, bit 0 of byte 0 first, with TMS at 0 and the
    last bit with TMS at 1, whatever TMS was before.  For a positive
    number of cycles, the bytes [toggleClockCycles] sends present
    [8 * ceil(cycles / 8)] edges with TDI and TMS at 0. *)
Theorem byte_shifts_on_wire a h :
  (forall tdiBytes bitLength, 1 <= bitLength ->
     exists bytes,
       emits a (shiftBytes a tdiBytes bitLength) bytes
       /\ drives bytes h (TAPFacts.requested_edges (TAP.ShiftBytes tdiBytes bitLength))
            true)
  /\ (forall cycles, 0 < cycles -> zeroed a ->
        exists bytes,
          emits a (toggleClockCycles a cycles) bytes
          /\ drives bytes h
               (TAPFacts.requested_edges (TAP.ToggleClockCycles (8 * JS.ceil8 cycles)))
               false
          /\ zeroed (toggleClockCycles a cycles)).
Proof.
  split.
  - intros tdi n Hn. destruct (shiftBytes_drives a tdi n h Hn) as [bytes [E D]].
    exists bytes. split; [exact E|exact D].
  - intros c Hc Z0. destruct (toggleClockCycles_drives a c h Hc Z0) as [bytes [E [D Z1]]].
    exists bytes. split; [exact E|]. split; [exact D|exact Z1].
Qed.

(** Twelve bits on a fresh adapter. *)
Lemma byte_shifts_on_wire_witness :
  sampled true (wire (shiftBytes connected [0xA5; 0x0F] 12))
  = TAPFacts.requested_edges (TAP.ShiftBytes [0xA5; 0x0F] 12)
  /\ sampled true (wire (toggleClockCycles connected 12))
     = TAPFacts.requested_edges (TAP.ToggleClockCycles 16).
Proof.
  split.
  - destruct (proj1 (byte_shifts_on_wire connected true) [0xA5; 0x0F] 12)
      as [bytes [E D]]; [lia|].
    unfold emits in E. cbn [wire connected out List.concat app] in E.
    change (wire (shiftBytes connected [0xA5; 0x0F] 12) = bytes) in E.
    rewrite E. apply (sampled_drives _ _ _ _ D).
  - destruct (proj2 (byte_shifts_on_wire connected true) 12) as [bytes [E [D _]]];
      [lia|exact I|].
    unfold emits in E.
    change (wire (toggleClockCycles connected 12) = bytes) in E.
    rewrite E. apply (sampled_drives _ _ _ _ D).
Defined.

(** ** [shiftBits] on the wire *)

(** The level a bit array asks for at index [i]: [bits && bits[i] ? 1 : 0]. *)
Definition lvl (bits : option (list Z)) (i : Z) : Z :=
  match bits with
  | Some l => TAPFacts.bit01 (JS.get l i)
  | None => 0
  end.

Lemma bitFlag_lvl bits i v : bitFlag bits i v = if lvl bits i =? 0 then 0 else v.
Proof.
  unfold bitFlag, lvl, TAPFacts.bit01. destruct bits as [l|]; [|reflexivity].
  destruct (JS.truthy (JS.get l i)); reflexivity.
Qed.

Lemma lvl_cases bits i : lvl bits i = 0 \/ lvl bits i = 1.
Proof.
  unfold lvl, TAPFacts.bit01. destruct bits as [l|]; [|left; reflexivity].
  destruct (JS.truthy (JS.get l i)); [right|left]; reflexivity.
Qed.

(** The pins of a bit-bang pair of [shiftBitBang]. *)
Lemma bitbang_pins tdiBits tmsBits i (capture : bool) :
  let c := Z.lor (Z.lor (Z.lor (Z.lor 0x2C (bitFlag tdiBits i 0x10))
                               (bitFlag tmsBits i 0x02)) 0x01)
                 (if capture then 0x40 else 0) in
  (Z.b2z (Z.testbit c 4), Z.b2z (Z.testbit c 1)) = (lvl tdiBits i, lvl tmsBits i).
Proof.
  cbv zeta. rewrite !bitFlag_lvl.
  destruct (lvl_cases tdiBits i) as [-> | ->], (lvl_cases tmsBits i) as [-> | ->],
    capture; reflexivity.
Qed.

(** The edges of the bits [from, ..., to - 1] as the arrays ask for them. *)
Definition asked (tdiBits tmsBits : option (list Z)) (from to : Z) : list (Z * Z) :=
  map (fun i => (lvl tdiBits i, lvl tmsBits i)) (between from to).

(** The same bits with TMS left at [h]. *)
Definition heldAt (h : bool) (tdiBits : option (list Z)) (from to : Z) : list (Z * Z) :=
  map (fun i => (lvl tdiBits i, Z.b2z h)) (between from to).

Lemma asked_app tdi tms a b c :
  a <= b -> b <= c -> asked tdi tms a b ++ asked tdi tms b c = asked tdi tms a c.
Proof. intros. unfold asked. rewrite <- map_app, between_app by assumption. reflexivity. Qed.

Lemma heldAt_app h tdi a b c :
  a <= b -> b <= c -> heldAt h tdi a b ++ heldAt h tdi b c = heldAt h tdi a c.
Proof. intros. unfold heldAt. rewrite <- map_app, between_app by assumption. reflexivity. Qed.

Lemma asked_fst tdi tms a b : map fst (asked tdi tms a b) = map (lvl tdi) (between a b).
Proof. unfold asked. rewrite map_map. reflexivity. Qed.

Lemma heldAt_fst h tdi a b : map fst (heldAt h tdi a b) = map (lvl tdi) (between a b).
Proof. unfold heldAt. rewrite map_map. reflexivity. Qed.

(** [shiftBitBang]: the bits as asked, whatever TMS was; TMS stays at the
    level of the last bit. *)
Lemma shiftBitBang_drives a tdiBits tmsBits start n capture h :
  0 <= n ->
  exists bytes h',
    emits a (shiftBitBang a tdiBits tmsBits start n capture) bytes
    /\ drives bytes h (asked tdiBits tmsBits start (start + n)) h'
    /\ (n = 0 -> h' = h)
    /\ (0 < n -> Z.b2z h' = lvl tmsBits (start + n - 1)).
Proof.
  intros Hn. unfold shiftBitBang.
  destruct (drives_pairs
              (fun i =>
                 [Z.lor (Z.lor 0x2C (bitFlag tdiBits (start + i) 0x10))
                        (bitFlag tmsBits (start + i) 0x02);
                  Z.lor (Z.lor (Z.lor (Z.lor 0x2C (bitFlag tdiBits (start + i) 0x10))
                                      (bitFlag tmsBits (start + i) 0x02)) 0x01)
                        (if capture then 0x40 else 0)])
              (fun i => (lvl tdiBits (start + i), lvl tmsBits (start + i)))
              (JS.range n) h) as [h' [D [N L]]].
  { intros i _. eexists. eexists. split; [reflexivity|].
    destruct (bitbang_pair tdiBits tmsBits (start + i) capture) as [S0 S1].
    split; [exact S0|]. split; [exact S1|].
    symmetry. apply bitbang_pins. }
  eexists. exists h'. split; [apply emits_transferOut|]. split; [|split].
  - eapply drives_eq; [exact D| |reflexivity].
    unfold asked, between. replace (start + n - start) with n by lia.
    rewrite map_map. reflexivity.
  - intros ->. apply N. reflexivity.
  - intros P. rewrite (L (n - 1) (JS.range (n - 1))).
    + cbn [snd]. f_equal. lia.
    + apply JSFacts.range_snoc. exact P.
Qed.

(** A data byte of [shiftBytewise], when all its bits lie in the range. *)
Lemma packByte_bits tdiBits startBit bitCount byteOffset i bit :
  0 <= bit < 8 -> (byteOffset + i) * 8 + 8 <= bitCount ->
  Z.b2z (Z.testbit (packByte tdiBits startBit bitCount byteOffset i) bit)
  = lvl tdiBits (startBit + (byteOffset + i) * 8 + bit).
Proof.
  intros Hb Hr. unfold packByte.
  rewrite (JSFacts.fold_left_ext_in _
             (fun byte b =>
                Z.lor byte
                  (Z.shiftl (if negb (lvl tdiBits (startBit + (byteOffset + i) * 8 + b) =? 0)
                             then 1 else 0) b))).
  2:{ intros acc b I. apply JSFacts.range_In in I. cbv zeta.
      destruct (Z.geb_spec (startBit + (byteOffset + i) * 8 + b) (startBit + bitCount));
        [lia|].
      rewrite bitFlag_lvl.
      destruct (lvl_cases tdiBits (startBit + (byteOffset + i) * 8 + b)) as [-> | ->];
        cbn [Z.eqb negb]; [rewrite Z.shiftl_0_l, Z.lor_0_r|]; reflexivity. }
  rewrite JSFacts.orBits_fold, JSFacts.orBits_testbit by lia.
  rewrite Z.bits_0, orb_false_l.
  rewrite (JSFacts.existsb_range
             (fun e => negb (lvl tdiBits (startBit + (byteOffset + i) * 8 + e) =? 0))).
  destruct (Z.leb_spec 0 bit); [|lia]. destruct (Z.ltb_spec bit 8); [|lia]. cbn [andb].
  destruct (lvl_cases tdiBits (startBit + (byteOffset + i) * 8 + bit)) as [-> | ->];
    reflexivity.
Qed.

(** The data bytes of one packet of [shiftBytewise]. *)
Lemma packet_edges h tdiBits startBit bitCount off n :
  0 <= off -> 0 <= n -> (off + n) * 8 <= bitCount ->
  flat_map (byteEdges h) (map (packByte tdiBits startBit bitCount off) (JS.range n))
  = heldAt h tdiBits (startBit + 8 * off) (startBit + 8 * (off + n)).
Proof.
  intros Ho Hn Hr. rewrite JSFacts.flat_map_map.
  transitivity
    (flat_map (fun i => map (fun b => (lvl tdiBits (startBit + 8 * off + (8 * i + b)),
                                       Z.b2z h)) (JS.range 8)) (JS.range n)).
  - rewrite !flat_map_concat_map. f_equal. apply map_ext_in. intros i I.
    apply JSFacts.range_In in I. unfold byteEdges. apply map_ext_in. intros b B.
    apply JSFacts.range_In in B. rewrite packByte_bits by lia.
    f_equal. f_equal. lia.
  - rewrite <- (Z2Nat.id n) at 1 by lia.
    rewrite (JSFacts.range8_bytes
               (fun j => (lvl tdiBits (startBit + 8 * off + j), Z.b2z h))).
    rewrite Z2Nat.id by lia. unfold heldAt, between. rewrite map_map.
    replace (startBit + 8 * (off + n) - (startBit + 8 * off)) with (8 * n) by lia.
    reflexivity.
Qed.

Lemma bytewiseLoop_drives h tdiBits startBit nb : forall fuel a off,
  0 <= off -> nb - off <= Z.of_nat fuel ->
  exists bytes,
    emits a (bytewiseLoop fuel a tdiBits startBit (nb * 8) nb off) bytes
    /\ drives bytes h
         (heldAt h tdiBits (startBit + 8 * off) (startBit + 8 * Z.max off nb)) h.
Proof.
  induction fuel as [|fuel IH]; intros a off Hoff Hf.
  - exists []. split; [apply emits_refl|].
    eapply drives_eq; [apply drives_nil| |reflexivity].
    replace (Z.max off nb) with off by lia. unfold heldAt. rewrite between_nil. reflexivity.
  - cbn [bytewiseLoop]. cbv zeta. destruct (Z.ltb_spec off nb) as [L|L].
    + set (n := Z.min 63 (nb - off)).
      set (packet := _ :: map _ (JS.range n)).
      destruct (IH (transferOut a packet) (off + 63) ltac:(lia) ltac:(lia))
        as [rest [E D]].
      exists (packet ++ rest). split.
      * eapply emits_trans; [apply emits_transferOut|exact E].
      * eapply drives_eq; [eapply drives_app; [|exact D]| |reflexivity].
        -- unfold packet. apply (drives_byteshift n); [unfold n; lia|].
           rewrite length_map, JSFacts.range_length. unfold n. lia.
        -- rewrite packet_edges by (unfold n; lia).
           destruct (Z.le_gt_cases (nb - off) 63) as [S|S].
           ++ replace (Z.max (off + 63) nb) with (off + 63) by lia.
              unfold heldAt at 2. rewrite between_nil. cbn [map]. rewrite app_nil_r.
              f_equal; unfold n; lia.
           ++ replace n with 63 by (unfold n; lia).
              rewrite heldAt_app by lia. f_equal. lia.
    + exists []. split; [apply emits_refl|].
      eapply drives_eq; [apply drives_nil| |reflexivity].
      replace (Z.max off nb) with off by lia. unfold heldAt. rewrite between_nil. reflexivity.
Qed.

(** [shiftBytewise] of whole bytes: the TDI bits as asked, TMS untouched. *)
Lemma shiftBytewise_drives a tdiBits startBit m h :
  0 <= m ->
  exists bytes,
    emits a (shiftBytewise a tdiBits startBit (m * 8)) bytes
    /\ drives bytes h (heldAt h tdiBits startBit (startBit + m * 8)) h.
Proof.
  intros Hm. unfold shiftBytewise. cbv zeta.
  assert (Hc : JS.ceil8 (m * 8) = m).
  { pose proof (ceil8_bounds (m * 8)). lia. }
  rewrite Hc.
  destruct (bytewiseLoop_drives h tdiBits startBit m (Z.to_nat m) a 0
              ltac:(lia) ltac:(lia)) as [bytes [E D]].
  exists bytes. split; [exact E|].
  eapply drives_eq; [exact D| |reflexivity]. f_equal; lia.
Qed.

Lemma shiftBitsLoop_done tdiBits tmsBits n capture fuel a idx :
  n <= idx -> shiftBitsLoop fuel a tdiBits tmsBits n capture idx = a.
Proof.
  intros H. destruct fuel; [reflexivity|]. cbn [shiftBitsLoop].
  destruct (Z.ltb_spec idx n); [lia|reflexivity].
Qed.

(** On every mix of batches TDI is as asked. *)
Lemma shiftBitsLoop_tdi tdiBits tmsBits n capture : forall fuel a idx h,
  0 <= idx <= n -> n - idx <= Z.of_nat fuel ->
  exists bytes edges h',
    emits a (shiftBitsLoop fuel a tdiBits tmsBits n capture idx) bytes
    /\ drives bytes h edges h'
    /\ map fst edges = map (lvl tdiBits) (between idx n).
Proof.
  induction fuel as [|fuel IH]; intros a idx h Hidx Hf.
  - exists [], [], h. split; [apply emits_refl|]. split; [apply drives_nil|].
    replace idx with n by lia. rewrite between_nil. reflexivity.
  - cbn [shiftBitsLoop]. cbv zeta. destruct (Z.ltb_spec idx n) as [L|L].
    + destruct (negb capture && canUseByteshiftMode tmsBits idx n
                && (n - idx >=? 16)) eqn:B.
      * apply andb_true_iff in B. destruct B as [_ B].
        assert (H16 : 16 <= n - idx) by (apply Z.geb_le in B; lia).
        set (m := JS.floor8 (n - idx)).
        assert (Hm : 2 <= m /\ m * 8 <= n - idx).
        { unfold m, JS.floor8. pose proof (Z.div_mod (n - idx) 8 ltac:(lia)).
          pose proof (Z.mod_pos_bound (n - idx) 8 ltac:(lia)). lia. }
        destruct (shiftBytewise_drives a tdiBits idx m h ltac:(lia)) as [b1 [E1 D1]].
        destruct (IH (shiftBytewise a tdiBits idx (m * 8)) (idx + m * 8) h
                    ltac:(lia) ltac:(lia)) as [b2 [e2 [h' [E2 [D2 F2]]]]].
        exists (b1 ++ b2), (heldAt h tdiBits idx (idx + m * 8) ++ e2), h'.
        split; [eapply emits_trans; eassumption|].
        split; [eapply drives_app; eassumption|].
        rewrite map_app, heldAt_fst, F2, <- map_app, between_app by lia. reflexivity.
      * set (batch := Z.min 64 (n - idx)).
        destruct (shiftBitBang_drives a tdiBits tmsBits idx batch capture h
                    ltac:(unfold batch; lia)) as [b1 [h1 [E1 [D1 _]]]].
        destruct (IH (shiftBitBang a tdiBits tmsBits idx batch capture) (idx + batch) h1
                    ltac:(unfold batch; lia) ltac:(unfold batch; lia))
          as [b2 [e2 [h' [E2 [D2 F2]]]]].
        exists (b1 ++ b2), (asked tdiBits tmsBits idx (idx + batch) ++ e2), h'.
        split; [eapply emits_trans; eassumption|].
        split; [eapply drives_app; eassumption|].
        rewrite map_app, asked_fst, F2, <- map_app, between_app by (unfold batch; lia).
        reflexivity.
    + exists [], [], h. split; [apply emits_refl|]. split; [apply drives_nil|].
      replace idx with n by lia. rewrite between_nil. reflexivity.
Qed.

(** With [capture], every batch is bit-banged: both pins are as asked. *)
Lemma shiftBitsLoop_capture tdiBits tmsBits n : forall fuel a idx h,
  0 <= idx <= n -> n - idx <= Z.of_nat fuel ->
  exists bytes h',
    emits a (shiftBitsLoop fuel a tdiBits tmsBits n true idx) bytes
    /\ drives bytes h (asked tdiBits tmsBits idx n) h'.
Proof.
  induction fuel as [|fuel IH]; intros a idx h Hidx Hf.
  - exists [], h. split; [apply emits_refl|].
    eapply drives_eq; [apply drives_nil| |reflexivity].
    replace idx with n by lia. unfold asked. rewrite between_nil. reflexivity.
  - cbn [shiftBitsLoop]. cbv zeta. destruct (Z.ltb_spec idx n) as [L|L].
    + cbn [negb andb].
      set (batch := Z.min 64 (n - idx)).
      destruct (shiftBitBang_drives a tdiBits tmsBits idx batch true h
                  ltac:(unfold batch; lia)) as [b1 [h1 [E1 [D1 _]]]].
      destruct (IH (shiftBitBang a tdiBits tmsBits idx batch true) (idx + batch) h1
                  ltac:(unfold batch; lia) ltac:(unfold batch; lia))
        as [b2 [h' [E2 D2]]].
      exists (b1 ++ b2), h'.
      split; [eapply emits_trans; eassumption|].
      eapply drives_eq; [eapply drives_app; eassumption| |reflexivity].
      apply asked_app; unfold batch; lia.
    + exists [], h. split; [apply emits_refl|].
      eapply drives_eq; [apply drives_nil| |reflexivity].
      replace idx with n by lia. unfold asked. rewrite between_nil. reflexivity.
Qed.

(** Fewer than 16 bits left are bit-banged in one batch. *)
Lemma shiftBitsLoop_short tdiBits tmsBits n capture fuel a idx h :
  0 <= idx <= n -> n - idx < 16 -> (0 < fuel)%nat ->
  exists bytes h',
    emits a (shiftBitsLoop fuel a tdiBits tmsBits n capture idx) bytes
    /\ drives bytes h (asked tdiBits tmsBits idx n) h'
    /\ (idx = n -> h' = h)
    /\ (idx < n -> Z.b2z h' = lvl tmsBits (n - 1)).
Proof.
  intros Hidx Hs Hf. destruct fuel as [|fuel]; [lia|].
  cbn [shiftBitsLoop]. cbv zeta. destruct (Z.ltb_spec idx n) as [L|L].
  - destruct (Z.geb_spec (n - idx) 16) as [G|G]; [lia|]. rewrite andb_false_r.
    replace (Z.min 64 (n - idx)) with (n - idx) by lia.
    replace (idx + (n - idx)) with n by lia.
    rewrite shiftBitsLoop_done by lia.
    destruct (shiftBitBang_drives a tdiBits tmsBits idx (n - idx) capture h
                ltac:(lia)) as [b1 [h1 [E1 [D1 [_ T1]]]]].
    exists b1, h1. split; [exact E1|]. split.
    + eapply drives_eq; [exact D1| |reflexivity]. f_equal. lia.
    + split; [lia|]. intros _. rewrite T1 by lia. f_equal. lia.
  - exists [], h. split; [apply emits_refl|]. split.
    + eapply drives_eq; [apply drives_nil| |reflexivity].
      replace idx with n by lia. unfold asked. rewrite between_nil. reflexivity.
    + split; [reflexivity|lia].
Qed.

Lemma asked_requested tdiBits tmsBits n capture :
  asked (Some tdiBits) (Some tmsBits) 0 n
  = TAPFacts.requested_edges (TAP.ShiftBits tdiBits tmsBits n capture).
Proof.
  unfold asked, between. cbn [TAPFacts.requested_edges lvl].
  rewrite Z.sub_0_r, map_map. reflexivity.
Qed.

Lemma between_range n : between 0 n = JS.range n.
Proof.
  unfold between. rewrite Z.sub_0_r. cbn [Z.add]. apply map_id.
Qed.

(** The TMS array [shiftData] builds: zeros, and a one on the last bit. *)
Lemma exit_lvl n i :
  0 <= i < n ->
  lvl (Some (JS.set (JS.fill n 0) (Z.to_nat (n - 1)) 1)) i = if i =? n - 1 then 1 else 0.
Proof.
  intros Hi. cbn [lvl]. rewrite SVFFacts.get_set by lia.
  unfold JS.fill at 1. rewrite repeat_length.
  destruct (Z.eqb_spec i (n - 1)) as [E|E].
  - destruct (Z.ltb_spec (n - 1) (Z.of_nat (Z.to_nat n))); [reflexivity|lia].
  - rewrite JSFacts.get_fill by lia. reflexivity.
Qed.

Lemma exit_canUse n :
  9 <= n ->
  canUseByteshiftMode (Some (JS.set (JS.fill n 0) (Z.to_nat (n - 1)) 1)) 0 n = true.
Proof.
  intros Hn. unfold canUseByteshiftMode. cbv zeta. apply forallb_forall.
  intros i I. apply JSFacts.range_In in I.
  pose proof (exit_lvl n (0 + i) ltac:(lia)) as L. cbn [lvl] in L.
  unfold TAPFacts.bit01 in L.
  destruct (JS.truthy _); [|reflexivity].
  destruct (Z.eqb_spec (0 + i) (n - 1)); [lia|discriminate].
Qed.

(** The payload call of [shiftData] for 16 bits or more: whole bytes in
    byte-shift mode with TMS as it was, the bits that are left bit-banged. *)
Lemma exit_call_drives a tdiBits n h :
  16 <= n ->
  exists bytes h',
    emits a (shiftBits a (Some tdiBits)
               (Some (JS.set (JS.fill n 0) (Z.to_nat (n - 1)) 1)) n false) bytes
    /\ drives bytes h
         (map (fun i => (TAPFacts.bit01 (JS.get tdiBits i),
                         if i <? 8 * (n / 8) then Z.b2z h
                         else if i =? n - 1 then 1 else 0))
              (JS.range n)) h'.
Proof.
  intros Hn. unfold shiftBits.
  set (tms := Some (JS.set (JS.fill n 0) (Z.to_nat (n - 1)) 1)).
  destruct (Z.to_nat n) as [|fuel] eqn:F; [lia|].
  cbn [shiftBitsLoop]. cbv zeta.
  destruct (Z.ltb_spec 0 n); [|lia].
  unfold tms at 1. rewrite exit_canUse by lia. cbn [negb andb].
  rewrite Z.sub_0_r. destruct (Z.geb_spec n 16); [|lia].
  unfold JS.floor8. cbn [Z.add].
  set (m := n / 8).
  assert (Hm : 2 <= m /\ m * 8 <= n < m * 8 + 8).
  { unfold m. pose proof (Z.div_mod n 8 ltac:(lia)).
    pose proof (Z.mod_pos_bound n 8 ltac:(lia)). lia. }
  destruct (shiftBytewise_drives a (Some tdiBits) 0 m h ltac:(lia)) as [b1 [E1 D1]].
  destruct (shiftBitsLoop_short (Some tdiBits) tms n false fuel
              (shiftBytewise a (Some tdiBits) 0 (m * 8)) (m * 8) h
              ltac:(lia) ltac:(lia) ltac:(lia)) as [b2 [h' [E2 [D2 _]]]].
  exists (b1 ++ b2), h'. split; [eapply emits_trans; eassumption|].
  eapply drives_eq; [eapply drives_app; eassumption| |reflexivity].
  cbn [Z.add]. unfold heldAt, asked.
  rewrite <- (between_range n), <- (between_app 0 (m * 8) n) by lia.
  rewrite map_app. f_equal.
  - apply map_ext_in. intros i I. unfold between in I. apply in_map_iff in I.
    destruct I as [j [<- J]]. apply JSFacts.range_In in J.
    destruct (Z.ltb_spec (0 + j) (8 * m)); [reflexivity|lia].
  - apply map_ext_in. intros i I. unfold between in I. apply in_map_iff in I.
    destruct I as [j [<- J]]. apply JSFacts.range_In in J.
    destruct (Z.ltb_spec (m * 8 + j) (8 * m)); [lia|].
    unfold tms. rewrite exit_lvl by lia. reflexivity.
Qed.

(** X25 ([shiftBits], [shiftBitBang], [shiftBytewise],
    [canUseByteshiftMode]).  Reading the OUT stream with its pins: the
    bytes [shiftBits] sends clock one edge for each of the [bitLength]
    bits, and on every edge TDI is the bit of [tdiBits], on every mix of
    bit-bang and byte-shift batches.  With [capture], or for fewer than 16
    bits, TMS is the bit of [tmsBits] on every edge as well. *)
Theorem shiftBits_on_wire a tdiBits tmsBits n capture h :
  0 <= n ->
  exists bytes edges h',
    emits a (play a (TAP.ShiftBits tdiBits tmsBits n capture)) bytes
    /\ drives bytes h edges h'
    /\ map fst edges
       = map fst (TAPFacts.requested_edges (TAP.ShiftBits tdiBits tmsBits n capture))
    /\ (capture = true \/ n < 16 ->
        edges = TAPFacts.requested_edges (TAP.ShiftBits tdiBits tmsBits n capture)).
Proof.
  intros Hn. cbn [play]. unfold shiftBits.
  rewrite <- (asked_requested tdiBits tmsBits n capture).
  destruct capture.
  - destruct (shiftBitsLoop_capture (Some tdiBits) (Some tmsBits) n (Z.to_nat n) a 0 h
                ltac:(lia) ltac:(lia)) as [bytes [h' [E D]]].
    exists bytes, (asked (Some tdiBits) (Some tmsBits) 0 n), h'. auto.
  - destruct (Z.lt_ge_cases n 16) as [S|S].
    + destruct (Z.eq_dec n 0) as [->|N].
      * exists [], [], h. cbn [Z.to_nat shiftBitsLoop].
        split; [apply emits_refl|]. split; [apply drives_nil|]. auto.
      * destruct (shiftBitsLoop_short (Some tdiBits) (Some tmsBits) n false
                    (Z.to_nat n) a 0 h ltac:(lia) ltac:(lia) ltac:(lia))
          as [bytes [h' [E [D _]]]].
        exists bytes, (asked (Some tdiBits) (Some tmsBits) 0 n), h'. auto.
    + destruct (shiftBitsLoop_tdi (Some tdiBits) (Some tmsBits) n false
                  (Z.to_nat n) a 0 h ltac:(lia) ltac:(lia))
        as [bytes [edges [h' [E [D T]]]]].
      exists bytes, edges, h'. split; [exact E|]. split; [exact D|]. split.
      * rewrite T, asked_fst. reflexivity.
      * intros [C|C]; [discriminate|lia].
Qed.

(** The walk from IDLE to DRSHIFT, on a fresh adapter. *)
Lemma shiftBits_on_wire_witness :
  sampled false (wire (play connected (TAP.ShiftBits [0; 0; 0] [1; 0; 0] 3 false)))
  = [(0, 1); (0, 0); (0, 0)].
Proof.
  destruct (shiftBits_on_wire connected [0; 0; 0] [1; 0; 0] 3 false false)
    as [bytes [edges [h' [E [D [_ Q]]]]]]; [lia|].
  unfold emits in E.
  change (wire (play connected (TAP.ShiftBits [0; 0; 0] [1; 0; 0] 3 false)) = bytes) in E.
  rewrite E, (sampled_drives _ _ _ _ D), Q by (right; lia). reflexivity.
Defined.

(** X26 ([shiftBits] on the payload call of [shiftData]).  For the call
    [shiftData] makes for a shift of 16 bits or more below the threshold,
    TMS array zeros with a one on the last bit and no capture, and TMS at
    0 before it: when the length is no multiple of 8 the edges on the wire
    are the ones asked for; when it is a multiple of 8 all bits go out in
    byte-shift mode, TDI is as asked but TMS is 0 on every edge, so that a
    TAP in the shift state stays there, where the edges asked for take it
    to the exit state. *)
Theorem exit_bit_on_wire a tdiBits n sh ex :
  TAPFacts.shift_exit sh ex -> 16 <= n ->
  let c := TAP.ShiftBits tdiBits (JS.set (JS.fill n 0) (Z.to_nat (n - 1)) 1) n false in
  exists bytes edges h',
    emits a (play a c) bytes
    /\ drives bytes false edges h'
    /\ map fst edges = map fst (TAPFacts.requested_edges c)
    /\ TAPFacts.state_after sh (TAPFacts.requested_edges c) = ex
    /\ (n mod 8 <> 0 -> edges = TAPFacts.requested_edges c)
    /\ (n mod 8 = 0 ->
        map snd edges = map (fun _ => 0) (JS.range n)
        /\ TAPFacts.state_after sh edges = sh).
Proof.
  intros Hse Hn c.
  destruct (TAPFacts.shift_exit_transitions sh ex Hse) as [T0 T1].
  destruct (exit_call_drives a tdiBits n false Hn) as [bytes [h' [E D]]].
  pose proof (Z.div_mod n 8 ltac:(lia)) as DM.
  pose proof (Z.mod_pos_bound n 8 ltac:(lia)) as MB.
  assert (R : TAPFacts.requested_edges c
              = map (fun i => (TAPFacts.bit01 (JS.get tdiBits i),
                               if i =? n - 1 then 1 else 0)) (JS.range n)).
  { unfold c. cbn [TAPFacts.requested_edges]. apply map_ext_in. intros i I.
    apply JSFacts.range_In in I. f_equal.
    exact (exit_lvl n i I). }
  eexists bytes, _, h'. split; [exact E|]. split; [exact D|].
  split; [|split; [|split]].
  - rewrite R, !map_map. reflexivity.
  - rewrite R.
    rewrite <- (TAPFacts.tms_run_indexed (fun i => TAPFacts.bit01 (JS.get tdiBits i)) n)
      by lia.
    apply TAPFacts.shifted_in_tms_run; [exact T0|exact T1|].
    intros N. apply (f_equal (@List.length Z)) in N.
    rewrite length_map, JSFacts.range_length in N. cbn [List.length] in N. lia.
  - intros M. rewrite R. apply map_ext_in. intros i I. apply JSFacts.range_In in I.
    destruct (Z.ltb_spec i (8 * (n / 8))); [|reflexivity].
    destruct (Z.eqb_spec i (n - 1)); [lia|reflexivity].
  - intros M.
    assert (Q : map (fun i => (TAPFacts.bit01 (JS.get tdiBits i),
                               if i <? 8 * (n / 8) then Z.b2z false
                               else if i =? n - 1 then 1 else 0)) (JS.range n)
                = map (fun b => (b, 0))
                    (map (fun i => TAPFacts.bit01 (JS.get tdiBits i)) (JS.range n))).
    { rewrite map_map. apply map_ext_in. intros i I. apply JSFacts.range_In in I.
      destruct (Z.ltb_spec i (8 * (n / 8))); [reflexivity|lia]. }
    rewrite Q. split.
    + rewrite !map_map. reflexivity.
    + apply TAPFacts.shifted_in_zero_run. exact T0.
Qed.

(** Sixteen and seventeen bits of a data register on a fresh adapter. *)
Lemma exit_bit_on_wire_witness :
  TAPFacts.state_after TAP.DRSHIFT
    (sampled false
       (wire (play connected
                (TAP.ShiftBits (JS.fill 16 1)
                   (JS.set (JS.fill 16 0) (Z.to_nat (16 - 1)) 1) 16 false))))
  = TAP.DRSHIFT
  /\ TAPFacts.state_after TAP.DRSHIFT
       (sampled false
          (wire (play connected
                   (TAP.ShiftBits (JS.fill 17 1)
                      (JS.set (JS.fill 17 0) (Z.to_nat (17 - 1)) 1) 17 false))))
     = TAP.DREXIT1.
Proof.
  split.
  - destruct (exit_bit_on_wire connected (JS.fill 16 1) 16 TAP.DRSHIFT TAP.DREXIT1)
      as [bytes [edges [h' [E [D [_ [_ [_ Q]]]]]]]];
      [right; split; reflexivity|lia|].
    unfold emits in E. cbn [wire connected out List.concat app] in E.
    cbn [wire]. rewrite E, (sampled_drives _ _ _ _ D).
    apply Q. reflexivity.
  - destruct (exit_bit_on_wire connected (JS.fill 17 1) 17 TAP.DRSHIFT TAP.DREXIT1)
      as [bytes [edges [h' [E [D [_ [X [Q _]]]]]]]];
      [right; split; reflexivity|lia|].
    unfold emits in E. cbn [wire connected out List.concat app] in E.
    cbn [wire]. rewrite E, (sampled_drives _ _ _ _ D), Q by discriminate.
    exact X.
Defined.

(** ** The walks of the engine on the wire *)

(** No path between two states has 16 bits. *)
Lemma paths_short :
  forallb (fun s =>
    forallb (fun t => Z.of_nat (List.length (TAP.findStatePath s t)) <? 16) TAP.states)
    TAP.states = true.
Proof. vm_compute. reflexivity. Qed.

(** X27 ([moveToState] on [shiftBits]).  Between any two states of the
    table, the transfer [moveToState] asks for is bit-banged whole: the
    bytes the adapter sends present the TMS bits of the path with TDI at
    0, whatever TMS was before, and these edges take a TAP that is in the
    tracked state to the target. *)
Theorem moveToState_on_wire m t a h :
  In (TAP.currentState m) TAP.states -> In t TAP.states ->
  exists bytes h',
    emits a (playAll a (TAPFacts.calls_since m (TAP.moveToState m t))) bytes
    /\ drives bytes h (TAPFacts.move_edges (TAP.currentState m) t) h'
    /\ TAPFacts.state_after (TAP.currentState m)
         (TAPFacts.move_edges (TAP.currentState m) t) = t.
Proof.
  intros Hc Ht.
  assert (S : TAPFacts.state_after (TAP.currentState m)
                (TAPFacts.move_edges (TAP.currentState m) t) = t).
  { rewrite TAPFacts.state_after_move. apply TAPFacts.moveToState_currentState.
    - exact Hc.
    - exact Ht. }
  assert (C : TAPFacts.calls_since m (TAP.moveToState m t)
              = TAPFacts.move_calls (TAP.currentState m) t).
  { unfold TAPFacts.calls_since. rewrite TAPFacts.moveToState_usb.
    apply TAPFacts.skipn_length_app. }
  rewrite C.
  pose proof paths_short as P. rewrite forallb_forall in P.
  specialize (P _ Hc). rewrite forallb_forall in P. specialize (P _ Ht).
  apply Z.ltb_lt in P.
  unfold TAPFacts.move_edges, TAPFacts.move_calls in *.
  set (path := TAP.findStatePath (TAP.currentState m) t) in *.
  destruct (Z.eqb_spec (Z.of_nat (List.length path)) 0) as [E|E].
  - exists [], h. split; [apply emits_refl|]. split; [apply drives_nil|exact S].
  - cbn [playAll fold_left play flat_map] in *. rewrite app_nil_r in *.
    unfold shiftBits.
    destruct (shiftBitsLoop_short
                (Some (JS.fill (Z.of_nat (List.length path)) 0)) (Some path)
                (Z.of_nat (List.length path)) false
                (Z.to_nat (Z.of_nat (List.length path))) a 0 h
                ltac:(lia) ltac:(lia) ltac:(lia)) as [bytes [h' [B [D _]]]].
    exists bytes, h'. split; [exact B|]. split; [|exact S].
    rewrite <- (asked_requested _ _ _ false). exact D.
Qed.

(** From RESET to DRSHIFT on a fresh adapter. *)
Lemma moveToState_on_wire_witness :
  sampled false
    (wire (playAll connected
             (TAPFacts.calls_since TAP.constructor
                (TAP.moveToState TAP.constructor TAP.DRSHIFT))))
  = [(0, 0); (0, 1); (0, 0); (0, 0)].
Proof.
  destruct (moveToState_on_wire TAP.constructor TAP.DRSHIFT connected false)
    as [bytes [h' [E [D _]]]]; [vm_compute; tauto|vm_compute; tauto|].
  unfold emits in E. cbn [wire connected out List.concat app] in E.
  cbn [wire]. rewrite E, (sampled_drives _ _ _ _ D). reflexivity.
Defined.

(** ** The shifts of the engine on the wire *)

Lemma playAll_app a x y : playAll a (x ++ y) = playAll (playAll a x) y.
Proof. unfold playAll. apply fold_left_app. Qed.

Lemma path_short s t : Z.of_nat (List.length (TAP.findStatePath s t)) < 16.
Proof.
  destruct (in_dec string_dec s TAP.states) as [Hs|Hs].
  - destruct (in_dec string_dec t TAP.states) as [Ht|Ht].
    + pose proof paths_short as P. rewrite forallb_forall in P.
      specialize (P _ Hs). rewrite forallb_forall in P. specialize (P _ Ht).
      apply Z.ltb_lt in P. exact P.
    + rewrite (TAPFacts.findStatePath_unknown_target s t Ht). cbn. lia.
  - rewrite (TAPFacts.findStatePath_unknown_start s t Hs). cbn. lia.
Qed.

(** The transfer of a walk: bit-banged whole, TMS left at the last bit of
    the path. *)
Lemma move_drives a s t h :
  exists bytes h',
    emits a (playAll a (TAPFacts.move_calls s t)) bytes
    /\ drives bytes h (TAPFacts.move_edges s t) h'
    /\ (TAP.findStatePath s t = [] -> h' = h)
    /\ (TAP.findStatePath s t <> [] ->
        Z.b2z h' = lvl (Some (TAP.findStatePath s t))
                     (Z.of_nat (List.length (TAP.findStatePath s t)) - 1)).
Proof.
  pose proof (path_short s t) as P.
  unfold TAPFacts.move_edges, TAPFacts.move_calls.
  set (path := TAP.findStatePath s t) in *.
  destruct (Z.eqb_spec (Z.of_nat (List.length path)) 0) as [E|E].
  - exists [], h. split; [apply emits_refl|]. split; [apply drives_nil|].
    split; [reflexivity|]. intros N. destruct path; [congruence|cbn in E; lia].
  - cbn [playAll fold_left play flat_map]. rewrite app_nil_r. unfold shiftBits.
    destruct (shiftBitsLoop_short
                (Some (JS.fill (Z.of_nat (List.length path)) 0)) (Some path)
                (Z.of_nat (List.length path)) false
                (Z.to_nat (Z.of_nat (List.length path))) a 0 h
                ltac:(lia) ltac:(lia) ltac:(lia)) as [bytes [h' [B [D [_ L]]]]].
    exists bytes, h'. split; [exact B|]. split.
    + rewrite <- (asked_requested _ _ _ false). exact D.
    + split; [|intros _; apply L; lia].
      intros N. rewrite N in E. cbn in E. lia.
Qed.

(** Every walk into a shift state ends with TMS at 0. *)
Lemma enter_low :
  forallb (fun sh =>
    forallb (fun s =>
               let path := TAP.findStatePath s sh in
               String.eqb s sh
               || (negb (Z.of_nat (List.length path) =? 0)
                   && (lvl (Some path) (Z.of_nat (List.length path) - 1) =? 0)))
            TAP.states)
    [TAP.IRSHIFT; TAP.DRSHIFT] = true.
Proof. vm_compute. reflexivity. Qed.

Lemma enter_drives sh ex s a h :
  TAPFacts.shift_exit sh ex -> In s TAP.states ->
  exists bytes h',
    emits a (playAll a (TAPFacts.move_calls s sh)) bytes
    /\ drives bytes h (TAPFacts.move_edges s sh) h'
    /\ (h = false \/ s <> sh -> h' = false).
Proof.
  intros Hse Hs.
  destruct (move_drives a s sh h) as [bytes [h' [E [D [L0 L1]]]]].
  exists bytes, h'. split; [exact E|]. split; [exact D|]. intros C.
  pose proof enter_low as T. rewrite forallb_forall in T.
  assert (Hin : In sh [TAP.IRSHIFT; TAP.DRSHIFT])
    by (destruct Hse as [[-> _]|[-> _]]; simpl; auto).
  specialize (T _ Hin). rewrite forallb_forall in T. specialize (T _ Hs).
  cbv zeta in T. destruct (String.eqb_spec s sh) as [Q|Q].
  - subst s. rewrite L0 by apply TAPFacts.findStatePath_same.
    destruct C as [C|C]; [exact C|congruence].
  - cbn [orb] in T. apply andb_true_iff in T. destruct T as [T1 T2].
    apply Z.eqb_eq in T2. rewrite <- L1 in T2.
    + destruct h'; [discriminate|reflexivity].
    + intros N. rewrite N in T1. discriminate.
Qed.

Section OnWire.
Variable threshold : Z.

(** The call [shiftData] makes for a positive length. *)
Definition payload_call (tdi : list Z) (n : Z) : TAP.usb_call :=
  if n >? threshold then TAP.ShiftBytes tdi n
  else TAP.ShiftBits (TAP.bytesToBits tdi n)
         (JS.set (JS.fill n 0) (Z.to_nat (n - 1)) 1) n false.

Lemma shiftData_call sh ex m tdi n :
  TAPFacts.shift_exit sh ex -> threshold <= 4294967295 -> 0 < n ->
  TAP.currentState m = sh ->
  exists m',
    TAP.shiftData threshold m tdi (Some n) false = Ok m'
    /\ TAP.usb m' = TAP.usb m ++ [payload_call tdi n]
    /\ TAP.currentState m' = ex
    /\ TAP.endIRState m' = TAP.endIRState m /\ TAP.endDRState m' = TAP.endDRState m.
Proof.
  intros Hse HT Hn Hc. unfold TAP.shiftData, payload_call.
  destruct (Z.eqb_spec n 0); [lia|]. rewrite andb_true_r.
  destruct (n >? threshold) eqn:Fast.
  - eexists. split; [reflexivity|]. cbn.
    split; [reflexivity|]. split; [|auto]. rewrite Hc.
    destruct Hse as [[-> ->]|[-> ->]]; reflexivity.
  - assert (Hrange : (n <? 0) || (4294967295 <? n) = false).
    { apply orb_false_iff.
      assert (~ n > threshold) by (intro G; apply Z.gtb_gt in G; congruence).
      split; apply Z.ltb_ge; lia. }
    rewrite Hrange. eexists. split; [reflexivity|]. cbn.
    split; [reflexivity|]. split; [|auto]. rewrite Hc.
    destruct (TAPFacts.shift_exit_transitions sh ex Hse) as [H0 H1].
    apply TAPFacts.tracked_after_payload; assumption.
Qed.

(** The calls of a shift: the walk into the shift state, the payload and
    the walk to the end state. *)
Lemma shift_calls sh ex m tdi n :
  TAPFacts.shift_exit sh ex -> threshold <= 4294967295 -> 0 < n ->
  In (TAP.currentState m) TAP.states ->
  exists m2,
    TAP.shiftData threshold (TAP.moveToState m sh) tdi (Some n) false = Ok m2
    /\ TAP.endIRState m2 = TAP.endIRState m /\ TAP.endDRState m2 = TAP.endDRState m
    /\ forall e,
         TAPFacts.calls_since m (TAP.moveToState m2 e)
         = TAPFacts.move_calls (TAP.currentState m) sh
           ++ [payload_call tdi n] ++ TAPFacts.move_calls ex e
         /\ (In e TAP.states -> TAP.currentState (TAP.moveToState m2 e) = e).
Proof.
  intros Hse HT Hn Hc.
  assert (Hs : In sh TAP.states)
    by (destruct Hse as [[-> _]|[-> _]]; vm_compute; tauto).
  assert (He : In ex TAP.states)
    by (destruct Hse as [[_ ->]|[_ ->]]; vm_compute; tauto).
  pose proof (TAPFacts.moveToState_currentState m sh Hc Hs) as C1.
  pose proof (TAPFacts.moveToState_usb m sh) as U1.
  destruct (TAPFacts.moveToState_ends m sh) as [E1 E1'].
  destruct (shiftData_call sh ex (TAP.moveToState m sh) tdi n Hse HT Hn C1)
    as [m2 [R [U2 [C2 [E2 E2']]]]].
  exists m2. split; [exact R|]. split; [congruence|]. split; [congruence|].
  intros e. split.
  - unfold TAPFacts.calls_since.
    rewrite TAPFacts.moveToState_usb, U2, U1, C2, <- !app_assoc.
    apply TAPFacts.skipn_length_app.
  - intros Ie. apply TAPFacts.moveToState_currentState; [|exact Ie].
    rewrite C2. exact He.
Qed.


(** The payload call on the wire, where it comes out as asked. *)
Lemma payload_exact tdi n a h :
  0 < n -> n < 16 \/ threshold < n \/ (n mod 8 <> 0 /\ h = false) ->
  exists bytes h',
    emits a (play a (payload_call tdi n)) bytes
    /\ drives bytes h (TAPFacts.tms_run (TAP.bytesToBits tdi n) true) h'.
Proof.
  intros Hn C. unfold payload_call. destruct (Z.gtb_spec n threshold) as [F|F].
  - destruct (shiftBytes_drives a tdi n h ltac:(lia)) as [bytes [E D]].
    exists bytes, true. split; [exact E|].
    rewrite <- (TAPFacts.requested_edges_ShiftBytes tdi n Hn). exact D.
  - rewrite <- (TAPFacts.requested_edges_ShiftBits tdi n false Hn).
    rewrite <- (asked_requested _ _ _ false). cbn [play]. unfold shiftBits.
    destruct (Z.lt_ge_cases n 16) as [S|S].
    + destruct (shiftBitsLoop_short (Some (TAP.bytesToBits tdi n))
                  (Some (JS.set (JS.fill n 0) (Z.to_nat (n - 1)) 1)) n false
                  (Z.to_nat n) a 0 h ltac:(lia) ltac:(lia) ltac:(lia))
        as [bytes [h' [E [D _]]]].
      exists bytes, h'. split; [exact E|exact D].
    + destruct C as [C|[C|[M H0]]]; [lia|lia|]. subst h.
      destruct (exit_call_drives a (TAP.bytesToBits tdi n) n false S)
        as [bytes [h' [E D]]].
      exists bytes, h'. split; [exact E|].
      eapply drives_eq; [exact D| |reflexivity].
      unfold asked. rewrite between_range. apply map_ext_in. intros i I.
      apply JSFacts.range_In in I. cbn [lvl]. f_equal.
      pose proof (Z.div_mod n 8 ltac:(lia)). pose proof (Z.mod_pos_bound n 8 ltac:(lia)).
      destruct (Z.ltb_spec i (8 * (n / 8))).
      * pose proof (exit_lvl n i I) as L. cbn [lvl] in L. rewrite L.
        destruct (Z.eqb_spec i (n - 1)); [lia|reflexivity].
      * pose proof (exit_lvl n i I) as L. cbn [lvl] in L. rewrite L. reflexivity.
Qed.


(** The three parts on the wire, one after the other. *)
Lemma shift_wire sh ex s e tdi n a h (exit : bool) :
  TAPFacts.shift_exit sh ex -> In s TAP.states ->
  (forall a1 h1, (h = false \/ s <> sh -> h1 = false) ->
     exists bytes h2,
       emits a1 (play a1 (payload_call tdi n)) bytes
       /\ drives bytes h1 (TAPFacts.tms_run (TAP.bytesToBits tdi n) exit) h2) ->
  exists bytes h',
    emits a (playAll a (TAPFacts.move_calls s sh ++ [payload_call tdi n]
                          ++ TAPFacts.move_calls ex e)) bytes
    /\ drives bytes h
         (TAPFacts.move_edges s sh ++ TAPFacts.tms_run (TAP.bytesToBits tdi n) exit
            ++ TAPFacts.move_edges ex e) h'.
Proof.
  intros Hse Hs P. rewrite !playAll_app.
  destruct (enter_drives sh ex s a h Hse Hs) as [b1 [h1 [E1 [D1 L1]]]].
  set (a1 := playAll a (TAPFacts.move_calls s sh)) in *.
  destruct (P a1 h1 L1) as [b2 [h2 [E2 D2]]].
  change (playAll a1 [payload_call tdi n]) with (play a1 (payload_call tdi n)).
  set (a2 := play a1 (payload_call tdi n)) in *.
  destruct (move_drives a2 ex e h2) as [b3 [h3 [E3 [D3 _]]]].
  exists (b1 ++ b2 ++ b3), h3. split.
  - eapply emits_trans; [exact E1|]. eapply emits_trans; [exact E2|exact E3].
  - eapply drives_app; [exact D1|]. eapply drives_app; [exact D2|exact D3].
Qed.

End OnWire.


Section Shifts.
Variable threshold : Z.

Lemma payload_call_edges tdi n :
  0 < n ->
  TAPFacts.requested_edges (payload_call threshold tdi n)
  = TAPFacts.tms_run (TAP.bytesToBits tdi n) true.
Proof.
  intros Hn. unfold payload_call. destruct (n >? threshold).
  - apply TAPFacts.requested_edges_ShiftBytes. exact Hn.
  - apply TAPFacts.requested_edges_ShiftBits. exact Hn.
Qed.

Lemma shift_exact sh ex m tdi n a h :
  TAPFacts.shift_exit sh ex -> threshold <= 4294967295 -> 0 < n ->
  In (TAP.currentState m) TAP.states ->
  n < 16 \/ threshold < n \/ (n mod 8 <> 0 /\ (h = false \/ TAP.currentState m <> sh)) ->
  exists m2,
    TAP.shiftData threshold (TAP.moveToState m sh) tdi (Some n) false = Ok m2
    /\ TAP.endIRState m2 = TAP.endIRState m /\ TAP.endDRState m2 = TAP.endDRState m
    /\ forall e, exists bytes h',
         emits a (playAll a (TAPFacts.calls_since m (TAP.moveToState m2 e))) bytes
         /\ drives bytes h
              (flat_map TAPFacts.requested_edges
                 (TAPFacts.calls_since m (TAP.moveToState m2 e))) h'.
Proof.
  intros Hse HT Hn Hc C.
  destruct (shift_calls threshold sh ex m tdi n Hse HT Hn Hc) as [m2 [R [E1 [E2 K]]]].
  exists m2. split; [exact R|]. split; [exact E1|]. split; [exact E2|].
  intros e. destruct (K e) as [Q _]. rewrite Q.
  rewrite !flat_map_app. cbn [flat_map]. rewrite app_nil_r, payload_call_edges by exact Hn.
  apply (shift_wire threshold sh ex (TAP.currentState m) e tdi n a h true Hse Hc).
  intros a1 h1 L. apply payload_exact; [exact Hn|].
  destruct C as [C|[C|[M C]]]; [left; exact C|right; left; exact C|].
  right. right. split; [exact M|]. apply L. exact C.
Qed.


(** X28 ([shiftIR], [shiftDR] and [shiftData] on [shiftBits] and
    [shiftBytes]).  For an SIR or SDR with TDI and a positive length, from
    any tracked state of the table: when the length is below 16, or above
    the threshold, or no multiple of 8 with TMS at 0 before the call or
    the tracked state not the shift state, the bytes the adapter sends for
    the calls of the engine present exactly the edges the engine asks
    for, in order. *)
Theorem shifts_in_step m cmd tdi n a h :
  threshold <= 4294967295 -> In (TAP.currentState m) TAP.states ->
  TAP.cmd_tdi cmd = Some tdi -> TAP.cmd_length cmd = Some n -> 0 < n ->
  (n < 16 \/ threshold < n
   \/ (n mod 8 <> 0 /\ (h = false \/ TAP.currentState m <> TAP.IRSHIFT)) ->
   exists m' bytes h',
     TAP.shiftIR threshold m cmd = Ok m'
     /\ emits a (playAll a (TAPFacts.calls_since m m')) bytes
     /\ drives bytes h (flat_map TAPFacts.requested_edges (TAPFacts.calls_since m m')) h')
  /\ (n < 16 \/ threshold < n
      \/ (n mod 8 <> 0 /\ (h = false \/ TAP.currentState m <> TAP.DRSHIFT)) ->
      exists m' bytes h',
        TAP.shiftDR threshold m cmd = Ok m'
        /\ emits a (playAll a (TAPFacts.calls_since m m')) bytes
        /\ drives bytes h
             (flat_map TAPFacts.requested_edges (TAPFacts.calls_since m m')) h').
Proof.
  intros HT Hc Htdi Hlen Hn. split; intros C.
  - destruct (shift_exact TAP.IRSHIFT TAP.IREXIT1 m tdi n a h
                (or_introl (conj eq_refl eq_refl)) HT Hn Hc C) as [m2 [R [_ [_ K]]]].
    destruct (K (TAP.endIRState m2)) as [bytes [h' [E D]]].
    exists (TAP.moveToState m2 (TAP.endIRState m2)), bytes, h'.
    split; [|split; [exact E|exact D]].
    unfold TAP.shiftIR. rewrite Htdi, Hlen, R. reflexivity.
  - destruct (shift_exact TAP.DRSHIFT TAP.DREXIT1 m tdi n a h
                (or_intror (conj eq_refl eq_refl)) HT Hn Hc C) as [m2 [R [_ [_ K]]]].
    destruct (K (TAP.endDRState m2)) as [bytes [h' [E D]]].
    exists (TAP.moveToState m2 (TAP.endDRState m2)), bytes, h'.
    split; [|split; [exact E|exact D]].
    unfold TAP.shiftDR. rewrite Htdi, Hlen, R. reflexivity.
Qed.


End Shifts.

(** An 8-bit SIR from RESET with the threshold at 1000. *)
Lemma shifts_in_step_witness :
  exists m',
    TAP.shiftIR 1000 TAP.constructor TAPFacts.sir8 = Ok m'
    /\ sampled false (wire (playAll connected (TAPFacts.calls_since TAP.constructor m')))
       = flat_map TAPFacts.requested_edges (TAPFacts.calls_since TAP.constructor m').
Proof.
  destruct (proj1 (shifts_in_step 1000 TAP.constructor TAPFacts.sir8 [85] 8
                     connected false ltac:(lia) ltac:(vm_compute; tauto)
                     eq_refl eq_refl ltac:(lia)))
    as [m' [bytes [h' [R [E D]]]]]; [left; lia|].
  exists m'. split; [exact R|].
  unfold emits in E. cbn [wire connected out List.concat app] in E.
  cbn [wire]. rewrite E. apply (sampled_drives _ _ _ _ D).
Defined.


End BlasterFacts.

(* ================================================================== *)
(** * Properties of the MPSSE adapter and the Xilinx programmer *)
(* ================================================================== *)

Module XilinxFacts.
Import Xilinx.

(** ** Scenario E *)

(** C6, as the code has it.  [writeTDI([0x81], null, 8, true)] buffers two
    commands and flushes them in one transfer: the bit-mode write of 7 bits
    [0x1B, 6, 0x81], whose data byte is the TDI byte as it is (bit 7 is not
    cleared), and the TMS write [0x4B, 0, 0x81] for bit 7. *)
Theorem writeTDI_scenario :
  writeTDI (connect []) (Some [0x81]) None 8 true
  = (None, {| buffer := []; readPending := 0;
              sent := [[0x1B; 6; 0x81; 0x4B; 0; 0x81]]; rx := [] |}).
Proof. vm_compute. reflexivity. Qed.

(** C6 as the specification states it fails: the data byte of the bit-mode
    write is 0x81, not 0x01. *)
Lemma writeTDI_scenario_counterexample :
  sent (snd (writeTDI (connect []) (Some [0x81]) None 8 true))
  <> [[0x1B; 6; 0x01; 0x4B; 0; 0x81]].
Proof. vm_compute. discriminate. Qed.

(** ** The driver between two calls *)

(** Nothing is buffered and no read is pending. *)
Definition settled (f : DigilentFTDI) : Prop :=
  buffer f = [] /\ readPending f = 0.

(** [f'] has read nothing and owes no read that [f] did not. *)
Definition quiet (f f' : DigilentFTDI) : Prop :=
  rx f' = rx f /\ readPending f' = readPending f.

Lemma quiet_refl f : quiet f f.
Proof. split; reflexivity. Qed.

Lemma quiet_trans f g h : quiet f g -> quiet g h -> quiet f h.
Proof. intros [A B] [C D]. split; congruence. Qed.

Lemma quiet_push f bytes : quiet f (push f bytes).
Proof. split; reflexivity. Qed.

Lemma quiet_flush f : quiet f (flush f).
Proof. unfold flush. destruct (_ =? 0); split; reflexivity. Qed.

Lemma buffer_flush f : buffer (flush f) = [].
Proof.
  unfold flush. destruct (Z.eqb_spec (Z.of_nat (List.length (buffer f))) 0) as [E|E].
  - destruct (buffer f); [reflexivity|simpl in E; lia].
  - reflexivity.
Qed.

Lemma settled_flush f g : quiet f g -> readPending f = 0 -> settled (flush g).
Proof.
  intros [_ Q] R. split; [apply buffer_flush|].
  destruct (quiet_flush g) as [_ P]. congruence.
Qed.

Lemma quiet_writeTMSLoop tmsData tdi : forall fuel f offset remaining,
  quiet f (writeTMSLoop fuel f tmsData offset remaining tdi).
Proof.
  induction fuel as [|fuel IH]; intros f offset remaining; [apply quiet_refl|].
  cbn [writeTMSLoop]. destruct (remaining >? 0); [|apply quiet_refl].
  eapply quiet_trans; [apply quiet_push|apply IH].
Qed.

Lemma writeTMS_settled f tmsData bitLen tdi :
  readPending f = 0 ->
  settled (writeTMS f tmsData bitLen true tdi)
  /\ rx (writeTMS f tmsData bitLen true tdi) = rx f.
Proof.
  intros R. unfold writeTMS.
  pose proof (quiet_writeTMSLoop tmsData tdi (Z.to_nat bitLen) f 0 bitLen) as Q.
  split; [apply (settled_flush f _ Q R)|].
  destruct (quiet_flush (writeTMSLoop (Z.to_nat bitLen) f tmsData 0 bitLen tdi)) as [A _].
  destruct Q as [B _]. congruence.
Qed.

Lemma quiet_fullBytesLoop tdi byteCmd : forall fuel f txOffset numBytes,
  quiet f (fst (fullBytesLoop fuel f tdi byteCmd false txOffset numBytes)).
Proof.
  induction fuel as [|fuel IH]; intros f txOffset numBytes; [apply quiet_refl|].
  cbn [fullBytesLoop]. cbv zeta. destruct (numBytes >? 0); [|apply quiet_refl].
  eapply quiet_trans; [|apply IH].
  match goal with
  | |- quiet f (if ?c then flush ?g else ?g) =>
      assert (Q : quiet f g)
        by (eapply quiet_trans; [apply quiet_push|apply quiet_push]);
      destruct c; [eapply quiet_trans; [exact Q|apply quiet_flush]|exact Q]
  end.
Qed.

(** A write without read-back leaves the driver settled and reads
    nothing. *)
Lemma writeTDI_write_only f tdi bitLen last :
  settled f ->
  fst (writeTDI f tdi None bitLen last) = None
  /\ settled (snd (writeTDI f tdi None bitLen last))
  /\ rx (snd (writeTDI f tdi None bitLen last)) = rx f.
Proof.
  intros [B R]. unfold writeTDI.
  destruct (bitLen =? 0); [cbn [fst snd]; repeat split; assumption|].
  cbv zeta.
  match goal with
  | |- context [fullBytesLoop ?fuel f tdi ?cmd false 0 ?nb] =>
      pose proof (quiet_fullBytesLoop tdi cmd fuel f 0 nb) as Q;
      set (r := fullBytesLoop fuel f tdi cmd false 0 nb) in *
  end.
  match goal with
  | |- context [flush ?g] =>
      assert (Q2 : quiet f g);
      [|cbn [fst snd]; split; [reflexivity|];
        split; [apply (settled_flush f g Q2 R)|];
        destruct (quiet_flush g) as [A _]; destruct Q2 as [C _]; congruence]
  end.
  match goal with
  | |- quiet f (if last then ?h else ?g) =>
      assert (Q1 : quiet f g);
      [|destruct last; [eapply quiet_trans; [exact Q1|apply quiet_push]|exact Q1]]
  end.
  match goal with
  | |- quiet f (if ?c then _ else _) =>
      destruct c; [eapply quiet_trans; [exact Q|apply quiet_push]|exact Q]
  end.
Qed.









(** ** The programmer between two calls *)

Definition inTable (s : Z) : Prop := 0 <= s < 16.

(** The state is one of the 16 and the driver is settled. *)
Definition ok (x : XilinxJTAG) : Prop := inTable (state x) /\ settled (ftdi x).

Lemma setStateLoop_total :
  forallb (fun s =>
    forallb (fun t =>
      match setStateLoop 16 s t 0 [] with
      | Some (st, _) => st =? t
      | None => false
      end) (JS.range 16)) (JS.range 16) = true.
Proof. vm_compute. reflexivity. Qed.

Lemma setStateLoop_reaches s t :
  inTable s -> inTable t -> exists tmsSeq, setStateLoop 16 s t 0 [] = Some (t, tmsSeq).
Proof.
  intros Hs Ht. pose proof setStateLoop_total as T.
  rewrite forallb_forall in T. specialize (T s (proj2 (JSFacts.range_In 16 s) Hs)).
  rewrite forallb_forall in T. specialize (T t (proj2 (JSFacts.range_In 16 t) Ht)).
  destruct (setStateLoop 16 s t 0 []) as [[st tmsSeq]|]; [|discriminate].
  apply Z.eqb_eq in T. subst st. exists tmsSeq. reflexivity.
Qed.

(** [setState] returns for every pair of states. *)
Lemma setState_ok x t :
  ok x -> inTable t ->
  exists x', setState x t = Some x' /\ ok x' /\ state x' = t
    /\ rx (ftdi x') = rx (ftdi x).
Proof.
  intros [Hs [B R]] Ht. destruct (setStateLoop_reaches _ _ Hs Ht) as [tmsSeq E].
  unfold setState. rewrite E. cbv zeta.
  destruct (Z.of_nat (List.length tmsSeq) >? 0).
  - eexists. split; [reflexivity|].
    unfold ok, with_ftdi, with_state. cbn [ftdi state currTdi].
    destruct (writeTMS_settled (ftdi x) (_packBits tmsSeq)
                (Z.of_nat (List.length tmsSeq)) (currTdi x) R) as [S1 S2].
    split; [split; [exact Ht|exact S1]|]. split; [reflexivity|exact S2].
  - eexists. split; [reflexivity|].
    unfold ok, with_state. cbn [ftdi state].
    split; [split; [exact Ht|split; assumption]|]. split; reflexivity.
Qed.

Lemma goTestLogicReset_ok x :
  ok x ->
  ok (goTestLogicReset x) /\ state (goTestLogicReset x) = TEST_LOGIC_RESET
  /\ rx (ftdi (goTestLogicReset x)) = rx (ftdi x).
Proof.
  intros [_ [B R]]. unfold ok, goTestLogicReset, with_ftdi, with_state.
  cbv zeta. cbn [ftdi state].
  destruct (writeTMS_settled (ftdi x) [0x3F] 6 0 R) as [S1 S2].
  split; [split; [unfold inTable, TEST_LOGIC_RESET; lia|exact S1]|].
  split; [reflexivity|exact S2].
Qed.


(** The two ends of [shiftIR] and [shiftDR]: entering the shift state, and
    leaving it for the end state. *)
Definition enter (x : XilinxJTAG) (sh : Z) : option XilinxJTAG :=
  if negb (state x =? sh) then setState x sh else Some x.

Definition leave (x : XilinxJTAG) (sh ex endState : Z) : option XilinxJTAG :=
  if negb (endState =? sh) then
    if negb (endState =? ex) then setState (with_state x ex) endState
    else Some (with_state x ex)
  else Some x.

Lemma enter_ok x sh :
  ok x -> inTable sh ->
  exists x', enter x sh = Some x' /\ ok x' /\ state x' = sh
    /\ rx (ftdi x') = rx (ftdi x).
Proof.
  intros Hok Hsh. unfold enter. destruct (Z.eqb_spec (state x) sh) as [E|E]; cbn [negb].
  - exists x. split; [reflexivity|]. split; [exact Hok|]. split; [exact E|reflexivity].
  - apply setState_ok; assumption.
Qed.

Lemma leave_ok x sh ex endState :
  ok x -> state x = sh -> inTable ex -> inTable endState ->
  exists x', leave x sh ex endState = Some x' /\ ok x' /\ state x' = endState
    /\ rx (ftdi x') = rx (ftdi x).
Proof.
  intros [Hs St] Hx Hex He. unfold leave.
  destruct (Z.eqb_spec endState sh) as [E|E]; cbn [negb].
  - exists x. split; [reflexivity|]. split; [split; assumption|].
    split; [congruence|reflexivity].
  - destruct (Z.eqb_spec endState ex) as [E'|E']; cbn [negb].
    + eexists. split; [reflexivity|]. unfold ok, with_state. cbn [state ftdi].
      split; [split; assumption|]. split; [congruence|reflexivity].
    + destruct (setState_ok (with_state x ex) endState) as [x' [R [O [S1 S2]]]].
      * split; [exact Hex|exact St].
      * exact He.
      * exists x'. split; [exact R|]. split; [exact O|]. split; [exact S1|exact S2].
Qed.

Lemma shiftIR_unfold x instruction readBack endState :
  shiftIR x instruction readBack endState
  = match enter x SHIFT_IR with
    | None => None
    | Some x1 =>
        let r := writeTDI (ftdi x1) (Some [JS.u8 instruction])
                   (if readBack then Some (JS.fill 1 0) else None) irLength
                   (negb (endState =? SHIFT_IR)) in
        match leave (with_ftdi x1 (snd r)) SHIFT_IR EXIT1_IR endState with
        | Some x2 => Some (fst r, x2)
        | None => None
        end
    end.
Proof.
  unfold shiftIR, enter, leave.
  destruct (if negb (state x =? SHIFT_IR) then setState x SHIFT_IR else Some x) as [x1|];
    [|reflexivity].
  cbv zeta. destruct (negb (endState =? SHIFT_IR)); [|reflexivity].
  destruct (negb (endState =? EXIT1_IR)); [|reflexivity].
  destruct (setState _ endState); reflexivity.
Qed.

Lemma shiftDR_unfold x tdi bitLength readBack endState :
  shiftDR x tdi bitLength readBack endState
  = match enter x SHIFT_DR with
    | None => None
    | Some x1 =>
        let r := writeTDI (ftdi x1) (Some tdi)
                   (if readBack then Some (JS.fill (JS.ceil8 bitLength) 0) else None)
                   bitLength (negb (endState =? SHIFT_DR)) in
        match leave (with_ftdi x1 (snd r)) SHIFT_DR EXIT1_DR endState with
        | Some x2 => Some (fst r, x2)
        | None => None
        end
    end.
Proof.
  unfold shiftDR, enter, leave.
  destruct (if negb (state x =? SHIFT_DR) then setState x SHIFT_DR else Some x) as [x1|];
    [|reflexivity].
  cbv zeta. destruct (negb (endState =? SHIFT_DR)); [|reflexivity].
  destruct (negb (endState =? EXIT1_DR)); [|reflexivity].
  destruct (setState _ endState); reflexivity.
Qed.

Lemma inTable_states :
  inTable RUN_TEST_IDLE /\ inTable SELECT_DR_SCAN /\ inTable SHIFT_DR
  /\ inTable EXIT1_DR /\ inTable UPDATE_DR /\ inTable SHIFT_IR
  /\ inTable EXIT1_IR /\ inTable UPDATE_IR.
Proof. unfold inTable. cbv. intuition discriminate. Qed.

Lemma shiftIR_write_ok x instruction endState :
  ok x -> inTable endState ->
  exists x', shiftIR x instruction false endState = Some (None, x')
    /\ ok x' /\ state x' = endState /\ rx (ftdi x') = rx (ftdi x).
Proof.
  intros Hok He. destruct inTable_states as [_ [_ [_ [_ [_ [Tsh [Tex _]]]]]]].
  rewrite shiftIR_unfold.
  destruct (enter_ok x SHIFT_IR Hok Tsh) as [x1 [E1 [[Hs1 St1] [S1 R1]]]].
  rewrite E1. cbv zeta.
  destruct (writeTDI_write_only (ftdi x1) (Some [JS.u8 instruction]) irLength
              (negb (endState =? SHIFT_IR)) St1) as [W1 [W2 W3]].
  set (r := writeTDI (ftdi x1) (Some [JS.u8 instruction]) None irLength
              (negb (endState =? SHIFT_IR))) in *.
  destruct (leave_ok (with_ftdi x1 (snd r)) SHIFT_IR EXIT1_IR endState)
    as [x2 [E2 [O2 [S2 R2]]]]; try assumption.
  - split; [exact Hs1|exact W2].
  - rewrite E2, W1. exists x2. split; [reflexivity|]. split; [exact O2|].
    split; [exact S2|]. rewrite R2. cbn [with_ftdi ftdi]. congruence.
Qed.








(** ** The chunks *)











(** ** [programSRAM] *)








(** ** [bitReverse] *)

(** What [reverseByte] has to satisfy on one byte, as a computation. *)
Definition reversed_ok (b : Z) : bool :=
  (0 <=? reverseByte b) && (reverseByte b <? 256)
  && (reverseByte (reverseByte b) =? b)
  && forallb (fun i => Bool.eqb (Z.testbit (reverseByte b) i) (Z.testbit b (7 - i)))
       (JS.range 8).

Lemma reverseByte_table : forallb reversed_ok (JS.range 256) = true.
Proof. vm_compute. reflexivity. Qed.

Lemma reverseByte_byte b :
  0 <= b < 256 ->
  0 <= reverseByte b < 256
  /\ reverseByte (reverseByte b) = b
  /\ forall i, 0 <= i < 8 -> Z.testbit (reverseByte b) i = Z.testbit b (7 - i).
Proof.
  intros Hb. pose proof reverseByte_table as T. rewrite forallb_forall in T.
  specialize (T b (proj2 (JSFacts.range_In 256 b) Hb)). unfold reversed_ok in T.
  apply andb_true_iff in T. destruct T as [T T4].
  apply andb_true_iff in T. destruct T as [T T3].
  apply andb_true_iff in T. destruct T as [T1 T2].
  split; [split; [apply Z.leb_le; exact T1|apply Z.ltb_lt; exact T2]|].
  split; [apply Z.eqb_eq; exact T3|].
  intros i Hi. rewrite forallb_forall in T4.
  specialize (T4 i (proj2 (JSFacts.range_In 8 i) Hi)).
  apply Bool.eqb_prop. exact T4.
Qed.

(** X7. On an array of bytes [bitReverse] keeps the length, yields bytes,
    puts bit [7 - i] of every byte at bit [i], and is its own inverse. *)
Theorem bitReverse_involution (data : list Z) :
  Forall (fun b => 0 <= b < 256) data ->
  List.length (bitReverse data) = List.length data
  /\ Forall2 (fun b r => 0 <= r < 256
                /\ forall i, 0 <= i < 8 -> Z.testbit r i = Z.testbit b (7 - i))
       data (bitReverse data)
  /\ bitReverse (bitReverse data) = data.
Proof.
  intros H. split; [unfold bitReverse; apply length_map|].
  induction H as [|b data Hb _ [IH1 IH2]]; [split; [constructor|reflexivity]|].
  destruct (reverseByte_byte b Hb) as [R1 [R2 R3]].
  assert (U : JS.u8 (reverseByte b) = reverseByte b)
    by (unfold JS.u8; apply Z.mod_small; exact R1).
  unfold bitReverse in *. cbn [map]. rewrite U. split.
  - constructor; [split; [exact R1|exact R3]|exact IH1].
  - rewrite R2. unfold JS.u8 at 1. rewrite Z.mod_small by exact Hb.
    f_equal. exact IH2.
Qed.

Lemma bitReverse_involution_witness :
  bitReverse [0x80; 0x01; 0xAA; 0x0F] = [0x01; 0x80; 0x55; 0xF0]
  /\ bitReverse (bitReverse [0x80; 0x01; 0xAA; 0x0F]) = [0x80; 0x01; 0xAA; 0x0F].
Proof.
  split; [reflexivity|].
  apply (bitReverse_involution [0x80; 0x01; 0xAA; 0x0F]).
  repeat constructor; lia.
Defined.

(** ** Reading the IDCODE *)

(** The four bytes a 32-bit read-back with exit yields from the five bytes
    the device returns: three bytes as they are, seven bits
    right-justified from the fourth, bit 7 from bit 7 of the fifth. *)
Definition drWord (r0 r1 r2 r3 r4 : Z) : list Z :=
  [JS.u8 r0; JS.u8 r1; JS.u8 r2;
   JS.u8 (Z.lor (JS.u8 (JS.shr r3 1)) (Z.shiftl (Z.land (JS.shr r4 7) 1) 7))].

Lemma readLoop_five s0 s1 r0 r1 r2 r3 r4 rest k :
  readLoop (S (S k)) ([s0; s1; r0; r1; r2; r3; r4] :: rest) [] 5 0
  = ([r0; r1; r2; r3; r4], rest).
Proof. reflexivity. Qed.

Lemma copyReadData_word r0 r1 r2 r3 r4 :
  copyReadData (JS.fill 4 0) [r0; r1; r2; r3; r4] 32 true = drWord r0 r1 r2 r3 r4.
Proof. reflexivity. Qed.

(** A 32-bit shift with read-back and exit leaves the driver settled; when
    the device answers with a packet of two status bytes and five data
    bytes, the buffer holds their word and the packet is consumed. *)
Lemma writeTDI_read_word f tdi :
  settled f ->
  settled (snd (writeTDI f (Some tdi) (Some (JS.fill 4 0)) 32 true))
  /\ (forall s0 s1 r0 r1 r2 r3 r4 rest,
        rx f = [s0; s1; r0; r1; r2; r3; r4] :: rest ->
        fst (writeTDI f (Some tdi) (Some (JS.fill 4 0)) 32 true)
        = Some (drWord r0 r1 r2 r3 r4)
        /\ rx (snd (writeTDI f (Some tdi) (Some (JS.fill 4 0)) 32 true)) = rest).
Proof.
  intros [B R]. destruct f as [buf rp snt dev]. cbn [buffer readPending] in B, R.
  subst buf rp.
  unfold writeTDI. cbn [Z.eqb]. cbv zeta.
  change (JS.floor8 (32 - 1)) with 3. change (JS.rem (32 - 1) 8) with 7.
  cbn [Z.eqb Pos.eqb andb negb].
  change (Z.to_nat 3) with 3%nat.
  cbn [fullBytesLoop]. cbv zeta.
  change (3 >? 0) with true. change (Z.min 3 4096) with 3.
  change (3 - 3) with 0. change (0 >? 0) with false. cbv iota.
  unfold push, addReadPending.
  cbn [buffer readPending sent rx app fst snd].
  change (JS.range 3) with [0; 1; 2]. cbn [map List.length app].
  match goal with
  | |- context [if ?c then flush ?g else ?g] =>
      change c with false
  end.
  cbv iota. cbn [fst snd buffer readPending sent rx app].
  change (7 >? 0) with true. cbv iota.
  cbn [buffer readPending sent rx app].
  change (0 + 3 + 1 + 1) with 5. change (5 >? 0) with true. cbv iota.
  unfold flushAndRead. cbn [fst snd buffer readPending sent rx].
  split.
  - split; reflexivity.
  - intros s0 s1 r0 r1 r2 r3 r4 rest E. subst dev.
    replace (List.length ([s0; s1; r0; r1; r2; r3; r4] :: rest) + 100)%nat
      with (S (S (List.length rest + 99))) by (cbn [List.length]; lia).
    rewrite readLoop_five. cbn [fst snd].
    rewrite copyReadData_word. split; reflexivity.
Qed.

Lemma shiftDR_read_word x tdi endState :
  ok x -> inTable endState -> endState <> SHIFT_DR ->
  forall s0 s1 r0 r1 r2 r3 r4 rest,
    rx (ftdi x) = [s0; s1; r0; r1; r2; r3; r4] :: rest ->
    exists x',
      shiftDR x tdi 32 true endState = Some (Some (drWord r0 r1 r2 r3 r4), x')
      /\ ok x' /\ state x' = endState /\ rx (ftdi x') = rest.
Proof.
  intros Hok He Hne s0 s1 r0 r1 r2 r3 r4 rest Hrx.
  destruct inTable_states as [_ [_ [Tsh [Tex _]]]].
  rewrite shiftDR_unfold.
  destruct (enter_ok x SHIFT_DR Hok Tsh) as [x1 [E1 [[Hs1 St1] [S1 R1]]]].
  rewrite E1. cbv zeta.
  destruct (Z.eqb_spec endState SHIFT_DR) as [|_]; [contradiction|]. cbn [negb].
  change (JS.ceil8 32) with 4.
  destruct (writeTDI_read_word (ftdi x1) tdi St1) as [W2 W3].
  rewrite <- R1 in Hrx. destruct (W3 s0 s1 r0 r1 r2 r3 r4 rest Hrx) as [V1 V2].
  set (r := writeTDI (ftdi x1) (Some tdi) (Some (JS.fill 4 0)) 32 true) in *.
  destruct (leave_ok (with_ftdi x1 (snd r)) SHIFT_DR EXIT1_DR endState)
    as [x2 [E2 [O2 [S2 R2]]]]; try assumption.
  - split; [exact Hs1|exact W2].
  - rewrite E2, V1. exists x2. split; [reflexivity|]. split; [exact O2|].
    split; [exact S2|]. rewrite R2. cbn [with_ftdi ftdi]. exact V2.
Qed.

(** The 32 bits of the register, least significant first, as the five
    bytes carry them: bits 0 to 23 in the first three, bits 24 to 30 in
    the upper seven bits of the fourth, bit 31 in bit 7 of the fifth. *)
Definition registerValue (r0 r1 r2 r3 r4 : Z) : Z :=
  r0 + 256 * r1 + 65536 * r2 + 16777216 * (r3 / 2 + 128 * (r4 / 128)).

Lemma idcodeOf_bytes b0 b1 b2 b3 :
  0 <= b0 < 256 -> 0 <= b1 < 256 -> 0 <= b2 < 256 -> 0 <= b3 < 256 ->
  idcodeOf [b0; b1; b2; b3]
  = JS.int32 (b3 * 16777216 + b2 * 65536 + b1 * 256 + b0).
Proof.
  intros H0 H1 H2 H3.
  change (idcodeOf [b0; b1; b2; b3])
    with (JS.int32 (Z.lor (Z.lor (Z.lor (Z.shiftl b3 24) (Z.shiftl b2 16))
                                 (Z.shiftl b1 8)) b0)).
  rewrite JSFacts.lor_bytes by assumption. reflexivity.
Qed.

Lemma drWord_bytes r0 r1 r2 r3 r4 :
  0 <= r0 < 256 -> 0 <= r1 < 256 -> 0 <= r2 < 256 -> 0 <= r3 < 256 -> 0 <= r4 < 256 ->
  drWord r0 r1 r2 r3 r4 = [r0; r1; r2; r4 / 128 * 128 + r3 / 2].
Proof.
  intros H0 H1 H2 H3 H4. unfold drWord, JS.u8, JS.shr.
  change (Z.land 1 31) with 1. change (Z.land 7 31) with 7.
  rewrite !Z.shiftr_div_pow2 by lia. change (2 ^ 1) with 2. change (2 ^ 7) with 128.
  assert (D3 : 0 <= r3 / 2 < 128)
    by (split; [apply Z.div_pos; lia|apply Z.div_lt_upper_bound; lia]).
  assert (D4 : 0 <= r4 / 128 < 2)
    by (split; [apply Z.div_pos; lia|apply Z.div_lt_upper_bound; lia]).
  replace (Z.land (r4 / 128) 1) with (r4 / 128)
    by (change 1 with (Z.ones 1); rewrite Z.land_ones by lia;
        change (2 ^ 1) with 2; rewrite Z.mod_small by lia; reflexivity).
  rewrite (Z.mod_small r0), (Z.mod_small r1), (Z.mod_small r2), (Z.mod_small (r3 / 2)) by lia.
  rewrite (Z.lor_comm (r3 / 2)).
  rewrite (JSFacts.lor_shiftl_low (r4 / 128) (r3 / 2) 7) by (change (2 ^ 7) with 128; lia).
  change (2 ^ 7) with 128.
  rewrite (Z.mod_small (r4 / 128 * 128 + r3 / 2)) by lia.
  reflexivity.
Qed.

Lemma idcodeOf_word r0 r1 r2 r3 r4 :
  0 <= r0 < 256 -> 0 <= r1 < 256 -> 0 <= r2 < 256 -> 0 <= r3 < 256 -> 0 <= r4 < 256 ->
  idcodeOf (drWord r0 r1 r2 r3 r4) = JS.int32 (registerValue r0 r1 r2 r3 r4).
Proof.
  intros H0 H1 H2 H3 H4. rewrite drWord_bytes by assumption.
  assert (D3 : 0 <= r3 / 2 < 128)
    by (split; [apply Z.div_pos; lia|apply Z.div_lt_upper_bound; lia]).
  assert (D4 : 0 <= r4 / 128 < 2)
    by (split; [apply Z.div_pos; lia|apply Z.div_lt_upper_bound; lia]).
  rewrite idcodeOf_bytes by lia. unfold registerValue. f_equal. lia.
Qed.

Lemma readIDCODE_word x s0 s1 r0 r1 r2 r3 r4 rest :
  ok x ->
  rx (ftdi x) = [s0; s1; r0; r1; r2; r3; r4] :: rest ->
  exists x',
    readIDCODE x
    = Some ((idcodeOf (drWord r0 r1 r2 r3 r4),
             deviceOf DEVICE_IDS (idcodeOf (drWord r0 r1 r2 r3 r4))), x')
    /\ ok x' /\ state x' = RUN_TEST_IDLE /\ rx (ftdi x') = rest.
Proof.
  intros Hok Hrx. destruct inTable_states as [Tidle _].
  destruct (goTestLogicReset_ok x Hok) as [O1 [_ R1]].
  destruct (setState_ok (goTestLogicReset x) RUN_TEST_IDLE O1 Tidle)
    as [x2 [E2 [O2 [_ R2]]]].
  destruct (shiftIR_write_ok x2 IDCODE RUN_TEST_IDLE O2 Tidle)
    as [x3 [E3 [O3 [_ R3]]]].
  destruct (shiftDR_read_word x3 (JS.fill 4 0) RUN_TEST_IDLE O3 Tidle)
    with (s0 := s0) (s1 := s1) (r0 := r0) (r1 := r1) (r2 := r2) (r3 := r3)
         (r4 := r4) (rest := rest)
    as [x4 [E4 [O4 [S4 R4]]]].
  - cbv. discriminate.
  - congruence.
  - exists x4. unfold readIDCODE. cbv zeta. rewrite E2, E3, E4.
    split; [reflexivity|]. split; [exact O4|]. split; [exact S4|exact R4].
Qed.

(** X13 ([init], [readIDCODE]).  On a driver with nothing buffered and no
    read owed, whose device answers the next read with one packet of two
    status bytes and five data bytes, [init] returns: the IDCODE is the
    32-bit register value those five bytes carry (the first three bytes,
    then the upper seven bits of the fourth, then bit 7 of the fifth), as
    a signed 32-bit integer, together with its entry of [DEVICE_IDS] if
    there is one; the TAP is left in Run-Test/Idle and exactly that packet
    has been consumed. *)
Theorem init_reads_idcode x s0 s1 r0 r1 r2 r3 r4 rest :
  ok x ->
  rx (ftdi x) = [s0; s1; r0; r1; r2; r3; r4] :: rest ->
  0 <= r0 < 256 -> 0 <= r1 < 256 -> 0 <= r2 < 256 -> 0 <= r3 < 256 -> 0 <= r4 < 256 ->
  exists x',
    init x
    = Some ((JS.int32 (registerValue r0 r1 r2 r3 r4),
             deviceOf DEVICE_IDS (JS.int32 (registerValue r0 r1 r2 r3 r4))), x')
    /\ ok x' /\ state x' = RUN_TEST_IDLE /\ rx (ftdi x') = rest.
Proof.
  intros Hok Hrx H0 H1 H2 H3 H4.
  destruct (goTestLogicReset_ok x Hok) as [O1 [_ R1]].
  rewrite <- R1 in Hrx.
  destruct (readIDCODE_word _ s0 s1 r0 r1 r2 r3 r4 rest O1 Hrx) as [x' [E P]].
  exists x'. unfold init. rewrite E, idcodeOf_word by assumption.
  split; [reflexivity|exact P].
Qed.

(** A Basys 3: the Artix-7 answers 0x0362D093, which arrives as the bytes
    93 D0 62 06 00 after the two status bytes. *)
Lemma init_reads_idcode_witness :
  exists x',
    init (constructor (connect [[0x32; 0x60; 0x93; 0xD0; 0x62; 0x06; 0x00]]))
    = Some ((0x0362D093,
             Some {| name := "XC7A35T"; family := "Artix-7"; board := "Basys 3" |}),
            x')
    /\ ok x' /\ state x' = RUN_TEST_IDLE /\ rx (ftdi x') = [].
Proof.
  apply (init_reads_idcode
           (constructor (connect [[0x32; 0x60; 0x93; 0xD0; 0x62; 0x06; 0x00]]))
           0x32 0x60 0x93 0xD0 0x62 0x06 0x00 []); try lia.
  - split; [unfold inTable; vm_compute; intuition discriminate|split; reflexivity].
  - reflexivity.
Defined.

(** ** [setState] against the transition table of the TAP *)

(** The state with the number [s] of [STATES], under the name it has in
    [stateTransitions] of [JTAGStateMachine]: both list the 16 states in
    the same order, from Test-Logic-Reset to Update-IR. *)
Definition tapName (s : Z) : string := nth (Z.to_nat s) TAP.states ""%string.

(** The states a TAP passes on the TMS bits [tmsSeq], the last one
    included. *)
Fixpoint visited (s : string) (tmsSeq : list Z) : list string :=
  match tmsSeq with
  | [] => []
  | tms :: rest =>
      let next := TAP.applyTMSSequence s [tms] in next :: visited next rest
  end.

(** The pairs of states between which [setState] does not take a shortest
    path: back from Exit1 to Shift, from Pause to Exit1, and from Exit2 to
    Exit1 or Pause, in either column. *)
Definition detours : list (Z * Z) :=
  [ (EXIT1_DR, SHIFT_DR); (PAUSE_DR, EXIT1_DR); (EXIT2_DR, EXIT1_DR);
    (EXIT2_DR, PAUSE_DR); (EXIT1_IR, SHIFT_IR); (PAUSE_IR, EXIT1_IR);
    (EXIT2_IR, EXIT1_IR); (EXIT2_IR, PAUSE_IR) ].

Definition isDetour (s t : Z) : bool :=
  existsb (fun p => (fst p =? s) && (snd p =? t)) detours.

Definition hasString (l : list string) (s : string) : bool :=
  existsb (String.eqb s) l.

(** What the walk of [setState] from [s] to [t] has to satisfy, as a
    computation. *)
Definition walk_ok (s t : Z) : bool :=
  match setStateLoop 16 s t 0 [] with
  | None => false
  | Some (st, tmsSeq) =>
      let shortest := TAP.findStatePath (tapName s) (tapName t) in
      (st =? t)
      && forallb (fun b => (b =? 0) || (b =? 1)) tmsSeq
      && String.eqb (TAP.applyTMSSequence (tapName s) tmsSeq) (tapName t)
      && (if isDetour s t then
            (List.length shortest <? List.length tmsSeq)%nat
            && (hasString (visited (tapName s) tmsSeq) TAP.DRUPDATE
                || hasString (visited (tapName s) tmsSeq) TAP.IRUPDATE)
          else (List.length tmsSeq =? List.length shortest)%nat)
  end.

Lemma walk_table :
  forallb (fun s => forallb (walk_ok s) (JS.range 16)) (JS.range 16) = true.
Proof. vm_compute. reflexivity. Qed.

Lemma isDetour_In s t : isDetour s t = true <-> In (s, t) detours.
Proof.
  unfold isDetour. rewrite existsb_exists. split.
  - intros [[a b] [H E]]. cbn [fst snd] in E. apply andb_true_iff in E.
    destruct E as [E1 E2]. apply Z.eqb_eq in E1, E2. subst. exact H.
  - intros H. exists (s, t). split; [exact H|]. cbn [fst snd].
    rewrite !Z.eqb_refl. reflexivity.
Qed.

Lemma hasString_In l s : hasString l s = true -> In s l.
Proof.
  unfold hasString. rewrite existsb_exists. intros [y [H E]].
  apply String.eqb_eq in E. subst. exact H.
Qed.

Lemma with_state_same x : with_state x (state x) = x.
Proof. destruct x. reflexivity. Qed.

Lemma setStateLoop_same fuel s tms tmsSeq :
  setStateLoop fuel s s tms tmsSeq = Some (s, tmsSeq).
Proof. destruct fuel; cbn [setStateLoop]; rewrite Z.eqb_refl; reflexivity. Qed.

Lemma setStateLoop_grows t : forall fuel st tms tmsSeq r,
  setStateLoop fuel st t tms tmsSeq = Some r ->
  (List.length tmsSeq <= List.length (snd r))%nat
  /\ (st <> t -> (List.length tmsSeq < List.length (snd r))%nat).
Proof.
  induction fuel as [|fuel IH]; intros st tms tmsSeq r; cbn [setStateLoop];
    destruct (Z.eqb_spec st t) as [Q|Q]; intros E.
  - injection E as <-. cbn [snd]. split; [lia|contradiction].
  - discriminate.
  - injection E as <-. cbn [snd]. split; [lia|contradiction].
  - apply IH in E. destruct E as [E _]. rewrite length_app in E.
    cbn [List.length] in E. split; [lia|intros _; lia].
Qed.

(** X14 ([setState]).  Between any two of the 16 states [setState] returns
    and tracks the target.  The TMS bits it hands to [writeTMS], none when
    the state is the target already, are a walk of the TAP from the
    tracked state to the target by the transition table of
    [JTAGStateMachine].  The walk is a shortest one, except for the eight
    pairs of [detours]: there it is longer and passes Update-DR or
    Update-IR. *)
Theorem setState_walk x t :
  inTable (state x) -> inTable t ->
  exists tmsSeq,
    setState x t
    = Some (if state x =? t then x
            else with_ftdi (with_state x t)
                   (writeTMS (ftdi x) (_packBits tmsSeq)
                      (Z.of_nat (List.length tmsSeq)) true (currTdi x)))
    /\ TAPFacts.bits tmsSeq
    /\ TAP.applyTMSSequence (tapName (state x)) tmsSeq = tapName t
    /\ (~ In (state x, t) detours ->
        List.length tmsSeq
        = List.length (TAP.findStatePath (tapName (state x)) (tapName t)))
    /\ (In (state x, t) detours ->
        (List.length (TAP.findStatePath (tapName (state x)) (tapName t))
         < List.length tmsSeq)%nat
        /\ (In TAP.DRUPDATE (visited (tapName (state x)) tmsSeq)
            \/ In TAP.IRUPDATE (visited (tapName (state x)) tmsSeq))).
Proof.
  intros Hs Ht. pose proof walk_table as T.
  rewrite forallb_forall in T.
  specialize (T (state x) (proj2 (JSFacts.range_In 16 (state x)) Hs)).
  rewrite forallb_forall in T. specialize (T t (proj2 (JSFacts.range_In 16 t) Ht)).
  unfold walk_ok in T. unfold setState.
  destruct (setStateLoop 16 (state x) t 0 []) as [[st tmsSeq]|] eqn:E; [|discriminate].
  cbv zeta in T.
  apply andb_true_iff in T. destruct T as [T T4].
  apply andb_true_iff in T. destruct T as [T T3].
  apply andb_true_iff in T. destruct T as [T1 T2].
  apply Z.eqb_eq in T1. subst st. apply String.eqb_eq in T3.
  exists tmsSeq. split; [|split; [|split; [exact T3|split]]].
  - cbv zeta. destruct (Z.eqb_spec (state x) t) as [Q|Q].
    + rewrite <- Q in E. rewrite setStateLoop_same in E. injection E as <-.
      cbn [List.length Z.of_nat Z.gtb Z.compare]. rewrite <- Q.
      rewrite with_state_same. reflexivity.
    + destruct (setStateLoop_grows _ _ _ _ _ _ E) as [_ G]. specialize (G Q).
      cbn [snd List.length] in G.
      replace (Z.of_nat (List.length tmsSeq) >? 0) with true
        by (symmetry; apply Z.gtb_lt; lia).
      reflexivity.
  - apply Forall_forall. intros b Hb. rewrite forallb_forall in T2.
    specialize (T2 b Hb). apply orb_true_iff in T2.
    destruct T2 as [B|B]; apply Z.eqb_eq in B; [left|right]; exact B.
  - intros N. destruct (isDetour (state x) t) eqn:D.
    + exfalso. apply N. apply isDetour_In. exact D.
    + apply Nat.eqb_eq. exact T4.
  - intros I. apply isDetour_In in I. rewrite I in T4.
    apply andb_true_iff in T4. destruct T4 as [L V]. split.
    + apply Nat.ltb_lt. exact L.
    + apply orb_true_iff in V. destruct V as [V|V]; [left|right];
        apply hasString_In; exact V.
Qed.

(** From Exit1-DR back to Shift-DR the walk is Update-DR, Select-DR-Scan,
    Capture-DR, Shift-DR, where Pause-DR, Exit2-DR, Shift-DR is shorter. *)
Lemma setState_walk_witness :
  exists tmsSeq,
    setState (with_state (constructor (connect [])) EXIT1_DR) SHIFT_DR
    = Some (with_ftdi (with_state (constructor (connect [])) SHIFT_DR)
              (writeTMS (connect []) (_packBits tmsSeq)
                 (Z.of_nat (List.length tmsSeq)) true 0))
    /\ TAP.applyTMSSequence TAP.DREXIT1 tmsSeq = TAP.DRSHIFT
    /\ (List.length (TAP.findStatePath TAP.DREXIT1 TAP.DRSHIFT)
        < List.length tmsSeq)%nat.
Proof.
  destruct (setState_walk (with_state (constructor (connect [])) EXIT1_DR) SHIFT_DR)
    as [tmsSeq [E [_ [W [_ D]]]]].
  - unfold inTable. vm_compute. intuition discriminate.
  - unfold inTable. vm_compute. intuition discriminate.
  - exists tmsSeq. split; [exact E|]. split; [exact W|].
    apply D. vm_compute. left. reflexivity.
Defined.

(** ** [_packBits] *)

(** The byte [byteIdx] for the condition [c] on the bit indices. *)
Definition byteOf (c : Z -> bool) (byteIdx : Z) : Z :=
  JSFacts.orBits (fun bit => c (byteIdx * 8 + bit)) (JS.range 8) 0.

Lemma byteOf_testbit c k j :
  0 <= j -> Z.testbit (byteOf c k) j = (j <? 8) && c (k * 8 + j).
Proof.
  intros Hj. unfold byteOf. rewrite JSFacts.orBits_testbit by exact Hj.
  rewrite Z.bits_0, orb_false_l, (JSFacts.existsb_range (fun e => c (k * 8 + e))).
  destruct (Z.leb_spec 0 j); [reflexivity|lia].
Qed.

Lemma byteOf_byte c k : 0 <= byteOf c k < 256.
Proof.
  assert (N : 0 <= byteOf c k).
  { apply JSFacts.orBits_nonneg; [lia|]. apply Forall_forall. intros e I.
    apply JSFacts.range_In in I. lia. }
  split; [exact N|].
  destruct (Z.ltb_spec (byteOf c k) 256) as [L|L]; [exact L|exfalso].
  assert (P : 0 < byteOf c k) by lia.
  pose proof (Z.bit_log2 _ P) as B.
  assert (G : 8 <= Z.log2 (byteOf c k)).
  { change 8 with (Z.log2 256). apply Z.log2_le_mono. exact L. }
  rewrite byteOf_testbit in B by lia.
  destruct (Z.ltb_spec (Z.log2 (byteOf c k)) 8); [lia|discriminate].
Qed.

Lemma byteOf_ext c c' k :
  (forall j, 0 <= j < 8 -> c (k * 8 + j) = c' (k * 8 + j)) ->
  byteOf c k = byteOf c' k.
Proof.
  intros H. apply Z.bits_inj'. intros j Hj. rewrite !byteOf_testbit by exact Hj.
  destruct (Z.ltb_spec j 8) as [L|L]; [|reflexivity]. cbn [andb]. apply H. lia.
Qed.

(** The bits with an index below [n], the part of the array the loop has
    seen after [n] rounds. *)
Definition seen (bits : list Z) (n i : Z) : bool :=
  (i <? n) && JS.truthy (JS.get bits i).

Lemma byteOf_or bits n :
  0 <= n -> JS.truthy (JS.get bits n) = true ->
  Z.lor (byteOf (seen bits n) (n / 8)) (Z.shiftl 1 (n mod 8))
  = byteOf (seen bits (n + 1)) (n / 8).
Proof.
  intros Hn T. apply Z.bits_inj'. intros j Hj.
  pose proof (Z.mod_pos_bound n 8 ltac:(lia)) as M.
  pose proof (Z.div_mod n 8 ltac:(lia)) as D.
  rewrite Z.lor_spec, !byteOf_testbit, Z.shiftl_spec, JSFacts.testbit_one by exact Hj.
  unfold seen. destruct (Z.ltb_spec j 8) as [L|L]; cbn [andb orb].
  - destruct (Z.eqb_spec (j - n mod 8) 0) as [E|E].
    + replace (n / 8 * 8 + j) with n by lia. rewrite T.
      destruct (Z.ltb_spec n (n + 1)); [|lia]. rewrite orb_true_r. reflexivity.
    + rewrite orb_false_r.
      destruct (Z.ltb_spec (n / 8 * 8 + j) n), (Z.ltb_spec (n / 8 * 8 + j) (n + 1));
        try reflexivity; lia.
  - destruct (Z.eqb_spec (j - n mod 8) 0); [lia|reflexivity].
Qed.

Lemma set_map_range (g : Z -> Z) n k v :
  0 <= k < n ->
  JS.set (map g (JS.range n)) (Z.to_nat k) v
  = map (fun i => if i =? k then v else g i) (JS.range n).
Proof.
  intros Hk. apply nth_error_ext. intros j.
  rewrite JSFacts.nth_error_set, length_map, JSFacts.range_length.
  destruct (Nat.ltb_spec (Z.to_nat k) (Z.to_nat n)) as [_|]; [|lia].
  destruct (Nat.ltb_spec j (Z.to_nat n)) as [J|J].
  - pose proof (JSFacts.get_map_range g n (Z.of_nat j) ltac:(lia)) as G1.
    pose proof (JSFacts.get_map_range (fun i => if i =? k then v else g i) n
                  (Z.of_nat j) ltac:(lia)) as G2.
    unfold JS.get in G1, G2. destruct (Z.ltb_spec (Z.of_nat j) 0); [lia|].
    rewrite Nat2Z.id in G1, G2. rewrite G1, G2.
    destruct (Nat.eqb_spec j (Z.to_nat k)) as [E|E];
      destruct (Z.eqb_spec (Z.of_nat j) k); try reflexivity; lia.
  - destruct (Nat.eqb_spec j (Z.to_nat k)); [lia|].
    rewrite !(proj2 (nth_error_None _ _));
      [reflexivity| |]; rewrite length_map, JSFacts.range_length; exact J.
Qed.

Lemma ceil8_covers n i : 0 <= i < n -> 0 <= i / 8 < JS.ceil8 n.
Proof.
  intros H. unfold JS.ceil8. split; [apply Z.div_pos; lia|].
  pose proof (Z.div_mod i 8 ltac:(lia)). pose proof (Z.mod_pos_bound i 8 ltac:(lia)).
  pose proof (Z.div_mod (n + 7) 8 ltac:(lia)).
  pose proof (Z.mod_pos_bound (n + 7) 8 ltac:(lia)). lia.
Qed.

(** After [n] rounds the loop holds the bytes of the bits it has seen. *)
Lemma packBitsLoop_seen bits : forall n : nat,
  (n <= List.length bits)%nat ->
  fold_left (fun bytes i =>
               if JS.truthy (JS.get bits i) then
                 JS.set bytes (Z.to_nat (JS.floor8 i))
                   (JS.u8 (Z.lor (JS.int (JS.get bytes (JS.floor8 i)))
                                 (Z.shiftl 1 (JS.rem i 8))))
               else bytes)
            (JS.range (Z.of_nat n))
            (JS.fill (JS.ceil8 (Z.of_nat (List.length bits))) 0)
  = map (byteOf (seen bits (Z.of_nat n)))
      (JS.range (JS.ceil8 (Z.of_nat (List.length bits)))).
Proof.
  set (L := JS.ceil8 (Z.of_nat (List.length bits))).
  induction n as [|n IH]; intros Hn.
  - change (JS.range (Z.of_nat 0)) with (@nil Z). cbn [fold_left].
    unfold JS.fill. rewrite <- (JSFacts.range_length L). symmetry.
    generalize (JS.range L). intros l. induction l as [|k l IHl]; [reflexivity|].
    cbn [map List.length repeat]. f_equal; [|exact IHl].
    apply Z.bits_inj'. intros j Hj. rewrite byteOf_testbit by exact Hj.
    unfold seen. rewrite Z.bits_0. cbn [Z.of_nat].
    destruct (Z.ltb_spec (k * 8 + j) 0) as [B|B]; cbn [andb];
      [|apply andb_false_r].
    unfold JS.get. rewrite (proj2 (Z.ltb_lt _ _) B). apply andb_false_r.
  - rewrite Nat2Z.inj_succ, <- Z.add_1_r.
    rewrite JSFacts.range_snoc by lia. replace (Z.of_nat n + 1 - 1) with (Z.of_nat n) by lia.
    rewrite fold_left_app, IH by lia. cbn [fold_left].
    set (m := Z.of_nat n).
    assert (Hm : 0 <= m < Z.of_nat (List.length bits)) by lia.
    pose proof (ceil8_covers _ _ Hm) as K. fold L in K.
    destruct (JS.truthy (JS.get bits m)) eqn:T.
    + unfold JS.floor8, JS.rem. rewrite Z.rem_mod_nonneg by lia.
      rewrite JSFacts.get_map_range by exact K. cbn [JS.int].
      rewrite byteOf_or by (try exact T; lia).
      unfold JS.u8. rewrite Z.mod_small by apply byteOf_byte.
      rewrite set_map_range by exact K. apply map_ext. intros i.
      destruct (Z.eqb_spec i (m / 8)) as [->|N]; [reflexivity|].
      apply byteOf_ext. intros j Hj. unfold seen.
      pose proof (Z.div_mod m 8 ltac:(lia)). pose proof (Z.mod_pos_bound m 8 ltac:(lia)).
      assert (i * 8 + j <> m).
      { intros Q. apply N. apply (Z.div_unique m 8 i j); lia. }
      destruct (Z.ltb_spec (i * 8 + j) m), (Z.ltb_spec (i * 8 + j) (m + 1));
        try reflexivity; lia.
    + apply map_ext. intros i. apply byteOf_ext. intros j Hj. unfold seen.
      destruct (Z.ltb_spec (i * 8 + j) m), (Z.ltb_spec (i * 8 + j) (m + 1));
        try reflexivity; try lia.
      replace (i * 8 + j) with m by lia. rewrite T. reflexivity.
Qed.

Lemma packBits_byteOf bits :
  _packBits bits
  = map (byteOf (fun i => JS.truthy (JS.get bits i)))
      (JS.range (JS.ceil8 (Z.of_nat (List.length bits)))).
Proof. reflexivity. Qed.

Lemma packBits_testbit bits i :
  0 <= i < 8 * JS.ceil8 (Z.of_nat (List.length bits)) ->
  Z.testbit (JS.int (JS.get (_packBits bits) (i / 8))) (i mod 8)
  = JS.truthy (JS.get bits i).
Proof.
  intros Hi. rewrite packBits_byteOf.
  pose proof (Z.div_mod i 8 ltac:(lia)) as D.
  pose proof (Z.mod_pos_bound i 8 ltac:(lia)) as M.
  rewrite JSFacts.get_map_range.
  - cbn [JS.int]. rewrite byteOf_testbit by lia.
    destruct (Z.ltb_spec (i mod 8) 8); [|lia]. cbn [andb]. f_equal. f_equal. lia.
  - split; [apply Z.div_pos; lia|]. apply Z.div_lt_upper_bound; lia.
Qed.

(** X15 ([_packBits]).  The loop of [_packBits], which visits the bits one
    by one and or-s each set bit into its byte, yields for every array
    [ceil(n / 8)] bytes, each between 0 and 255, in which bit [i mod 8] of
    byte [i / 8] is set exactly when [bits[i]] is truthy; the bits past
    the end of the array are 0.  [_packBits], which builds byte after
    byte, is the same function. *)
Theorem packBits_bits (bits : list Z) :
  packBitsLoop bits = _packBits bits
  /\ Z.of_nat (List.length (_packBits bits)) = JS.ceil8 (Z.of_nat (List.length bits))
  /\ Forall (fun b => 0 <= b < 256) (_packBits bits)
  /\ (forall i, 0 <= i < 8 * JS.ceil8 (Z.of_nat (List.length bits)) ->
        Z.testbit (JS.int (JS.get (_packBits bits) (i / 8))) (i mod 8)
        = JS.truthy (JS.get bits i)).
Proof.
  assert (C : 0 <= JS.ceil8 (Z.of_nat (List.length bits))).
  { unfold JS.ceil8. apply Z.div_pos; lia. }
  split; [|split; [|split]].
  - unfold packBitsLoop. rewrite (packBitsLoop_seen bits (List.length bits)) by lia.
    rewrite packBits_byteOf. apply map_ext. intros k. apply byteOf_ext.
    intros j Hj. unfold seen.
    destruct (Z.ltb_spec (k * 8 + j) (Z.of_nat (List.length bits))) as [B|B];
      [reflexivity|].
    cbn [andb]. unfold JS.get. destruct (Z.ltb_spec (k * 8 + j) 0); [reflexivity|].
    rewrite (proj2 (nth_error_None _ _)) by lia. reflexivity.
  - rewrite packBits_byteOf, length_map, JSFacts.range_length. lia.
  - rewrite packBits_byteOf. apply Forall_forall. intros b I.
    apply in_map_iff in I. destruct I as [k [<- _]]. apply byteOf_byte.
  - intros i Hi. apply packBits_testbit. exact Hi.
Qed.

(** Nine bits make two bytes; bit 8 is bit 0 of the second byte. *)
Lemma packBits_bits_witness :
  _packBits [1; 0; 1; 1; 0; 0; 0; 0; 1] = [13; 1]
  /\ Z.testbit (JS.int (JS.get (_packBits [1; 0; 1; 1; 0; 0; 0; 0; 1]) (8 / 8))) (8 mod 8)
     = JS.truthy (JS.get [1; 0; 1; 1; 0; 0; 0; 0; 1] 8).
Proof.
  split; [reflexivity|].
  apply (proj2 (proj2 (proj2 (packBits_bits [1; 0; 1; 1; 0; 0; 0; 0; 1]))) 8).
  change (0 <= 8 < 16). lia.
Defined.

(** ** [flushAndRead] *)

(** The data of the packets the device returns: every packet without its
    two status bytes. *)
Definition payload (packets : list (list Z)) : list Z :=
  List.concat (map (skipn 2) packets).

(** The packets that hold status bytes only. *)
Definition statusOnly (packets : list (list Z)) : list (list Z) :=
  filter (fun p => negb (Z.of_nat (List.length p) >? 2)) packets.

Lemma firstn_app_sub {A} (k : nat) (a b : list A) :
  firstn k a ++ firstn (k - List.length (firstn k a)) b = firstn k (a ++ b).
Proof.
  rewrite firstn_app, length_firstn. f_equal.
  destruct (Nat.le_ge_cases k (List.length a)) as [L|L].
  - rewrite Nat.min_l by exact L. rewrite Nat.sub_diag.
    replace (k - List.length a)%nat with O by lia. reflexivity.
  - rewrite Nat.min_r by exact L. reflexivity.
Qed.

Lemma readLoop_consumed expectedBytes : forall fuel packets result retries,
  exists consumed,
    packets = consumed ++ snd (readLoop fuel packets result expectedBytes retries)
    /\ fst (readLoop fuel packets result expectedBytes retries)
       = result ++ firstn (Z.to_nat (expectedBytes - Z.of_nat (List.length result)))
                     (payload consumed).
Proof.
  induction fuel as [|fuel IH]; intros packets result retries; cbn [readLoop].
  - exists []. split; [reflexivity|]. cbn. rewrite firstn_nil, app_nil_r. reflexivity.
  - cbv zeta.
    destruct ((expectedBytes - Z.of_nat (List.length result) >? 0) && (retries <? 100)).
    + destruct packets as [|packet packets].
      * destruct (IH [] result (retries + 1)) as [consumed [E1 E2]].
        exists consumed. split; assumption.
      * destruct (Z.of_nat (List.length packet) >? 2) eqn:G.
        -- destruct (IH packets (collect packet result expectedBytes) retries)
             as [consumed [E1 E2]].
           exists (packet :: consumed). split; [cbn [app]; f_equal; exact E1|].
           rewrite E2. unfold collect, payload. cbn [map List.concat].
           fold (payload consumed). rewrite <- app_assoc. f_equal.
           rewrite length_app, Nat2Z.inj_add.
           set (k := Z.to_nat (expectedBytes - Z.of_nat (List.length result))).
           replace (Z.to_nat (expectedBytes
                      - (Z.of_nat (List.length result)
                         + Z.of_nat (List.length (firstn k (skipn 2 packet))))))
             with (k - List.length (firstn k (skipn 2 packet)))%nat by lia.
           apply firstn_app_sub.
        -- destruct (IH packets result (retries + 1)) as [consumed [E1 E2]].
           exists (packet :: consumed). split; [cbn [app]; f_equal; exact E1|].
           rewrite E2. unfold payload. cbn [map List.concat].
           replace (skipn 2 packet) with (@nil Z); [reflexivity|].
           symmetry. apply skipn_all2.
           destruct (Z.gtb_spec (Z.of_nat (List.length packet)) 2); [discriminate|lia].
    + exists []. split; [reflexivity|]. cbn. rewrite firstn_nil, app_nil_r. reflexivity.
Qed.

Lemma payload_cons p packets :
  payload (p :: packets) = skipn 2 p ++ payload packets.
Proof. reflexivity. Qed.

Lemma readLoop_complete expectedBytes : forall fuel packets result retries,
  (List.length packets + Z.to_nat (100 - retries) <= fuel)%nat ->
  Z.of_nat (List.length result) <= expectedBytes ->
  retries + Z.of_nat (List.length (statusOnly packets)) < 100 ->
  expectedBytes - Z.of_nat (List.length result) <= Z.of_nat (List.length (payload packets)) ->
  Z.of_nat (List.length (fst (readLoop fuel packets result expectedBytes retries)))
  = expectedBytes.
Proof.
  induction fuel as [|fuel IH]; intros packets result retries F R S P; cbn [readLoop].
  - lia.
  - cbv zeta.
    destruct (Z.gtb_spec (expectedBytes - Z.of_nat (List.length result)) 0) as [G|G];
      cbn [andb]; [|cbn [fst]; lia].
    destruct (Z.ltb_spec retries 100) as [T|T]; [|lia].
    destruct packets as [|packet packets]; [cbn in P; lia|].
    rewrite payload_cons, length_app, Nat2Z.inj_add in P.
    cbn [List.length] in F. unfold statusOnly in S. cbn [filter] in S.
    destruct (Z.gtb_spec (Z.of_nat (List.length packet)) 2) as [L|L];
      cbn [negb] in S.
    + apply IH.
      * lia.
      * unfold collect. rewrite length_app, length_firstn. lia.
      * exact S.
      * unfold collect. rewrite length_app, length_firstn. lia.
    + cbn [List.length] in S. rewrite length_skipn in P. apply IH.
      * lia.
      * exact R.
      * unfold statusOnly. lia.
      * lia.
Qed.

(** X16 ([flushAndRead]).  [flushAndRead(n)] sends the buffer and the
    command SEND_IMMEDIATE in one transfer and empties the buffer.  What
    it returns is the data of the packets it has read, each without its
    two status bytes, cut at [n] bytes: never more than [n] bytes, and
    exactly [n] when the device delivers [n] bytes of data in packets
    among which fewer than 100 hold status bytes only. *)
Theorem flushAndRead_data f n :
  0 <= n ->
  exists consumed,
    rx f = consumed ++ rx (snd (flushAndRead f n))
    /\ fst (flushAndRead f n) = firstn (Z.to_nat n) (payload consumed)
    /\ Z.of_nat (List.length (fst (flushAndRead f n))) <= n
    /\ buffer (snd (flushAndRead f n)) = []
    /\ sent (snd (flushAndRead f n)) = sent f ++ [map JS.u8 (buffer f ++ [0x87])]
    /\ (n <= Z.of_nat (List.length (payload (rx f))) ->
        Z.of_nat (List.length (statusOnly (rx f))) < 100 ->
        Z.of_nat (List.length (fst (flushAndRead f n))) = n).
Proof.
  intros Hn. unfold flushAndRead. cbv zeta. cbn [fst snd rx buffer sent].
  destruct (readLoop_consumed n (List.length (rx f) + 100) (rx f) [] 0)
    as [consumed [E1 E2]].
  cbn [List.length Z.of_nat app] in E2. rewrite Z.sub_0_r in E2.
  exists consumed. split; [exact E1|]. split; [exact E2|].
  split; [rewrite E2, length_firstn; lia|]. split; [reflexivity|].
  split; [reflexivity|].
  intros P S. apply readLoop_complete; cbn [List.length Z.of_nat]; lia.
Qed.

(** Two packets of 64 bytes are not needed for 3 bytes: a packet of status
    bytes only is skipped, the next one gives the 3 bytes, the third stays
    unread. *)
Lemma flushAndRead_data_witness :
  exists consumed,
    [[0x32; 0x60]; [0x32; 0x60; 1; 2; 3; 4]; [0x32; 0x60; 5]]
    = consumed
      ++ rx (snd (flushAndRead
                    (connect [[0x32; 0x60]; [0x32; 0x60; 1; 2; 3; 4]; [0x32; 0x60; 5]]) 3))
    /\ fst (flushAndRead
              (connect [[0x32; 0x60]; [0x32; 0x60; 1; 2; 3; 4]; [0x32; 0x60; 5]]) 3)
       = firstn 3 (payload consumed)
    /\ Z.of_nat (List.length
         (fst (flushAndRead
                 (connect [[0x32; 0x60]; [0x32; 0x60; 1; 2; 3; 4]; [0x32; 0x60; 5]]) 3)))
       = 3.
Proof.
  destruct (flushAndRead_data
              (connect [[0x32; 0x60]; [0x32; 0x60; 1; 2; 3; 4]; [0x32; 0x60; 5]]) 3)
    as [consumed [E1 [E2 [_ [_ [_ C]]]]]]; [lia|].
  exists consumed. split; [exact E1|]. split; [exact E2|].
  apply C; vm_compute; [intros Q; discriminate Q|reflexivity].
Defined.

(** ** The stream of commands *)

Lemma stream_push f bytes : stream (push f bytes) = stream f ++ map JS.u8 bytes.
Proof. unfold stream, push. cbn [sent buffer]. rewrite map_app, app_assoc. reflexivity. Qed.

Lemma stream_flush f : stream (flush f) = stream f.
Proof.
  unfold stream, flush.
  destruct (Z.eqb_spec (Z.of_nat (List.length (buffer f))) 0) as [E|E]; [reflexivity|].
  cbn [sent buffer map]. rewrite concat_app. cbn [List.concat].
  rewrite !app_nil_r. reflexivity.
Qed.

Lemma stream_addReadPending f n : stream (addReadPending f n) = stream f.
Proof. reflexivity. Qed.

Lemma carries_nil : carries [] [] 0.
Proof. intros c n. cbn [fold_left]. rewrite app_nil_r, Z.add_0_r. reflexivity. Qed.

Lemma carries_app b1 b2 e1 e2 k1 k2 :
  carries b1 e1 k1 -> carries b2 e2 k2 -> carries (b1 ++ b2) (e1 ++ e2) (k1 + k2).
Proof.
  intros H1 H2 c n. rewrite fold_left_app, H1, H2, app_assoc, Z.add_assoc. reflexivity.
Qed.

Lemma carries_eq bytes e e' k k' :
  carries bytes e k -> e = e' -> k = k' -> carries bytes e' k'.
Proof. intros H <- <-. exact H. Qed.

Lemma carries_send_immediate : carries [0x87] [] 0.
Proof. intros c n. cbn. rewrite app_nil_r, Z.add_0_r. reflexivity. Qed.

Lemma tmsEdges_u8 d n : 0 <= n <= 8 -> tmsEdges (JS.u8 d) n = tmsEdges d n.
Proof.
  intros H. unfold tmsEdges. apply map_ext_in. intros i I.
  apply JSFacts.range_In in I. rewrite !JSFacts.testbit_u8 by lia. reflexivity.
Qed.

Lemma tdiEdges_u8 d n : 0 <= n <= 8 -> tdiEdges (JS.u8 d) n = tdiEdges d n.
Proof.
  intros H. unfold tdiEdges. apply map_ext_in. intros i I.
  apply JSFacts.range_In in I. rewrite !JSFacts.testbit_u8 by lia. reflexivity.
Qed.

(** The data byte of a TMS command. *)
Definition tmsByteOf (tmsData : list Z) (offset bitsToSend tdi : Z) : Z :=
  nth 2 (tmsCommand tmsData offset bitsToSend tdi) 0.

Lemma tmsByteOf_bits tmsData offset n tdi :
  0 <= offset -> 1 <= n <= 6 ->
  (forall i, 0 <= i < n ->
     Z.testbit (tmsByteOf tmsData offset n tdi) i = bitOf tmsData (offset + i))
  /\ Z.testbit (tmsByteOf tmsData offset n tdi) 7 = negb (tdi =? 0).
Proof.
  intros Ho Hn. unfold tmsByteOf, tmsCommand. cbv zeta. cbn [nth].
  set (init := if tdi =? 0 then 0 else 128).
  rewrite (JSFacts.fold_left_ext_in _
             (fun byte i => Z.lor byte
                (Z.shiftl (if bitOf tmsData (offset + i) then 1 else 0) i))).
  2:{ intros a i I. apply JSFacts.range_In in I. f_equal. f_equal.
      unfold JS.floor8, JS.rem, bitOf.
      rewrite Z.rem_mod_nonneg by lia.
      apply JSFacts.bit_of_shift. pose proof (Z.mod_pos_bound (offset + i) 8). lia. }
  rewrite JSFacts.orBits_fold.
  set (t0 := JSFacts.orBits (fun i => bitOf tmsData (offset + i)) (JS.range n) init).
  assert (I7 : forall j, 0 <= j -> Z.testbit init j = (j =? 7) && negb (tdi =? 0)).
  { intros j Hj. unfold init. destruct (tdi =? 0); cbn [negb].
    - rewrite Z.bits_0, andb_false_r. reflexivity.
    - change 128 with (Z.shiftl 1 7). rewrite Z.shiftl_spec, JSFacts.testbit_one by exact Hj.
      rewrite andb_true_r.
      destruct (Z.eqb_spec (j - 7) 0), (Z.eqb_spec j 7); try reflexivity; lia. }
  assert (T0 : forall j, 0 <= j ->
            Z.testbit t0 j
            = ((j =? 7) && negb (tdi =? 0))
              || ((j <? n) && bitOf tmsData (offset + j))).
  { intros j Hj. unfold t0. rewrite JSFacts.orBits_testbit by exact Hj.
    rewrite I7 by exact Hj.
    rewrite (JSFacts.existsb_range (fun e => bitOf tmsData (offset + e))).
    destruct (Z.leb_spec 0 j); [reflexivity|lia]. }
  destruct (JSFacts.land1_cases (JS.shr t0 (n - 1))) as [L|L]; rewrite L.
  - rewrite Z.shiftl_0_l, Z.lor_0_r. split.
    + intros i Hi. rewrite T0 by lia.
      destruct (Z.eqb_spec i 7); [lia|]. destruct (Z.ltb_spec i n); [|lia].
      reflexivity.
    + rewrite T0 by lia. destruct (Z.ltb_spec 7 n); [lia|].
      cbn [andb]. rewrite orb_false_r. reflexivity.
  - split.
    + intros i Hi. rewrite Z.lor_spec, Z.shiftl_spec_low by lia.
      rewrite orb_false_r, T0 by lia.
      destruct (Z.eqb_spec i 7); [lia|]. destruct (Z.ltb_spec i n); [|lia].
      reflexivity.
    + rewrite Z.lor_spec, Z.shiftl_spec, JSFacts.testbit_one by lia.
      destruct (Z.eqb_spec (7 - n) 0); [lia|]. rewrite orb_false_r, T0 by lia.
      destruct (Z.ltb_spec 7 n); [lia|]. cbn [andb]. rewrite orb_false_r.
      reflexivity.
Qed.

Lemma tmsCommand_shape tmsData offset n tdi :
  tmsCommand tmsData offset n tdi = [0x4B; n - 1; tmsByteOf tmsData offset n tdi].
Proof. reflexivity. Qed.

(** One command of [writeTMS] clocks its bits on TMS, with TDI at the
    level [tdi] asks for. *)
Lemma tmsCommand_carries tmsData offset n tdi :
  0 <= offset -> 1 <= n <= 6 ->
  carries (map JS.u8 (tmsCommand tmsData offset n tdi))
    (map (fun i => (Some (bitOf tmsData (offset + i)), Some (negb (tdi =? 0))))
       (JS.range n)) 0.
Proof.
  intros Ho Hn c k. rewrite tmsCommand_shape.
  assert (U : JS.u8 (n - 1) = n - 1) by (unfold JS.u8; apply Z.mod_small; lia).
  cbn [map]. rewrite U. change (JS.u8 75) with 75.
  cbn [fold_left]. unfold read1 at 3. cbn [awaits clocked returned].
  change (75 =? 135) with false. change (75 =? 75) with true. cbn [orb].
  unfold read1 at 2. cbn [awaits clocked returned]. change (75 =? 142) with false.
  cbv iota. unfold read1. cbn [awaits clocked returned].
  change (75 =? 75) with true. cbn [orb]. cbv iota.
  replace (n - 1 + 1) with n by lia.
  rewrite tmsEdges_u8 by lia. change (reads 75) with 0.
  f_equal. f_equal. unfold tmsEdges.
  destruct (tmsByteOf_bits tmsData offset n tdi Ho Hn) as [B1 B2].
  apply map_ext_in. intros i I. apply JSFacts.range_In in I.
  rewrite B1, B2 by lia. reflexivity.
Qed.

Lemma writeTMSLoop_wire tmsData tdi : forall fuel f offset remaining,
  0 <= offset -> 0 <= remaining <= Z.of_nat fuel ->
  exists cmds,
    stream (writeTMSLoop fuel f tmsData offset remaining tdi) = stream f ++ cmds
    /\ carries cmds
         (map (fun i => (Some (bitOf tmsData (offset + i)), Some (negb (tdi =? 0))))
            (JS.range remaining)) 0
    /\ Z.of_nat (List.length cmds) = 3 * ((remaining + 5) / 6).
Proof.
  induction fuel as [|fuel IH]; intros f offset remaining Ho Hr.
  - assert (remaining = 0) by lia. subst remaining. exists [].
    cbn [writeTMSLoop]. rewrite app_nil_r. split; [reflexivity|].
    split; [apply carries_nil|reflexivity].
  - cbn [writeTMSLoop]. destruct (Z.gtb_spec remaining 0) as [G|G].
    + cbv zeta. set (n := Z.min 6 remaining).
      assert (Hn : 1 <= n <= 6) by (unfold n; lia).
      destruct (IH (push f (tmsCommand tmsData offset n tdi)) (offset + n)
                  (remaining - n)) as [cmds [E [C L]]]; [lia|lia|].
      exists (map JS.u8 (tmsCommand tmsData offset n tdi) ++ cmds).
      split; [rewrite E, stream_push, app_assoc; reflexivity|]. split.
      * eapply carries_eq.
        -- apply carries_app; [apply tmsCommand_carries; assumption|exact C].
        -- assert (R : JS.range remaining
                       = JS.range n ++ map (fun i => n + i) (JS.range (remaining - n)))
             by (rewrite <- JSFacts.range_app by lia; f_equal; lia).
           rewrite R, map_app, map_map.
           f_equal. apply map_ext. intros i. rewrite Z.add_assoc. reflexivity.
        -- reflexivity.
      * rewrite length_app, Nat2Z.inj_add, L. cbn [tmsCommand map List.length].
        change (Z.of_nat 3) with 3.
        destruct (Z.le_ge_cases remaining 6) as [S|S].
        -- replace (remaining - n) with 0 by (unfold n; lia).
           change ((0 + 5) / 6) with 0.
           replace ((remaining + 5) / 6) with 1; [lia|].
           apply (Z.div_unique _ 6 1 (remaining - 1)); lia.
        -- replace n with 6 by (unfold n; lia).
           replace (remaining + 5) with ((remaining - 6 + 5) + 1 * 6) by lia.
           rewrite Z.div_add by lia. lia.
    + assert (remaining = 0) by lia. subst remaining. exists [].
      rewrite app_nil_r. split; [reflexivity|].
      split; [apply carries_nil|reflexivity].
Qed.

Lemma writeTMS_stream f tmsData bitLen doFlush tdi :
  0 <= bitLen ->
  exists cmds,
    stream (writeTMS f tmsData bitLen doFlush tdi) = stream f ++ cmds
    /\ carries cmds
         (map (fun i => (Some (bitOf tmsData i), Some (negb (tdi =? 0))))
            (JS.range bitLen)) 0
    /\ Z.of_nat (List.length cmds) = 3 * ((bitLen + 5) / 6)
    /\ (doFlush = true -> buffer (writeTMS f tmsData bitLen doFlush tdi) = []).
Proof.
  intros H. unfold writeTMS. cbv zeta.
  destruct (writeTMSLoop_wire tmsData tdi (Z.to_nat bitLen) f 0 bitLen)
    as [cmds [E [C L]]]; [lia|lia|].
  exists cmds. split; [|split; [exact C|split; [exact L|]]].
  - destruct doFlush; [rewrite stream_flush|]; exact E.
  - intros ->. apply buffer_flush.
Qed.


Lemma packed_bits (bits : list Z) :
  map (fun i => bitOf (_packBits bits) i) (JS.range (Z.of_nat (List.length bits)))
  = map (fun b => negb (b =? 0)) bits.
Proof.
  change (map (fun b => negb (b =? 0)) bits)
    with (map (fun x => JS.truthy (Some x)) bits).
  rewrite <- (TAPFacts.map_get_range JS.truthy bits).
  apply map_ext_in. intros i I. apply JSFacts.range_In in I.
  unfold bitOf. apply packBits_testbit.
  unfold JS.ceil8.
  pose proof (Z.div_mod (Z.of_nat (List.length bits) + 7) 8 ltac:(lia)).
  pose proof (Z.mod_pos_bound (Z.of_nat (List.length bits) + 7) 8 ltac:(lia)). lia.
Qed.

(** The edges of a walk: the TMS bits of [tmsSeq] with TDI at [tdi]. *)
Definition walkEdges (tdi : bool) (tmsSeq : list Z) : list TAP.edge :=
  map (fun b => (Some (negb (b =? 0)), Some tdi)) tmsSeq.

(** X17 ([writeTMS]).  For a bit count from 0 on, [writeTMS] adds to the
    stream a sequence of WRITE_TMS commands, at most 6 bits in each, that
    clock the first [bitLen] bits of [tmsData] on TMS, bit 0 of byte 0
    first, with TDI at 1 when [tdi] is not 0 and at 0 otherwise; it asks
    the device for no byte, and with [flush] it leaves the buffer empty.
    On the bytes [_packBits] makes of an array of bits, with the length of
    the array, the TMS levels are the bits of the array in order. *)
Theorem writeTMS_wire f tmsData bitLen doFlush tdi :
  0 <= bitLen ->
  exists cmds,
    stream (writeTMS f tmsData bitLen doFlush tdi) = stream f ++ cmds
    /\ carries cmds
         (map (fun i => (Some (bitOf tmsData i), Some (negb (tdi =? 0))))
            (JS.range bitLen)) 0
    /\ Z.of_nat (List.length cmds) = 3 * ((bitLen + 5) / 6)
    /\ (doFlush = true -> buffer (writeTMS f tmsData bitLen doFlush tdi) = [])
    /\ (forall bits,
          tmsData = _packBits bits -> bitLen = Z.of_nat (List.length bits) ->
          carries cmds (walkEdges (negb (tdi =? 0)) bits) 0).
Proof.
  intros H. destruct (writeTMS_stream f tmsData bitLen doFlush tdi H)
    as [cmds [E [C [L B]]]].
  exists cmds. split; [exact E|]. split; [exact C|]. split; [exact L|].
  split; [exact B|]. intros bits -> ->.
  eapply carries_eq; [exact C| |reflexivity].
  unfold walkEdges.
  rewrite <- (map_map (fun b => negb (b =? 0))
                (fun v => (Some v, Some (negb (tdi =? 0))))).
  rewrite <- (packed_bits bits), map_map. reflexivity.
Qed.

(** The first 13 bits of two TMS bytes go out in three commands of 6, 6
    and 1 bits. *)
Lemma writeTMS_wire_witness :
  exists cmds,
    stream (writeTMS (connect []) [0xA5; 0x1F] 13 true 0) = cmds
    /\ carries cmds
         (map (fun i => (Some (bitOf [0xA5; 0x1F] i), Some false)) (JS.range 13)) 0
    /\ Z.of_nat (List.length cmds) = 9.
Proof.
  destruct (writeTMS_wire (connect []) [0xA5; 0x1F] 13 true 0)
    as [cmds [E [C [L _]]]]; [lia|].
  exists cmds. split; [exact E|]. split; [exact C|exact L].
Defined.

(** ** [toggleClk] *)

Lemma clockEdges_app a b :
  0 <= a -> 0 <= b -> clockEdges a ++ clockEdges b = clockEdges (a + b).
Proof.
  intros Ha Hb. unfold clockEdges. rewrite (JSFacts.range_app a b) by assumption.
  rewrite map_app, map_map. reflexivity.
Qed.

Lemma length_bytes n :
  0 <= n < 65536 ->
  Z.land n 0xFF = n mod 256 /\ Z.land (Z.shiftr n 8) 0xFF = n / 256
  /\ 0 <= n / 256 < 256.
Proof.
  intros H. change 0xFF with (Z.ones 8). rewrite !Z.land_ones by lia.
  rewrite Z.shiftr_div_pow2 by lia. change (2 ^ 8) with 256.
  assert (B : 0 <= n / 256 < 256).
  { split; [apply Z.div_pos; lia|apply Z.div_lt_upper_bound; lia]. }
  split; [reflexivity|]. split; [apply Z.mod_small; exact B|exact B].
Qed.

Lemma clockBytes_carries n :
  1 <= n <= 65536 ->
  carries (map JS.u8 [0x8F; Z.land (n - 1) 0xFF; Z.land (Z.shiftr (n - 1) 8) 0xFF])
    (clockEdges (8 * n)) 0.
Proof.
  intros H c k. destruct (length_bytes (n - 1) ltac:(lia)) as [E1 [E2 B]].
  rewrite E1, E2. cbn [map fold_left]. change (JS.u8 143) with 143.
  pose proof (Z.mod_pos_bound (n - 1) 256 ltac:(lia)) as M.
  unfold JS.u8. rewrite (Z.mod_small ((n - 1) mod 256)), (Z.mod_small ((n - 1) / 256))
    by lia.
  unfold read1 at 3. cbn [awaits clocked returned].
  change (143 =? 135) with false.
  change ((143 =? 75) || (143 =? 107) || (143 =? 27) || (143 =? 59) || (143 =? 142))
    with false.
  change ((143 =? 25) || (143 =? 57) || (143 =? 143)) with true. cbv iota.
  unfold read1 at 2. cbn [awaits clocked returned].
  unfold read1. cbn [awaits clocked returned]. cbv zeta.
  change (143 =? 143) with true. cbv iota.
  rewrite Z.add_0_r. f_equal. f_equal. f_equal.
  pose proof (Z.div_mod (n - 1) 256 ltac:(lia)). lia.
Qed.

Lemma clockBits_carries n :
  1 <= n <= 8 -> carries (map JS.u8 [0x8E; n - 1]) (clockEdges n) 0.
Proof.
  intros H c k. cbn [map fold_left]. change (JS.u8 142) with 142.
  unfold JS.u8. rewrite (Z.mod_small (n - 1)) by lia.
  unfold read1 at 2. cbn [awaits clocked returned].
  change (142 =? 135) with false.
  change ((142 =? 75) || (142 =? 107) || (142 =? 27) || (142 =? 59) || (142 =? 142))
    with true. cbv iota.
  unfold read1. cbn [awaits clocked returned].
  change (142 =? 142) with true. cbv iota.
  rewrite Z.add_0_r. f_equal. f_equal. f_equal. lia.
Qed.

Lemma stream_maybe_flush f (c : bool) : stream (if c then flush f else f) = stream f.
Proof. destruct c; [apply stream_flush|reflexivity]. Qed.

Lemma toggleClkLoop_wire : forall fuel f remaining,
  0 <= remaining <= Z.of_nat fuel ->
  exists cmds,
    stream (toggleClkLoop fuel f remaining) = stream f ++ cmds
    /\ carries cmds (clockEdges remaining) 0.
Proof.
  induction fuel as [|fuel IH]; intros f remaining Hr.
  - assert (remaining = 0) by lia. subst remaining. exists [].
    cbn [toggleClkLoop]. rewrite app_nil_r. split; [reflexivity|apply carries_nil].
  - cbn [toggleClkLoop]. destruct (Z.gtb_spec remaining 0) as [G|G].
    + cbv zeta. destruct (Z.geb_spec remaining 8) as [B|B]; cbn [fst snd].
      * set (n := Z.min (JS.floor8 remaining) 65536).
        assert (F : 1 <= JS.floor8 remaining /\ 8 * JS.floor8 remaining <= remaining).
        { unfold JS.floor8. pose proof (Z.div_mod remaining 8 ltac:(lia)).
          pose proof (Z.mod_pos_bound remaining 8 ltac:(lia)). lia. }
        assert (Hn : 1 <= n <= 65536) by (unfold n; lia).
        match goal with
        | |- context [toggleClkLoop fuel ?g ?r] =>
            destruct (IH g r) as [cmds [E C]]; [unfold n in *; lia|]
        end.
        eexists. split.
        -- rewrite E, stream_maybe_flush, stream_push, <- app_assoc. reflexivity.
        -- eapply carries_eq.
           ++ apply carries_app; [apply clockBytes_carries; exact Hn|exact C].
           ++ rewrite clockEdges_app by (unfold n in *; lia). f_equal. lia.
           ++ reflexivity.
      * match goal with
        | |- context [toggleClkLoop fuel ?g ?r] =>
            destruct (IH g r) as [cmds [E C]]; [lia|]
        end.
        eexists. split.
        -- rewrite E, stream_maybe_flush, stream_push, <- app_assoc. reflexivity.
        -- eapply carries_eq.
           ++ apply carries_app; [apply clockBits_carries; lia|exact C].
           ++ rewrite clockEdges_app by lia. f_equal. lia.
           ++ reflexivity.
    + assert (remaining = 0) by lia. subst remaining. exists [].
      rewrite app_nil_r. split; [reflexivity|apply carries_nil].
Qed.

(** X18 ([toggleClk]).  For a count from 0 on, [toggleClk] adds to the
    stream CLOCK_BYTES and CLOCK_BITS commands that clock exactly [count]
    edges, drive neither TMS nor TDI and ask the device for no byte,
    whatever [tms] and [tdi] are; it leaves the buffer empty. *)
Theorem toggleClk_wire f tms tdi count :
  0 <= count ->
  exists cmds,
    stream (toggleClk f tms tdi count) = stream f ++ cmds
    /\ carries cmds (clockEdges count) 0
    /\ buffer (toggleClk f tms tdi count) = [].
Proof.
  intros H. unfold toggleClk.
  destruct (toggleClkLoop_wire (Z.to_nat count) f count) as [cmds [E C]]; [lia|].
  exists cmds. split; [rewrite stream_flush; exact E|].
  split; [exact C|apply buffer_flush].
Qed.

Lemma toggleClk_wire_witness :
  exists cmds,
    stream (toggleClk (connect []) 1 1 2003) = cmds
    /\ carries cmds (clockEdges 2003) 0.
Proof.
  destruct (toggleClk_wire (connect []) 1 1 2003) as [cmds [E [C _]]]; [lia|].
  exists cmds. split; [exact E|exact C].
Defined.

(** ** [writeTDI] *)

Lemma bitOf_byte tdi q b :
  0 <= q -> 0 <= b < 8 ->
  bitOf tdi (8 * q + b) = Z.testbit (tdiByte (Some tdi) q) b.
Proof.
  intros Hq Hb. unfold bitOf, tdiByte.
  replace ((8 * q + b) / 8) with q by (apply (Z.div_unique _ 8 q b); lia).
  replace ((8 * q + b) mod 8) with b by (apply (Z.mod_unique _ 8 q b); lia).
  reflexivity.
Qed.

(** The data bytes of a byte-mode write. *)
Lemma byteData_carries op : forall data c k,
  data <> [] ->
  fold_left read1 (map JS.u8 data)
    {| awaits := ByteData op (Z.of_nat (List.length data)); clocked := c;
       returned := k |}
  = {| awaits := Opcode;
       clocked := c ++ flat_map (fun d => tdiEdges d 8) data;
       returned := k + reads op * Z.of_nat (List.length data) |}.
Proof.
  induction data as [|d data IH]; intros c k N; [contradiction|].
  cbn [map fold_left]. unfold read1 at 2. cbn [awaits clocked returned].
  rewrite tdiEdges_u8 by lia.
  destruct data as [|d' data].
  - cbn [List.length Z.of_nat map fold_left flat_map]. change (1 <=? 1) with true.
    cbv iota. rewrite app_nil_r. f_equal. lia.
  - replace (Z.of_nat (List.length (d :: d' :: data)) <=? 1) with false
      by (symmetry; apply Z.leb_gt; cbn [List.length]; lia).
    replace (Z.of_nat (List.length (d :: d' :: data)) - 1)
      with (Z.of_nat (List.length (d' :: data))) by (cbn [List.length]; lia).
    rewrite IH by discriminate. cbn [flat_map]. rewrite <- app_assoc. f_equal.
    cbn [List.length]. lia.
Qed.

Definition byteCmdOf (readBack : bool) : Z := if readBack then 0x39 else 0x19.

Lemma read1_byteCmd readBack lo hi c k :
  read1 (read1 (read1 {| awaits := Opcode; clocked := c; returned := k |}
                  (byteCmdOf readBack)) lo) hi
  = {| awaits := ByteData (byteCmdOf readBack) (lo + 256 * hi + 1); clocked := c;
       returned := k |}.
Proof. destruct readBack; reflexivity. Qed.

Lemma bytes_carries readBack n data :
  1 <= n <= 65536 -> Z.of_nat (List.length data) = n ->
  carries (map JS.u8 [byteCmdOf readBack; Z.land (n - 1) 0xFF;
                      Z.land (Z.shiftr (n - 1) 8) 0xFF] ++ map JS.u8 data)
    (flat_map (fun d => tdiEdges d 8) data) (if readBack then n else 0).
Proof.
  intros H L c k. destruct (length_bytes (n - 1) ltac:(lia)) as [E1 [E2 B]].
  rewrite E1, E2. rewrite fold_left_app. cbn [map fold_left].
  pose proof (Z.mod_pos_bound (n - 1) 256 ltac:(lia)) as M.
  assert (U1 : JS.u8 ((n - 1) mod 256) = (n - 1) mod 256)
    by (unfold JS.u8; apply Z.mod_small; lia).
  assert (U2 : JS.u8 ((n - 1) / 256) = (n - 1) / 256)
    by (unfold JS.u8; apply Z.mod_small; lia).
  assert (U3 : JS.u8 (byteCmdOf readBack) = byteCmdOf readBack)
    by (destruct readBack; reflexivity).
  rewrite U1, U2, U3, read1_byteCmd.
  assert (N : data <> []) by (intros ->; cbn in L; lia).
  assert (Q : (n - 1) mod 256 + 256 * ((n - 1) / 256) + 1 = Z.of_nat (List.length data)).
  { pose proof (Z.div_mod (n - 1) 256 ltac:(lia)). lia. }
  rewrite Q, byteData_carries by exact N.
  f_equal. destruct readBack; [change (reads (byteCmdOf true)) with 1
                              |change (reads (byteCmdOf false)) with 0]; lia.
Qed.

Lemma readPending_maybe_flush f (c : bool) :
  readPending (if c then flush f else f) = readPending f.
Proof.
  destruct c; [|reflexivity]. unfold flush. destruct (_ =? 0); reflexivity.
Qed.

(** The edges of the bits from bit [from] on, none of which drives TMS. *)
Definition dataEdges (tdi : list Z) (from n : Z) : list TAP.edge :=
  map (fun i => (None, Some (bitOf tdi (from + i)))) (JS.range n).

Lemma dataEdges_app tdi from a b :
  0 <= a -> 0 <= b ->
  dataEdges tdi from a ++ dataEdges tdi (from + a) b = dataEdges tdi from (a + b).
Proof.
  intros Ha Hb. unfold dataEdges. rewrite (JSFacts.range_app a b) by assumption.
  rewrite map_app, map_map. f_equal. apply map_ext. intros i.
  rewrite Z.add_assoc. reflexivity.
Qed.

Lemma chunk_edges tdi txOffset n :
  0 <= txOffset -> 0 <= n ->
  flat_map (fun d => tdiEdges d 8)
    (map (fun i => tdiByte (Some tdi) (txOffset + i)) (JS.range n))
  = dataEdges tdi (8 * txOffset) (8 * n).
Proof.
  intros Ho Hn. unfold dataEdges.
  rewrite <- (Z2Nat.id n) by exact Hn.
  rewrite <- (JSFacts.range8_bytes (fun j => (None, Some (bitOf tdi (8 * txOffset + j))))).
  rewrite JSFacts.flat_map_map, !flat_map_concat_map. f_equal. apply map_ext_in.
  intros i I. apply JSFacts.range_In in I.
  unfold tdiEdges. apply map_ext_in. intros b Ib. apply JSFacts.range_In in Ib.
  rewrite <- bitOf_byte by lia. f_equal. f_equal. f_equal. lia.
Qed.

(** The loop of the full bytes: byte-mode writes of at most 4096 bytes
    that clock the bits of the bytes from [txOffset] on. *)
Lemma fullBytesLoop_wire tdi readBack : forall fuel f txOffset numBytes,
  0 <= txOffset -> 0 <= numBytes <= Z.of_nat fuel ->
  exists cmds,
    stream (fst (fullBytesLoop fuel f (Some tdi) (byteCmdOf readBack) readBack
                   txOffset numBytes))
    = stream f ++ cmds
    /\ carries cmds (dataEdges tdi (8 * txOffset) (8 * numBytes))
         (if readBack then numBytes else 0)
    /\ snd (fullBytesLoop fuel f (Some tdi) (byteCmdOf readBack) readBack
              txOffset numBytes)
       = txOffset + numBytes
    /\ readPending (fst (fullBytesLoop fuel f (Some tdi) (byteCmdOf readBack) readBack
                           txOffset numBytes))
       = readPending f + (if readBack then numBytes else 0).
Proof.
  induction fuel as [|fuel IH]; intros f txOffset numBytes Ho Hn.
  - assert (numBytes = 0) by lia. subst numBytes. exists [].
    cbn [fullBytesLoop fst snd]. rewrite app_nil_r.
    split; [reflexivity|]. split; [destruct readBack; apply carries_nil|].
    split; [lia|destruct readBack; lia].
  - cbn [fullBytesLoop]. destruct (Z.gtb_spec numBytes 0) as [G|G].
    + cbv zeta. set (n := Z.min numBytes 4096).
      assert (Hc : 1 <= n <= 4096) by (unfold n; lia).
      match goal with
      | |- context [fullBytesLoop fuel ?g _ _ _ ?o ?r] =>
          destruct (IH g o r) as [cmds [E [C [S R]]]]; [lia|unfold n; lia|];
          set (f1 := g) in *
      end.
      assert (P : readPending f1 = readPending f + (if readBack then n else 0)).
      { unfold f1. rewrite readPending_maybe_flush.
        destruct readBack; cbn [addReadPending push readPending]; lia. }
      assert (T : stream f1
                  = stream f
                    ++ (map JS.u8 [byteCmdOf readBack; Z.land (n - 1) 0xFF;
                                   Z.land (Z.shiftr (n - 1) 8) 0xFF]
                        ++ map JS.u8 (map (fun i => tdiByte (Some tdi) (txOffset + i))
                                         (JS.range n)))).
      { unfold f1. rewrite stream_maybe_flush.
        destruct readBack; rewrite ?stream_addReadPending, !stream_push, <- app_assoc;
          reflexivity. }
      eexists. split; [rewrite E, T, <- app_assoc; reflexivity|].
      split; [|split].
      * eapply carries_eq.
        -- apply carries_app; [|exact C].
           apply (bytes_carries readBack n); [lia|].
           rewrite length_map, JSFacts.range_length. lia.
        -- rewrite chunk_edges by lia.
           replace (8 * (txOffset + n)) with (8 * txOffset + 8 * n) by lia.
           rewrite dataEdges_app by (unfold n; lia). f_equal. lia.
        -- destruct readBack; lia.
      * rewrite S. lia.
      * rewrite R, P. destruct readBack; lia.
    + assert (numBytes = 0) by lia. subst numBytes. exists [].
      cbn [fst snd]. rewrite app_nil_r.
      split; [reflexivity|]. split; [destruct readBack; apply carries_nil|].
      split; [lia|destruct readBack; lia].
Qed.

Definition bitCmdOf (readBack : bool) : Z := if readBack then 0x3B else 0x1B.
Definition tmsCmdOf (readBack : bool) : Z := if readBack then 0x6B else 0x4B.

Lemma read1_bitCmd readBack m d c k :
  read1 (read1 (read1 {| awaits := Opcode; clocked := c; returned := k |}
                  (bitCmdOf readBack)) m) d
  = {| awaits := Opcode; clocked := c ++ tdiEdges d (m + 1);
       returned := k + (if readBack then 1 else 0) |}.
Proof. destruct readBack; reflexivity. Qed.

Lemma bits_carries readBack n d :
  1 <= n <= 8 ->
  carries (map JS.u8 [bitCmdOf readBack; n - 1; d]) (tdiEdges d n)
    (if readBack then 1 else 0).
Proof.
  intros H c k.
  assert (U : JS.u8 (n - 1) = n - 1) by (unfold JS.u8; apply Z.mod_small; lia).
  assert (U' : JS.u8 (bitCmdOf readBack) = bitCmdOf readBack)
    by (destruct readBack; reflexivity).
  cbn [map fold_left]. rewrite U, U', read1_bitCmd.
  replace (n - 1 + 1) with n by lia. rewrite tdiEdges_u8 by lia. reflexivity.
Qed.

Lemma last_carries readBack bit :
  carries (map JS.u8 [tmsCmdOf readBack; 0; if bit =? 0 then 0x01 else 0x81])
    [(Some true, Some (negb (bit =? 0)))] (if readBack then 1 else 0).
Proof.
  intros c k. destruct readBack, (bit =? 0); reflexivity.
Qed.

(** [writeTDI] after the loop of the full bytes: the bit-mode write of the
    remaining bits and the TMS command of the last bit. *)
Definition afterBytes (tdi : list Z) (readBack last : bool) (numBits : Z)
    (r : DigilentFTDI * Z) : DigilentFTDI :=
  let f := fst r in
  let txOffset := snd r in
  let f :=
    if numBits >? 0 then
      let f := push f [bitCmdOf readBack; numBits - 1; tdiByte (Some tdi) txOffset] in
      if readBack then addReadPending f 1 else f
    else f in
  if last then
    let lastBitData := Z.land (JS.shr (tdiByte (Some tdi) txOffset) numBits) 1 in
    let f := push f [tmsCmdOf readBack; 0; if lastBitData =? 0 then 0x01 else 0x81] in
    if readBack then addReadPending f 1 else f
  else f.

(** The end of [writeTDI]: the read of what is pending, or the flush. *)
Definition finish (tdo : option (list Z)) (bitLen : Z) (last : bool) (f : DigilentFTDI)
    : option (list Z) * DigilentFTDI :=
  match tdo with
  | Some tdoBuffer =>
      if readPending f >? 0 then
        let r := flushAndRead f (readPending f) in
        (Some (copyReadData tdoBuffer (fst r) bitLen last),
         {| buffer := buffer (snd r); readPending := 0;
            sent := sent (snd r); rx := rx (snd r) |})
      else (tdo, flush f)
  | None => (tdo, flush f)
  end.

Definition isSome {A} (o : option A) : bool :=
  match o with Some _ => true | None => false end.

Lemma writeTDI_parts f tdi tdo bitLen last :
  bitLen <> 0 ->
  writeTDI f (Some tdi) tdo bitLen last
  = let readBack := isSome tdo in
    let realLen := if last then bitLen - 1 else bitLen in
    let converted :=
      (JS.floor8 realLen =? 1) && (JS.rem realLen 8 =? 0) && negb last in
    let numBytes := if converted then 0 else JS.floor8 realLen in
    let numBits := if converted then 8 else JS.rem realLen 8 in
    finish tdo bitLen last
      (afterBytes tdi readBack last numBits
         (fullBytesLoop (Z.to_nat numBytes) f (Some tdi) (byteCmdOf readBack) readBack
            0 numBytes)).
Proof.
  intros H. unfold writeTDI. destruct (Z.eqb_spec bitLen 0) as [|_]; [contradiction|].
  destruct tdo; reflexivity.
Qed.

Lemma afterBytes_wire tdi readBack last numBits r :
  0 <= snd r -> 0 <= numBits <= 8 -> (last = true -> numBits < 8) ->
  exists cmds,
    stream (afterBytes tdi readBack last numBits r) = stream (fst r) ++ cmds
    /\ carries cmds
         (dataEdges tdi (8 * snd r) numBits
          ++ (if last then [(Some true, Some (bitOf tdi (8 * snd r + numBits)))] else []))
         (if readBack
          then (if numBits >? 0 then 1 else 0) + (if last then 1 else 0) else 0).
Proof.
  intros Ho Hn Hl. unfold afterBytes. cbv zeta.
  set (f1 := if numBits >? 0 then _ else fst r).
  assert (B : exists c1,
            stream f1 = stream (fst r) ++ c1
            /\ carries c1 (dataEdges tdi (8 * snd r) numBits)
                 (if readBack then (if numBits >? 0 then 1 else 0) else 0)).
  { unfold f1. destruct (Z.gtb_spec numBits 0) as [G|G].
    - eexists. split.
      + destruct readBack; rewrite ?stream_addReadPending, stream_push; reflexivity.
      + eapply carries_eq; [apply (bits_carries readBack numBits); lia| |reflexivity].
        unfold tdiEdges, dataEdges. apply map_ext_in. intros i I.
        apply JSFacts.range_In in I. rewrite bitOf_byte by lia. reflexivity.
    - assert (numBits = 0) by lia. subst numBits. exists [].
      rewrite app_nil_r. split; [reflexivity|].
      destruct readBack; apply carries_nil. }
  destruct B as [c1 [E1 C1]]. destruct last.
  - eexists. split.
    + destruct readBack; rewrite ?stream_addReadPending, stream_push, E1, <- app_assoc;
        reflexivity.
    + eapply carries_eq.
      * apply carries_app; [exact C1|apply last_carries].
      * f_equal. f_equal. f_equal. f_equal.
        rewrite JSFacts.bit_of_shift by (specialize (Hl eq_refl); lia).
        rewrite bitOf_byte by (specialize (Hl eq_refl); lia).
        destruct (Z.testbit _ _); reflexivity.
      * destruct readBack; reflexivity.
  - exists c1. split; [exact E1|]. rewrite app_nil_r.
    eapply carries_eq; [exact C1|reflexivity|destruct readBack; lia].
Qed.

Lemma finish_wire tdo bitLen last f :
  exists cmds,
    stream (snd (finish tdo bitLen last f)) = stream f ++ cmds
    /\ carries cmds [] 0
    /\ buffer (snd (finish tdo bitLen last f)) = [].
Proof.
  unfold finish. destruct tdo as [tdoBuffer|].
  - destruct (readPending f >? 0).
    + exists [0x87]. cbn [snd]. split; [|split; [apply carries_send_immediate|reflexivity]].
      unfold stream, flushAndRead. cbn [snd sent buffer map].
      rewrite concat_app. cbn [List.concat]. rewrite map_app, !app_nil_r, <- app_assoc.
      reflexivity.
    + exists []. cbn [snd]. rewrite app_nil_r, stream_flush.
      split; [reflexivity|split; [apply carries_nil|apply buffer_flush]].
  - exists []. cbn [snd]. rewrite app_nil_r, stream_flush.
    split; [reflexivity|split; [apply carries_nil|apply buffer_flush]].
Qed.

(** The edges of [writeTDI]: the bits before the last one, on which no
    command drives TMS, and with [last] the last bit with TMS at 1. *)
Definition shiftEdges (tdi : list Z) (bitLen : Z) (last : bool) : list TAP.edge :=
  let realLen := if last then bitLen - 1 else bitLen in
  dataEdges tdi 0 realLen
  ++ (if last then [(Some true, Some (bitOf tdi realLen))] else []).

Lemma writeTDI_stream f tdi tdo bitLen last :
  0 < bitLen ->
  exists cmds,
    stream (snd (writeTDI f (Some tdi) tdo bitLen last)) = stream f ++ cmds
    /\ carries cmds (shiftEdges tdi bitLen last)
         (if isSome tdo
          then JS.ceil8 (if last then bitLen - 1 else bitLen) + (if last then 1 else 0)
          else 0)
    /\ buffer (snd (writeTDI f (Some tdi) tdo bitLen last)) = [].
Proof.
  intros H. rewrite writeTDI_parts by lia. cbv zeta.
  set (readBack := isSome tdo).
  set (realLen := if last then bitLen - 1 else bitLen).
  assert (HR : 0 <= realLen) by (unfold realLen; destruct last; lia).
  pose proof (Z.div_mod realLen 8 ltac:(lia)) as D.
  pose proof (Z.mod_pos_bound realLen 8 ltac:(lia)) as M.
  assert (Q : 0 <= realLen / 8) by (apply Z.div_pos; lia).
  unfold JS.floor8, JS.rem. rewrite Z.rem_mod_nonneg by lia.
  set (converted := (realLen / 8 =? 1) && (realLen mod 8 =? 0) && negb last).
  set (numBytes := if converted then 0 else realLen / 8).
  set (numBits := if converted then 8 else realLen mod 8).
  assert (S : 0 <= numBytes /\ 0 <= numBits <= 8 /\ 8 * numBytes + numBits = realLen
              /\ (last = true -> numBits < 8)
              /\ (if numBits >? 0 then 1 else 0) + numBytes = JS.ceil8 realLen).
  { assert (C8 : JS.ceil8 realLen
                 = realLen / 8 + (if realLen mod 8 >? 0 then 1 else 0)).
    { unfold JS.ceil8. destruct (Z.gtb_spec (realLen mod 8) 0) as [G|G].
      - symmetry. apply (Z.div_unique (realLen + 7) 8 _ (realLen mod 8 - 1)); lia.
      - symmetry. apply (Z.div_unique (realLen + 7) 8 _ 7); lia. }
    rewrite C8. unfold numBytes, numBits, converted.
    destruct (Z.eqb_spec (realLen / 8) 1) as [E1|E1];
      destruct (Z.eqb_spec (realLen mod 8) 0) as [E2|E2];
      destruct last; cbn [andb negb];
      repeat match goal with
             | |- context [?a >? 0] =>
                 destruct (Z.gtb_spec a 0)
             end;
      repeat split; intros; try discriminate; lia. }
  destruct S as [S1 [S2 [S3 [S4 S5]]]].
  destruct (fullBytesLoop_wire tdi readBack (Z.to_nat numBytes) f 0 numBytes)
    as [c1 [E1 [C1 [O1 _]]]]; [lia|lia|].
  set (r := fullBytesLoop (Z.to_nat numBytes) f (Some tdi) (byteCmdOf readBack) readBack
              0 numBytes) in *.
  destruct (afterBytes_wire tdi readBack last numBits r) as [c2 [E2 C2]];
    [rewrite O1; lia|exact S2|exact S4|].
  destruct (finish_wire tdo bitLen last (afterBytes tdi readBack last numBits r))
    as [c3 [E3 [C3 B3]]].
  exists (c1 ++ c2 ++ c3). split; [|split; [|exact B3]].
  - rewrite E3, E2, E1, <- !app_assoc. reflexivity.
  - eapply carries_eq.
    + apply carries_app; [exact C1|apply carries_app; [exact C2|exact C3]].
    + rewrite app_nil_r, O1.
      replace (8 * (0 + numBytes)) with (0 + 8 * numBytes) by lia.
      change (8 * 0) with 0.
      rewrite app_assoc, dataEdges_app by lia.
      replace (0 + 8 * numBytes + numBits) with realLen by lia. rewrite S3.
      reflexivity.
    + fold realLen. destruct readBack; [|reflexivity]. rewrite <- S5.
      destruct last; lia.
Qed.


(** X19 ([writeTDI]).  For a bit count above 0 and a TDI array,
    [writeTDI] adds to the stream commands that clock exactly [bitLen]
    edges: edge [i] carries bit [i] of the array on TDI, bit 0 of byte 0
    first (0 past the end of the array), and no command drives TMS, except
    that with [lastBitWithTMS] the last edge goes out with TMS at 1.  With
    a [tdo] buffer the commands ask the device for one byte per byte-mode
    byte, one for the bit-mode write and one for the last bit, and without
    one for none.  The buffer is empty afterwards. *)
Theorem writeTDI_wire f tdi tdo bitLen last :
  0 < bitLen ->
  exists cmds,
    stream (snd (writeTDI f (Some tdi) tdo bitLen last)) = stream f ++ cmds
    /\ carries cmds
         (map (fun i => (if last && (i =? bitLen - 1) then Some true else None,
                         Some (bitOf tdi i)))
            (JS.range bitLen))
         (if isSome tdo
          then JS.ceil8 (if last then bitLen - 1 else bitLen) + (if last then 1 else 0)
          else 0)
    /\ buffer (snd (writeTDI f (Some tdi) tdo bitLen last)) = [].
Proof.
  intros H. destruct (writeTDI_stream f tdi tdo bitLen last H) as [cmds [E [C B]]].
  exists cmds. split; [exact E|]. split; [|exact B].
  eapply carries_eq; [exact C| |reflexivity].
  unfold shiftEdges, dataEdges. cbv zeta. destruct last; cbn [andb].
  - assert (R : JS.range bitLen = JS.range (bitLen - 1) ++ [bitLen - 1])
      by (apply JSFacts.range_snoc; lia).
    rewrite R, map_app. cbn [map]. rewrite Z.eqb_refl. f_equal.
    apply map_ext_in. intros i I. apply JSFacts.range_In in I.
    destruct (Z.eqb_spec i (bitLen - 1)); [lia|reflexivity].
  - rewrite app_nil_r. reflexivity.
Qed.

(** Ten bits with exit: a byte-mode write of the first byte, a bit-mode
    write of one bit and the TMS command of the last bit. *)
Lemma writeTDI_wire_witness :
  exists cmds,
    stream (snd (writeTDI (connect []) (Some [0x81; 0x03]) None 10 true)) = cmds
    /\ carries cmds
         (map (fun i => (if i =? 9 then Some true else None,
                         Some (bitOf [0x81; 0x03] i)))
            (JS.range 10)) 0.
Proof.
  destruct (writeTDI_wire (connect []) [0x81; 0x03] None 10 true) as [cmds [E [C _]]];
    [lia|].
  exists cmds. split; [exact E|exact C].
Defined.

(** ** The TAP under the stream *)

Lemma pins_walk fl : forall q tms tdi,
  TAPFacts.bits q ->
  TAP.pins tms tdi (walkEdges fl q) = map (fun b => (Z.b2z fl, b)) q.
Proof.
  induction q as [|b q IH]; intros tms tdi H; [reflexivity|].
  inversion H as [|? ? Hb Hq]; subst. cbn [walkEdges map TAP.pins TAP.drive].
  fold (walkEdges fl q). rewrite IH by exact Hq. f_equal.
  destruct Hb as [-> | ->]; reflexivity.
Qed.

(** The TMS level after a walk is its last bit. *)
Definition lastZero (q : list Z) : bool :=
  match rev q with
  | [] => true
  | b :: _ => b =? 0
  end.

Lemma held_walk fl q tms tdi :
  q <> [] -> lastZero q = true -> fst (TAP.held tms tdi (walkEdges fl q)) = false.
Proof.
  intros N L. unfold lastZero in L.
  destruct (rev q) as [|b front] eqn:R.
  - apply (f_equal (@rev Z)) in R. rewrite rev_involutive in R. contradiction.
  - apply (f_equal (@rev Z)) in R. rewrite rev_involutive in R. cbn [rev] in R.
    subst q. unfold walkEdges. rewrite map_app, TAPFacts.held_app. cbn [map TAP.held TAP.drive fst].
    apply Z.eqb_eq in L. subst b. reflexivity.
Qed.

Lemma pins_data tdi from : forall n tdi0,
  TAP.pins false tdi0 (dataEdges tdi from n)
  = map (fun i => (Z.b2z (bitOf tdi (from + i)), 0)) (JS.range n)
  /\ fst (TAP.held false tdi0 (dataEdges tdi from n)) = false.
Proof.
  intros n tdi0. unfold dataEdges. generalize (JS.range n). intros l. revert tdi0.
  induction l as [|i l IH]; intros tdi0; [split; reflexivity|].
  cbn [map TAP.pins TAP.held TAP.drive]. destruct (IH (bitOf tdi (from + i))) as [I1 I2].
  rewrite I1. split; [reflexivity|exact I2].
Qed.

(** The bits of the array as the TAP engine counts them. *)
Definition payloadBits (tdi : list Z) (bitLen : Z) : list Z :=
  map (fun i => Z.b2z (bitOf tdi i)) (JS.range bitLen).

Lemma pins_shift tdi bitLen last tdi0 :
  0 < bitLen ->
  TAP.pins false tdi0 (shiftEdges tdi bitLen last)
  = TAPFacts.tms_run (payloadBits tdi bitLen) last
  /\ fst (TAP.held false tdi0 (shiftEdges tdi bitLen last)) = last.
Proof.
  intros H. unfold shiftEdges. cbv zeta. rewrite TAPFacts.pins_app, TAPFacts.held_app.
  set (realLen := if last then bitLen - 1 else bitLen).
  destruct (pins_data tdi 0 realLen tdi0) as [P1 P2]. rewrite P1, P2.
  assert (R : JS.range bitLen = JS.range (bitLen - 1) ++ [bitLen - 1])
    by (apply JSFacts.range_snoc; lia).
  unfold TAPFacts.tms_run, payloadBits. rewrite R, map_app, rev_app_distr.
  cbn [map rev app]. rewrite rev_involutive, map_map.
  destruct last; unfold realLen.
  - cbn [TAP.pins TAP.held TAP.drive fst Z.b2z]. split; reflexivity.
  - cbn [TAP.pins TAP.held fst]. rewrite app_nil_r. split; [|reflexivity].
    rewrite R, map_app. reflexivity.
Qed.

(** A walk that is in [sh] before none of its edges. *)
Fixpoint never_in (sh st : string) (q : list Z) : bool :=
  match q with
  | [] => true
  | b :: rest => negb (String.eqb st sh) && never_in sh (TAPFacts.tap_step st b) rest
  end.

Lemma shifted_in_never sh c : forall q st,
  never_in sh st q = true ->
  TAPFacts.shifted_in sh st (map (fun b => (c, b)) q) = [].
Proof.
  induction q as [|b q IH]; intros st H; [reflexivity|].
  cbn [never_in] in H. apply andb_true_iff in H. destruct H as [H1 H2].
  cbn [map TAPFacts.shifted_in]. apply negb_true_iff in H1. rewrite H1.
  apply IH. exact H2.
Qed.

Lemma state_after_walk c q st :
  TAPFacts.state_after st (map (fun b => (c, b)) q) = TAP.applyTMSSequence st q.
Proof.
  rewrite TAPFacts.state_after_tms, TAPFacts.applyTMSSequence_fold, map_map.
  cbn [snd]. rewrite map_id. reflexivity.
Qed.

(** What the walks of [setState] have to satisfy around the shift states,
    as a computation: a walk is in a shift state before none of its edges,
    unless it starts there, and it enters a shift state with TMS at 0. *)
Definition isShift (t : Z) : bool := (t =? SHIFT_DR) || (t =? SHIFT_IR).

Definition walk_shift_ok (s t : Z) : bool :=
  match setStateLoop 16 s t 0 [] with
  | None => false
  | Some (st, q) =>
      (st =? t)
      && forallb (fun b => (b =? 0) || (b =? 1)) q
      && String.eqb (TAP.applyTMSSequence (tapName s) q) (tapName t)
      && ((s =? SHIFT_DR) || never_in TAP.DRSHIFT (tapName s) q)
      && ((s =? SHIFT_IR) || never_in TAP.IRSHIFT (tapName s) q)
      && (negb (isShift t) || lastZero q)
  end.

Lemma walk_shift_table :
  forallb (fun s => forallb (walk_shift_ok s) (JS.range 16)) (JS.range 16) = true.
Proof. vm_compute. reflexivity. Qed.

(** [setState] on the stream. *)
Lemma setState_stream x t :
  inTable (state x) -> inTable t ->
  exists x' q cmds,
    setState x t = Some x'
    /\ state x' = t /\ currTdi x' = currTdi x
    /\ stream (ftdi x') = stream (ftdi x) ++ cmds
    /\ carries cmds (walkEdges (negb (currTdi x =? 0)) q) 0
    /\ TAPFacts.bits q
    /\ TAP.applyTMSSequence (tapName (state x)) q = tapName t
    /\ (state x <> SHIFT_DR -> never_in TAP.DRSHIFT (tapName (state x)) q = true)
    /\ (state x <> SHIFT_IR -> never_in TAP.IRSHIFT (tapName (state x)) q = true)
    /\ (isShift t = true -> lastZero q = true)
    /\ (state x <> t -> q <> []).
Proof.
  intros Hs Ht. pose proof walk_shift_table as T.
  rewrite forallb_forall in T.
  specialize (T (state x) (proj2 (JSFacts.range_In 16 (state x)) Hs)).
  rewrite forallb_forall in T. specialize (T t (proj2 (JSFacts.range_In 16 t) Ht)).
  unfold walk_shift_ok in T. unfold setState.
  destruct (setStateLoop 16 (state x) t 0 []) as [[st q]|] eqn:E; [|discriminate].
  apply andb_true_iff in T. destruct T as [T T6].
  apply andb_true_iff in T. destruct T as [T T5].
  apply andb_true_iff in T. destruct T as [T T4].
  apply andb_true_iff in T. destruct T as [T T3].
  apply andb_true_iff in T. destruct T as [T1 T2].
  apply Z.eqb_eq in T1. subst st. apply String.eqb_eq in T3.
  assert (B : TAPFacts.bits q).
  { apply Forall_forall. intros b Hb. rewrite forallb_forall in T2.
    specialize (T2 b Hb). apply orb_true_iff in T2.
    destruct T2 as [B|B]; apply Z.eqb_eq in B; [left|right]; exact B. }
  assert (N : state x <> t -> q <> []).
  { intros Q ->. destruct (setStateLoop_grows _ _ _ _ _ _ E) as [_ G].
    specialize (G Q). cbn in G. lia. }
  assert (W : exists x' cmds,
            (let x0 := with_state x t in
             if Z.of_nat (List.length q) >? 0
             then Some (with_ftdi x0 (writeTMS (ftdi x0) (_packBits q)
                                        (Z.of_nat (List.length q)) true (currTdi x0)))
             else Some x0) = Some x'
            /\ state x' = t /\ currTdi x' = currTdi x
            /\ stream (ftdi x') = stream (ftdi x) ++ cmds
            /\ carries cmds (walkEdges (negb (currTdi x =? 0)) q) 0).
  { cbv zeta. destruct (Z.of_nat (List.length q) >? 0) eqn:G.
    - destruct (writeTMS_stream (ftdi x) (_packBits q) (Z.of_nat (List.length q)) true
                  (currTdi x)) as [cmds [E1 [C1 _]]]; [lia|].
      eexists. exists cmds. split; [reflexivity|].
      cbn [with_ftdi with_state state currTdi ftdi].
      split; [reflexivity|]. split; [reflexivity|]. split; [exact E1|].
      eapply carries_eq; [exact C1| |reflexivity].
      unfold walkEdges.
      rewrite <- (map_map (fun b => negb (b =? 0))
                    (fun v => (Some v, Some (negb (currTdi x =? 0))))).
      rewrite <- (packed_bits q), map_map. reflexivity.
    - exists (with_state x t), []. split; [reflexivity|].
      cbn [with_state state currTdi ftdi]. rewrite app_nil_r.
      split; [reflexivity|]. split; [reflexivity|]. split; [reflexivity|].
      destruct q; [apply carries_nil|cbn [List.length] in G].
      destruct (Z.gtb_spec (Z.of_nat (Datatypes.S (List.length q))) 0); [discriminate|lia]. }
  destruct W as [x' [cmds [W1 [W2 [W3 [W4 W5]]]]]].
  exists x', q, cmds. split; [exact W1|]. split; [exact W2|]. split; [exact W3|].
  split; [exact W4|]. split; [exact W5|]. split; [exact B|]. split; [exact T3|].
  split; [|split; [|split; [|exact N]]].
  - intros Q. apply orb_true_iff in T4. destruct T4 as [T4|T4]; [|exact T4].
    apply Z.eqb_eq in T4. contradiction.
  - intros Q. apply orb_true_iff in T5. destruct T5 as [T5|T5]; [|exact T5].
    apply Z.eqb_eq in T5. contradiction.
  - intros Q. rewrite Q in T6. exact T6.
Qed.

(** The two columns of the TAP: the shift state and the exit state, by
    number and by name. *)
Definition shiftOf (dr : bool) : Z := if dr then SHIFT_DR else SHIFT_IR.
Definition exitOf (dr : bool) : Z := if dr then EXIT1_DR else EXIT1_IR.
Definition shiftName (dr : bool) : string := if dr then TAP.DRSHIFT else TAP.IRSHIFT.
Definition exitName (dr : bool) : string := if dr then TAP.DREXIT1 else TAP.IREXIT1.

Lemma inTable_shift dr : inTable (shiftOf dr) /\ inTable (exitOf dr).
Proof. destruct dr; unfold inTable; cbv; intuition discriminate. Qed.

Lemma never_in_shift dr x q :
  state x <> shiftOf dr ->
  (state x <> SHIFT_DR -> never_in TAP.DRSHIFT (tapName (state x)) q = true) ->
  (state x <> SHIFT_IR -> never_in TAP.IRSHIFT (tapName (state x)) q = true) ->
  never_in (shiftName dr) (tapName (state x)) q = true.
Proof. destruct dr; cbn [shiftOf shiftName]; intros N D I; [apply D|apply I]; exact N. Qed.

Lemma enter_stream dr x tms0 tdi0 :
  inTable (state x) -> (state x = shiftOf dr -> tms0 = false) ->
  exists x1 cmds edges,
    enter x (shiftOf dr) = Some x1
    /\ state x1 = shiftOf dr
    /\ stream (ftdi x1) = stream (ftdi x) ++ cmds
    /\ carries cmds edges 0
    /\ TAPFacts.state_after (tapName (state x)) (TAP.pins tms0 tdi0 edges) = shiftName dr
    /\ TAPFacts.shifted_in (shiftName dr) (tapName (state x)) (TAP.pins tms0 tdi0 edges) = []
    /\ fst (TAP.held tms0 tdi0 edges) = false.
Proof.
  intros Hs H0. unfold enter.
  destruct (Z.eqb_spec (state x) (shiftOf dr)) as [E|E]; cbn [negb].
  - exists x, [], []. rewrite app_nil_r. split; [reflexivity|]. split; [exact E|].
    split; [reflexivity|]. split; [apply carries_nil|].
    cbn [TAP.pins TAPFacts.state_after TAPFacts.shifted_in TAP.held fst].
    split; [rewrite E; destruct dr; reflexivity|]. split; [reflexivity|apply H0; exact E].
  - destruct (setState_stream x (shiftOf dr) Hs (proj1 (inTable_shift dr)))
      as [x1 [q [cmds [S1 [S2 [_ [S4 [S5 [B [W [ND [NI [LZ NE]]]]]]]]]]]]].
    exists x1, cmds, (walkEdges (negb (currTdi x =? 0)) q).
    split; [exact S1|]. split; [exact S2|]. split; [exact S4|]. split; [exact S5|].
    rewrite pins_walk by exact B. split; [|split].
    + rewrite state_after_walk, W. destruct dr; reflexivity.
    + apply shifted_in_never. apply never_in_shift; assumption.
    + apply held_walk; [apply NE; exact E|]. apply LZ. destruct dr; reflexivity.
Qed.

Lemma leave_stream dr x endState tms0 tdi0 :
  state x = shiftOf dr -> inTable endState ->
  exists x2 cmds edges,
    leave x (shiftOf dr) (exitOf dr) endState = Some x2
    /\ state x2 = endState
    /\ stream (ftdi x2) = stream (ftdi x) ++ cmds
    /\ carries cmds edges 0
    /\ TAPFacts.state_after
         (if endState =? shiftOf dr then shiftName dr else exitName dr)
         (TAP.pins tms0 tdi0 edges)
       = tapName endState
    /\ TAPFacts.shifted_in (shiftName dr)
         (if endState =? shiftOf dr then shiftName dr else exitName dr)
         (TAP.pins tms0 tdi0 edges)
       = []
    /\ (endState = shiftOf dr -> edges = []).
Proof.
  intros Hx He. unfold leave.
  destruct (Z.eqb_spec endState (shiftOf dr)) as [E|E]; cbn [negb].
  - exists x, [], []. rewrite app_nil_r. split; [reflexivity|]. split; [congruence|].
    split; [reflexivity|]. split; [apply carries_nil|].
    cbn [TAP.pins TAPFacts.state_after TAPFacts.shifted_in].
    split; [rewrite E; destruct dr; reflexivity|]. split; reflexivity.
  - destruct (Z.eqb_spec endState (exitOf dr)) as [E'|E']; cbn [negb].
    + exists (with_state x (exitOf dr)), [], []. rewrite app_nil_r.
      split; [reflexivity|]. split; [cbn [with_state state]; congruence|].
      split; [reflexivity|]. split; [apply carries_nil|].
      cbn [TAP.pins TAPFacts.state_after TAPFacts.shifted_in].
      split; [rewrite E'; destruct dr; reflexivity|]. split; reflexivity.
    + destruct (setState_stream (with_state x (exitOf dr)) endState)
        as [x2 [q [cmds [S1 [S2 [_ [S4 [S5 [B [W [ND [NI [_ _]]]]]]]]]]]]].
      * cbn [with_state state]. apply (proj2 (inTable_shift dr)).
      * exact He.
      * cbn [with_state state ftdi currTdi] in *.
        exists x2, cmds, (walkEdges (negb (currTdi x =? 0)) q).
        split; [exact S1|]. split; [exact S2|]. split; [exact S4|]. split; [exact S5|].
        rewrite pins_walk by exact B.
        replace (exitName dr) with (tapName (exitOf dr)) by (destruct dr; reflexivity).
        split; [rewrite state_after_walk; exact W|].
        split; [|intros Q; contradiction].
        apply shifted_in_never.
        destruct dr; cbn [shiftName exitOf] in *;
          [apply ND|apply NI]; cbv; discriminate.
Qed.

(** The payload in the shift state: the TAP is in the shift state on every
    edge of the payload and leaves it on the last one exactly when TMS is
    1 there. *)
Lemma payload_in_shift dr bits (last : bool) :
  bits <> [] ->
  TAPFacts.shifted_in (shiftName dr) (shiftName dr) (TAPFacts.tms_run bits last)
  = TAPFacts.tms_run bits last
  /\ TAPFacts.state_after (shiftName dr) (TAPFacts.tms_run bits last)
     = (if last then exitName dr else shiftName dr).
Proof.
  intros N. destruct last.
  - apply TAPFacts.shifted_in_tms_run; [destruct dr; reflexivity..|exact N].
  - rewrite TAPFacts.tms_run_stay. apply TAPFacts.shifted_in_zero_run. destruct dr; reflexivity.
Qed.

(** Entering the shift state, [writeTDI] and leaving for the end state,
    as [shiftIR] and [shiftDR] do. *)
Lemma shift_stream dr x tdi tdo bitLen endState tms0 tdi0 :
  inTable (state x) -> inTable endState -> 0 < bitLen ->
  (state x = shiftOf dr -> tms0 = false) ->
  exists x1 x2 cmds edges,
    enter x (shiftOf dr) = Some x1
    /\ leave (with_ftdi x1
                (snd (writeTDI (ftdi x1) (Some tdi) tdo bitLen
                        (negb (endState =? shiftOf dr)))))
         (shiftOf dr) (exitOf dr) endState = Some x2
    /\ state x2 = endState
    /\ stream (ftdi x2) = stream (ftdi x) ++ cmds
    /\ carries cmds edges
         (if isSome tdo
          then JS.ceil8 (if negb (endState =? shiftOf dr) then bitLen - 1 else bitLen)
               + (if negb (endState =? shiftOf dr) then 1 else 0)
          else 0)
    /\ TAPFacts.state_after (tapName (state x)) (TAP.pins tms0 tdi0 edges) = tapName endState
    /\ map fst (TAPFacts.shifted_in (shiftName dr) (tapName (state x))
                  (TAP.pins tms0 tdi0 edges))
       = payloadBits tdi bitLen
    /\ (endState = shiftOf dr -> fst (TAP.held tms0 tdi0 edges) = false).
Proof.
  intros Hs He Hn H0.
  destruct (enter_stream dr x tms0 tdi0 Hs H0)
    as [x1 [c1 [e1 [A1 [A2 [A3 [A4 [A5 [A6 A7]]]]]]]]].
  set (last := negb (endState =? shiftOf dr)).
  destruct (writeTDI_stream (ftdi x1) tdi tdo bitLen last Hn) as [c2 [B1 [B2 _]]].
  set (r := writeTDI (ftdi x1) (Some tdi) tdo bitLen last) in *.
  set (e12 := e1 ++ shiftEdges tdi bitLen last).
  destruct (leave_stream dr (with_ftdi x1 (snd r)) endState
              (fst (TAP.held tms0 tdi0 e12)) (snd (TAP.held tms0 tdi0 e12)))
    as [x2 [c3 [e3 [C1 [C2 [C3 [C4 [C5 [C6 C7]]]]]]]]]; [exact A2|exact He|].
  cbn [with_ftdi ftdi] in C3.
  exists x1, x2, (c1 ++ c2 ++ c3), (e12 ++ e3).
  split; [exact A1|]. split; [exact C1|]. split; [exact C2|].
  split; [rewrite C3, B1, A3, <- !app_assoc; reflexivity|].
  split.
  { unfold e12. rewrite <- app_assoc. eapply carries_eq.
    - apply carries_app; [exact A4|apply carries_app; [exact B2|exact C4]].
    - reflexivity.
    - fold last. lia. }
  assert (PB : payloadBits tdi bitLen <> []).
  { unfold payloadBits. rewrite (JSFacts.range_snoc bitLen) by lia.
    rewrite map_app. intros Q. apply app_eq_nil in Q. destruct Q as [_ Q].
    discriminate Q. }
  destruct (pins_shift tdi bitLen last (snd (TAP.held tms0 tdi0 e1)) Hn) as [P1 P2].
  destruct (payload_in_shift dr (payloadBits tdi bitLen) last PB) as [Q1 Q2].
  assert (P12 : TAP.pins tms0 tdi0 e12
                = TAP.pins tms0 tdi0 e1 ++ TAPFacts.tms_run (payloadBits tdi bitLen) last).
  { unfold e12. rewrite TAPFacts.pins_app, A7, P1. reflexivity. }
  assert (L : (if endState =? shiftOf dr then shiftName dr else exitName dr)
              = (if last then exitName dr else shiftName dr)).
  { unfold last. destruct (endState =? shiftOf dr); reflexivity. }
  rewrite L in C5, C6.
  rewrite TAPFacts.pins_app, P12. split; [|split].
  - rewrite !TAPFacts.state_after_app, A5, Q2. exact C5.
  - rewrite !TAPFacts.shifted_in_app, !TAPFacts.state_after_app, A5, A6, Q1, Q2, C6.
    cbn [app]. rewrite app_nil_r. apply TAPFacts.tms_run_fst.
  - intros Q. rewrite (C7 Q), app_nil_r. unfold e12. rewrite TAPFacts.held_app, A7, P2.
    unfold last. rewrite Q, Z.eqb_refl. reflexivity.
Qed.

(** X20 ([shiftDR]).  Taking a pin to hold its level on the edges of
    commands that do not drive it, and the TAP to follow the transition
    table of [JTAGStateMachine]: for a bit count above 0 and a tracked
    state and an end state among the 16, [shiftDR] returns and tracks the
    end state, the TAP of the device goes from the state tracked before to
    the end state, and the edges on which the TAP is in Shift-DR are
    exactly [bitLength], carrying the bits of [tdi] in order, bit 0 of
    byte 0 first.  When the tracked state is Shift-DR already, TMS has to
    be at 0. *)
Theorem shiftDR_on_wire x tdi bitLength readBack endState tms0 tdi0 :
  inTable (state x) -> inTable endState -> 0 < bitLength ->
  (state x = SHIFT_DR -> tms0 = false) ->
  exists tdo x' cmds edges k,
    shiftDR x tdi bitLength readBack endState = Some (tdo, x')
    /\ state x' = endState
    /\ stream (ftdi x') = stream (ftdi x) ++ cmds
    /\ carries cmds edges k
    /\ TAPFacts.state_after (tapName (state x)) (TAP.pins tms0 tdi0 edges) = tapName endState
    /\ map fst (TAPFacts.shifted_in TAP.DRSHIFT (tapName (state x))
                  (TAP.pins tms0 tdi0 edges))
       = payloadBits tdi bitLength.
Proof.
  intros Hs He Hn H0. rewrite shiftDR_unfold.
  destruct (shift_stream true x tdi
              (if readBack then Some (JS.fill (JS.ceil8 bitLength) 0) else None)
              bitLength endState tms0 tdi0 Hs He Hn H0)
    as [x1 [x2 [cmds [edges [A [B [C [D [E [F [G _]]]]]]]]]]].
  cbn [shiftOf exitOf shiftName] in *. rewrite A. cbv zeta. rewrite B.
  eexists. exists x2, cmds, edges. eexists. split; [reflexivity|].
  split; [exact C|]. split; [exact D|]. split; [exact E|]. split; [exact F|exact G].
Qed.

(** From Run-Test/Idle, sixteen bits into the data register and back. *)
Lemma shiftDR_on_wire_witness :
  exists tdo x' cmds edges k,
    shiftDR (with_state (constructor (connect [])) RUN_TEST_IDLE) [0x34; 0x12] 16 false
      RUN_TEST_IDLE = Some (tdo, x')
    /\ stream (ftdi x') = cmds
    /\ carries cmds edges k
    /\ TAPFacts.state_after TAP.IDLE (TAP.pins false false edges) = TAP.IDLE
    /\ map fst (TAPFacts.shifted_in TAP.DRSHIFT TAP.IDLE (TAP.pins false false edges))
       = [0; 0; 1; 0; 1; 1; 0; 0; 0; 1; 0; 0; 1; 0; 0; 0].
Proof.
  destruct (shiftDR_on_wire (with_state (constructor (connect [])) RUN_TEST_IDLE)
              [0x34; 0x12] 16 false RUN_TEST_IDLE false false)
    as [tdo [x' [cmds [edges [k [A [_ [C [D [E F]]]]]]]]]].
  - unfold inTable. vm_compute. intuition discriminate.
  - unfold inTable. vm_compute. intuition discriminate.
  - lia.
  - intros Q. vm_compute in Q. discriminate Q.
  - exists tdo, x', cmds, edges, k. split; [exact A|]. split; [exact C|].
    split; [exact D|]. split; [exact E|exact F].
Defined.

Lemma payload_instruction instruction :
  payloadBits [JS.u8 instruction] irLength
  = map (fun i => Z.b2z (Z.testbit instruction i)) (JS.range 6).
Proof.
  unfold payloadBits, irLength. apply map_ext_in. intros i I.
  apply JSFacts.range_In in I. unfold bitOf.
  replace (i / 8) with 0 by (symmetry; apply Z.div_small; lia).
  rewrite Z.mod_small by lia. cbn [JS.get JS.int Z.ltb Z.compare Z.to_nat nth_error].
  rewrite JSFacts.testbit_u8 by lia. reflexivity.
Qed.

(** X21 ([shiftIR]).  Under the same reading of the stream, for a tracked
    state and an end state among the 16, [shiftIR] returns and tracks the
    end state, the TAP goes from the state tracked before to the end
    state, and the edges on which the TAP is in Shift-IR are exactly 6,
    carrying the 6 low bits of the instruction, bit 0 first.  When the
    tracked state is Shift-IR already, TMS has to be at 0. *)
Theorem shiftIR_on_wire x instruction readBack endState tms0 tdi0 :
  inTable (state x) -> inTable endState ->
  (state x = SHIFT_IR -> tms0 = false) ->
  exists tdo x' cmds edges k,
    shiftIR x instruction readBack endState = Some (tdo, x')
    /\ state x' = endState
    /\ stream (ftdi x') = stream (ftdi x) ++ cmds
    /\ carries cmds edges k
    /\ TAPFacts.state_after (tapName (state x)) (TAP.pins tms0 tdi0 edges) = tapName endState
    /\ map fst (TAPFacts.shifted_in TAP.IRSHIFT (tapName (state x))
                  (TAP.pins tms0 tdi0 edges))
       = map (fun i => Z.b2z (Z.testbit instruction i)) (JS.range 6).
Proof.
  intros Hs He H0. rewrite shiftIR_unfold.
  destruct (shift_stream false x [JS.u8 instruction]
              (if readBack then Some (JS.fill 1 0) else None)
              irLength endState tms0 tdi0 Hs He ltac:(unfold irLength; lia) H0)
    as [x1 [x2 [cmds [edges [A [B [C [D [E [F [G _]]]]]]]]]]].
  cbn [shiftOf exitOf shiftName] in *. rewrite A. cbv zeta. rewrite B.
  eexists. exists x2, cmds, edges. eexists. split; [reflexivity|].
  split; [exact C|]. split; [exact D|]. split; [exact E|]. split; [exact F|].
  rewrite G. apply payload_instruction.
Qed.

(** JPROGRAM (0x0B) from Test-Logic-Reset. *)
Lemma shiftIR_on_wire_witness :
  exists tdo x' cmds edges k,
    shiftIR (constructor (connect [])) JPROGRAM false RUN_TEST_IDLE = Some (tdo, x')
    /\ stream (ftdi x') = cmds
    /\ carries cmds edges k
    /\ TAPFacts.state_after TAP.RESET (TAP.pins true false edges) = TAP.IDLE
    /\ map fst (TAPFacts.shifted_in TAP.IRSHIFT TAP.RESET (TAP.pins true false edges))
       = [1; 1; 0; 1; 0; 0].
Proof.
  destruct (shiftIR_on_wire (constructor (connect [])) JPROGRAM false RUN_TEST_IDLE
              true false)
    as [tdo [x' [cmds [edges [k [A [_ [C [D [E F]]]]]]]]]].
  - unfold inTable. vm_compute. intuition discriminate.
  - unfold inTable. vm_compute. intuition discriminate.
  - intros Q. vm_compute in Q. discriminate Q.
  - exists tdo, x', cmds, edges, k. split; [exact A|]. split; [exact C|].
    split; [exact D|]. split; [exact E|exact F].
Defined.

Lemma reset_edges :
  map (fun i => (Some (bitOf [0x3F] i), Some (negb (0 =? 0)))) (JS.range 6)
  = walkEdges false [1; 1; 1; 1; 1; 1].
Proof. reflexivity. Qed.

Lemma reset_from_any :
  forallb (fun s => String.eqb (TAP.applyTMSSequence (tapName s) [1; 1; 1; 1; 1; 1])
                      (tapName TEST_LOGIC_RESET))
    (JS.range 16) = true.
Proof. vm_compute. reflexivity. Qed.

(** X22 ([setState], [goTestLogicReset]).  Under the same reading of the
    stream: between two of the 16 states [setState] returns, tracks the
    target and takes the TAP from the state tracked before to the target;
    [goTestLogicReset] clocks six edges with TMS at 1, after which a TAP
    that was in any of the 16 states is in Test-Logic-Reset, the state
    then tracked.  Neither asks the device for a byte. *)
Theorem setState_on_wire x t tms0 tdi0 :
  inTable (state x) -> inTable t ->
  (exists x' cmds edges,
     setState x t = Some x'
     /\ state x' = t
     /\ stream (ftdi x') = stream (ftdi x) ++ cmds
     /\ carries cmds edges 0
     /\ TAPFacts.state_after (tapName (state x)) (TAP.pins tms0 tdi0 edges) = tapName t)
  /\ (exists cmds edges,
        stream (ftdi (goTestLogicReset x)) = stream (ftdi x) ++ cmds
        /\ carries cmds edges 0
        /\ List.length edges = 6%nat
        /\ forall s, inTable s ->
             TAPFacts.state_after (tapName s) (TAP.pins tms0 tdi0 edges)
             = tapName (state (goTestLogicReset x))).
Proof.
  intros Hs Ht. split.
  - destruct (setState_stream x t Hs Ht)
      as [x' [q [cmds [S1 [S2 [_ [S4 [S5 [B [W _]]]]]]]]]].
    exists x', cmds, (walkEdges (negb (currTdi x =? 0)) q).
    split; [exact S1|]. split; [exact S2|]. split; [exact S4|]. split; [exact S5|].
    rewrite pins_walk by exact B. rewrite state_after_walk. exact W.
  - destruct (writeTMS_stream (ftdi x) [0x3F] 6 true 0) as [cmds [E [C _]]]; [lia|].
    rewrite reset_edges in C.
    exists cmds, (walkEdges false [1; 1; 1; 1; 1; 1]).
    split; [exact E|]. split; [exact C|]. split; [reflexivity|].
    intros s S. rewrite pins_walk by (repeat constructor; right; reflexivity).
    rewrite state_after_walk. pose proof reset_from_any as T.
    rewrite forallb_forall in T. specialize (T s (proj2 (JSFacts.range_In 16 s) S)).
    apply String.eqb_eq in T. exact T.
Qed.

Lemma setState_on_wire_witness :
  exists x' cmds edges,
    setState (with_state (constructor (connect [])) PAUSE_DR) SHIFT_IR = Some x'
    /\ stream (ftdi x') = cmds
    /\ carries cmds edges 0
    /\ TAPFacts.state_after TAP.DRPAUSE (TAP.pins false false edges) = TAP.IRSHIFT.
Proof.
  destruct (setState_on_wire (with_state (constructor (connect [])) PAUSE_DR) SHIFT_IR
              false false) as [[x' [cmds [edges [A [_ [C [D E]]]]]]] _].
  - unfold inTable. vm_compute. intuition discriminate.
  - unfold inTable. vm_compute. intuition discriminate.
  - exists x', cmds, edges. split; [exact A|]. split; [exact C|].
    split; [exact D|exact E].
Defined.

(** ** The configuration data on the wire *)

Lemma get_chunk (data : list Z) (offset size k : nat) :
  (k < size)%nat ->
  nth_error (firstn size (skipn offset data)) k = nth_error data (offset + k).
Proof.
  intros H. rewrite nth_error_firstn.
  destruct (Nat.ltb_spec k size) as [_|]; [|lia]. apply nth_error_skipn.
Qed.

Lemma chunk_bits data offset size j :
  0 <= offset -> 0 <= j < 8 * size ->
  bitOf (firstn (Z.to_nat size) (skipn (Z.to_nat offset) data)) j
  = bitOf data (8 * offset + j).
Proof.
  intros Ho Hj. unfold bitOf.
  pose proof (Z.div_mod j 8 ltac:(lia)) as D.
  pose proof (Z.mod_pos_bound j 8 ltac:(lia)) as M.
  assert (Q : 0 <= j / 8 < size).
  { split; [apply Z.div_pos; lia|apply Z.div_lt_upper_bound; lia]. }
  replace ((8 * offset + j) / 8) with (offset + j / 8)
    by (apply (Z.div_unique _ 8 _ (j mod 8)); lia).
  replace ((8 * offset + j) mod 8) with (j mod 8)
    by (apply (Z.mod_unique _ 8 (offset + j / 8)); lia).
  f_equal. f_equal. unfold JS.get.
  destruct (Z.ltb_spec (j / 8) 0); [lia|]. destruct (Z.ltb_spec (offset + j / 8) 0); [lia|].
  rewrite get_chunk by lia. f_equal. lia.
Qed.

(** The bits of the data from byte [from] on. *)
Definition bitsFrom (data : list Z) (from : Z) : list Z :=
  map (fun j => Z.b2z (bitOf data (8 * from + j)))
    (JS.range (8 * (Z.of_nat (List.length data) - from))).

Lemma ceil4096_chunks n i :
  0 <= i < ceil4096 n ->
  4096 * i < n
  /\ (i = ceil4096 n - 1 -> n - 4096 * i <= 4096)
  /\ (i <> ceil4096 n - 1 -> 4096 < n - 4096 * i).
Proof.
  unfold ceil4096. intros H.
  pose proof (Z.div_mod (n + 4095) 4096 ltac:(lia)).
  pose proof (Z.mod_pos_bound (n + 4095) 4096 ltac:(lia)). lia.
Qed.

(** The loop over the chunks: every chunk but the last stays in Shift-DR,
    the last one ends in Update-DR, and together they shift the data from
    chunk [i] on. *)
Lemma sendChunks_stream configData : forall count xl i tms0 tdi0,
  inTable (state (fst xl)) -> (state (fst xl) = SHIFT_DR -> tms0 = false) ->
  0 <= i -> (0 < count)%nat ->
  i + Z.of_nat count = ceil4096 (Z.of_nat (List.length configData)) ->
  exists xl' cmds edges,
    sendChunks count xl configData i (ceil4096 (Z.of_nat (List.length configData)))
    = Some xl'
    /\ state (fst xl') = UPDATE_DR
    /\ stream (ftdi (fst xl')) = stream (ftdi (fst xl)) ++ cmds
    /\ carries cmds edges 0
    /\ TAPFacts.state_after (tapName (state (fst xl))) (TAP.pins tms0 tdi0 edges)
       = TAP.DRUPDATE
    /\ map fst (TAPFacts.shifted_in TAP.DRSHIFT (tapName (state (fst xl)))
                  (TAP.pins tms0 tdi0 edges))
       = bitsFrom configData (4096 * i).
Proof.
  set (n := Z.of_nat (List.length configData)).
  induction count as [|count IH]; intros [x log] i tms0 tdi0 Hs H0 Hi Hc Ht; [lia|].
  cbn [fst] in Hs, H0. cbn [sendChunks]. cbv zeta. fold n.
  destruct (ceil4096_chunks n i ltac:(lia)) as [K1 [K2 K3]].
  set (size := Z.min 4096 (n - i * 4096)).
  set (chunk := firstn (Z.to_nat size) (skipn (Z.to_nat (i * 4096)) configData)).
  assert (L : Z.of_nat (List.length chunk) = size).
  { unfold chunk. rewrite length_firstn, length_skipn. unfold size, n. lia. }
  assert (P : payloadBits chunk (size * 8)
              = map (fun j => Z.b2z (bitOf configData (8 * (4096 * i) + j)))
                  (JS.range (8 * size))).
  { unfold payloadBits. replace (size * 8) with (8 * size) by lia.
    apply map_ext_in. intros j I. apply JSFacts.range_In in I.
    unfold chunk. rewrite chunk_bits by lia. f_equal. f_equal. lia. }
  remember (if i =? ceil4096 n - 1 then UPDATE_DR else SHIFT_DR) as endState eqn:EE.
  assert (He : inTable endState).
  { rewrite EE. unfold inTable. destruct (i =? _); cbv; intuition discriminate. }
  unfold perform. rewrite shiftDR_unfold.
  destruct (shift_stream true x chunk None (Z.of_nat (List.length chunk) * 8) endState
              tms0 tdi0 Hs He ltac:(unfold size in L; lia) H0)
    as [x1 [x2 [c1 [e1 [A [B [C [D [E [F [G HH]]]]]]]]]]].
  cbn [shiftOf exitOf shiftName isSome] in *. rewrite A. cbv zeta. rewrite B.
  rewrite L in G. rewrite P in G.
  destruct (Z.eqb_spec i (ceil4096 n - 1)) as [Q|Q]; subst endState.
  - (* the last chunk *)
    assert (count = O) by lia. subst count. cbn [sendChunks].
    exists (x2, log ++ [ShiftDR chunk (Z.of_nat (List.length chunk) * 8) false UPDATE_DR]),
      c1, e1. cbn [fst].
    split; [reflexivity|]. split; [exact C|]. split; [exact D|]. split; [exact E|].
    split; [exact F|]. rewrite G. unfold bitsFrom. fold n.
    f_equal. f_equal. unfold size. specialize (K2 Q). lia.
  - (* a chunk in the middle *)
    assert (Z4 : size = 4096) by (unfold size; specialize (K3 Q); lia).
    destruct (IH (x2, log ++ [ShiftDR chunk (Z.of_nat (List.length chunk) * 8) false
                                SHIFT_DR])
                (i + 1) (fst (TAP.held tms0 tdi0 e1)) (snd (TAP.held tms0 tdi0 e1)))
      as [xl' [c2 [e2 [R1 [R2 [R3 [R4 [R5 R6]]]]]]]].
    + cbn [fst]. rewrite C. exact He.
    + cbn [fst]. intros _. apply HH. reflexivity.
    + lia.
    + lia.
    + lia.
    + cbn [fst] in *. rewrite C in R5, R6.
      exists xl', (c1 ++ c2), (e1 ++ e2).
      split; [exact R1|]. split; [exact R2|].
      split; [rewrite R3, D, <- app_assoc; reflexivity|].
      split; [apply (carries_app c1 c2 e1 e2 0 0); assumption|].
      rewrite TAPFacts.pins_app, TAPFacts.state_after_app, TAPFacts.shifted_in_app, F.
      split; [exact R5|]. rewrite map_app, G, R6. unfold bitsFrom. fold n.
      rewrite Z4.
      replace (8 * (n - 4096 * i)) with (8 * 4096 + 8 * (n - 4096 * (i + 1))) by lia.
      rewrite (JSFacts.range_app (8 * 4096)) by lia.
      rewrite map_app, map_map. f_equal. apply map_ext. intros j.
      f_equal. f_equal. lia.
Qed.

(** The bits of an array of bytes, the highest bit of each byte first. *)
Definition msbFirst (bytes : list Z) : list Z :=
  flat_map (fun b => map (fun j => Z.b2z (Z.testbit b (7 - j))) (JS.range 8)) bytes.

Lemma payload_bitReverse bitstream :
  Forall (fun b => 0 <= b < 256) bitstream ->
  payloadBits (bitReverse bitstream) (8 * Z.of_nat (List.length bitstream))
  = msbFirst bitstream.
Proof.
  intros H. unfold payloadBits, msbFirst.
  rewrite <- (JSFacts.range8_bytes (fun i => Z.b2z (bitOf (bitReverse bitstream) i))).
  rewrite !flat_map_concat_map. f_equal.
  etransitivity;
    [|apply (TAPFacts.map_get_range
               (fun o => map (fun j => Z.b2z (Z.testbit (JS.int o) (7 - j)))
                           (JS.range 8)) bitstream)].
  apply map_ext_in. intros i I. apply JSFacts.range_In in I.
  apply map_ext_in. intros j J. apply JSFacts.range_In in J.
  rewrite bitOf_byte by lia. unfold tdiByte, bitReverse, JS.get.
  destruct (Z.ltb_spec i 0); [lia|]. rewrite nth_error_map.
  destruct (nth_error bitstream (Z.to_nat i)) as [b|] eqn:N.
  - cbn [option_map JS.int]. rewrite JSFacts.testbit_u8 by lia.
    rewrite Forall_forall in H. specialize (H b (nth_error_In _ _ N)).
    destruct (reverseByte_byte b H) as [_ [_ R]]. rewrite R by lia. reflexivity.
  - apply nth_error_None in N. lia.
Qed.

(** X23 ([programSRAM], step 7).  Under the same reading of the stream:
    for configuration data that is not empty, the loop over the chunks of
    4096 bytes returns and tracks Update-DR, the TAP goes from the state
    tracked before to Update-DR, and the edges on which the TAP is in
    Shift-DR carry every bit of the configuration data, in order, bit 0 of
    byte 0 first, and nothing else.  For the data [programSRAM] sends,
    the bit-reversed bitstream, these are the bits of the bitstream with
    the highest bit of each byte first. *)
Theorem sendChunks_on_wire x log configData tms0 tdi0 :
  configData <> [] -> inTable (state x) -> (state x = SHIFT_DR -> tms0 = false) ->
  exists xl' cmds edges,
    sendChunks (Z.to_nat (ceil4096 (Z.of_nat (List.length configData)))) (x, log)
      configData 0 (ceil4096 (Z.of_nat (List.length configData)))
    = Some xl'
    /\ state (fst xl') = UPDATE_DR
    /\ stream (ftdi (fst xl')) = stream (ftdi x) ++ cmds
    /\ carries cmds edges 0
    /\ TAPFacts.state_after (tapName (state x)) (TAP.pins tms0 tdi0 edges) = TAP.DRUPDATE
    /\ map fst (TAPFacts.shifted_in TAP.DRSHIFT (tapName (state x))
                  (TAP.pins tms0 tdi0 edges))
       = payloadBits configData (8 * Z.of_nat (List.length configData))
    /\ (forall bitstream,
          Forall (fun b => 0 <= b < 256) bitstream ->
          configData = bitReverse bitstream ->
          map fst (TAPFacts.shifted_in TAP.DRSHIFT (tapName (state x))
                     (TAP.pins tms0 tdi0 edges))
          = msbFirst bitstream).
Proof.
  intros N Hs H0.
  assert (P : 0 < ceil4096 (Z.of_nat (List.length configData))).
  { unfold ceil4096. destruct configData; [contradiction|]. cbn [List.length].
    apply Z.div_str_pos. lia. }
  destruct (sendChunks_stream configData
              (Z.to_nat (ceil4096 (Z.of_nat (List.length configData)))) (x, log) 0
              tms0 tdi0 Hs H0) as [xl' [cmds [edges [A [B [C [D [E F]]]]]]]];
    [lia|lia|lia|].
  cbn [fst] in *.
  assert (G : bitsFrom configData (4096 * 0)
              = payloadBits configData (8 * Z.of_nat (List.length configData))).
  { unfold bitsFrom, payloadBits. change (4096 * 0) with 0. rewrite Z.sub_0_r.
    reflexivity. }
  exists xl', cmds, edges. split; [exact A|]. split; [exact B|]. split; [exact C|].
  split; [exact D|]. split; [exact E|]. split; [rewrite F; exact G|].
  intros bitstream Hb ->. rewrite F, G.
  unfold bitReverse at 2. rewrite length_map. apply payload_bitReverse. exact Hb.
Qed.

(** Two bytes, one chunk: 0x80 and 0x01 go out as 1 0 0 0 0 0 0 0 and
    0 0 0 0 0 0 0 1. *)
Lemma sendChunks_on_wire_witness :
  exists xl' cmds edges,
    sendChunks 1 (with_state (constructor (connect [])) SELECT_DR_SCAN, [])
      (bitReverse [0x80; 0x01]) 0 1 = Some xl'
    /\ stream (ftdi (fst xl')) = cmds
    /\ carries cmds edges 0
    /\ map fst (TAPFacts.shifted_in TAP.DRSHIFT TAP.DRSELECT (TAP.pins false false edges))
       = [1; 0; 0; 0; 0; 0; 0; 0; 0; 0; 0; 0; 0; 0; 0; 1].
Proof.
  destruct (sendChunks_on_wire (with_state (constructor (connect [])) SELECT_DR_SCAN) []
              (bitReverse [0x80; 0x01]) false false)
    as [xl' [cmds [edges [A [_ [C [D [_ [_ F]]]]]]]]].
  - discriminate.
  - unfold inTable. vm_compute. intuition discriminate.
  - intros Q. vm_compute in Q. discriminate Q.
  - exists xl', cmds, edges. split; [exact A|]. split; [exact C|]. split; [exact D|].
    apply (F [0x80; 0x01]); [repeat constructor; lia|reflexivity].
Defined.

End XilinxFacts.

(* ================================================================== *)
(** * Properties of the application *)
(* ================================================================== *)

Module AppFacts.
Import App.

(** ** The header of a BIT file *)

(** A tagged field of the header: the tag, the length in two bytes, high
    byte first, and the content. *)
Definition field (tag : Z) (content : list Z) : list Z :=
  let len := Z.of_nat (List.length content) in
  [tag; len / 256; len mod 256] ++ content.

Definition fieldsOf (fields : list (Z * list Z)) : list Z :=
  flat_map (fun f => field (fst f) (snd f)) fields.

(** A text field: one of the tags a, b, c, d and at most 65535 bytes. *)
Definition textField (f : Z * list Z) : Prop :=
  (fst f = 0x61 \/ fst f = 0x62 \/ fst f = 0x63 \/ fst f = 0x64)
  /\ Z.of_nat (List.length (snd f)) < 65536.

(** A BIT file: a first field with its length in two bytes, two more
    bytes, text fields, and the field e with its length in four bytes,
    followed by [rest]. *)
Definition bitFile (first : list Z) (b0 b1 : Z) (fields : list (Z * list Z))
    (l3 l2 l1 l0 : Z) (rest : list Z) : list Z :=
  let len := Z.of_nat (List.length first) in
  [len / 256; len mod 256] ++ first ++ [b0; b1] ++ fieldsOf fields
  ++ [0x65; l3; l2; l1; l0] ++ rest.

(** Where the tag e sits. *)
Definition tagOffset (first : list Z) (fields : list (Z * list Z)) : Z :=
  4 + Z.of_nat (List.length first) + Z.of_nat (List.length (fieldsOf fields)).

Lemma get_app_at {A} (a : list A) x r :
  JS.get (a ++ x :: r) (Z.of_nat (List.length a)) = Some x.
Proof.
  unfold JS.get. destruct (Z.ltb_spec (Z.of_nat (List.length a)) 0); [lia|].
  rewrite Nat2Z.id, nth_error_app2 by lia. rewrite Nat.sub_diag. reflexivity.
Qed.

Lemma byteAt_app a x r i :
  i = Z.of_nat (List.length a) -> byteAt (a ++ x :: r) i = x.
Proof. intros ->. unfold byteAt. rewrite get_app_at. reflexivity. Qed.

Lemma word16_at a len r i :
  i = Z.of_nat (List.length a) -> 0 <= len < 65536 ->
  word16 (a ++ len / 256 :: len mod 256 :: r) i = len.
Proof.
  intros Hi Hlen. unfold word16.
  rewrite (byteAt_app a _ _ i Hi).
  replace (a ++ len / 256 :: len mod 256 :: r)
    with ((a ++ [len / 256]) ++ len mod 256 :: r)
    by (rewrite <- app_assoc; reflexivity).
  rewrite (byteAt_app (a ++ [len / 256]) _ _ (i + 1))
    by (rewrite length_app; simpl; lia).
  rewrite JSFacts.lor_shiftl_low by (try lia; apply Z.mod_pos_bound; lia).
  change (2 ^ 8) with 256. pose proof (Z.div_mod len 256). lia.
Qed.

Lemma field_length f :
  Z.of_nat (List.length (field (fst f) (snd f))) = 3 + Z.of_nat (List.length (snd f)).
Proof. unfold field. rewrite length_app. simpl List.length. lia. Qed.

Lemma fieldsOf_cons f fs : fieldsOf (f :: fs) = field (fst f) (snd f) ++ fieldsOf fs.
Proof. reflexivity. Qed.

Lemma fieldsOf_length fs :
  3 * Z.of_nat (List.length fs) <= Z.of_nat (List.length (fieldsOf fs)).
Proof.
  induction fs as [|f fs IH]; [simpl; lia|].
  rewrite fieldsOf_cons, length_app, Nat2Z.inj_add, field_length.
  simpl List.length. lia.
Qed.

(** One round of the loop on a text field. *)
Lemma headerLoop_text fuel prefix f rest info :
  textField f ->
  Z.of_nat (List.length prefix) < 500 ->
  exists info',
    headerLoop (S fuel) (prefix ++ field (fst f) (snd f) ++ rest)
      (Z.of_nat (List.length prefix)) info
    = headerLoop fuel (prefix ++ field (fst f) (snd f) ++ rest)
        (Z.of_nat (List.length (prefix ++ field (fst f) (snd f)))) info'
    /\ dataOffset info' = dataOffset info /\ dataLength info' = dataLength info.
Proof.
  intros [Htag Hlen] Hoff.
  set (data := prefix ++ field (fst f) (snd f) ++ rest).
  set (off := Z.of_nat (List.length prefix)).
  set (len := Z.of_nat (List.length (snd f))) in *.
  assert (Ldata : off < Z.of_nat (List.length data)).
  { unfold data, off. rewrite length_app, Nat2Z.inj_add, length_app, Nat2Z.inj_add, field_length. lia. }
  assert (Etag : byteAt data off = fst f).
  { unfold data, field. cbn [app]. apply byteAt_app. reflexivity. }
  assert (Elen : word16 data (off + 1) = len).
  { unfold data, field. cbn [app]. fold len.
    replace (prefix ++ fst f :: len / 256 :: len mod 256 :: snd f ++ rest)
      with ((prefix ++ [fst f]) ++ len / 256 :: len mod 256 :: snd f ++ rest)
      by (rewrite <- app_assoc; reflexivity).
    apply word16_at; [rewrite length_app; simpl; unfold off; lia|unfold len; lia]. }
  assert (Enext : off + 1 + 2 + len
                  = Z.of_nat (List.length (prefix ++ field (fst f) (snd f)))).
  { rewrite length_app, Nat2Z.inj_add, field_length. unfold off, len. lia. }
  cbn [headerLoop]. fold data. fold off.
  destruct (Z.ltb_spec off (Z.min (Z.of_nat (List.length data)) 500)) as [_|B]; [|lia].
  rewrite Etag, Elen, Enext.
  destruct Htag as [T|[T|[T|T]]]; rewrite T; cbn [Z.eqb Pos.eqb];
    eexists; (split; [reflexivity|split; reflexivity]).
Qed.

Lemma headerLoop_fields : forall fields fuel prefix rest info,
  Forall textField fields ->
  (List.length fields <= fuel)%nat ->
  Z.of_nat (List.length prefix) + Z.of_nat (List.length (fieldsOf fields)) <= 500 ->
  exists info',
    headerLoop fuel (prefix ++ fieldsOf fields ++ rest) (Z.of_nat (List.length prefix)) info
    = headerLoop (fuel - List.length fields) (prefix ++ fieldsOf fields ++ rest)
        (Z.of_nat (List.length (prefix ++ fieldsOf fields))) info'
    /\ dataOffset info' = dataOffset info /\ dataLength info' = dataLength info.
Proof.
  induction fields as [|f fields IH]; intros fuel prefix rest info Hf Hfuel Hoff.
  - exists info. cbn [fieldsOf flat_map List.length]. rewrite app_nil_r, Nat.sub_0_r.
    split; [reflexivity|split; reflexivity].
  - inversion Hf as [|? ? Hf1 Hf2]; subst.
    destruct fuel as [|fuel]; [simpl in Hfuel; lia|].
    rewrite fieldsOf_cons in *. rewrite length_app, Nat2Z.inj_add, field_length in Hoff.
    pose proof (fieldsOf_length fields) as Lf.
    replace (prefix ++ (field (fst f) (snd f) ++ fieldsOf fields) ++ rest)
      with (prefix ++ field (fst f) (snd f) ++ fieldsOf fields ++ rest)
      by (rewrite <- (app_assoc (field (fst f) (snd f))); reflexivity).
    destruct (headerLoop_text fuel prefix f (fieldsOf fields ++ rest) info Hf1)
      as [info1 [E1 [D1 D2]]]; [lia|].
    rewrite E1.
    destruct (IH fuel (prefix ++ field (fst f) (snd f)) rest info1 Hf2) as [info2 [E2 [D3 D4]]].
    + simpl in Hfuel. lia.
    + rewrite length_app, Nat2Z.inj_add, field_length. lia.
    + exists info2. rewrite <- !app_assoc in E2. rewrite E2.
      cbn [List.length Nat.sub].
      split; [reflexivity|]. split; congruence.
Qed.

(** With the field e at 500 or beyond the loop ends before it. *)
Lemma headerLoop_beyond : forall fields fuel prefix rest info,
  Forall textField fields ->
  500 <= Z.of_nat (List.length prefix) + Z.of_nat (List.length (fieldsOf fields)) ->
  dataOffset (headerLoop fuel (prefix ++ fieldsOf fields ++ rest)
                (Z.of_nat (List.length prefix)) info)
  = dataOffset info.
Proof.
  induction fields as [|f fields IH]; intros fuel prefix rest info Hf Hoff.
  - cbn [fieldsOf flat_map List.length] in *. destruct fuel as [|fuel]; [reflexivity|].
    cbn [headerLoop].
    destruct (Z.ltb_spec (Z.of_nat (List.length prefix))
                (Z.min (Z.of_nat (List.length (prefix ++ [] ++ rest))) 500)); [lia|reflexivity].
  - inversion Hf as [|? ? Hf1 Hf2]; subst.
    destruct fuel as [|fuel]; [reflexivity|].
    destruct (Z.ltb_spec (Z.of_nat (List.length prefix)) 500) as [B|B].
    + rewrite fieldsOf_cons in *. rewrite length_app, Nat2Z.inj_add, field_length in Hoff.
      replace (prefix ++ (field (fst f) (snd f) ++ fieldsOf fields) ++ rest)
        with (prefix ++ field (fst f) (snd f) ++ fieldsOf fields ++ rest)
        by (rewrite <- (app_assoc (field (fst f) (snd f))); reflexivity).
      destruct (headerLoop_text fuel prefix f (fieldsOf fields ++ rest) info Hf1 B)
        as [info1 [E1 [D1 _]]].
      rewrite E1, <- D1.
      pose proof (IH fuel (prefix ++ field (fst f) (snd f)) rest info1 Hf2) as I.
      rewrite <- !app_assoc in I. apply I.
      rewrite length_app, Nat2Z.inj_add, field_length. lia.
    + cbn [headerLoop].
      destruct (Z.ltb_spec (Z.of_nat (List.length prefix))
                  (Z.min (Z.of_nat (List.length (prefix ++ fieldsOf (f :: fields) ++ rest))) 500));
        [lia|reflexivity].
Qed.

Lemma word32_at a l3 l2 l1 l0 r i :
  i = Z.of_nat (List.length a) ->
  0 <= l3 < 128 -> 0 <= l2 < 256 -> 0 <= l1 < 256 -> 0 <= l0 < 256 ->
  word32 (a ++ l3 :: l2 :: l1 :: l0 :: r) i
  = l3 * 16777216 + l2 * 65536 + l1 * 256 + l0.
Proof.
  intros Hi H3 H2 H1 H0. unfold word32.
  rewrite (byteAt_app a _ _ i Hi).
  replace (a ++ l3 :: l2 :: l1 :: l0 :: r) with ((a ++ [l3]) ++ l2 :: l1 :: l0 :: r)
    by (rewrite <- app_assoc; reflexivity).
  rewrite (byteAt_app (a ++ [l3]) _ _ (i + 1)) by (rewrite length_app; simpl; lia).
  replace ((a ++ [l3]) ++ l2 :: l1 :: l0 :: r) with ((a ++ [l3; l2]) ++ l1 :: l0 :: r)
    by (rewrite <- !app_assoc; reflexivity).
  rewrite (byteAt_app (a ++ [l3; l2]) _ _ (i + 2)) by (rewrite length_app; simpl; lia).
  replace ((a ++ [l3; l2]) ++ l1 :: l0 :: r) with ((a ++ [l3; l2; l1]) ++ l0 :: r)
    by (rewrite <- !app_assoc; reflexivity).
  rewrite (byteAt_app (a ++ [l3; l2; l1]) _ _ (i + 3)) by (rewrite length_app; simpl; lia).
  rewrite JSFacts.lor_bytes by lia.
  apply JSFacts.int32_small. lia.
Qed.

Lemma slice_suffix {A} (p r : list A) L :
  0 <= L ->
  SVF.slice (p ++ r) (Z.of_nat (List.length p)) (Z.of_nat (List.length p) + L)
  = firstn (Z.to_nat L) r.
Proof.
  intros HL. unfold SVF.slice. rewrite length_app, Nat2Z.inj_add.
  set (n := Z.of_nat (List.length p)). set (k := Z.of_nat (List.length r)).
  destruct (Z.ltb_spec n 0); [lia|]. destruct (Z.ltb_spec (n + L) 0); [lia|].
  rewrite (Z.min_l n (n + k)) by lia.
  replace (Z.to_nat n) with (List.length p) by (unfold n; lia).
  rewrite skipn_app, skipn_all, Nat.sub_diag. cbn [app skipn].
  destruct (Z.le_ge_cases L k) as [B|B].
  - rewrite Z.min_l by lia. f_equal. lia.
  - rewrite Z.min_r by lia. replace (n + k - n) with k by lia.
    rewrite !firstn_all2 by (unfold k in *; lia). reflexivity.
Qed.

(** The bytes of a BIT file before the fields. *)
Definition preamble (first : list Z) (b0 b1 : Z) : list Z :=
  let len := Z.of_nat (List.length first) in
  [len / 256; len mod 256] ++ first ++ [b0; b1].

Lemma bitFile_preamble first b0 b1 fields l3 l2 l1 l0 rest :
  bitFile first b0 b1 fields l3 l2 l1 l0 rest
  = preamble first b0 b1 ++ fieldsOf fields ++ [0x65; l3; l2; l1; l0] ++ rest.
Proof. unfold bitFile, preamble. cbn [app]. rewrite <- !app_assoc. reflexivity. Qed.

Lemma preamble_length first b0 b1 :
  Z.of_nat (List.length (preamble first b0 b1)) = 4 + Z.of_nat (List.length first).
Proof. unfold preamble. cbn [app List.length]. rewrite length_app. simpl List.length. lia. Qed.

Lemma parseBitHeader_start first b0 b1 fields l3 l2 l1 l0 rest :
  Z.of_nat (List.length first) < 65536 ->
  parseBitHeader (bitFile first b0 b1 fields l3 l2 l1 l0 rest)
  = headerLoop 500 (bitFile first b0 b1 fields l3 l2 l1 l0 rest)
      (Z.of_nat (List.length (preamble first b0 b1))) noInfo.
Proof.
  intros H. unfold parseBitHeader.
  assert (W : word16 (bitFile first b0 b1 fields l3 l2 l1 l0 rest) 0
              = Z.of_nat (List.length first)).
  { unfold bitFile. cbn [app]. apply (word16_at []); [reflexivity|lia]. }
  rewrite W, preamble_length. f_equal. lia.
Qed.

(** X12. For a BIT file whose header has the usual layout, with the tag
    of the field e below offset 500 and a length below 2^31 in that
    field, [parseBitHeader] finds the configuration data right after the
    length and [programBitDevice] hands [programSRAM] the bytes that
    follow, as many as the field says or as the file has; with the tag
    at offset 500 or beyond the field is not found and the whole file,
    header included, is the configuration data. *)
Theorem parseBitHeader_payload first b0 b1 fields l3 l2 l1 l0 rest :
  Z.of_nat (List.length first) < 65536 -> Forall textField fields ->
  0 <= l3 < 128 -> 0 <= l2 < 256 -> 0 <= l1 < 256 -> 0 <= l0 < 256 ->
  let data := bitFile first b0 b1 fields l3 l2 l1 l0 rest in
  let len := l3 * 16777216 + l2 * 65536 + l1 * 256 + l0 in
  (tagOffset first fields < 500 ->
     dataOffset (parseBitHeader data) = Some (tagOffset first fields + 5)
     /\ dataLength (parseBitHeader data) = Some len
     /\ configDataOf data (parseBitHeader data) = firstn (Z.to_nat len) rest)
  /\ (500 <= tagOffset first fields ->
     dataOffset (parseBitHeader data) = None
     /\ configDataOf data (parseBitHeader data) = data).
Proof.
  intros Hfirst Hfields H3 H2 H1 H0 data len.
  pose proof (parseBitHeader_start first b0 b1 fields l3 l2 l1 l0 rest Hfirst) as S.
  fold data in S. pose proof (preamble_length first b0 b1) as P.
  assert (D : data = preamble first b0 b1 ++ fieldsOf fields
                     ++ [0x65; l3; l2; l1; l0] ++ rest) by apply bitFile_preamble.
  unfold tagOffset. split.
  - intros Hoff. pose proof (fieldsOf_length fields) as Lf.
    destruct (headerLoop_fields fields 500 (preamble first b0 b1)
                ([0x65; l3; l2; l1; l0] ++ rest) noInfo Hfields) as [info [E [_ _]]];
      [lia|lia|].
    rewrite <- D in E. rewrite S, E.
    destruct (500 - List.length fields)%nat as [|fuel] eqn:F; [lia|].
    set (prefix := preamble first b0 b1 ++ fieldsOf fields) in *.
    assert (Lp : Z.of_nat (List.length prefix)
                 = 4 + Z.of_nat (List.length first) + Z.of_nat (List.length (fieldsOf fields))).
    { unfold prefix. rewrite length_app, Nat2Z.inj_add. lia. }
    assert (D' : data = prefix ++ 0x65 :: l3 :: l2 :: l1 :: l0 :: rest).
    { rewrite D. unfold prefix. rewrite <- app_assoc. reflexivity. }
    assert (Ld : Z.of_nat (List.length prefix) < Z.of_nat (List.length data)).
    { rewrite D', length_app, Nat2Z.inj_add. simpl List.length. lia. }
    assert (Etag : byteAt data (Z.of_nat (List.length prefix)) = 0x65).
    { rewrite D'. apply byteAt_app. reflexivity. }
    assert (Elen : word32 data (Z.of_nat (List.length prefix) + 1) = len).
    { rewrite D'.
      replace (prefix ++ 0x65 :: l3 :: l2 :: l1 :: l0 :: rest)
        with ((prefix ++ [0x65]) ++ l3 :: l2 :: l1 :: l0 :: rest)
        by (rewrite <- app_assoc; reflexivity).
      apply word32_at; try assumption. rewrite length_app. simpl. lia. }
    cbn [headerLoop].
    destruct (Z.ltb_spec (Z.of_nat (List.length prefix))
                (Z.min (Z.of_nat (List.length data)) 500)) as [_|B]; [|lia].
    rewrite Etag, Elen. cbn [Z.eqb Pos.eqb dataOffset dataLength].
    split; [f_equal; lia|]. split; [reflexivity|].
    unfold configDataOf. cbn [dataOffset dataLength].
    destruct (Z.eqb_spec (Z.of_nat (List.length prefix) + 1 + 4) 0); [lia|].
    rewrite D'.
    replace (prefix ++ 0x65 :: l3 :: l2 :: l1 :: l0 :: rest)
      with ((prefix ++ [0x65; l3; l2; l1; l0]) ++ rest)
      by (rewrite <- app_assoc; reflexivity).
    replace (Z.of_nat (List.length prefix) + 1 + 4)
      with (Z.of_nat (List.length (prefix ++ [0x65; l3; l2; l1; l0])))
      by (rewrite length_app; simpl List.length; lia).
    apply slice_suffix. unfold len. lia.
  - intros Hoff.
    pose proof (headerLoop_beyond fields 500 (preamble first b0 b1)
                  ([0x65; l3; l2; l1; l0] ++ rest) noInfo Hfields) as B.
    rewrite <- D in B. rewrite S.
    assert (N : dataOffset (headerLoop 500 data
                  (Z.of_nat (List.length (preamble first b0 b1))) noInfo) = None)
      by (apply B; lia).
    split; [exact N|]. unfold configDataOf. rewrite N. reflexivity.
Qed.

(** A file with a 13-byte first field, the fields a to d and 6 bytes of
    configuration data, of which the field announces 4. *)
Lemma parseBitHeader_payload_witness :
  configDataOf
    (bitFile [15; 240; 15; 240; 15; 240; 15; 240; 0; 0; 1; 0; 0] 0 1
       [(0x61, [116; 111; 112; 0]); (0x62, [55; 97; 51; 53; 116; 0]);
        (0x63, [50; 48; 50; 52; 0]); (0x64, [49; 50; 58; 48; 48; 0])]
       0 0 0 4 [170; 153; 85; 102; 32; 0])
    (parseBitHeader
       (bitFile [15; 240; 15; 240; 15; 240; 15; 240; 0; 0; 1; 0; 0] 0 1
          [(0x61, [116; 111; 112; 0]); (0x62, [55; 97; 51; 53; 116; 0]);
           (0x63, [50; 48; 50; 52; 0]); (0x64, [49; 50; 58; 48; 48; 0])]
          0 0 0 4 [170; 153; 85; 102; 32; 0]))
  = [170; 153; 85; 102].
Proof.
  apply (parseBitHeader_payload
           [15; 240; 15; 240; 15; 240; 15; 240; 0; 0; 1; 0; 0] 0 1
           [(0x61, [116; 111; 112; 0]); (0x62, [55; 97; 51; 53; 116; 0]);
            (0x63, [50; 48; 50; 52; 0]); (0x64, [49; 50; 58; 48; 48; 0])]
           0 0 0 4 [170; 153; 85; 102; 32; 0]); try lia.
  - vm_compute. reflexivity.
  - repeat constructor; vm_compute; tauto.
  - vm_compute. reflexivity.
Defined.

Example parseBitHeader_names :
  let info := parseBitHeader
       (bitFile [15; 240; 15; 240; 15; 240; 15; 240; 0; 0; 1; 0; 0] 0 1
          [(0x61, [116; 111; 112; 0]); (0x62, [55; 97; 51; 53; 116; 0]);
           (0x63, [50; 48; 50; 52; 0]); (0x64, [49; 50; 58; 48; 48; 0])]
          0 0 0 4 [170; 153; 85; 102; 32; 0]) in
  designName info = Some [116; 111; 112]
  /\ deviceName info = Some [55; 97; 51; 53; 116]
  /\ dataOffset info = Some 55.
Proof. cbv zeta. split; [reflexivity|]. split; reflexivity. Qed.

End AppFacts.
